(** * alTrace: a shallow embedding of the trace recorder and player

    The development follows [altrace_record.c] (the interception-time
    recorder) and [altrace_playback.c] (the player).  Machine integers are
    [Z] with their wrap-around written out, bytes are [Z] in [0, 255], the
    log file is the list of bytes written so far, C pointers are [Z]
    addresses with [0] for [NULL], and heap objects live in finite maps
    indexed by their address. *)

From Stdlib Require Import ZArith List Lia Bool.
From stdpp Require Import base option list gmap.
Import ListNotations.

Local Open Scope Z_scope.

(** ** Machine integers *)

Module Int.

Definition to_uint8 (x : Z) : Z := x mod 2 ^ 8.
Definition to_uint32 (x : Z) : Z := x mod 2 ^ 32.
Definition to_uint64 (x : Z) : Z := x mod 2 ^ 64.

(** Reinterpretation of the low [w] bits as a two's complement number. *)
Definition to_signed (w : Z) (x : Z) : Z :=
  let y := x mod 2 ^ w in
  if y <? 2 ^ (w - 1) then y else y - 2 ^ w.

Definition to_int32 (x : Z) : Z := to_signed 32 x.
Definition to_ssize_t (x : Z) : Z := to_signed 64 x.

(** [n] little-endian bytes of [x]; this is what [write(fd, &y, sizeof y)]
    puts in the file once [swap32]/[swap64] has put [y] in little-endian
    order (the swap is the identity on a little-endian host). *)
Fixpoint le_bytes (n : nat) (x : Z) : list Z :=
  match n with
  | O => []
  | S n' => Z.land x 255 :: le_bytes n' (Z.shiftr x 8)
  end.

(** The integer whose little-endian representation is [bs]; bytes that are
    missing count as zero, which is what a short [read] into a
    zero-initialised variable leaves behind. *)
Fixpoint le_value (bs : list Z) : Z :=
  match bs with
  | [] => 0
  | b :: bs' => Z.lor b (Z.shiftl (le_value bs') 8)
  end.

End Int.

(** ** The recorder's byte codec ([altrace_record.c], lines 143-261) *)

Module Rec.

Import Int.

(** The log file is the list of bytes written so far.  [write] always
    stores the whole buffer: a short write ends the process
    ([IO_WRITE_FAIL]) and leaves no trace to speak of. *)
Definition write (fd : list Z) (buf : list Z) : list Z := fd ++ buf.

Definition writele32 (x : Z) (fd : list Z) : list Z := write fd (le_bytes 4 x).
Definition writele64 (x : Z) (fd : list Z) : list Z := write fd (le_bytes 8 x).

Definition IO_INT32 (x : Z) (fd : list Z) : list Z := writele32 (to_uint32 x) fd.
Definition IO_UINT32 (x : Z) (fd : list Z) : list Z := writele32 x fd.
Definition IO_UINT64 (x : Z) (fd : list Z) : list Z := writele64 x fd.

(** [ALsizei] and [ALCsizei] are C [int]; the cast to [uint64] sign-extends. *)
Definition IO_ALCSIZEI (x : Z) (fd : list Z) : list Z := IO_UINT64 (to_uint64 x) fd.
Definition IO_ALSIZEI (x : Z) (fd : list Z) : list Z := IO_UINT64 (to_uint64 x) fd.

(** Floats travel as their IEEE-754 bit pattern, which is how the model
    holds them in the first place. *)
Definition IO_FLOAT (bits : Z) (fd : list Z) : list Z := IO_UINT32 bits fd.

(** Doubles likewise, as their 64-bit pattern. *)
Definition IO_DOUBLE (bits : Z) (fd : list Z) : list Z := IO_UINT64 bits fd.

(** A [char *] is [None] for [NULL] and otherwise the bytes found at the
    pointer; [strlen] counts up to the first zero byte. *)
Fixpoint strlen (buf : list Z) : nat :=
  match buf with
  | [] => O
  | b :: buf' => if b =? 0 then O else S (strlen buf')
  end.

Definition NULL_LENGTH : Z := 0xFFFFFFFFFFFFFFFF.

(** The string a [char *] denotes: the bytes before the terminator. *)
Definition c_string (str : option (list Z)) : option (list Z) :=
  (fun buf => take (strlen buf) buf) <$> str.

Definition IO_STRING (str : option (list Z)) (fd : list Z) : list Z :=
  match str with
  | None => IO_UINT64 NULL_LENGTH fd
  | Some buf =>
      let len := strlen buf in
      let fd := IO_UINT64 (to_uint64 (Z.of_nat len)) fd in
      if 0 <? Z.of_nat len then write fd (take len buf) else fd
  end.

Definition IO_BLOB (data : option (list Z)) (len : Z) (fd : list Z) : list Z :=
  match data with
  | None => IO_UINT64 NULL_LENGTH fd
  | Some buf =>
      let slen := Z.to_nat (to_uint64 len) in
      let fd := IO_UINT64 len fd in
      if 0 <? len then write fd (take slen buf) else fd
  end.

Definition IO_EVENTENUM (x : Z) (fd : list Z) : list Z := IO_UINT32 (to_uint32 x) fd.
Definition IO_PTR (ptr : Z) (fd : list Z) : list Z := IO_UINT64 (to_uint64 ptr) fd.
Definition IO_ALCENUM (e : Z) (fd : list Z) : list Z := IO_UINT32 (to_uint32 e) fd.
Definition IO_ENUM (e : Z) (fd : list Z) : list Z := IO_UINT32 (to_uint32 e) fd.
Definition IO_ALCBOOLEAN (b : Z) (fd : list Z) : list Z := IO_UINT32 (to_uint32 b) fd.
Definition IO_BOOLEAN (b : Z) (fd : list Z) : list Z := IO_UINT32 (to_uint32 b) fd.


End Rec.

(** ** Constants of [altrace_common.h] *)

(** The event tags ([EventEnum]), the file magic and the format version are
    declared in [altrace_common.h] and [altrace_entrypoints.h]; the
    development is parametric in their values. *)
Class Constants := {
  ALTRACE_LOG_FILE_MAGIC : Z;
  ALTRACE_LOG_FILE_FORMAT : Z;
  ALEE_NEW_CALLSTACK_SYMS : Z;
  ALEE_ALERROR_TRIGGERED : Z;
  ALEE_ALCERROR_TRIGGERED : Z;
  ALEE_DEVICE_STATE_CHANGED_BOOL : Z;
  ALEE_DEVICE_STATE_CHANGED_INT : Z;
  ALEE_SOURCE_STATE_CHANGED_BOOL : Z;
  ALEE_SOURCE_STATE_CHANGED_ENUM : Z;
  ALEE_SOURCE_STATE_CHANGED_INT : Z;
  ALEE_SOURCE_STATE_CHANGED_UINT : Z;
  ALEE_SOURCE_STATE_CHANGED_FLOAT : Z;
  ALEE_SOURCE_STATE_CHANGED_FLOAT3 : Z;
  ALEE_CONTEXT_STATE_CHANGED_ENUM : Z;
  ALEE_CONTEXT_STATE_CHANGED_FLOAT : Z;
  ALEE_CONTEXT_STATE_CHANGED_STRING : Z;
  ALEE_LISTENER_STATE_CHANGED_FLOATV : Z;
  ALEE_BUFFER_STATE_CHANGED_INT : Z;
  ALEE_EOS : Z;
  ALEE_alGetError : Z;
  ALEE_alcGetError : Z;
  ALEE_alcCloseDevice : Z;
  ALEE_alcDestroyContext : Z;
  ALEE_alGenSources : Z;
  ALEE_alDeleteSources : Z;
  ALEE_alDeleteBuffers : Z;
  ALEE_alSourcePlay : Z;
}.

(** Modelled from the spec: [MAX_CALLSTACKS] is defined in
    [altrace_common.h]; the spec gives the design constant as 32. *)
Definition MAX_CALLSTACKS : nat := 32.

(** ** The call-stack collector ([altrace_record.c], lines 264-346) *)

Module Callstack.

Import Int Rec.

(** Modelled from the spec: the [HASH_MAP] macro of [altrace_common.h]
    expands, for [stackframe], into [get_mapped_stackframe] and
    [add_stackframe_to_map]; the frame map is a finite map from frame
    address to symbol string in which a missing address reads as [NULL]. *)
Definition get_mapped_stackframe (m : gmap Z (list Z)) (frame : Z) : option (list Z) :=
  m !! frame.

Definition add_stackframe_to_map (frame : Z) (sym : list Z) (m : gmap Z (list Z)) : gmap Z (list Z) :=
  <[frame := sym]> m.

(** What the platform gives one wrapped call: the clock, the thread, the
    frames [backtrace] finds and what [backtrace_symbols] says of a frame
    ([None] when it has no symbol for it). *)
Record CallEnv := {
  env_now : Z;
  env_thread : Z;
  env_backtrace : list Z;
  env_symbols : Z -> option (list Z);
}.

Definition strdup (s : list Z) : list Z := take (strlen s) s ++ [0].

(** The ['0'] and the blanks after it that macOS puts in front of a
    symbol. *)
Fixpoint skip_blanks (sym : list Z) : list Z :=
  match sym with
  | 32 :: sym' => skip_blanks sym'
  | _ => sym
  end.

Definition skip_frame_number (sym : list Z) : list Z :=
  match sym with
  | 48 :: sym' => skip_blanks sym'
  | _ => sym
  end.

(** Returns the symbol, [*_seen_before] and the frame map. *)
Definition get_callstack_sym (env : CallEnv) (frame : Z) (m : gmap Z (list Z))
  : option (list Z) * bool * gmap Z (list Z) :=
  match get_mapped_stackframe m frame with
  | Some retval => (Some retval, true, m)
  | None =>
      let sym := skip_frame_number <$> env_symbols env frame in
      let retval := strdup <$> sym in
      match retval with
      | Some s => (retval, false, add_stackframe_to_map frame s m)
      | None => (retval, false, m)
      end
  end.

(** The [for] loop of [IO_ENTRYINFO] over [callstack[2 ..]]: the result is
    the index [i] at which the loop stopped, the [new_strings] /
    [new_strings_ptrs] pairs and the frame map. *)
Fixpoint collect_frames (env : CallEnv) (frames : list Z) (m : gmap Z (list Z))
    (new_strings : list (Z * option (list Z)))
  : nat * list (Z * option (list Z)) * gmap Z (list Z) :=
  match frames with
  | [] => (O, new_strings, m)
  | ptr :: frames' =>
      let '(str, seen_before, m') := get_callstack_sym env ptr m in
      if bool_decide (str = None) && negb seen_before then (O, new_strings, m')
      else
        let new_strings' :=
          if seen_before then new_strings else new_strings ++ [(ptr, str)] in
        let '(i, out, m'') := collect_frames env frames' m' new_strings' in
        (S i, out, m'')
  end.

(** The frames left after [backtrace] filled at most [MAX_CALLSTACKS]
    slots and the collector's own two frames are skipped. *)
Definition captured_frames (env : CallEnv) : list Z :=
  drop 2 (take MAX_CALLSTACKS (env_backtrace env)).

Definition write_new_strings (new_strings : list (Z * option (list Z))) (fd : list Z) : list Z :=
  fold_left (fun fd p => IO_STRING (snd p) (IO_PTR (fst p) fd)) new_strings fd.

Definition write_frames (frames : list Z) (fd : list Z) : list Z :=
  fold_left (fun fd ptr => IO_PTR ptr fd) frames fd.

Definition IO_ENTRYINFO `{Constants} (entryid : Z) (env : CallEnv)
    (st : gmap Z (list Z) * list Z) : gmap Z (list Z) * list Z :=
  let '(m, fd) := st in
  let currentms := env_now env in
  let callstack := captured_frames env in
  let '(i, new_strings, m) := collect_frames env callstack m [] in
  let num_new_strings := length new_strings in
  let fd :=
    if 0 <? Z.of_nat num_new_strings then
      let fd := IO_EVENTENUM ALEE_NEW_CALLSTACK_SYMS fd in
      let fd := IO_UINT32 (to_uint32 (Z.of_nat num_new_strings)) fd in
      write_new_strings new_strings fd
    else fd in
  let fd := IO_EVENTENUM entryid fd in
  let fd := IO_UINT32 currentms fd in
  let fd := IO_UINT64 (to_uint64 (env_thread env)) fd in
  let fd := IO_UINT32 (to_uint32 (Z.of_nat i)) fd in
  (m, write_frames (take i callstack) fd).

(** The same call seen as trace events rather than bytes. *)
Inductive Event :=
  | NewCallstackSyms (pairs : list (Z * option (list Z)))
  | CallEvent (entryid currentms thread : Z) (frames : list Z).

Definition entry_events (entryid : Z) (env : CallEnv) (m : gmap Z (list Z))
  : list Event * gmap Z (list Z) :=
  let callstack := captured_frames env in
  let '(i, new_strings, m') := collect_frames env callstack m [] in
  ((if 0 <? Z.of_nat (length new_strings) then [NewCallstackSyms new_strings] else [])
     ++ [CallEvent entryid (env_now env) (env_thread env) (take i callstack)],
   m').

Definition write_event `{Constants} (e : Event) (fd : list Z) : list Z :=
  match e with
  | NewCallstackSyms pairs =>
      write_new_strings pairs
        (IO_UINT32 (to_uint32 (Z.of_nat (length pairs)))
           (IO_EVENTENUM ALEE_NEW_CALLSTACK_SYMS fd))
  | CallEvent entryid currentms thread frames =>
      write_frames frames
        (IO_UINT32 (to_uint32 (Z.of_nat (length frames)))
           (IO_UINT64 (to_uint64 thread)
              (IO_UINT32 currentms (IO_EVENTENUM entryid fd))))
  end.

(** A recording session as far as the collector is concerned: the wrapped
    calls in the order in which they took the API lock. *)
Fixpoint session_events (calls : list (Z * CallEnv)) (m : gmap Z (list Z))
  : list Event * gmap Z (list Z) :=
  match calls with
  | [] => ([], m)
  | (entryid, env) :: calls' =>
      let '(evs, m') := entry_events entryid env m in
      let '(evs', m'') := session_events calls' m' in
      (evs ++ evs', m'')
  end.



Definition event_frames (e : Event) : list Z :=
  match e with CallEvent _ _ _ frames => frames | _ => [] end.

End Callstack.

(** ** The player ([altrace_playback.c]) *)

Module Play.

Import Int.

(** What the player prints on [stderr]. *)
Inductive Diagnostic :=
  | FailedToOpen
  | FailedToRead (eof : bool)
  | NotALogFile
  | UnsupportedVersion
  | Cancelled.

Record CallerInfo := {
  ci_threadid : Z;
  ci_trace_scope : Z;
  ci_wait_until : Z;
  ci_num_callstack_frames : Z;
  ci_callstack : list (Z * option (list Z));
  ci_fdoffset : Z;
}.

(** The callbacks the visitor receives, in order. *)
Inductive Visit :=
  | visit_progress (fdoffset fdsize : Z)
  | visit_eos (clean : bool) (ticks : Z)
  | visit_alGetError (callerinfo : CallerInfo) (retval : Z)
  | visit_al_error_event (err : Z)
  | visit_alc_error_event (device err : Z)
  | visit_state_changed (tag : Z) (object param : Z) (newval : list Z)
  | visit_context_state_changed_string (ctx param : Z) (newval : option (list Z)).

(** The player's globals.  [file] holds the bytes of the open log from the
    current offset on, so [read] takes from its front. *)
Record Player := {
  file : list Z;
  fdoffset : Z;
  trace_scope : Z;
  io_failure : bool;
  next_mapped_threadid : Z;
  threadid_map : list (Z * Z);
  stackframe_map : gmap Z (list Z);
  stderr : list Diagnostic;
  visits : list Visit;
}.

Definition set_file (f : list Z) (off : Z) (st : Player) : Player :=
  {| file := f; fdoffset := off; trace_scope := trace_scope st;
     io_failure := io_failure st; next_mapped_threadid := next_mapped_threadid st;
     threadid_map := threadid_map st; stackframe_map := stackframe_map st;
     stderr := stderr st; visits := visits st |}.

Definition set_trace_scope (n : Z) (st : Player) : Player :=
  {| file := file st; fdoffset := fdoffset st; trace_scope := n;
     io_failure := io_failure st; next_mapped_threadid := next_mapped_threadid st;
     threadid_map := threadid_map st; stackframe_map := stackframe_map st;
     stderr := stderr st; visits := visits st |}.

Definition set_io_failure (b : bool) (st : Player) : Player :=
  {| file := file st; fdoffset := fdoffset st; trace_scope := trace_scope st;
     io_failure := b; next_mapped_threadid := next_mapped_threadid st;
     threadid_map := threadid_map st; stackframe_map := stackframe_map st;
     stderr := stderr st; visits := visits st |}.

Definition set_threadids (next : Z) (m : list (Z * Z)) (st : Player) : Player :=
  {| file := file st; fdoffset := fdoffset st; trace_scope := trace_scope st;
     io_failure := io_failure st; next_mapped_threadid := next;
     threadid_map := m; stackframe_map := stackframe_map st;
     stderr := stderr st; visits := visits st |}.

Definition set_stackframe_map (m : gmap Z (list Z)) (st : Player) : Player :=
  {| file := file st; fdoffset := fdoffset st; trace_scope := trace_scope st;
     io_failure := io_failure st; next_mapped_threadid := next_mapped_threadid st;
     threadid_map := threadid_map st; stackframe_map := m;
     stderr := stderr st; visits := visits st |}.

Definition fprintf (d : Diagnostic) (st : Player) : Player :=
  {| file := file st; fdoffset := fdoffset st; trace_scope := trace_scope st;
     io_failure := io_failure st; next_mapped_threadid := next_mapped_threadid st;
     threadid_map := threadid_map st; stackframe_map := stackframe_map st;
     stderr := stderr st ++ [d]; visits := visits st |}.

Definition visit (v : Visit) (st : Player) : Player :=
  {| file := file st; fdoffset := fdoffset st; trace_scope := trace_scope st;
     io_failure := io_failure st; next_mapped_threadid := next_mapped_threadid st;
     threadid_map := threadid_map st; stackframe_map := stackframe_map st;
     stderr := stderr st; visits := visits st ++ [v] |}.

(** The process as it starts: every static is zero. *)
Definition initial : Player :=
  {| file := []; fdoffset := 0; trace_scope := 0; io_failure := false;
     next_mapped_threadid := 0; threadid_map := []; stackframe_map := ∅;
     stderr := []; visits := [] |}.

(** Modelled from the spec: the [SIMPLE_MAP] macro of [altrace_common.h]
    expands, for [threadid], into [get_mapped_threadid],
    [add_threadid_to_map] and [free_threadid_map]; the map is an array of
    (from, to) pairs searched front to back, a missing key reads as [0],
    and adding a key that is present replaces its value. *)
Fixpoint get_mapped_threadid (m : list (Z * Z)) (from : Z) : Z :=
  match m with
  | [] => 0
  | (k, v) :: m' => if k =? from then v else get_mapped_threadid m' from
  end.

Fixpoint add_threadid_to_map (from to : Z) (m : list (Z * Z)) : list (Z * Z) :=
  match m with
  | [] => [(from, to)]
  | (k, v) :: m' =>
      if k =? from then (from, to) :: m' else (k, v) :: add_threadid_to_map from to m'
  end.

Definition free_threadid_map (m : list (Z * Z)) : list (Z * Z) := [].

(** [read(logfd, buf, n)] on a regular file: the bytes that are left, at
    most [n] of them. *)
Definition read (n : nat) (st : Player) : list Z * Player :=
  let buf := take n (file st) in
  (buf, set_file (drop n (file st)) (fdoffset st + Z.of_nat (length buf)) st).

Definition IO_READ_FAIL (eof : bool) (st : Player) : Player :=
  if io_failure st then st else set_io_failure true (fprintf (FailedToRead eof) st).

Definition readle (size : nat) (st : Player) : Z * Player :=
  if io_failure st then (0, st)
  else
    let '(buf, st) := read size st in
    let st := if bool_decide (length buf = size) then st else IO_READ_FAIL true st in
    (le_value buf, st).

Definition readle32 (st : Player) : Z * Player := readle 4 st.
Definition readle64 (st : Player) : Z * Player := readle 8 st.

Definition IO_INT32 (st : Player) : Z * Player :=
  let '(x, st) := readle32 st in (to_int32 x, st).
Definition IO_UINT32 (st : Player) : Z * Player := readle32 st.
Definition IO_UINT64 (st : Player) : Z * Player := readle64 st.
Definition IO_ALSIZEI (st : Player) : Z * Player :=
  let '(x, st) := IO_UINT64 st in (to_int32 x, st).
Definition IO_FLOAT (st : Player) : Z * Player := readle32 st.

(** Returns the buffer ([None] for [NULL]), [*_len] and the player.  The
    buffer comes from [get_ioblob], which is not in the sources at hand;
    the part of it that a short read leaves unwritten is taken to be
    zero. *)
Definition IO_BLOB (st : Player) : option (list Z) * Z * Player :=
  let '(len, st) := IO_UINT64 st in
  let slen := Z.to_nat len in
  if io_failure st then (None, 0, st)
  else if len =? Rec.NULL_LENGTH then (None, 0, st)
  else
    let '(buf, st) := read slen st in
    let br := Z.of_nat (length buf) in
    let st := if br =? to_ssize_t len then st else IO_READ_FAIL true st in
    (Some (buf ++ replicate (slen - length buf) 0 ++ [0]), len, st).

Definition IO_STRING (st : Player) : option (list Z) * Player :=
  let '(ptr, _, st) := IO_BLOB st in (ptr, st).

Definition IO_EVENTENUM (st : Player) : Z * Player := IO_UINT32 st.
Definition IO_PTR (st : Player) : Z * Player := IO_UINT64 st.
Definition IO_ALCENUM (st : Player) : Z * Player :=
  let '(x, st) := IO_UINT32 st in (to_int32 x, st).
Definition IO_ENUM (st : Player) : Z * Player :=
  let '(x, st) := IO_UINT32 st in (to_int32 x, st).
Definition IO_BOOLEAN (st : Player) : Z * Player :=
  let '(x, st) := IO_UINT32 st in (to_uint8 x, st).

(** Lines 217-224 of [IO_ENTRYINFO]: the dense id of a raw thread id. *)
Definition map_threadid (logthreadid : Z) (st : Player) : Z * Player :=
  let threadid := get_mapped_threadid (threadid_map st) logthreadid in
  if threadid =? 0 then
    let threadid := to_uint32 (next_mapped_threadid st + 1) in
    (threadid, set_threadids threadid (add_threadid_to_map logthreadid threadid (threadid_map st)) st)
  else (threadid, st).

(** The loop of [IO_ENTRYINFO] that reads the frame addresses. *)
Fixpoint read_frames (frames : nat) (i : nat) (st : Player)
    (callstack : list (Z * option (list Z))) : list (Z * option (list Z)) * Player :=
  match frames with
  | O => (callstack, st)
  | S frames' =>
      let '(ptr, st) := IO_PTR st in
      let callstack :=
        if negb (io_failure st) && bool_decide (i < MAX_CALLSTACKS)%nat
        then callstack ++ [(ptr, stackframe_map st !! ptr)] else callstack in
      read_frames frames' (S i) st callstack
  end.

(** [None] stands for the early return that leaves [*callerinfo] as it
    was. *)
Definition IO_ENTRYINFO (st : Player) : option CallerInfo * Player :=
  let '(wait_until, st) := IO_UINT32 st in
  let '(logthreadid, st) := IO_UINT64 st in
  let '(frames, st) := IO_UINT32 st in
  if io_failure st then (None, st)
  else
    let '(threadid, st) := map_threadid logthreadid st in
    let '(callstack, st) := read_frames (Z.to_nat frames) O st [] in
    (Some {| ci_threadid := threadid;
             ci_trace_scope := trace_scope st;
             ci_wait_until := wait_until;
             ci_num_callstack_frames :=
               if frames <? Z.of_nat MAX_CALLSTACKS then frames else Z.of_nat MAX_CALLSTACKS;
             ci_callstack := callstack;
             ci_fdoffset := fdoffset st |}, st).

(** Modelled from the spec: [free_stackframe_map] and the other
    [free_*_map] functions come from the map macros of
    [altrace_common.h]; they empty their map.  Nothing here touches
    [next_mapped_threadid], [trace_scope] or [io_failure]. *)
Definition quit_altrace_playback (st : Player) : Player :=
  {| file := []; fdoffset := 0; trace_scope := trace_scope st;
     io_failure := io_failure st; next_mapped_threadid := next_mapped_threadid st;
     threadid_map := free_threadid_map (threadid_map st); stackframe_map := ∅;
     stderr := stderr st; visits := visits st |}.

(** [fname] is what [open] finds: [None] when the file cannot be opened,
    its bytes otherwise.  The result is [okay]. *)
Definition init_altrace_playback `{Constants} (fname : option (list Z)) (st : Player)
  : bool * Player :=
  let st := set_io_failure false st in
  match fname with
  | None => (false, quit_altrace_playback (fprintf FailedToOpen st))
  | Some bytes =>
      let st := set_file bytes 0 st in
      let '(magic, st) := IO_UINT32 st in
      if negb (magic =? ALTRACE_LOG_FILE_MAGIC) then
        (false, quit_altrace_playback (fprintf NotALogFile st))
      else
        let '(version, st) := IO_UINT32 st in
        if negb (version =? ALTRACE_LOG_FILE_FORMAT) then
          (false, quit_altrace_playback (fprintf UnsupportedVersion st))
        else (true, st)
  end.

(** [IO_START(e) ... IO_END()]: the body runs unless reading the caller
    info failed. *)
Definition IO_START (body : CallerInfo -> Player -> Player) (st : Player) : Player :=
  match IO_ENTRYINFO st with
  | (Some callerinfo, st) => if io_failure st then st else body callerinfo st
  | (None, st) => st
  end.

Definition decode_alGetError (st : Player) : Player :=
  IO_START (fun callerinfo st =>
    let '(retval, st) := IO_ENUM st in
    if io_failure st then st else visit (visit_alGetError callerinfo retval) st) st.

Fixpoint decode_callstack_syms_loop (n : nat) (st : Player) : Player :=
  match n with
  | O => st
  | S n' =>
      let '(ptr, st) := IO_PTR st in
      let '(str, st) := IO_STRING st in
      if io_failure st then st
      else
        let st :=
          match str with
          | Some s =>
              if negb (ptr =? 0)
              then set_stackframe_map (<[ptr := Callstack.strdup s]> (stackframe_map st)) st
              else st
          | None => st
          end in
        decode_callstack_syms_loop n' st
  end.

Definition decode_callstack_syms_event (st : Player) : Player :=
  let '(num_new_strings, st) := IO_UINT32 st in
  decode_callstack_syms_loop (Z.to_nat num_new_strings) st.

Definition decode_al_error_event (st : Player) : Player :=
  let '(err, st) := IO_ENUM st in
  if io_failure st then st else visit (visit_al_error_event err) st.

Definition decode_alc_error_event (st : Player) : Player :=
  let '(device, st) := IO_PTR st in
  let '(err, st) := IO_ALCENUM st in
  if io_failure st then st else visit (visit_alc_error_event device err) st.

(** The [decode_*_state_changed_*] functions differ in how they read the
    object ([IO_PTR] or [IO_UINT32]) and the new value. *)
Fixpoint read_values (io : Player -> Z * Player) (n : nat) (st : Player) : list Z * Player :=
  match n with
  | O => ([], st)
  | S n' =>
      let '(x, st) := io st in
      let '(xs, st) := read_values io n' st in
      (x :: xs, st)
  end.

Definition decode_state_changed (tag : Z) (io_object io_value : Player -> Z * Player)
    (n : nat) (st : Player) : Player :=
  let '(object, st) := io_object st in
  let '(param, st) := IO_ENUM st in
  let '(newval, st) := read_values io_value n st in
  if io_failure st then st else visit (visit_state_changed tag object param newval) st.

Definition decode_context_state_changed_string (st : Player) : Player :=
  let '(ctx, st) := IO_PTR st in
  let '(param, st) := IO_ENUM st in
  let '(newval, st) := IO_STRING st in
  if io_failure st then st else visit (visit_context_state_changed_string ctx param newval) st.

Definition decode_listener_state_changed_floatv (tag : Z) (st : Player) : Player :=
  let '(ctx, st) := IO_PTR st in
  let '(param, st) := IO_ENUM st in
  let '(numfloats, st) := IO_UINT32 st in
  let '(values, st) := read_values IO_FLOAT (Z.to_nat numfloats) st in
  if io_failure st then st else visit (visit_state_changed tag ctx param values) st.

Definition decode_eos (st : Player) : Player :=
  let '(ticks, st) := IO_UINT32 st in
  if io_failure st then st else visit (visit_eos true ticks) st.

(** The decoders of the API entry points are generated from
    [altrace_entrypoints.h]; the switch of [process_tracelog] is modelled
    over any such table.  The visitor is the front end: its progress hook
    answers from the callbacks it has had so far. *)
Class FrontEnd := {
  decode_entrypoint : Z -> option (Player -> Player);
  progress_hook : list Visit -> Z -> Z -> bool;
}.

(** The tags the [switch] of [process_tracelog] has a [case] for. *)
Definition recognized `{Constants} `{FrontEnd} (tag : Z) : bool :=
  match decode_entrypoint tag with
  | Some _ => true
  | None =>
      existsb (Z.eqb tag)
        [ALEE_NEW_CALLSTACK_SYMS; ALEE_ALERROR_TRIGGERED; ALEE_ALCERROR_TRIGGERED;
         ALEE_DEVICE_STATE_CHANGED_INT; ALEE_CONTEXT_STATE_CHANGED_ENUM;
         ALEE_CONTEXT_STATE_CHANGED_FLOAT; ALEE_CONTEXT_STATE_CHANGED_STRING;
         ALEE_LISTENER_STATE_CHANGED_FLOATV; ALEE_SOURCE_STATE_CHANGED_BOOL;
         ALEE_SOURCE_STATE_CHANGED_ENUM; ALEE_SOURCE_STATE_CHANGED_INT;
         ALEE_SOURCE_STATE_CHANGED_UINT; ALEE_SOURCE_STATE_CHANGED_FLOAT;
         ALEE_SOURCE_STATE_CHANGED_FLOAT3; ALEE_BUFFER_STATE_CHANGED_INT; ALEE_EOS]
  end.

(** The header fields as [init_altrace_playback] reads them from the
    bytes of a file: a field cut short by the end of the file reads as
    the bytes that are there, and the version is not read at all (and is
    zero) once the magic was cut short. *)
Definition header_magic (bytes : list Z) : Z := le_value (take 4 bytes).
Definition header_version (bytes : list Z) : Z :=
  if bool_decide (length (take 4 bytes) = 4%nat) then le_value (take 4 (drop 4 bytes)) else 0.

(** The [switch] of [process_tracelog]: the player and, when the loop is to
    end, the value for [retval] ([None] keeps it). *)
Definition dispatch_event `{Constants} `{FrontEnd} (tag : Z) (st : Player)
  : Player * bool * option Z :=
  match decode_entrypoint tag with
  | Some decode => (decode st, false, None)
  | None =>
      if tag =? ALEE_NEW_CALLSTACK_SYMS then (decode_callstack_syms_event st, false, None)
      else if tag =? ALEE_ALERROR_TRIGGERED then (decode_al_error_event st, false, None)
      else if tag =? ALEE_ALCERROR_TRIGGERED then (decode_alc_error_event st, false, None)
      else if tag =? ALEE_DEVICE_STATE_CHANGED_INT then
        (decode_state_changed tag IO_PTR IO_INT32 1 st, false, None)
      else if tag =? ALEE_CONTEXT_STATE_CHANGED_ENUM then
        (decode_state_changed tag IO_PTR IO_ENUM 1 st, false, None)
      else if tag =? ALEE_CONTEXT_STATE_CHANGED_FLOAT then
        (decode_state_changed tag IO_PTR IO_FLOAT 1 st, false, None)
      else if tag =? ALEE_CONTEXT_STATE_CHANGED_STRING then
        (decode_context_state_changed_string st, false, None)
      else if tag =? ALEE_LISTENER_STATE_CHANGED_FLOATV then
        (decode_listener_state_changed_floatv tag st, false, None)
      else if tag =? ALEE_SOURCE_STATE_CHANGED_BOOL then
        (decode_state_changed tag IO_UINT32 IO_BOOLEAN 1 st, false, None)
      else if tag =? ALEE_SOURCE_STATE_CHANGED_ENUM then
        (decode_state_changed tag IO_UINT32 IO_ENUM 1 st, false, None)
      else if tag =? ALEE_SOURCE_STATE_CHANGED_INT then
        (decode_state_changed tag IO_UINT32 IO_INT32 1 st, false, None)
      else if tag =? ALEE_SOURCE_STATE_CHANGED_UINT then
        (decode_state_changed tag IO_UINT32 IO_UINT32 1 st, false, None)
      else if tag =? ALEE_SOURCE_STATE_CHANGED_FLOAT then
        (decode_state_changed tag IO_UINT32 IO_FLOAT 1 st, false, None)
      else if tag =? ALEE_SOURCE_STATE_CHANGED_FLOAT3 then
        (decode_state_changed tag IO_UINT32 IO_FLOAT 3 st, false, None)
      else if tag =? ALEE_BUFFER_STATE_CHANGED_INT then
        (decode_state_changed tag IO_UINT32 IO_INT32 1 st, false, None)
      else if tag =? ALEE_EOS then (decode_eos st, true, None)
      else (visit (visit_eos false 0) st, true, Some 0)
  end.

(** The [while (!eos)] loop; [None] when [fuel] iterations were not
    enough.  The log is an open regular file, so [lseek] succeeds. *)
Fixpoint tracelog_loop `{Constants} `{FrontEnd} (fuel : nat) (fdsize : Z) (retval : Z)
    (st : Player) : option (Z * Player) :=
  match fuel with
  | O => None
  | S fuel' =>
      if io_failure st then Some (0, visit (visit_eos false 0) st)
      else
        let go_on := progress_hook (visits st) (fdoffset st) fdsize in
        let st := visit (visit_progress (fdoffset st) fdsize) st in
        if negb go_on then Some (-1, visit (visit_eos false 0) (fprintf Cancelled st))
        else
          let '(tag, st) := IO_EVENTENUM st in
          let '(st, eos, r) := dispatch_event tag st in
          let retval := default retval r in
          if eos then Some (retval, st) else tracelog_loop fuel' fdsize retval st
  end.

Definition process_tracelog `{Constants} `{FrontEnd} (fuel : nat) (fname : option (list Z))
    (st : Player) : option (Z * Player) :=
  match init_altrace_playback fname st with
  | (false, st) => Some (0, st)
  | (true, st) =>
      let fdsize := fdoffset st + Z.of_nat (length (file st)) in
      let st := set_trace_scope 0 st in
      '(retval, st) ← tracelog_loop fuel fdsize 1 st;
      Some (retval, quit_altrace_playback st)
  end.

(** The thread ids the visitor was shown, in order. *)
Definition visited_threadids (vs : list Visit) : list Z :=
  flat_map (fun v => match v with
                     | visit_alGetError callerinfo _ => [ci_threadid callerinfo]
                     | _ => []
                     end) vs.

(** [map_threadid] over the raw thread ids of the call events of a trace,
    and the distinct raw ids in the order in which they are first seen. *)
Fixpoint map_threadids (raws : list Z) (st : Player) : list Z * Player :=
  match raws with
  | [] => ([], st)
  | raw :: raws' =>
      let '(threadid, st) := map_threadid raw st in
      let '(threadids, st) := map_threadids raws' st in
      (threadid :: threadids, st)
  end.

Fixpoint first_seen (seen : list Z) (raws : list Z) : list Z :=
  match raws with
  | [] => seen
  | raw :: raws' =>
      first_seen (if bool_decide (raw ∈ seen) then seen else seen ++ [raw]) raws'
  end.

(** A thread-id map that gives the raws of [seen] the ids [k], [k+1], ... *)
Fixpoint numbered (k : Z) (seen : list Z) : list (Z * Z) :=
  match seen with
  | [] => []
  | raw :: seen' => (raw, k) :: numbered (k + 1) seen'
  end.

End Play.

(** ** Values of the OpenAL headers ([al.h], [alc.h]) *)

Module AL.

Definition AL_NO_ERROR : Z := 0.
Definition AL_INVALID_NAME : Z := 0xA001.
Definition AL_INVALID_OPERATION : Z := 0xA004.
Definition ALC_NO_ERROR : Z := 0.
Definition ALC_INVALID_CONTEXT : Z := 0xA002.
Definition AL_FALSE : Z := 0.
Definition AL_TRUE : Z := 1.
Definition ALC_FALSE : Z := 0.
Definition ALC_TRUE : Z := 1.
Definition ALC_CAPTURE_SAMPLES : Z := 0x312.
Definition ALC_CONNECTED : Z := 0x313.
Definition AL_SOURCE_RELATIVE : Z := 0x202.
Definition AL_CONE_INNER_ANGLE : Z := 0x1001.
Definition AL_CONE_OUTER_ANGLE : Z := 0x1002.
Definition AL_PITCH : Z := 0x1003.
Definition AL_POSITION : Z := 0x1004.
Definition AL_DIRECTION : Z := 0x1005.
Definition AL_VELOCITY : Z := 0x1006.
Definition AL_LOOPING : Z := 0x1007.
Definition AL_BUFFER : Z := 0x1009.
Definition AL_GAIN : Z := 0x100A.
Definition AL_MIN_GAIN : Z := 0x100D.
Definition AL_MAX_GAIN : Z := 0x100E.
Definition AL_SOURCE_STATE : Z := 0x1010.
Definition AL_INITIAL : Z := 0x1011.
Definition AL_PLAYING : Z := 0x1012.
Definition AL_PAUSED : Z := 0x1013.
Definition AL_STOPPED : Z := 0x1014.
Definition AL_BUFFERS_QUEUED : Z := 0x1015.
Definition AL_BUFFERS_PROCESSED : Z := 0x1016.
Definition AL_REFERENCE_DISTANCE : Z := 0x1020.
Definition AL_ROLLOFF_FACTOR : Z := 0x1021.
Definition AL_CONE_OUTER_GAIN : Z := 0x1022.
Definition AL_MAX_DISTANCE : Z := 0x1023.
Definition AL_SEC_OFFSET : Z := 0x1024.
Definition AL_SAMPLE_OFFSET : Z := 0x1025.
Definition AL_BYTE_OFFSET : Z := 0x1026.
Definition AL_SOURCE_TYPE : Z := 0x1027.
Definition AL_UNDETERMINED : Z := 0x1030.
Definition AL_ORIENTATION : Z := 0x100F.
Definition AL_FREQUENCY : Z := 0x2001.
Definition AL_BITS : Z := 0x2002.
Definition AL_CHANNELS : Z := 0x2003.
Definition AL_SIZE : Z := 0x2004.
Definition AL_VENDOR : Z := 0xB001.
Definition AL_VERSION : Z := 0xB002.
Definition AL_RENDERER : Z := 0xB003.
Definition AL_EXTENSIONS : Z := 0xB004.
Definition AL_DOPPLER_FACTOR : Z := 0xC000.
Definition AL_DOPPLER_VELOCITY : Z := 0xC001.
Definition AL_SPEED_OF_SOUND : Z := 0xC003.
Definition AL_DISTANCE_MODEL : Z := 0xD000.
Definition AL_INVERSE_DISTANCE_CLAMPED : Z := 0xD002.

(** IEEE-754 single precision bit patterns of the literals the recorder
    uses. *)
Definition float_0 : Z := 0.
Definition float_1 : Z := 0x3F800000.
Definition float_360 : Z := 0x43B40000.
Definition float_minus_1 : Z := 0xBF800000.
Definition float_343_3 : Z := 0x43ABA666.
Definition FLT_MAX : Z := 0x7F7FFFFF.

(** The C comparison [a != b] of two floats given by their bit patterns:
    a NaN differs from everything, the two zeros are equal. *)
Definition float_is_nan (a : Z) : bool :=
  (Z.land a 0x7F800000 =? 0x7F800000) && negb (Z.land a 0x007FFFFF =? 0).
Definition float_is_zero (a : Z) : bool := Z.land a 0x7FFFFFFF =? 0.
Definition float_ne (a b : Z) : bool :=
  float_is_nan a || float_is_nan b
  || negb ((Int.to_uint32 a =? Int.to_uint32 b) || (float_is_zero a && float_is_zero b)).

End AL.

(** ** The real OpenAL library and the platform *)

(** The recorder calls the real library through its [REAL_] pointers.
    The library, the mixer behind it and the platform are a state of type
    [World] that each call may change; nothing is assumed of what they
    answer.  An out-parameter is given as the value the caller put there
    and comes back as the value found afterwards. *)
Class RealAL := {
  World : Type;
  platform : World -> Callstack.CallEnv;
  malloc : World -> Z * World;
  REAL_alGetError : World -> Z * World;
  REAL_alcGetError : Z -> World -> Z * World;
  REAL_alcGetIntegerv : Z -> Z -> Z -> World -> Z * World;
  REAL_alcCloseDevice : Z -> World -> Z * World;
  REAL_alcDestroyContext : Z -> World -> World;
  REAL_alGenSources : Z -> World -> list Z * World;
  REAL_alDeleteSources : Z -> list Z -> World -> World;
  REAL_alDeleteBuffers : Z -> list Z -> World -> World;
  REAL_alSourcePlay : Z -> World -> World;
  REAL_alGetSourcei : Z -> Z -> Z -> World -> Z * World;
  REAL_alGetSourcef : Z -> Z -> Z -> World -> Z * World;
  REAL_alGetSourcefv : Z -> Z -> list Z -> World -> list Z * World;
}.

(** ** The recorder's shadow state ([altrace_record.c]) *)

Module Recorder.

Import Int AL.

(** The cached attributes of a source other than its state: the scalar
    ones and the three vectors. *)
Inductive SourceAttr :=
  | type | buffer | buffers_queued | buffers_processed | source_relative | looping
  | sec_offset | sample_offset | byte_offset | gain | min_gain | max_gain
  | reference_distance | rolloff_factor | max_distance | pitch
  | cone_inner_angle | cone_outer_angle | cone_outer_gain.

Inductive SourceVec := position | velocity | direction.

#[global] Instance SourceAttr_eq_dec : EqDecision SourceAttr.
Proof. solve_decision. Defined.

#[global] Instance SourceVec_eq_dec : EqDecision SourceVec.
Proof. solve_decision. Defined.

(** [struct SourceWrapper]; [attr] and [vec] stand for the attribute
    fields, one per [SourceAttr] and [SourceVec]. *)
Record SourceWrapper := {
  name : Z;
  state : Z;
  attr : SourceAttr -> Z;
  vec : SourceVec -> list Z;
  playlist_next : Z;
  playlist_prev : Z;
  hash_prev : Z;
  hash_next : Z;
}.

Definition set_state (v : Z) (s : SourceWrapper) : SourceWrapper :=
  {| name := name s; state := v; attr := attr s; vec := vec s;
     playlist_next := playlist_next s; playlist_prev := playlist_prev s;
     hash_prev := hash_prev s; hash_next := hash_next s |}.

Definition set_attr (v : SourceAttr -> Z) (s : SourceWrapper) : SourceWrapper :=
  {| name := name s; state := state s; attr := v; vec := vec s;
     playlist_next := playlist_next s; playlist_prev := playlist_prev s;
     hash_prev := hash_prev s; hash_next := hash_next s |}.

Definition set_vec (v : SourceVec -> list Z) (s : SourceWrapper) : SourceWrapper :=
  {| name := name s; state := state s; attr := attr s; vec := v;
     playlist_next := playlist_next s; playlist_prev := playlist_prev s;
     hash_prev := hash_prev s; hash_next := hash_next s |}.

Definition set_playlist_next (v : Z) (s : SourceWrapper) : SourceWrapper :=
  {| name := name s; state := state s; attr := attr s; vec := vec s; playlist_next := v;
     playlist_prev := playlist_prev s; hash_prev := hash_prev s; hash_next := hash_next s |}.

Definition set_playlist_prev (v : Z) (s : SourceWrapper) : SourceWrapper :=
  {| name := name s; state := state s; attr := attr s; vec := vec s;
     playlist_next := playlist_next s; playlist_prev := v; hash_prev := hash_prev s;
     hash_next := hash_next s |}.

Definition set_hash_prev (v : Z) (s : SourceWrapper) : SourceWrapper :=
  {| name := name s; state := state s; attr := attr s; vec := vec s;
     playlist_next := playlist_next s; playlist_prev := playlist_prev s; hash_prev := v;
     hash_next := hash_next s |}.

Definition set_hash_next (v : Z) (s : SourceWrapper) : SourceWrapper :=
  {| name := name s; state := state s; attr := attr s; vec := vec s;
     playlist_next := playlist_next s; playlist_prev := playlist_prev s;
     hash_prev := hash_prev s; hash_next := v |}.

Definition set_attr_of (a : SourceAttr) (v : Z) (s : SourceWrapper) : SourceWrapper :=
  set_attr (fun a' => if decide (a' = a) then v else attr s a') s.

Definition set_vec_of (a : SourceVec) (v : list Z) (s : SourceWrapper) : SourceWrapper :=
  set_vec (fun a' => if decide (a' = a) then v else vec s a') s.

Record BufferWrapper := {
  buf_name : Z;
  channels : Z;
  bits : Z;
  frequency : Z;
  size : Z;
  buf_hash_prev : Z;
  buf_hash_next : Z;
}.

Definition set_buf_hash_prev (v : Z) (b : BufferWrapper) : BufferWrapper :=
  {| buf_name := buf_name b; channels := channels b; bits := bits b;
     frequency := frequency b; size := size b; buf_hash_prev := v;
     buf_hash_next := buf_hash_next b |}.

Definition set_buf_hash_next (v : Z) (b : BufferWrapper) : BufferWrapper :=
  {| buf_name := buf_name b; channels := channels b; bits := bits b;
     frequency := frequency b; size := size b; buf_hash_prev := buf_hash_prev b;
     buf_hash_next := v |}.

Record DeviceWrapper := {
  device : Z;
  dev_errorlatch : Z;
  iscapture : Z;
  connected : Z;
  supports_disconnect_ext : Z;
  capture_samples : Z;
  samplesize : Z;
  dev_extension_string : option (list Z);
  wrapped_buffer_hash : list Z;
  contexts : Z;
  dev_prev : Z;
  dev_next : Z;
}.

Definition set_dev_errorlatch (v : Z) (d : DeviceWrapper) : DeviceWrapper :=
  {| device := device d; dev_errorlatch := v; iscapture := iscapture d;
     connected := connected d; supports_disconnect_ext := supports_disconnect_ext d;
     capture_samples := capture_samples d; samplesize := samplesize d;
     dev_extension_string := dev_extension_string d;
     wrapped_buffer_hash := wrapped_buffer_hash d; contexts := contexts d;
     dev_prev := dev_prev d; dev_next := dev_next d |}.

Definition set_connected (v : Z) (d : DeviceWrapper) : DeviceWrapper :=
  {| device := device d; dev_errorlatch := dev_errorlatch d; iscapture := iscapture d;
     connected := v; supports_disconnect_ext := supports_disconnect_ext d;
     capture_samples := capture_samples d; samplesize := samplesize d;
     dev_extension_string := dev_extension_string d;
     wrapped_buffer_hash := wrapped_buffer_hash d; contexts := contexts d;
     dev_prev := dev_prev d; dev_next := dev_next d |}.

Definition set_capture_samples (v : Z) (d : DeviceWrapper) : DeviceWrapper :=
  {| device := device d; dev_errorlatch := dev_errorlatch d; iscapture := iscapture d;
     connected := connected d; supports_disconnect_ext := supports_disconnect_ext d;
     capture_samples := v; samplesize := samplesize d;
     dev_extension_string := dev_extension_string d;
     wrapped_buffer_hash := wrapped_buffer_hash d; contexts := contexts d;
     dev_prev := dev_prev d; dev_next := dev_next d |}.

Definition set_wrapped_buffer_hash (v : list Z) (d : DeviceWrapper) : DeviceWrapper :=
  {| device := device d; dev_errorlatch := dev_errorlatch d; iscapture := iscapture d;
     connected := connected d; supports_disconnect_ext := supports_disconnect_ext d;
     capture_samples := capture_samples d; samplesize := samplesize d;
     dev_extension_string := dev_extension_string d; wrapped_buffer_hash := v;
     contexts := contexts d; dev_prev := dev_prev d; dev_next := dev_next d |}.

Definition set_contexts (v : Z) (d : DeviceWrapper) : DeviceWrapper :=
  {| device := device d; dev_errorlatch := dev_errorlatch d; iscapture := iscapture d;
     connected := connected d; supports_disconnect_ext := supports_disconnect_ext d;
     capture_samples := capture_samples d; samplesize := samplesize d;
     dev_extension_string := dev_extension_string d;
     wrapped_buffer_hash := wrapped_buffer_hash d; contexts := v; dev_prev := dev_prev d;
     dev_next := dev_next d |}.

Definition set_dev_prev (v : Z) (d : DeviceWrapper) : DeviceWrapper :=
  {| device := device d; dev_errorlatch := dev_errorlatch d; iscapture := iscapture d;
     connected := connected d; supports_disconnect_ext := supports_disconnect_ext d;
     capture_samples := capture_samples d; samplesize := samplesize d;
     dev_extension_string := dev_extension_string d;
     wrapped_buffer_hash := wrapped_buffer_hash d; contexts := contexts d; dev_prev := v;
     dev_next := dev_next d |}.

Definition set_dev_next (v : Z) (d : DeviceWrapper) : DeviceWrapper :=
  {| device := device d; dev_errorlatch := dev_errorlatch d; iscapture := iscapture d;
     connected := connected d; supports_disconnect_ext := supports_disconnect_ext d;
     capture_samples := capture_samples d; samplesize := samplesize d;
     dev_extension_string := dev_extension_string d;
     wrapped_buffer_hash := wrapped_buffer_hash d; contexts := contexts d;
     dev_prev := dev_prev d; dev_next := v |}.

(** The fields of [struct ContextWrapper] that cache what the context and
    its listener were last seen to hold. *)
Record ContextState := {
  distance_model : Z;
  doppler_factor : Z;
  doppler_velocity : Z;
  speed_of_sound : Z;
  listener_position : list Z;
  listener_velocity : list Z;
  listener_orientation : list Z;
  listener_gain : Z;
}.

(** [struct ContextWrapper]; its cached context and listener state is
    the one field [ctx_state]. *)
Record ContextWrapper := {
  ctx : Z;
  ctx_device : Z;
  ctx_extension_string : option (list Z);
  ctx_errorlatch : Z;
  checked_static_state : Z;
  wrapped_source_hash : list Z;
  ctx_state : ContextState;
  playlist : Z;
  ctx_next : Z;
  ctx_prev : Z;
}.

Definition set_ctx_errorlatch (v : Z) (c : ContextWrapper) : ContextWrapper :=
  {| ctx := ctx c; ctx_device := ctx_device c;
     ctx_extension_string := ctx_extension_string c;
     ctx_state := ctx_state c; ctx_errorlatch := v;
     checked_static_state := checked_static_state c;
     wrapped_source_hash := wrapped_source_hash c; playlist := playlist c;
     ctx_next := ctx_next c; ctx_prev := ctx_prev c |}.

Definition set_wrapped_source_hash (v : list Z) (c : ContextWrapper) : ContextWrapper :=
  {| ctx := ctx c; ctx_device := ctx_device c;
     ctx_extension_string := ctx_extension_string c;
     ctx_state := ctx_state c; ctx_errorlatch := ctx_errorlatch c;
     checked_static_state := checked_static_state c; wrapped_source_hash := v;
     playlist := playlist c; ctx_next := ctx_next c; ctx_prev := ctx_prev c |}.

Definition set_playlist (v : Z) (c : ContextWrapper) : ContextWrapper :=
  {| ctx := ctx c; ctx_device := ctx_device c;
     ctx_extension_string := ctx_extension_string c;
     ctx_state := ctx_state c; ctx_errorlatch := ctx_errorlatch c;
     checked_static_state := checked_static_state c;
     wrapped_source_hash := wrapped_source_hash c; playlist := v; ctx_next := ctx_next c;
     ctx_prev := ctx_prev c |}.

Definition set_ctx_next (v : Z) (c : ContextWrapper) : ContextWrapper :=
  {| ctx := ctx c; ctx_device := ctx_device c;
     ctx_extension_string := ctx_extension_string c;
     ctx_state := ctx_state c; ctx_errorlatch := ctx_errorlatch c;
     checked_static_state := checked_static_state c;
     wrapped_source_hash := wrapped_source_hash c; playlist := playlist c; ctx_next := v;
     ctx_prev := ctx_prev c |}.

Definition set_ctx_prev (v : Z) (c : ContextWrapper) : ContextWrapper :=
  {| ctx := ctx c; ctx_device := ctx_device c;
     ctx_extension_string := ctx_extension_string c;
     ctx_state := ctx_state c; ctx_errorlatch := ctx_errorlatch c;
     checked_static_state := checked_static_state c;
     wrapped_source_hash := wrapped_source_hash c; playlist := playlist c;
     ctx_next := ctx_next c; ctx_prev := v |}.

Section WithRealAL.

Context `{Constants} `{RealAL}.

(** The recorder's globals, the heap of wrappers and the world around
    them. *)
Record Recorder := {
  world : World;
  logfd : list Z;
  stackframes : gmap Z (list Z);
  device_heap : gmap Z DeviceWrapper;
  context_heap : gmap Z ContextWrapper;
  source_heap : gmap Z SourceWrapper;
  buffer_heap : gmap Z BufferWrapper;
  null_context_errorlatch : Z;
  current_context : Z;
  source_queries : list (Z * Z);
}.

Definition set_world (v : World) (st : Recorder) : Recorder :=
  {| world := v; logfd := logfd st; stackframes := stackframes st;
     device_heap := device_heap st; context_heap := context_heap st;
     source_heap := source_heap st; buffer_heap := buffer_heap st;
     null_context_errorlatch := null_context_errorlatch st;
     current_context := current_context st; source_queries := source_queries st |}.

Definition set_logfd (v : list Z) (st : Recorder) : Recorder :=
  {| world := world st; logfd := v; stackframes := stackframes st;
     device_heap := device_heap st; context_heap := context_heap st;
     source_heap := source_heap st; buffer_heap := buffer_heap st;
     null_context_errorlatch := null_context_errorlatch st;
     current_context := current_context st; source_queries := source_queries st |}.

Definition set_stackframes (v : gmap Z (list Z)) (st : Recorder) : Recorder :=
  {| world := world st; logfd := logfd st; stackframes := v;
     device_heap := device_heap st; context_heap := context_heap st;
     source_heap := source_heap st; buffer_heap := buffer_heap st;
     null_context_errorlatch := null_context_errorlatch st;
     current_context := current_context st; source_queries := source_queries st |}.

Definition set_device_heap (v : gmap Z DeviceWrapper) (st : Recorder) : Recorder :=
  {| world := world st; logfd := logfd st; stackframes := stackframes st;
     device_heap := v; context_heap := context_heap st; source_heap := source_heap st;
     buffer_heap := buffer_heap st;
     null_context_errorlatch := null_context_errorlatch st;
     current_context := current_context st; source_queries := source_queries st |}.

Definition set_context_heap (v : gmap Z ContextWrapper) (st : Recorder) : Recorder :=
  {| world := world st; logfd := logfd st; stackframes := stackframes st;
     device_heap := device_heap st; context_heap := v; source_heap := source_heap st;
     buffer_heap := buffer_heap st;
     null_context_errorlatch := null_context_errorlatch st;
     current_context := current_context st; source_queries := source_queries st |}.

Definition set_source_heap (v : gmap Z SourceWrapper) (st : Recorder) : Recorder :=
  {| world := world st; logfd := logfd st; stackframes := stackframes st;
     device_heap := device_heap st; context_heap := context_heap st; source_heap := v;
     buffer_heap := buffer_heap st;
     null_context_errorlatch := null_context_errorlatch st;
     current_context := current_context st; source_queries := source_queries st |}.

Definition set_buffer_heap (v : gmap Z BufferWrapper) (st : Recorder) : Recorder :=
  {| world := world st; logfd := logfd st; stackframes := stackframes st;
     device_heap := device_heap st; context_heap := context_heap st;
     source_heap := source_heap st; buffer_heap := v;
     null_context_errorlatch := null_context_errorlatch st;
     current_context := current_context st; source_queries := source_queries st |}.

Definition set_null_context_errorlatch (v : Z) (st : Recorder) : Recorder :=
  {| world := world st; logfd := logfd st; stackframes := stackframes st;
     device_heap := device_heap st; context_heap := context_heap st;
     source_heap := source_heap st; buffer_heap := buffer_heap st;
     null_context_errorlatch := v; current_context := current_context st;
     source_queries := source_queries st |}.

Definition set_current_context (v : Z) (st : Recorder) : Recorder :=
  {| world := world st; logfd := logfd st; stackframes := stackframes st;
     device_heap := device_heap st; context_heap := context_heap st;
     source_heap := source_heap st; buffer_heap := buffer_heap st;
     null_context_errorlatch := null_context_errorlatch st; current_context := v;
     source_queries := source_queries st |}.

(** ghost: [source_queries] lists the (source name, parameter) of every
    [REAL_alGetSource*] query the recorder has issued, oldest first. *)
Definition add_source_query (q : Z * Z) (st : Recorder) : Recorder :=
  {| world := world st; logfd := logfd st; stackframes := stackframes st;
     device_heap := device_heap st; context_heap := context_heap st;
     source_heap := source_heap st; buffer_heap := buffer_heap st;
     null_context_errorlatch := null_context_errorlatch st;
     current_context := current_context st;
     source_queries := source_queries st ++ [q] |}.

(** The address of the static [null_device]; [malloc] never returns it. *)
Definition null_device : Z := 1.

(** What a zeroed object reads as. *)
Definition zero_source : SourceWrapper :=
  {| name := 0; state := 0; attr := fun _ => 0; vec := fun _ => [0; 0; 0];
     playlist_next := 0; playlist_prev := 0; hash_prev := 0; hash_next := 0 |}.

Definition zero_buffer : BufferWrapper :=
  {| buf_name := 0; channels := 0; bits := 0; frequency := 0; size := 0;
     buf_hash_prev := 0; buf_hash_next := 0 |}.

Definition zero_device : DeviceWrapper :=
  {| device := 0; dev_errorlatch := 0; iscapture := 0; connected := 0;
     supports_disconnect_ext := 0; capture_samples := 0; samplesize := 0;
     dev_extension_string := None; wrapped_buffer_hash := replicate 256 0;
     contexts := 0; dev_prev := 0; dev_next := 0 |}.

Definition zero_context_state : ContextState :=
  {| distance_model := 0; doppler_factor := 0; doppler_velocity := 0; speed_of_sound := 0;
     listener_position := [0; 0; 0]; listener_velocity := [0; 0; 0];
     listener_orientation := [0; 0; 0; 0; 0; 0]; listener_gain := 0 |}.

Definition zero_context : ContextWrapper :=
  {| ctx := 0; ctx_device := 0; ctx_extension_string := None; ctx_errorlatch := 0;
     checked_static_state := 0; wrapped_source_hash := replicate 256 0;
     ctx_state := zero_context_state; playlist := 0;
     ctx_next := 0; ctx_prev := 0 |}.

(** Reading through a pointer.  Reading an address that holds no object
    is undefined in C; the model reads zeros there and drops a store to
    it. *)
Definition source_at (st : Recorder) (p : Z) : SourceWrapper :=
  default zero_source (source_heap st !! p).
Definition buffer_at (st : Recorder) (p : Z) : BufferWrapper :=
  default zero_buffer (buffer_heap st !! p).
Definition device_at (st : Recorder) (p : Z) : DeviceWrapper :=
  default zero_device (device_heap st !! p).
Definition context_at (st : Recorder) (p : Z) : ContextWrapper :=
  default zero_context (context_heap st !! p).

Definition store_source (p : Z) (f : SourceWrapper -> SourceWrapper) (st : Recorder) : Recorder :=
  set_source_heap (alter f p (source_heap st)) st.
Definition store_buffer (p : Z) (f : BufferWrapper -> BufferWrapper) (st : Recorder) : Recorder :=
  set_buffer_heap (alter f p (buffer_heap st)) st.
Definition store_device (p : Z) (f : DeviceWrapper -> DeviceWrapper) (st : Recorder) : Recorder :=
  set_device_heap (alter f p (device_heap st)) st.
Definition store_context (p : Z) (f : ContextWrapper -> ContextWrapper) (st : Recorder) : Recorder :=
  set_context_heap (alter f p (context_heap st)) st.

Definition bucket (hash : list Z) (i : Z) : Z := default 0 (hash !! Z.to_nat i).

(** Appending to the log through one of the codec's writers. *)
Definition emit (io : list Z -> list Z) (st : Recorder) : Recorder :=
  set_logfd (io (logfd st)) st.

(** The process as the constructor leaves it: the header is written and
    the only device is [null_device]. *)
Definition initial (w : World) : Recorder :=
  {| world := w;
     logfd := Rec.IO_UINT32 ALTRACE_LOG_FILE_FORMAT (Rec.IO_UINT32 ALTRACE_LOG_FILE_MAGIC []);
     stackframes := ∅;
     device_heap := {[ null_device := zero_device ]};
     context_heap := ∅; source_heap := ∅; buffer_heap := ∅;
     null_context_errorlatch := AL_NO_ERROR; current_context := 0;
     source_queries := [] |}.

Definition IO_ENTRYINFO (entryid : Z) (st : Recorder) : Recorder :=
  let '(m, fd) :=
    Callstack.IO_ENTRYINFO entryid (platform (world st)) (stackframes st, logfd st) in
  set_stackframes m (set_logfd fd st).

(** [IO_START(e)]: [APILOCK] and the entry info.  Calls are taken one at
    a time, so the lock does nothing here. *)
Definition IO_START (entryid : Z) (st : Recorder) : Recorder := IO_ENTRYINFO entryid st.

Definition check_al_error_events (st : Recorder) : Z * Recorder :=
  if current_context st =? 0 then (AL_NO_ERROR, st)
  else
    let '(alerr, w) := REAL_alGetError (world st) in
    let st := set_world w st in
    if negb (alerr =? AL_NO_ERROR) then
      let st := emit (Rec.IO_EVENTENUM ALEE_ALERROR_TRIGGERED) st in
      let st := emit (Rec.IO_ENUM alerr) st in
      let st :=
        if negb (current_context st =? 0) then
          if ctx_errorlatch (context_at st (current_context st)) =? AL_NO_ERROR
          then store_context (current_context st) (set_ctx_errorlatch alerr) st else st
        else
          if null_context_errorlatch st =? AL_NO_ERROR
          then set_null_context_errorlatch alerr st else st in
      (alerr, st)
    else (alerr, st).

Definition check_alc_error_events (dev : Z) (st : Recorder) : Z * Recorder :=
  if dev =? 0 then (ALC_NO_ERROR, st)
  else
    let '(alcerr, w) := REAL_alcGetError (device (device_at st dev)) (world st) in
    let st := set_world w st in
    if negb (alcerr =? ALC_NO_ERROR) then
      let st := emit (Rec.IO_EVENTENUM ALEE_ALCERROR_TRIGGERED) st in
      let st := emit (Rec.IO_PTR dev) st in
      let st := emit (Rec.IO_ALCENUM alcerr) st in
      let st :=
        if dev_errorlatch (device_at st dev) =? ALC_NO_ERROR
        then store_device dev (set_dev_errorlatch alcerr) st else st in
      (alcerr, st)
    else (alcerr, st).

Definition hash_alname (name : Z) : Z := to_uint8 (Z.land name 0xFF).

(** The walk along [hash_next]; [None] when [fuel] steps were not
    enough. *)
Fixpoint source_hash_walk (fuel : nat) (name : Z) (retval : Z) (st : Recorder) : option Z :=
  match fuel with
  | O => None
  | S fuel' =>
      if retval =? 0 then Some 0
      else if Recorder.name (source_at st retval) =? name then Some retval
      else source_hash_walk fuel' name (hash_next (source_at st retval)) st
  end.

Definition source_wrapped_lookup (fuel : nat) (name : Z) (st : Recorder) : option Z :=
  let ctx := current_context st in
  if negb (ctx =? 0) && negb (name =? 0) then
    let hash := hash_alname name in
    source_hash_walk fuel name (bucket (wrapped_source_hash (context_at st ctx)) hash) st
  else Some 0.

Fixpoint buffer_hash_walk (fuel : nat) (name : Z) (retval : Z) (st : Recorder) : option Z :=
  match fuel with
  | O => None
  | S fuel' =>
      if retval =? 0 then Some 0
      else if buf_name (buffer_at st retval) =? name then Some retval
      else buffer_hash_walk fuel' name (buf_hash_next (buffer_at st retval)) st
  end.

Definition buffer_wrapped_lookup (fuel : nat) (name : Z) (st : Recorder) : option Z :=
  let dev :=
    if negb (current_context st =? 0)
    then ctx_device (context_at st (current_context st)) else 0 in
  if negb (dev =? 0) && negb (name =? 0) then
    let hash := hash_alname name in
    buffer_hash_walk fuel name (bucket (wrapped_buffer_hash (device_at st dev)) hash) st
  else Some 0.

(** The [check_source_state_*] functions take the field to compare and
    update as the pair of its reader and its writer. *)
Definition source_state_changed (tag : Z) (src param : Z) (io : list Z -> list Z)
    (store : SourceWrapper -> SourceWrapper) (st : Recorder) : Recorder :=
  let st := emit (Rec.IO_EVENTENUM tag) st in
  let st := emit (Rec.IO_UINT32 (name (source_at st src))) st in
  let st := emit (Rec.IO_ENUM param) st in
  let st := emit io st in
  store_source src store st.

Definition query_sourcei (src param : Z) (st : Recorder) : Z * Recorder :=
  let '(ival, w) := REAL_alGetSourcei (name (source_at st src)) param 0 (world st) in
  (ival, add_source_query (name (source_at st src), param) (set_world w st)).

Definition check_source_state_bool (src param : Z) (current : SourceWrapper -> Z)
    (set_current : Z -> SourceWrapper -> SourceWrapper) (st : Recorder) : Recorder :=
  let '(ival, st) := query_sourcei src param st in
  let newval := if negb (ival =? 0) then AL_TRUE else AL_FALSE in
  if negb (newval =? current (source_at st src)) then
    source_state_changed ALEE_SOURCE_STATE_CHANGED_BOOL src param (Rec.IO_BOOLEAN newval)
      (set_current newval) st
  else st.

Definition check_source_state_enum (src param : Z) (current : SourceWrapper -> Z)
    (set_current : Z -> SourceWrapper -> SourceWrapper) (st : Recorder) : Recorder :=
  let '(ival, st) := query_sourcei src param st in
  let newval := ival in
  if negb (newval =? current (source_at st src)) then
    source_state_changed ALEE_SOURCE_STATE_CHANGED_ENUM src param (Rec.IO_ENUM newval)
      (set_current newval) st
  else st.

Definition check_source_state_int (src param : Z) (current : SourceWrapper -> Z)
    (set_current : Z -> SourceWrapper -> SourceWrapper) (st : Recorder) : Recorder :=
  let '(ival, st) := query_sourcei src param st in
  if negb (ival =? current (source_at st src)) then
    source_state_changed ALEE_SOURCE_STATE_CHANGED_INT src param (Rec.IO_INT32 ival)
      (set_current ival) st
  else st.

Definition check_source_state_uint (src param : Z) (current : SourceWrapper -> Z)
    (set_current : Z -> SourceWrapper -> SourceWrapper) (st : Recorder) : Recorder :=
  let '(ival, st) := query_sourcei src param st in
  let newval := to_uint32 ival in
  if negb (newval =? current (source_at st src)) then
    source_state_changed ALEE_SOURCE_STATE_CHANGED_UINT src param (Rec.IO_UINT32 newval)
      (set_current newval) st
  else st.

Definition check_source_state_float (src param : Z) (current : SourceWrapper -> Z)
    (set_current : Z -> SourceWrapper -> SourceWrapper) (st : Recorder) : Recorder :=
  let '(fval, w) := REAL_alGetSourcef (name (source_at st src)) param float_0 (world st) in
  let st := add_source_query (name (source_at st src), param) (set_world w st) in
  if float_ne fval (current (source_at st src)) then
    source_state_changed ALEE_SOURCE_STATE_CHANGED_FLOAT src param (Rec.IO_FLOAT fval)
      (set_current fval) st
  else st.

Definition check_source_state_float3 (src param : Z) (current : SourceWrapper -> list Z)
    (set_current : list Z -> SourceWrapper -> SourceWrapper) (st : Recorder) : Recorder :=
  let '(fval, w) :=
    REAL_alGetSourcefv (name (source_at st src)) param [float_0; float_0; float_0] (world st) in
  let st := add_source_query (name (source_at st src), param) (set_world w st) in
  if negb (bool_decide (take 3 fval = take 3 (current (source_at st src)))) then
    source_state_changed ALEE_SOURCE_STATE_CHANGED_FLOAT3 src param
      (fun fd => fold_left (fun fd x => Rec.IO_FLOAT x fd) (take 3 fval) fd)
      (set_current fval) st
  else st.

Definition check_source_state (src : Z) (st : Recorder) : Recorder :=
  let name := if negb (src =? 0) then name (source_at st src) else 0 in
  if negb (name =? 0) then
    let st := check_source_state_enum src AL_SOURCE_STATE state set_state st in
    let st := check_source_state_enum src AL_SOURCE_TYPE (fun s => attr s type) (set_attr_of type) st in
    let st := check_source_state_uint src AL_BUFFER (fun s => attr s buffer) (set_attr_of buffer) st in
    let st := check_source_state_int src AL_BUFFERS_QUEUED (fun s => attr s buffers_queued) (set_attr_of buffers_queued) st in
    let st := check_source_state_int src AL_BUFFERS_PROCESSED (fun s => attr s buffers_processed) (set_attr_of buffers_processed) st in
    let st := check_source_state_bool src AL_SOURCE_RELATIVE (fun s => attr s source_relative) (set_attr_of source_relative) st in
    let st := check_source_state_bool src AL_LOOPING (fun s => attr s looping) (set_attr_of looping) st in
    let st := check_source_state_int src AL_SEC_OFFSET (fun s => attr s sec_offset) (set_attr_of sec_offset) st in
    let st := check_source_state_int src AL_SAMPLE_OFFSET (fun s => attr s sample_offset) (set_attr_of sample_offset) st in
    let st := check_source_state_int src AL_BYTE_OFFSET (fun s => attr s byte_offset) (set_attr_of byte_offset) st in
    let st := check_source_state_float src AL_GAIN (fun s => attr s gain) (set_attr_of gain) st in
    let st := check_source_state_float src AL_MIN_GAIN (fun s => attr s min_gain) (set_attr_of min_gain) st in
    let st := check_source_state_float src AL_MAX_GAIN (fun s => attr s max_gain) (set_attr_of max_gain) st in
    let st := check_source_state_float src AL_REFERENCE_DISTANCE (fun s => attr s reference_distance) (set_attr_of reference_distance) st in
    let st := check_source_state_float src AL_ROLLOFF_FACTOR (fun s => attr s rolloff_factor) (set_attr_of rolloff_factor) st in
    let st := check_source_state_float src AL_MAX_DISTANCE (fun s => attr s max_distance) (set_attr_of max_distance) st in
    let st := check_source_state_float src AL_PITCH (fun s => attr s pitch) (set_attr_of pitch) st in
    let st := check_source_state_float src AL_CONE_INNER_ANGLE (fun s => attr s cone_inner_angle) (set_attr_of cone_inner_angle) st in
    let st := check_source_state_float src AL_CONE_OUTER_ANGLE (fun s => attr s cone_outer_angle) (set_attr_of cone_outer_angle) st in
    let st := check_source_state_float src AL_CONE_OUTER_GAIN (fun s => attr s cone_outer_gain) (set_attr_of cone_outer_gain) st in
    let st := check_source_state_float3 src AL_POSITION (fun s => vec s position) (set_vec_of position) st in
    let st := check_source_state_float3 src AL_VELOCITY (fun s => vec s velocity) (set_vec_of velocity) st in
    check_source_state_float3 src AL_DIRECTION (fun s => vec s direction) (set_vec_of direction) st
  else st.


Definition init_source_state (src : Z) (name : Z) (st : Recorder) : Recorder :=
  let s :=
    {| Recorder.name := name; state := AL_INITIAL;
       attr := fun a =>
         match a with
         | type => AL_UNDETERMINED
         | gain | max_gain | reference_distance | rolloff_factor | pitch => float_1
         | max_distance => FLT_MAX
         | cone_inner_angle | cone_outer_angle => float_360
         | _ => 0
         end;
       vec := fun _ => [0; 0; 0];
       playlist_next := 0; playlist_prev := 0; hash_prev := 0; hash_next := 0 |} in
  check_source_state src (store_source src (fun _ => s) st).

Definition check_device_state_bool (dev param : Z) (current : DeviceWrapper -> Z)
    (set_current : Z -> DeviceWrapper -> DeviceWrapper) (st : Recorder) : Recorder :=
  let '(ival, w) := REAL_alcGetIntegerv (device (device_at st dev)) param 0 (world st) in
  let st := set_world w st in
  let newval := if negb (ival =? 0) then ALC_TRUE else ALC_FALSE in
  if negb (newval =? current (device_at st dev)) then
    let st := emit (Rec.IO_EVENTENUM ALEE_DEVICE_STATE_CHANGED_BOOL) st in
    let st := emit (Rec.IO_PTR dev) st in
    let st := emit (Rec.IO_ENUM param) st in
    let st := emit (Rec.IO_ALCBOOLEAN newval) st in
    store_device dev (set_current newval) st
  else st.

Definition check_device_state_int (dev param : Z) (current : DeviceWrapper -> Z)
    (set_current : Z -> DeviceWrapper -> DeviceWrapper) (st : Recorder) : Recorder :=
  let '(ival, w) := REAL_alcGetIntegerv (device (device_at st dev)) param 0 (world st) in
  let st := set_world w st in
  if negb (ival =? current (device_at st dev)) then
    let st := emit (Rec.IO_EVENTENUM ALEE_DEVICE_STATE_CHANGED_INT) st in
    let st := emit (Rec.IO_PTR dev) st in
    let st := emit (Rec.IO_ALCENUM param) st in
    let st := emit (Rec.IO_INT32 ival) st in
    store_device dev (set_current ival) st
  else st.

(** The body of the innermost loop of [check_al_async_states] once the
    source is seen not to be playing: the source leaves the playlist of
    [ctx]. *)
Definition playlist_remove (ctx src next : Z) (st : Recorder) : Recorder :=
  let st :=
    if negb (next =? 0)
    then store_source next (set_playlist_prev (playlist_prev (source_at st src))) st else st in
  let st :=
    if negb (playlist_prev (source_at st src) =? 0)
    then store_source (playlist_prev (source_at st src)) (set_playlist_next next) st
    else store_context ctx (set_playlist next) st in
  let st := store_source src (set_playlist_prev 0) st in
  store_source src (set_playlist_next 0) st.

(** [for (src = ctx->playlist; src != NULL; src = next)]; [None] when
    [fuel] iterations were not enough. *)
Fixpoint poll_playlist (fuel : nat) (ctx src : Z) (st : Recorder) : option Recorder :=
  match fuel with
  | O => None
  | S fuel' =>
      if src =? 0 then Some st
      else
        let next := playlist_next (source_at st src) in
        let st := check_source_state src st in
        let st :=
          if negb (state (source_at st src) =? AL_PLAYING)
          then playlist_remove ctx src next st else st in
        poll_playlist fuel' ctx next st
  end.

(** [for (ctx = device->contexts; ctx != NULL; ctx = ctx->next)] *)
Fixpoint poll_contexts (inner fuel : nat) (ctx : Z) (st : Recorder) : option Recorder :=
  match fuel with
  | O => None
  | S fuel' =>
      if ctx =? 0 then Some st
      else
        st ← poll_playlist inner ctx (playlist (context_at st ctx)) st;
        poll_contexts inner fuel' (ctx_next (context_at st ctx)) st
  end.

(** [for (device = null_device.next; device != NULL; device = device->next)] *)
Fixpoint poll_devices (inner fuel : nat) (dev : Z) (st : Recorder) : option Recorder :=
  match fuel with
  | O => None
  | S fuel' =>
      if dev =? 0 then Some st
      else
        let st :=
          if negb (supports_disconnect_ext (device_at st dev) =? 0)
          then check_device_state_bool dev ALC_CONNECTED connected set_connected st else st in
        st ←
          (if negb (iscapture (device_at st dev) =? 0)
           then Some (check_device_state_int dev ALC_CAPTURE_SAMPLES capture_samples
                        set_capture_samples st)
           else poll_contexts inner inner (contexts (device_at st dev)) st);
        poll_devices inner fuel' (dev_next (device_at st dev)) st
  end.

(** Every loop of the pass gets [fuel] iterations. *)
Definition check_al_async_states (fuel : nat) (st : Recorder) : option Recorder :=
  poll_devices fuel fuel (dev_next (device_at st null_device)) st.

Definition IO_END (fuel : nat) (st : Recorder) : option Recorder :=
  let '(_, st) := check_al_error_events st in
  check_al_async_states fuel st.

Definition IO_END_ALC (fuel : nat) (dev : Z) (st : Recorder) : option Recorder :=
  let '(_, st) := check_alc_error_events dev st in
  check_al_async_states fuel st.

Definition alGetError (fuel : nat) (st : Recorder) : option (Z * Recorder) :=
  let st := IO_START ALEE_alGetError st in
  let '(retval, st) :=
    if current_context st =? 0 then
      (null_context_errorlatch st, set_null_context_errorlatch AL_NO_ERROR st)
    else
      (ctx_errorlatch (context_at st (current_context st)),
       store_context (current_context st) (set_ctx_errorlatch AL_NO_ERROR) st) in
  let st := emit (Rec.IO_ENUM retval) st in
  st ← IO_END fuel st;
  Some (retval, st).

Definition alcGetError (fuel : nat) (_device : Z) (st : Recorder) : option (Z * Recorder) :=
  let dev := if negb (_device =? 0) then _device else null_device in
  let st := IO_START ALEE_alcGetError st in
  let st := emit (Rec.IO_PTR _device) st in
  let retval := dev_errorlatch (device_at st dev) in
  let st := store_device dev (set_dev_errorlatch ALC_NO_ERROR) st in
  let st := emit (Rec.IO_ALCENUM retval) st in
  st ← IO_END_ALC fuel dev st;
  Some (retval, st).

Definition alcCloseDevice (fuel : nat) (_device : Z) (st : Recorder) : option (Z * Recorder) :=
  let dev := if negb (_device =? 0) then _device else null_device in
  let st := IO_START ALEE_alcCloseDevice st in
  let st := emit (Rec.IO_PTR _device) st in
  let '(retval, w) := REAL_alcCloseDevice (device (device_at st dev)) (world st) in
  let st := set_world w st in
  let st := emit (Rec.IO_ALCBOOLEAN retval) st in
  let st :=
    if retval =? ALC_TRUE then
      let st :=
        if negb (dev =? null_device) then
          let st :=
            if negb (dev_next (device_at st dev) =? 0)
            then store_device (dev_next (device_at st dev))
                   (set_dev_prev (dev_prev (device_at st dev))) st
            else st in
          if negb (dev_prev (device_at st dev) =? 0)
          then store_device (dev_prev (device_at st dev))
                 (set_dev_next (dev_next (device_at st dev))) st
          else st
        else st in
      set_device_heap (delete dev (device_heap st)) st
    else st in
  st ← IO_END_ALC fuel (if retval =? ALC_TRUE then 0 else dev) st;
  Some (retval, st).

Definition alcDestroyContext (fuel : nat) (_ctx : Z) (st : Recorder) : option Recorder :=
  let ctx := _ctx in
  let st := IO_START ALEE_alcDestroyContext st in
  let st := emit (Rec.IO_PTR ctx) st in
  let st :=
    set_world
      (REAL_alcDestroyContext (if negb (ctx =? 0) then Recorder.ctx (context_at st ctx) else 0)
         (world st)) st in
  let '(dev, st) :=
    if negb (ctx =? 0) then
      let dev := ctx_device (context_at st ctx) in
      let st :=
        if negb (ctx_next (context_at st ctx) =? 0)
        then store_context (ctx_next (context_at st ctx))
               (set_ctx_prev (ctx_prev (context_at st ctx))) st
        else st in
      let st :=
        if negb (ctx_prev (context_at st ctx) =? 0)
        then store_context (ctx_prev (context_at st ctx))
               (set_ctx_next (ctx_next (context_at st ctx))) st
        else store_device dev (set_contexts (ctx_next (context_at st ctx))) st in
      (dev, set_context_heap (delete ctx (context_heap st)) st)
    else (0, st) in
  IO_END_ALC fuel dev st.

(** The arguments of the calls that take [(ALsizei n, ALuint *names)] as
    they go to the log; [names] is what the array holds. *)
Definition write_names (n : Z) (names_ptr : Z) (names : list Z) (fd : list Z) : list Z :=
  let fd := Rec.IO_ALSIZEI n fd in
  let fd := Rec.IO_PTR names_ptr fd in
  fold_left (fun fd name => Rec.IO_UINT32 name fd) (take (Z.to_nat n) names) fd.

(** One round of the loop of [alGenSources] that wraps a new name. *)
Definition wrap_source (ctx name : Z) (st : Recorder) : Recorder :=
  if negb (name =? 0) then
    let hash := hash_alname name in
    let '(src, w) := malloc (world st) in
    let st := set_world w st in
    let st := set_source_heap (<[src := zero_source]> (source_heap st)) st in
    let st := init_source_state src name st in
    let head := bucket (wrapped_source_hash (context_at st ctx)) hash in
    let st := store_source src (set_hash_next head) st in
    let st := if negb (head =? 0) then store_source head (set_hash_prev src) st else st in
    store_context ctx
      (fun c => set_wrapped_source_hash (<[Z.to_nat hash := src]> (wrapped_source_hash c)) c) st
  else st.

Definition alGenSources (fuel : nat) (n : Z) (names_ptr : Z) (st : Recorder)
  : option (list Z * Recorder) :=
  let ctx := current_context st in
  let '(names, w) := REAL_alGenSources n (world st) in
  let st := set_world w st in
  let st := IO_START ALEE_alGenSources st in
  let st := emit (write_names n names_ptr names) st in
  let st :=
    if negb (ctx =? 0)
    then fold_left (fun st name => wrap_source ctx name st) (take (Z.to_nat n) names) st
    else st in
  st ← IO_END fuel st;
  Some (names, st).

(** One round of the loop of [alDeleteSources]. *)
Definition unwrap_source (fuel : nat) (ctx name : Z) (st : Recorder) : option Recorder :=
  src ← source_wrapped_lookup fuel name st;
  if negb (src =? 0) then
    let st :=
      if negb (playlist_next (source_at st src) =? 0)
      then store_source (playlist_next (source_at st src))
             (set_playlist_prev (playlist_prev (source_at st src))) st
      else st in
    let st :=
      if negb (playlist_prev (source_at st src) =? 0)
      then store_source (playlist_prev (source_at st src))
             (set_playlist_next (playlist_next (source_at st src))) st
      else store_context ctx (set_playlist (playlist_next (source_at st src))) st in
    let st :=
      if negb (hash_prev (source_at st src) =? 0)
      then store_source (hash_prev (source_at st src))
             (set_hash_next (hash_next (source_at st src))) st
      else store_context ctx
             (fun c => set_wrapped_source_hash
                         (<[Z.to_nat (hash_alname name) := hash_next (source_at st src)]>
                            (wrapped_source_hash c)) c) st in
    let st :=
      if negb (hash_next (source_at st src) =? 0)
      then store_source (hash_next (source_at st src))
             (set_hash_prev (hash_prev (source_at st src))) st
      else st in
    Some (set_source_heap (delete src (source_heap st)) st)
  else Some st.

Fixpoint unwrap_sources (fuel : nat) (ctx : Z) (names : list Z) (st : Recorder)
  : option Recorder :=
  match names with
  | [] => Some st
  | name :: names' =>
      st ← unwrap_source fuel ctx name st;
      unwrap_sources fuel ctx names' st
  end.

Definition alDeleteSources (fuel : nat) (n : Z) (names_ptr : Z) (names : list Z)
    (st : Recorder) : option Recorder :=
  let ctx := current_context st in
  let st := IO_START ALEE_alDeleteSources st in
  let st := emit (write_names n names_ptr names) st in
  let st := set_world (REAL_alDeleteSources n names (world st)) st in
  let '(alerr, st) := check_al_error_events st in
  st ←
    (if alerr =? AL_NO_ERROR then
       if negb (ctx =? 0) then unwrap_sources fuel ctx (take (Z.to_nat n) names) st
       else Some st
     else Some st);
  IO_END fuel st.

(** One round of the loop of [alDeleteBuffers]. *)
Definition unwrap_buffer (fuel : nat) (dev name : Z) (st : Recorder) : option Recorder :=
  buf ← buffer_wrapped_lookup fuel name st;
  if negb (buf =? 0) then
    let st :=
      if negb (buf_hash_prev (buffer_at st buf) =? 0)
      then store_buffer (buf_hash_prev (buffer_at st buf))
             (set_buf_hash_next (buf_hash_next (buffer_at st buf))) st
      else store_device dev
             (fun d => set_wrapped_buffer_hash
                         (<[Z.to_nat (hash_alname name) := buf_hash_next (buffer_at st buf)]>
                            (wrapped_buffer_hash d)) d) st in
    let st :=
      if negb (buf_hash_next (buffer_at st buf) =? 0)
      then store_buffer (buf_hash_next (buffer_at st buf))
             (set_buf_hash_prev (buf_hash_prev (buffer_at st buf))) st
      else st in
    Some (set_buffer_heap (delete buf (buffer_heap st)) st)
  else Some st.

Fixpoint unwrap_buffers (fuel : nat) (dev : Z) (names : list Z) (st : Recorder)
  : option Recorder :=
  match names with
  | [] => Some st
  | name :: names' =>
      st ← unwrap_buffer fuel dev name st;
      unwrap_buffers fuel dev names' st
  end.

Definition alDeleteBuffers (fuel : nat) (n : Z) (names_ptr : Z) (names : list Z)
    (st : Recorder) : option Recorder :=
  let dev :=
    if negb (current_context st =? 0)
    then ctx_device (context_at st (current_context st)) else 0 in
  let st := IO_START ALEE_alDeleteBuffers st in
  let st := emit (write_names n names_ptr names) st in
  let st := set_world (REAL_alDeleteBuffers n names (world st)) st in
  let '(alerr, st) := check_al_error_events st in
  st ←
    (if alerr =? AL_NO_ERROR then
       if negb (dev =? 0) then unwrap_buffers fuel dev (take (Z.to_nat n) names) st
       else Some st
     else Some st);
  IO_END fuel st.

Definition add_source_to_playlist (fuel : nat) (name : Z) (st : Recorder) : option Recorder :=
  src ← source_wrapped_lookup fuel name st;
  let ctx := current_context st in
  if negb (src =? 0) && negb (ctx =? 0)
     && (playlist_next (source_at st src) =? 0) && (playlist_prev (source_at st src) =? 0)
  then
    let st := store_source src (set_playlist_prev 0) st in
    let st := store_source src (set_playlist_next (playlist (context_at st ctx))) st in
    let st := store_context ctx (set_playlist src) st in
    Some (if negb (playlist_next (source_at st src) =? 0)
          then store_source (playlist_next (source_at st src)) (set_playlist_prev src) st
          else st)
  else Some st.

(** The latch [alGetError] reads: that of the current context, or the
    global one when there is none. *)
Definition al_errorlatch (st : Recorder) : Z :=
  if current_context st =? 0 then null_context_errorlatch st
  else ctx_errorlatch (context_at st (current_context st)).

(** The latch [alcGetError] reads for its argument. *)
Definition alc_errorlatch (_device : Z) (st : Recorder) : Z :=
  dev_errorlatch (device_at st (if negb (_device =? 0) then _device else null_device)).

(** A chain of [next] pointers is finite when the objects can be ranked
    so that every link goes down. *)
Definition descending (rank : Z -> nat) (next : Z -> Z) : Prop :=
  forall a, next a <> 0 -> (rank (next a) < rank a)%nat.

Definition finite_chains (bound : nat) (next : Z -> Z) : Prop :=
  exists rank : Z -> nat, (forall a, (rank a < bound)%nat) /\ descending rank next.

(** The [playlist_prev] of a source points at the source before it. *)
Definition prev_accurate (st : Recorder) : Prop :=
  forall a, playlist_prev (source_at st a) <> 0 ->
    playlist_next (source_at st (playlist_prev (source_at st a))) = a.

(** The shape the lists of the shadow state have as long as no pointer was
    wired wrongly: the device list, the context lists and the playlists
    end (after fewer than [bound] links), playlist back pointers are
    accurate, and the current context is a live one. *)
Record well_formed (bound : nat) (st : Recorder) : Prop := {
  wf_devices : finite_chains bound (fun a => dev_next (device_at st a));
  wf_contexts : finite_chains bound (fun a => ctx_next (context_at st a));
  wf_playlists : finite_chains bound (fun a => playlist_next (source_at st a));
  wf_prev : prev_accurate st;
  wf_current : current_context st <> 0 -> is_Some (context_heap st !! current_context st);
}.

(** How often the state of source [name] has been asked of the real
    library so far: once per poll of the source. *)
Definition polls_of (name : Z) (st : Recorder) : nat :=
  length (filter (fun q => q = (name, AL_SOURCE_STATE)) (source_queries st)).

Definition alSourcePlay (fuel : nat) (name : Z) (st : Recorder) : option Recorder :=
  let st := IO_START ALEE_alSourcePlay st in
  let st := emit (Rec.IO_UINT32 name) st in
  let st := set_world (REAL_alSourcePlay name (world st)) st in
  st ← add_source_to_playlist fuel name st;
  IO_END fuel st.

End WithRealAL.

End Recorder.

(** ** Sample values *)

(** Values to run the definitions on.  The tags are numbered in the order
    in which the recorder's sources name them; the properties below do
    not depend on the numbers. *)
Module Sample.

Definition constants : Constants :=
  {| ALTRACE_LOG_FILE_MAGIC := 0x0104E5A1;
     ALTRACE_LOG_FILE_FORMAT := 1;
     ALEE_EOS := 0;
     ALEE_ALERROR_TRIGGERED := 1;
     ALEE_ALCERROR_TRIGGERED := 2;
     ALEE_NEW_CALLSTACK_SYMS := 3;
     ALEE_DEVICE_STATE_CHANGED_BOOL := 4;
     ALEE_DEVICE_STATE_CHANGED_INT := 5;
     ALEE_CONTEXT_STATE_CHANGED_ENUM := 6;
     ALEE_CONTEXT_STATE_CHANGED_FLOAT := 7;
     ALEE_CONTEXT_STATE_CHANGED_STRING := 8;
     ALEE_LISTENER_STATE_CHANGED_FLOATV := 9;
     ALEE_SOURCE_STATE_CHANGED_BOOL := 10;
     ALEE_SOURCE_STATE_CHANGED_ENUM := 11;
     ALEE_SOURCE_STATE_CHANGED_INT := 12;
     ALEE_SOURCE_STATE_CHANGED_UINT := 13;
     ALEE_SOURCE_STATE_CHANGED_FLOAT := 14;
     ALEE_SOURCE_STATE_CHANGED_FLOAT3 := 15;
     ALEE_BUFFER_STATE_CHANGED_INT := 16;
     ALEE_alGetError := 17;
     ALEE_alcGetError := 18;
     ALEE_alcCloseDevice := 19;
     ALEE_alcDestroyContext := 20;
     ALEE_alGenSources := 21;
     ALEE_alDeleteSources := 22;
     ALEE_alDeleteBuffers := 23;
     ALEE_alSourcePlay := 24 |}.

(** A front end that knows the [alGetError] entry point and never
    cancels. *)
Definition front_end : Play.FrontEnd :=
  {| Play.decode_entrypoint := fun tag =>
       if tag =? 17 then Some Play.decode_alGetError else None;
     Play.progress_hook := fun _ _ _ => true |}.

(** A trace as the recorder writes it: the header, one [alGetError] call
    by raw thread [0x7F001234] with no stack frames that returned
    [AL_NO_ERROR], and the end of the stream. *)
Definition one_call_trace : list Z :=
  Rec.IO_UINT32 500 (Rec.IO_EVENTENUM 0
    (Rec.IO_ENUM 0
      (Rec.IO_UINT32 0 (Rec.IO_UINT64 0x7F001234 (Rec.IO_UINT32 250 (Rec.IO_EVENTENUM 17
        (Rec.IO_UINT32 1 (Rec.IO_UINT32 0x0104E5A1 [])))))))).

(** A file that is no trace at all. *)
Definition not_a_trace : list Z := [0x52; 0x49; 0x46; 0x46; 1; 0; 0; 0].

(** A trace whose first event has a tag nobody knows. *)
Definition unknown_tag_trace : list Z :=
  Rec.IO_EVENTENUM 9999 (Rec.IO_UINT32 1 (Rec.IO_UINT32 0x0104E5A1 [])).

(** A real library that can be scripted: the errors it holds for
    [alGetError] and [alcGetError], the error with which the next close,
    destroy or delete call fails (0 when it succeeds), what the next
    [AL_SOURCE_STATE] queries answer ([AL_STOPPED] once the list is used
    up), and the next source name and the next address [malloc] gives. *)
Record SampleWorld := {
  pending_al : Z;
  pending_alc : Z;
  fail_next : Z;
  source_states : list Z;
  next_name : Z;
  next_address : Z;
}.

Definition fail_with_alc (w : SampleWorld) : SampleWorld :=
  {| pending_al := pending_al w; pending_alc := fail_next w; fail_next := 0;
     source_states := source_states w; next_name := next_name w;
     next_address := next_address w |}.

Definition fail_with_al (w : SampleWorld) : SampleWorld :=
  {| pending_al := fail_next w; pending_alc := pending_alc w; fail_next := 0;
     source_states := source_states w; next_name := next_name w;
     next_address := next_address w |}.

Definition real_al : RealAL :=
  {| World := SampleWorld;
     platform := fun _ =>
       {| Callstack.env_now := 0; Callstack.env_thread := 1;
          Callstack.env_backtrace := []; Callstack.env_symbols := fun _ => None |};
     malloc := fun w =>
       (next_address w,
        {| pending_al := pending_al w; pending_alc := pending_alc w;
           fail_next := fail_next w; source_states := source_states w;
           next_name := next_name w; next_address := next_address w + 256 |});
     REAL_alGetError := fun w =>
       (pending_al w,
        {| pending_al := 0; pending_alc := pending_alc w; fail_next := fail_next w;
           source_states := source_states w; next_name := next_name w;
           next_address := next_address w |});
     REAL_alcGetError := fun _ w =>
       (pending_alc w,
        {| pending_al := pending_al w; pending_alc := 0; fail_next := fail_next w;
           source_states := source_states w; next_name := next_name w;
           next_address := next_address w |});
     REAL_alcGetIntegerv := fun _ _ ival w => (ival, w);
     REAL_alcCloseDevice := fun _ w =>
       if fail_next w =? 0 then (AL.ALC_TRUE, w) else (AL.ALC_FALSE, fail_with_alc w);
     REAL_alcDestroyContext := fun _ w => if fail_next w =? 0 then w else fail_with_alc w;
     REAL_alGenSources := fun n w =>
       (map (fun i => next_name w + Z.of_nat i) (seq 0 (Z.to_nat n)),
        {| pending_al := pending_al w; pending_alc := pending_alc w;
           fail_next := fail_next w; source_states := source_states w;
           next_name := next_name w + n; next_address := next_address w |});
     REAL_alDeleteSources := fun _ _ w => if fail_next w =? 0 then w else fail_with_al w;
     REAL_alDeleteBuffers := fun _ _ w => if fail_next w =? 0 then w else fail_with_al w;
     REAL_alSourcePlay := fun _ w => w;
     REAL_alGetSourcei := fun _ param ival w =>
       if param =? AL.AL_SOURCE_STATE then
         (hd AL.AL_STOPPED (source_states w),
          {| pending_al := pending_al w; pending_alc := pending_alc w;
             fail_next := fail_next w; source_states := tl (source_states w);
             next_name := next_name w; next_address := next_address w |})
       else (ival, w);
     REAL_alGetSourcef := fun _ _ fval w => (fval, w);
     REAL_alGetSourcefv := fun _ _ fval w => (fval, w) |}.

Definition quiet_world : SampleWorld :=
  {| pending_al := 0; pending_alc := 0; fail_next := 0; source_states := [];
     next_name := 1; next_address := 0x3000 |}.

(** The shadow state after [alcOpenDevice], [alcCreateContext] and
    [alcMakeContextCurrent] have succeeded once each: a playback device
    at [0x1000] at the head of the device list behind [null_device], and
    its one context at [0x2000], which is current. *)
Definition one_context (w : SampleWorld) : @Recorder.Recorder real_al :=
  let dev : Recorder.DeviceWrapper :=
    {| Recorder.device := 0xD0; Recorder.dev_errorlatch := 0; Recorder.iscapture := 0;
       Recorder.connected := 1; Recorder.supports_disconnect_ext := 0;
       Recorder.capture_samples := 0; Recorder.samplesize := 0;
       Recorder.dev_extension_string := None;
       Recorder.wrapped_buffer_hash := replicate 256 0;
       Recorder.contexts := 0x2000; Recorder.dev_prev := Recorder.null_device;
       Recorder.dev_next := 0 |} in
  let ctx : Recorder.ContextWrapper :=
    {| Recorder.ctx := 0xC0; Recorder.ctx_device := 0x1000;
       Recorder.ctx_extension_string := None; Recorder.ctx_errorlatch := 0;
       Recorder.checked_static_state := 1;
       Recorder.wrapped_source_hash := replicate 256 0;
       Recorder.ctx_state :=
         {| Recorder.distance_model := AL.AL_INVERSE_DISTANCE_CLAMPED;
            Recorder.doppler_factor := AL.float_1; Recorder.doppler_velocity := AL.float_1;
            Recorder.speed_of_sound := AL.float_343_3;
            Recorder.listener_position := [0; 0; 0];
            Recorder.listener_velocity := [0; 0; 0];
            Recorder.listener_orientation := [0; 0; AL.float_minus_1; 0; AL.float_1; 0];
            Recorder.listener_gain := AL.float_1 |};
       Recorder.playlist := 0;
       Recorder.ctx_next := 0; Recorder.ctx_prev := 0 |} in
  @Recorder.Build_Recorder real_al
    w [] ∅
    {[ Recorder.null_device := Recorder.set_dev_next 0x1000 Recorder.zero_device;
       0x1000 := dev ]}
    {[ 0x2000 := ctx ]}
    ∅ ∅ 0 0x2000 [].

(** The same with no context current. *)
Definition no_context (w : SampleWorld) : @Recorder.Recorder real_al :=
  @Recorder.set_current_context real_al 0 (one_context w).

(** The player about to read the string ["hi"] (written from a buffer
    that goes on after the terminator) with two more bytes behind it. *)
Definition hi_then_more : Play.Player :=
  Play.set_file (Rec.IO_STRING (Some [104; 105; 0; 77]) [] ++ [9; 9]) 0 Play.initial.

(** The player after the header of [unknown_tag_trace]. *)
Definition after_header : Play.Player :=
  (@Play.init_altrace_playback constants (Some unknown_tag_trace) Play.initial).2.

(** A [backtrace_symbols] that knows the frames of a table. *)
Fixpoint symbols_of (table : list (Z * list Z)) (frame : Z) : option (list Z) :=
  match table with
  | [] => None
  | (f, sym) :: table' => if f =? frame then Some sym else symbols_of table' frame
  end.

(** A wrapped call reached through [frames]; the two frames in front are
    the collector's own. *)
Definition call_from (frames : list Z) (table : list (Z * list Z)) : Callstack.CallEnv :=
  {| Callstack.env_now := 0; Callstack.env_thread := 1;
     Callstack.env_backtrace := 1 :: 2 :: frames;
     Callstack.env_symbols := symbols_of table |}.

(** Two calls whose stacks share the frame 100. *)
Definition two_calls : list (Z * Callstack.CallEnv) :=
  [(17, call_from [100; 200] [(100, [109; 0]); (200, [102; 0])]);
   (17, call_from [100; 300] [(100, [109; 0]); (300, [103; 0])])].

(** A call whose second frame has no symbol, while the third has one. *)
Definition gap_call : Callstack.CallEnv :=
  call_from [100; 200; 300] [(100, [109; 0]); (300, [103; 0])].

(** Real libraries in three moods: one that answers the next source-state
    queries from a list, one whose next close, destroy or delete call
    fails, and one that holds an AL error nobody has fetched yet. *)
Definition scripted (states : list Z) : SampleWorld :=
  {| pending_al := 0; pending_alc := 0; fail_next := 0; source_states := states;
     next_name := 1; next_address := 0x3000 |}.

Definition failing (err : Z) : SampleWorld :=
  {| pending_al := 0; pending_alc := 0; fail_next := err; source_states := [];
     next_name := 1; next_address := 0x3000 |}.

Definition holding (err : Z) : SampleWorld :=
  {| pending_al := err; pending_alc := 0; fail_next := 0; source_states := [];
     next_name := 1; next_address := 0x3000 |}.

(** A real library that holds an AL error and an ALC error nobody has
    fetched yet. *)
Definition holding_both (alerr alcerr : Z) : SampleWorld :=
  {| pending_al := alerr; pending_alc := alcerr; fail_next := 0; source_states := [];
     next_name := 1; next_address := 0x3000 |}.

(** The shadow state after [alGenSources(1, &name)] has given source 1
    and [alSourcePlay(1)] has started it: the source's record, at
    [0x3000], is the playlist of the context. *)
Definition playing_source : @Recorder.Recorder real_al :=
  let st0 := one_context (scripted [AL.AL_INITIAL; AL.AL_PLAYING; AL.AL_PLAYING]) in
  default st0
    ('(_, st1) ← @Recorder.alGenSources constants real_al 10 1 0x7000 st0;
     @Recorder.alSourcePlay constants real_al 10 1 st1).

End Sample.

(** ** The tags of the events that are not API calls *)

Module Events.

(** [EventEnum] is declared in [altrace_common.h]: the events below first
    and then one tag per entry point of [altrace_entrypoints.h].  Being
    values of one [enum] the tags differ from each other, they fit the 32
    bits they are written in, and none of those listed here has an entry
    in the table of API decoders; [enumerated] says so of a set of
    constants and a decoder table. *)
Definition event_tags `{Constants} : list Z :=
  [ALEE_EOS; ALEE_NEW_CALLSTACK_SYMS; ALEE_ALERROR_TRIGGERED; ALEE_ALCERROR_TRIGGERED;
   ALEE_DEVICE_STATE_CHANGED_BOOL; ALEE_DEVICE_STATE_CHANGED_INT;
   ALEE_CONTEXT_STATE_CHANGED_ENUM; ALEE_CONTEXT_STATE_CHANGED_FLOAT;
   ALEE_CONTEXT_STATE_CHANGED_STRING; ALEE_LISTENER_STATE_CHANGED_FLOATV;
   ALEE_SOURCE_STATE_CHANGED_BOOL; ALEE_SOURCE_STATE_CHANGED_ENUM;
   ALEE_SOURCE_STATE_CHANGED_INT; ALEE_SOURCE_STATE_CHANGED_UINT;
   ALEE_SOURCE_STATE_CHANGED_FLOAT; ALEE_SOURCE_STATE_CHANGED_FLOAT3;
   ALEE_BUFFER_STATE_CHANGED_INT].

Definition enumerated `{Constants} `{Play.FrontEnd} : Prop :=
  NoDup event_tags /\
  Forall (fun tag => 0 <= tag < 2 ^ 32 /\ Play.decode_entrypoint tag = None) event_tags.

End Events.

(** ** The end of a recording ([altrace_record.c], lines 498-531) *)

Module Session.

Import Int.

Section WithRealAL.

Context `{Constants} `{RealAL}.

(** [quit_altrace_record] with the log open: the end-of-stream tag and
    the clock go to the log with two plain [write]s of four bytes, and
    the frame map is freed.  What it does to the mutex and to the real
    library's handle is not modelled. *)
Definition quit_altrace_record (st : Recorder.Recorder) : Recorder.Recorder :=
  let eos := le_bytes 4 (to_uint32 ALEE_EOS) in
  let ticks := le_bytes 4 (Callstack.env_now (platform (Recorder.world st))) in
  Recorder.set_stackframes ∅
    (Recorder.set_logfd (Rec.write (Rec.write (Recorder.logfd st) eos) ticks) st).

End WithRealAL.

End Session.

(** ** The entry points that take arrays ([altrace_record.c]) *)

(** The tags of the further entry points, declared like those of
    [Constants] in [altrace_entrypoints.h]. *)
Class EntryPoints := {
  ALEE_alcCreateContext : Z;
  ALEE_alcMakeContextCurrent : Z;
  ALEE_alcGetIntegerv : Z;
  ALEE_alcCaptureSamples : Z;
  ALEE_alGetBooleanv : Z;
  ALEE_alGetIntegerv : Z;
  ALEE_alGetFloatv : Z;
  ALEE_alGetDoublev : Z;
  ALEE_alListenerfv : Z;
  ALEE_alListeneriv : Z;
  ALEE_alGetListenerfv : Z;
  ALEE_alGetListeneriv : Z;
  ALEE_alSourcefv : Z;
  ALEE_alSourceiv : Z;
  ALEE_alGetSourcefv : Z;
  ALEE_alGetSourceiv : Z;
  ALEE_alSourcePlayv : Z;
  ALEE_alSourcePausev : Z;
  ALEE_alSourceRewindv : Z;
  ALEE_alSourceStopv : Z;
  ALEE_alSourceQueueBuffers : Z;
  ALEE_alSourceUnqueueBuffers : Z;
  ALEE_alGenBuffers : Z;
  ALEE_alBufferData : Z;
  ALEE_alBufferfv : Z;
  ALEE_alBufferiv : Z;
  ALEE_alGetBufferfv : Z;
  ALEE_alGetBufferiv : Z;
}.

(** The further entry points of the real library.  An array argument
    reaches the real library as [None] for [NULL] and as the elements
    found at the pointer otherwise; an array the real library fills comes
    back as the elements found afterwards.  As with [RealAL], nothing is
    assumed of what the library answers.  [REAL_alcGetIntegerv_to] and
    [REAL_alGetSourcefv_to] are [REAL_alcGetIntegerv] and
    [REAL_alGetSourcefv] called with the application's own pointer.
    [float_of_int] is the conversion [(float) i] of the C compiler,
    given as the bit pattern of the result. *)
Class RealCalls `{RealAL} := {
  float_of_int : Z -> Z;
  REAL_alcCreateContext : Z -> option (list Z) -> World -> Z * World;
  REAL_alcMakeContextCurrent : Z -> World -> Z * World;
  REAL_alcGetIntegerv_to : Z -> Z -> Z -> option (list Z) -> World -> list Z * World;
  REAL_alcCaptureSamples : Z -> option (list Z) -> Z -> World -> list Z * World;
  REAL_alGetString : Z -> World -> option (list Z) * World;
  REAL_alGetBooleanv : Z -> option (list Z) -> World -> list Z * World;
  REAL_alGetIntegerv : Z -> option (list Z) -> World -> list Z * World;
  REAL_alGetFloatv : Z -> option (list Z) -> World -> list Z * World;
  REAL_alGetDoublev : Z -> option (list Z) -> World -> list Z * World;
  REAL_alListenerfv : Z -> option (list Z) -> World -> World;
  REAL_alListeneriv : Z -> option (list Z) -> World -> World;
  REAL_alGetListenerfv : Z -> option (list Z) -> World -> list Z * World;
  REAL_alGetListeneriv : Z -> option (list Z) -> World -> list Z * World;
  REAL_alSourcefv : Z -> Z -> option (list Z) -> World -> World;
  REAL_alSourceiv : Z -> Z -> option (list Z) -> World -> World;
  REAL_alGetSourcefv_to : Z -> Z -> option (list Z) -> World -> list Z * World;
  REAL_alGetSourceiv : Z -> Z -> option (list Z) -> World -> list Z * World;
  REAL_alSourcePlayv : Z -> option (list Z) -> World -> World;
  REAL_alSourcePausev : Z -> option (list Z) -> World -> World;
  REAL_alSourceRewindv : Z -> option (list Z) -> World -> World;
  REAL_alSourceStopv : Z -> option (list Z) -> World -> World;
  REAL_alSourceQueueBuffers : Z -> Z -> option (list Z) -> World -> World;
  REAL_alSourceUnqueueBuffers : Z -> Z -> option (list Z) -> World -> list Z * World;
  REAL_alGenBuffers : Z -> option (list Z) -> World -> list Z * World;
  REAL_alBufferData : Z -> Z -> option (list Z) -> Z -> Z -> World -> World;
  REAL_alBufferfv : Z -> Z -> option (list Z) -> World -> World;
  REAL_alBufferiv : Z -> Z -> option (list Z) -> World -> World;
  REAL_alGetBufferfv : Z -> Z -> option (list Z) -> World -> list Z * World;
  REAL_alGetBufferiv : Z -> Z -> option (list Z) -> World -> list Z * World;
  REAL_alGetBufferi : Z -> Z -> Z -> World -> Z * World;
}.

Module Calls.

Import Int AL Recorder.

Definition set_checked_static_state (v : Z) (c : ContextWrapper) : ContextWrapper :=
  {| ctx := ctx c; ctx_device := ctx_device c;
     ctx_extension_string := ctx_extension_string c; ctx_errorlatch := ctx_errorlatch c;
     checked_static_state := v; wrapped_source_hash := wrapped_source_hash c;
     ctx_state := ctx_state c; playlist := playlist c; ctx_next := ctx_next c;
     ctx_prev := ctx_prev c |}.

Definition set_ctx_state (v : ContextState) (c : ContextWrapper) : ContextWrapper :=
  {| ctx := ctx c; ctx_device := ctx_device c;
     ctx_extension_string := ctx_extension_string c; ctx_errorlatch := ctx_errorlatch c;
     checked_static_state := checked_static_state c;
     wrapped_source_hash := wrapped_source_hash c; ctx_state := v; playlist := playlist c;
     ctx_next := ctx_next c; ctx_prev := ctx_prev c |}.

Definition set_distance_model (v : Z) (s : ContextState) : ContextState :=
  {| distance_model := v; doppler_factor := doppler_factor s;
     doppler_velocity := doppler_velocity s; speed_of_sound := speed_of_sound s;
     listener_position := listener_position s; listener_velocity := listener_velocity s;
     listener_orientation := listener_orientation s; listener_gain := listener_gain s |}.

Definition set_doppler_factor (v : Z) (s : ContextState) : ContextState :=
  {| distance_model := distance_model s; doppler_factor := v;
     doppler_velocity := doppler_velocity s; speed_of_sound := speed_of_sound s;
     listener_position := listener_position s; listener_velocity := listener_velocity s;
     listener_orientation := listener_orientation s; listener_gain := listener_gain s |}.

Definition set_doppler_velocity (v : Z) (s : ContextState) : ContextState :=
  {| distance_model := distance_model s; doppler_factor := doppler_factor s;
     doppler_velocity := v; speed_of_sound := speed_of_sound s;
     listener_position := listener_position s; listener_velocity := listener_velocity s;
     listener_orientation := listener_orientation s; listener_gain := listener_gain s |}.

Definition set_speed_of_sound (v : Z) (s : ContextState) : ContextState :=
  {| distance_model := distance_model s; doppler_factor := doppler_factor s;
     doppler_velocity := doppler_velocity s; speed_of_sound := v;
     listener_position := listener_position s; listener_velocity := listener_velocity s;
     listener_orientation := listener_orientation s; listener_gain := listener_gain s |}.

Definition set_listener_position (v : list Z) (s : ContextState) : ContextState :=
  {| distance_model := distance_model s; doppler_factor := doppler_factor s;
     doppler_velocity := doppler_velocity s; speed_of_sound := speed_of_sound s;
     listener_position := v; listener_velocity := listener_velocity s;
     listener_orientation := listener_orientation s; listener_gain := listener_gain s |}.

Definition set_listener_velocity (v : list Z) (s : ContextState) : ContextState :=
  {| distance_model := distance_model s; doppler_factor := doppler_factor s;
     doppler_velocity := doppler_velocity s; speed_of_sound := speed_of_sound s;
     listener_position := listener_position s; listener_velocity := v;
     listener_orientation := listener_orientation s; listener_gain := listener_gain s |}.

Definition set_listener_orientation (v : list Z) (s : ContextState) : ContextState :=
  {| distance_model := distance_model s; doppler_factor := doppler_factor s;
     doppler_velocity := doppler_velocity s; speed_of_sound := speed_of_sound s;
     listener_position := listener_position s; listener_velocity := listener_velocity s;
     listener_orientation := v; listener_gain := listener_gain s |}.

Definition set_listener_gain (v : Z) (s : ContextState) : ContextState :=
  {| distance_model := distance_model s; doppler_factor := doppler_factor s;
     doppler_velocity := doppler_velocity s; speed_of_sound := speed_of_sound s;
     listener_position := listener_position s; listener_velocity := listener_velocity s;
     listener_orientation := listener_orientation s; listener_gain := v |}.

Definition set_channels (v : Z) (b : BufferWrapper) : BufferWrapper :=
  {| buf_name := buf_name b; channels := v; bits := bits b; frequency := frequency b;
     size := size b; buf_hash_prev := buf_hash_prev b; buf_hash_next := buf_hash_next b |}.

Definition set_bits (v : Z) (b : BufferWrapper) : BufferWrapper :=
  {| buf_name := buf_name b; channels := channels b; bits := v; frequency := frequency b;
     size := size b; buf_hash_prev := buf_hash_prev b; buf_hash_next := buf_hash_next b |}.

Definition set_frequency (v : Z) (b : BufferWrapper) : BufferWrapper :=
  {| buf_name := buf_name b; channels := channels b; bits := bits b; frequency := v;
     size := size b; buf_hash_prev := buf_hash_prev b; buf_hash_next := buf_hash_next b |}.

Definition set_size (v : Z) (b : BufferWrapper) : BufferWrapper :=
  {| buf_name := buf_name b; channels := channels b; bits := bits b;
     frequency := frequency b; size := v; buf_hash_prev := buf_hash_prev b;
     buf_hash_next := buf_hash_next b |}.

(** An array argument is its address and the elements found there.
    [NULL] points at nothing. *)
Definition pointee (ptr : Z) (elements : list Z) : option (list Z) :=
  if ptr =? 0 then None else Some elements.


(** [values[i]]; reading past the elements given reads zero. *)
Definition element (values : list Z) (i : nat) : Z := default 0 (values !! i).

(** [IO_UINT32(numvals)] and the loop that writes [values[i]] for
    [i < numvals]. *)
Definition write_values (io : Z -> list Z -> list Z) (numvals : Z) (values : list Z)
    (fd : list Z) : list Z :=
  let fd := Rec.IO_UINT32 numvals fd in
  fold_left (fun fd v => io v fd) (take (Z.to_nat numvals) values) fd.

(** *** The encodings of an array argument *)

Definition int32_bytes (v : Z) : list Z := le_bytes 4 (to_uint32 v).
Definition float_bytes (bits : Z) : list Z := le_bytes 4 bits.
Definition double_bytes (bits : Z) : list Z := le_bytes 8 bits.




Section WithReal.

Context `{Constants} `{EntryPoints} `{RealAL} `{!RealCalls}.

(** A loop over the names of an array whose body may not return. *)
Fixpoint for_each (body : Z -> Recorder -> option Recorder) (names : list Z) (st : Recorder)
  : option Recorder :=
  match names with
  | [] => Some st
  | name :: names' =>
      st ← body name st;
      for_each body names' st
  end.

(** *** The context and listener state *)

(** What [check_context_state_enum], [check_context_state_float] and
    [check_listener_state_floatv] do when the value has changed. *)
Definition context_state_changed (tag param : Z) (io : list Z -> list Z)
    (store : ContextState -> ContextState) (st : Recorder) : Recorder :=
  let st := emit (Rec.IO_EVENTENUM tag) st in
  let st := emit (Rec.IO_PTR (current_context st)) st in
  let st := emit (Rec.IO_ENUM param) st in
  let st := emit io st in
  store_context (current_context st) (fun c => set_ctx_state (store (ctx_state c)) c) st.

Definition current_state (st : Recorder) : ContextState :=
  ctx_state (context_at st (current_context st)).

(** [memcmp] and [memcpy] work on the first [numfloats] floats of the
    cached vector. *)
Definition check_listener_state_floatv (param : Z) (numfloats : nat)
    (current : ContextState -> list Z)
    (set_current : list Z -> ContextState -> ContextState) (st : Recorder) : Recorder :=
  if negb (current_context st =? 0) then
    let '(fval, w) := REAL_alGetListenerfv param (Some (replicate 6 float_0)) (world st) in
    let st := set_world w st in
    if negb (bool_decide (take numfloats fval = take numfloats (current (current_state st))))
    then
      context_state_changed ALEE_LISTENER_STATE_CHANGED_FLOATV param
        (write_values Rec.IO_FLOAT (Z.of_nat numfloats) fval)
        (fun s => set_current (take numfloats fval ++ drop numfloats (current s)) s) st
    else st
  else st.

Definition check_listener_state (st : Recorder) : Recorder :=
  if negb (current_context st =? 0) then
    let st := check_listener_state_floatv AL_POSITION 3 listener_position
                set_listener_position st in
    let st := check_listener_state_floatv AL_VELOCITY 3 listener_velocity
                set_listener_velocity st in
    let st := check_listener_state_floatv AL_ORIENTATION 6 listener_orientation
                set_listener_orientation st in
    check_listener_state_floatv AL_GAIN 1 (fun s => [listener_gain s])
      (fun v s => set_listener_gain (element v 0) s) st
  else st.

Definition check_context_state_enum (param : Z) (current : ContextState -> Z)
    (set_current : Z -> ContextState -> ContextState) (st : Recorder) : Recorder :=
  if negb (current_context st =? 0) then
    let '(ival, w) := REAL_alGetIntegerv param (Some [0]) (world st) in
    let st := set_world w st in
    let newval := element ival 0 in
    if negb (newval =? current (current_state st)) then
      context_state_changed ALEE_CONTEXT_STATE_CHANGED_ENUM param (Rec.IO_ENUM newval)
        (set_current newval) st
    else st
  else st.

Definition check_context_state_float (param : Z) (current : ContextState -> Z)
    (set_current : Z -> ContextState -> ContextState) (st : Recorder) : Recorder :=
  if negb (current_context st =? 0) then
    let '(fvals, w) := REAL_alGetFloatv param (Some [float_0]) (world st) in
    let st := set_world w st in
    let fval := element fvals 0 in
    if float_ne fval (current (current_state st)) then
      context_state_changed ALEE_CONTEXT_STATE_CHANGED_FLOAT param (Rec.IO_FLOAT fval)
        (set_current fval) st
    else st
  else st.

Definition check_context_state (st : Recorder) : Recorder :=
  if negb (current_context st =? 0) then
    let st := check_context_state_enum AL_DISTANCE_MODEL distance_model set_distance_model st in
    let st := check_context_state_float AL_DOPPLER_FACTOR doppler_factor set_doppler_factor st in
    let st := check_context_state_float AL_DOPPLER_VELOCITY doppler_velocity
                set_doppler_velocity st in
    let st := check_context_state_float AL_SPEED_OF_SOUND speed_of_sound set_speed_of_sound st in
    check_listener_state st
  else st.

Definition query_context_string (ctx param : Z) (st : Recorder) : Recorder :=
  let '(str, w) := REAL_alGetString param (world st) in
  let st := set_world w st in
  let st := emit (Rec.IO_EVENTENUM ALEE_CONTEXT_STATE_CHANGED_STRING) st in
  let st := emit (Rec.IO_PTR ctx) st in
  let st := emit (Rec.IO_ENUM param) st in
  emit (Rec.IO_STRING str) st.

(** [query_context_attribs] has an empty body. *)
Definition check_context_static_state (ctx : Z) (st : Recorder) : Recorder :=
  if negb (ctx =? 0) && (checked_static_state (context_at st ctx) =? 0) then
    let st := store_context ctx (set_checked_static_state AL_TRUE) st in
    let st := query_context_string ctx AL_VERSION st in
    let st := query_context_string ctx AL_RENDERER st in
    let st := query_context_string ctx AL_VENDOR st in
    query_context_string ctx AL_EXTENSIONS st
  else st.

(** *** Buffers *)

Definition check_buffer_state_int (buf param : Z) (current : BufferWrapper -> Z)
    (set_current : Z -> BufferWrapper -> BufferWrapper) (st : Recorder) : Recorder :=
  let '(ival, w) := REAL_alGetBufferi (buf_name (buffer_at st buf)) param 0 (world st) in
  let st := set_world w st in
  if negb (ival =? current (buffer_at st buf)) then
    let st := emit (Rec.IO_EVENTENUM ALEE_BUFFER_STATE_CHANGED_INT) st in
    let st := emit (Rec.IO_UINT32 (buf_name (buffer_at st buf))) st in
    let st := emit (Rec.IO_ENUM param) st in
    let st := emit (Rec.IO_INT32 ival) st in
    store_buffer buf (set_current ival) st
  else st.

Definition check_buffer_state (buf : Z) (st : Recorder) : Recorder :=
  let name := if negb (buf =? 0) then buf_name (buffer_at st buf) else 0 in
  if negb (name =? 0) then
    let st := check_buffer_state_int buf AL_FREQUENCY frequency set_frequency st in
    let st := check_buffer_state_int buf AL_SIZE size set_size st in
    let st := check_buffer_state_int buf AL_BITS bits set_bits st in
    check_buffer_state_int buf AL_CHANNELS channels set_channels st
  else st.


Definition init_buffer_state (buf : Z) (name : Z) (st : Recorder) : Recorder :=
  let b :=
    {| buf_name := name; channels := 1; bits := 16; frequency := 0; size := 0;
       buf_hash_prev := 0; buf_hash_next := 0 |} in
  check_buffer_state buf (store_buffer buf (fun _ => b) st).

(** One round of the loop of [alGenBuffers] that wraps a new name;
    [None] when [malloc] fails and [out_of_memory] ends the process. *)
Definition wrap_buffer (dev name : Z) (st : Recorder) : option Recorder :=
  if negb (name =? 0) then
    let hash := hash_alname name in
    let '(buf, w) := malloc (world st) in
    let st := set_world w st in
    if buf =? 0 then None
    else
      let st := set_buffer_heap (<[buf := zero_buffer]> (buffer_heap st)) st in
      let st := init_buffer_state buf name st in
      let head := bucket (wrapped_buffer_hash (device_at st dev)) hash in
      let st := store_buffer buf (set_buf_hash_next head) st in
      let st := if negb (head =? 0) then store_buffer head (set_buf_hash_prev buf) st else st in
      Some (store_device dev
              (fun d => set_wrapped_buffer_hash
                          (<[Z.to_nat hash := buf]> (wrapped_buffer_hash d)) d) st)
  else Some st.

(** [None] also when the [memset] or the loop goes through [NULL] or the
    count is negative, which ends the process. *)
Definition alGenBuffers (fuel : nat) (n : Z) (names_ptr : Z) (st : Recorder)
  : option (list Z * Recorder) :=
  let dev :=
    if negb (current_context st =? 0)
    then ctx_device (context_at st (current_context st)) else 0 in
  if (n <? 0) || ((names_ptr =? 0) && (0 <? n)) then None
  else
    let '(names, w) :=
      REAL_alGenBuffers n (pointee names_ptr (replicate (Z.to_nat n) 0)) (world st) in
    let st := set_world w st in
    let st := IO_START ALEE_alGenBuffers st in
    let st := emit (write_names n names_ptr names) st in
    st ← (if negb (dev =? 0) then for_each (wrap_buffer dev) (take (Z.to_nat n) names) st
          else Some st);
    st ← IO_END fuel st;
    Some (names, st).


(** *** Arrays of values *)





















Definition source_scalars (name param : Z) (fd : list Z) : list Z :=
  Rec.IO_ENUM param (Rec.IO_UINT32 name fd).









(** *** Arrays of names *)








(** *** The ALC entry points *)

(** [while (attrlist[attrcount] != 0) { attrcount += 2; }] from
    [attrcount] on; [fuel] rounds are enough when [fuel] is above the
    number of elements given. *)
Fixpoint count_attrs (fuel : nat) (attrlist : list Z) (attrcount : nat) : nat :=
  match fuel with
  | O => attrcount
  | S fuel' =>
      if element attrlist attrcount =? 0 then attrcount
      else count_attrs fuel' attrlist (attrcount + 2)
  end.

(** The count [alcCreateContext] writes for its attribute list: the
    pairs up to the terminating zero, and the zero. *)
Definition attr_count (attrlist_ptr : Z) (attrlist : list Z) : nat :=
  if negb (attrlist_ptr =? 0)
  then (count_attrs (S (length attrlist)) attrlist 0 + 1)%nat else O.

Definition write_attrs (attrlist_ptr : Z) (attrlist : list Z) (fd : list Z) : list Z :=
  let attrcount := attr_count attrlist_ptr attrlist in
  let fd := Rec.IO_UINT32 (Z.of_nat attrcount) fd in
  if negb (attrlist_ptr =? 0)
  then fold_left (fun fd i => Rec.IO_INT32 (element attrlist i) fd) (seq 0 attrcount) fd
  else fd.


Definition alcMakeContextCurrent (fuel : nat) (_ctx : Z) (st : Recorder)
  : option (Z * Recorder) :=
  let ctx := _ctx in
  let st := IO_START ALEE_alcMakeContextCurrent st in
  let st := emit (Rec.IO_PTR ctx) st in
  let '(retval, w) :=
    REAL_alcMakeContextCurrent (if negb (ctx =? 0) then Recorder.ctx (context_at st ctx) else 0)
      (world st) in
  let st := set_world w st in
  let st := emit (Rec.IO_ALCBOOLEAN retval) st in
  let st :=
    if negb (retval =? 0) then
      let st := set_current_context ctx st in
      if negb (ctx =? 0) then check_context_state (check_context_static_state ctx st) else st
    else st in
  st ← IO_END_ALC fuel
         (if negb (current_context st =? 0)
          then ctx_device (context_at st (current_context st)) else 0) st;
  Some (retval, st).



(** *** The calls that write an array, as one type *)



(** *** What each call puts behind its entry *)





End WithReal.

End Calls.

(** ** Sample values for the array entry points *)

Module SampleCalls.

Import Sample.

Definition entry_points : EntryPoints :=
  {| ALEE_alcCreateContext := 25;
     ALEE_alcMakeContextCurrent := 26;
     ALEE_alcGetIntegerv := 27;
     ALEE_alcCaptureSamples := 28;
     ALEE_alGetBooleanv := 29;
     ALEE_alGetIntegerv := 30;
     ALEE_alGetFloatv := 31;
     ALEE_alGetDoublev := 32;
     ALEE_alListenerfv := 33;
     ALEE_alListeneriv := 34;
     ALEE_alGetListenerfv := 35;
     ALEE_alGetListeneriv := 36;
     ALEE_alSourcefv := 37;
     ALEE_alSourceiv := 38;
     ALEE_alGetSourcefv := 39;
     ALEE_alGetSourceiv := 40;
     ALEE_alSourcePlayv := 41;
     ALEE_alSourcePausev := 42;
     ALEE_alSourceRewindv := 43;
     ALEE_alSourceStopv := 44;
     ALEE_alSourceQueueBuffers := 45;
     ALEE_alSourceUnqueueBuffers := 46;
     ALEE_alGenBuffers := 47;
     ALEE_alBufferData := 48;
     ALEE_alBufferfv := 49;
     ALEE_alBufferiv := 50;
     ALEE_alGetBufferfv := 51;
     ALEE_alGetBufferiv := 52 |}.

(** A real library that accepts every call, leaves the arrays it is
    given as they are, names buffers like it names sources, and knows
    its version, ["1.1"], only.  The conversion to [float] is right for
    0 and 1, which is all the samples convert. *)
Definition real_calls : @RealCalls real_al :=
  {| float_of_int := fun i => if i =? 1 then AL.float_1 else AL.float_0;
     REAL_alcCreateContext := fun _ _ (w : @World real_al) => (0xC1, w);
     REAL_alcMakeContextCurrent := fun _ (w : @World real_al) => (AL.ALC_TRUE, w);
     REAL_alcGetIntegerv_to := fun _ _ _ values (w : @World real_al) => (default [] values, w);
     REAL_alcCaptureSamples := fun _ room _ (w : @World real_al) => (default [] room, w);
     REAL_alGetString := fun param (w : @World real_al) =>
       (if param =? AL.AL_VERSION then Some [49; 46; 49; 0] else None, w);
     REAL_alGetBooleanv := fun _ values (w : @World real_al) => (default [] values, w);
     REAL_alGetIntegerv := fun _ values (w : @World real_al) => (default [] values, w);
     REAL_alGetFloatv := fun _ values (w : @World real_al) => (default [] values, w);
     REAL_alGetDoublev := fun _ values (w : @World real_al) => (default [] values, w);
     REAL_alListenerfv := fun _ _ (w : @World real_al) => w;
     REAL_alListeneriv := fun _ _ (w : @World real_al) => w;
     REAL_alGetListenerfv := fun _ values (w : @World real_al) => (default [] values, w);
     REAL_alGetListeneriv := fun _ values (w : @World real_al) => (default [] values, w);
     REAL_alSourcefv := fun _ _ _ (w : @World real_al) => w;
     REAL_alSourceiv := fun _ _ _ (w : @World real_al) => w;
     REAL_alGetSourcefv_to := fun _ _ values (w : @World real_al) => (default [] values, w);
     REAL_alGetSourceiv := fun _ _ values (w : @World real_al) => (default [] values, w);
     REAL_alSourcePlayv := fun _ _ (w : @World real_al) => w;
     REAL_alSourcePausev := fun _ _ (w : @World real_al) => w;
     REAL_alSourceRewindv := fun _ _ (w : @World real_al) => w;
     REAL_alSourceStopv := fun _ _ (w : @World real_al) => w;
     REAL_alSourceQueueBuffers := fun _ _ _ (w : @World real_al) => w;
     REAL_alSourceUnqueueBuffers := fun _ _ bufnames (w : @World real_al) =>
       (default [] bufnames, w);
     REAL_alGenBuffers := fun n _ (w : @World real_al) => @REAL_alGenSources real_al n w;
     REAL_alBufferData := fun _ _ _ _ _ (w : @World real_al) => w;
     REAL_alBufferfv := fun _ _ _ (w : @World real_al) => w;
     REAL_alBufferiv := fun _ _ _ (w : @World real_al) => w;
     REAL_alGetBufferfv := fun _ _ values (w : @World real_al) => (default [] values, w);
     REAL_alGetBufferiv := fun _ _ values (w : @World real_al) => (default [] values, w);
     REAL_alGetBufferi := fun _ _ ival (w : @World real_al) => (ival, w) |}.

(** The shadow state after [alGenSources(1, &name)] has given source 1
    to an application whose real library will fail the next delete
    call. *)
Definition one_source : @Recorder.Recorder real_al :=
  let st0 := one_context (failing AL.AL_INVALID_NAME) in
  default st0 (snd <$> @Recorder.alGenSources constants real_al 10 1 0x7000 st0).

(** The same for a buffer: [alGenBuffers(1, &name)] has given buffer 1. *)
Definition one_buffer : @Recorder.Recorder real_al :=
  let st0 := one_context (failing AL.AL_INVALID_NAME) in
  default st0
    (snd <$> @Calls.alGenBuffers constants entry_points real_al real_calls 10 1 0x7000 st0).

End SampleCalls.

(** * Properties *)

(** ** Little-endian integers *)

Module IntFacts.

Import Int.

Lemma land_255 (x : Z) : Z.land x 255 = x mod 256.
Proof. change 255 with (Z.ones 8). rewrite Z.land_ones by lia. reflexivity. Qed.

Lemma le_bytes_length (n : nat) (x : Z) : length (le_bytes n x) = n.
Proof. revert x. induction n as [|n IH]; intros x; simpl; [reflexivity|]. by rewrite IH. Qed.

Lemma lor_byte (b v : Z) : 0 <= b < 256 -> Z.lor b (Z.shiftl v 8) = b + 256 * v.
Proof.
  intros Hb. rewrite Z.shiftl_mul_pow2 by lia.
  rewrite <- Z.lxor_lor.
  - rewrite <- Z.add_nocarry_lxor; [change (2 ^ 8) with 256; lia|].
    apply Z.bits_inj'. intros k Hk. rewrite Z.land_spec, Z.bits_0.
    destruct (Z.lt_ge_cases k 8) as [Hlt|Hge].
    + rewrite Z.mul_pow2_bits_low by lia. apply andb_false_r.
    + replace b with (b mod 2 ^ 8) by (apply Z.mod_small; change (2 ^ 8) with 256; lia).
      rewrite Z.mod_pow2_bits_high by lia. reflexivity.
  - apply Z.bits_inj'. intros k Hk. rewrite Z.land_spec, Z.bits_0.
    destruct (Z.lt_ge_cases k 8) as [Hlt|Hge].
    + rewrite Z.mul_pow2_bits_low by lia. apply andb_false_r.
    + replace b with (b mod 2 ^ 8) by (apply Z.mod_small; change (2 ^ 8) with 256; lia).
      rewrite Z.mod_pow2_bits_high by lia. reflexivity.
Qed.

Lemma le_value_le_bytes (n : nat) (x : Z) :
  le_value (le_bytes n x) = x mod 2 ^ (8 * Z.of_nat n).
Proof.
  revert x. induction n as [|n IH]; intros x.
  - simpl. rewrite Z.mod_1_r. reflexivity.
  - cbn [le_bytes le_value]. rewrite IH, land_255, Z.shiftr_div_pow2 by lia.
    rewrite lor_byte by (apply Z.mod_pos_bound; lia).
    replace (8 * Z.of_nat (S n)) with (8 + 8 * Z.of_nat n) by lia.
    rewrite Z.pow_add_r by lia. change (2 ^ 8) with 256.
    rewrite Z.rem_mul_r by lia. reflexivity.
Qed.

Lemma le_value_le_bytes_small (n : nat) (x : Z) :
  0 <= x < 2 ^ (8 * Z.of_nat n) -> le_value (le_bytes n x) = x.
Proof. intros H. rewrite le_value_le_bytes. by apply Z.mod_small. Qed.

End IntFacts.

(** ** The string codec *)

Module CodecFacts.

Import Int IntFacts.

Lemma strlen_le (buf : list Z) : (Rec.strlen buf <= length buf)%nat.
Proof. induction buf as [|b buf IH]; simpl; [lia|]. destruct (b =? 0); simpl; lia. Qed.

Lemma strlen_take (buf : list Z) : Rec.strlen (take (Rec.strlen buf) buf ++ [0]) = Rec.strlen buf.
Proof.
  induction buf as [|b buf IH]; simpl; [reflexivity|].
  destruct (b =? 0) eqn:E; simpl; [reflexivity|]. rewrite E. by rewrite IH.
Qed.

Lemma take_strlen_take (buf : list Z) :
  take (Rec.strlen buf) (take (Rec.strlen buf) buf ++ [0]) = take (Rec.strlen buf) buf.
Proof.
  assert (H := strlen_le buf).
  rewrite take_app_le by (rewrite length_take; lia).
  rewrite take_take. f_equal. lia.
Qed.

(** What [IO_STRING] appends to the log. *)
Lemma IO_STRING_bytes (str : option (list Z)) (fd : list Z) :
  Rec.IO_STRING str fd =
    fd ++ match str with
          | None => le_bytes 8 Rec.NULL_LENGTH
          | Some buf =>
              le_bytes 8 (to_uint64 (Z.of_nat (Rec.strlen buf))) ++ take (Rec.strlen buf) buf
          end.
Proof.
  destruct str as [buf|]; unfold Rec.IO_STRING, Rec.IO_UINT64, Rec.writele64, Rec.write;
    [|reflexivity].
  destruct (0 <? Z.of_nat (Rec.strlen buf)) eqn:E.
  - by rewrite <- app_assoc.
  - apply Z.ltb_ge in E. assert (Rec.strlen buf = O) as -> by lia.
    rewrite take_0, app_nil_r. reflexivity.
Qed.

Lemma readle_ok (n : nat) (x : Z) (rest : list Z) (st : Play.Player) :
  Play.io_failure st = false ->
  Play.file st = le_bytes n x ++ rest ->
  Play.readle n st =
    (x mod 2 ^ (8 * Z.of_nat n),
     Play.set_file rest (Play.fdoffset st + Z.of_nat n) st).
Proof.
  intros Hio Hfile. unfold Play.readle, Play.read. rewrite Hio, Hfile.
  rewrite take_app_length' by (by rewrite le_bytes_length).
  rewrite drop_app_length' by (by rewrite le_bytes_length).
  rewrite le_bytes_length, bool_decide_eq_true_2 by reflexivity.
  by rewrite le_value_le_bytes.
Qed.

(** C6: [IO_STRING] writes a 64-bit length and then exactly that many raw
    bytes with no terminator, the length being [0xFFFFFFFFFFFFFFFF] and
    the bytes none for the [NULL] string; the player's [IO_STRING] reads
    the string back from those bytes, and reads [NULL] back exactly when
    [NULL] was written, so [NULL] and the empty string stay apart. *)
Theorem string_roundtrip (str : option (list Z)) (fd rest : list Z) (st : Play.Player) :
  Play.io_failure st = false ->
  Play.file st = Rec.IO_STRING str [] ++ rest ->
  (forall buf, str = Some buf -> Z.of_nat (Rec.strlen buf) < 2 ^ 63) ->
  let len :=
    match str with None => 0xFFFFFFFFFFFFFFFF | Some buf => Z.of_nat (Rec.strlen buf) end in
  let bytes := match str with None => [] | Some buf => take (Rec.strlen buf) buf end in
  Rec.IO_STRING str fd = fd ++ le_bytes 8 len ++ bytes /\
  length (le_bytes 8 len) = 8%nat /\
  Z.of_nat (length bytes) = match str with None => 0 | Some _ => len end /\
  exists decoded st',
    Play.IO_STRING st = (decoded, st') /\
    Rec.c_string decoded = Rec.c_string str /\
    (decoded = None <-> str = None) /\
    Play.io_failure st' = false /\
    Play.file st' = rest /\
    Play.fdoffset st' = Play.fdoffset st + 8 + Z.of_nat (length bytes).
Proof.
  intros Hio Hfile Hlen len bytes.
  rewrite IO_STRING_bytes in Hfile. rewrite IO_STRING_bytes. rewrite app_nil_l in Hfile.
  split; [|split; [apply le_bytes_length|split]].
  - destruct str as [buf|]; [|by rewrite app_nil_r].
    unfold to_uint64. rewrite Z.mod_small; [reflexivity|].
    specialize (Hlen buf eq_refl). change (2 ^ 64) with (2 * 2 ^ 63). lia.
  - destruct str as [buf|]; [|reflexivity]. subst bytes len.
    rewrite length_take. assert (H := strlen_le buf). lia.
  - unfold Play.IO_STRING, Play.IO_BLOB, Play.IO_UINT64, Play.readle64.
    destruct str as [buf|].
    + specialize (Hlen buf eq_refl). assert (Hle := strlen_le buf).
      rewrite <- app_assoc in Hfile.
      rewrite (readle_ok 8 _ _ st Hio Hfile).
      unfold to_uint64. rewrite Z.mod_mod by lia.
      rewrite (Z.mod_small (Z.of_nat _)) by (change (2 ^ (8 * Z.of_nat 8)) with (2 * 2 ^ 63); lia).
      cbn [Play.io_failure Play.set_file]. rewrite Hio.
      destruct (Z.of_nat (Rec.strlen buf) =? Rec.NULL_LENGTH) eqn:E;
        [apply Z.eqb_eq in E; unfold Rec.NULL_LENGTH in E; lia|].
      unfold Play.read. cbn [Play.file Play.set_file Play.fdoffset].
      rewrite Nat2Z.id.
      rewrite take_app_length' by (rewrite length_take; lia).
      rewrite drop_app_length' by (rewrite length_take; lia).
      rewrite length_take, Nat.min_l by lia.
      unfold to_ssize_t, to_signed.
      rewrite (Z.mod_small (Z.of_nat _)) by (change (2 ^ 64) with (2 * 2 ^ 63); lia).
      change (64 - 1) with 63.
      destruct (Z.of_nat (Rec.strlen buf) <? 2 ^ 63) eqn:E2; [|apply Z.ltb_ge in E2; lia].
      rewrite Z.eqb_refl, Nat.sub_diag. cbn [replicate app].
      eexists _, _. split; [reflexivity|].
      cbn [Play.io_failure Play.set_file Play.file Play.fdoffset].
      repeat split; try done.
      * unfold Rec.c_string. simpl. f_equal. rewrite strlen_take. apply take_strlen_take.
      * subst bytes. rewrite length_take. lia.
    + rewrite (readle_ok 8 _ _ st Hio Hfile).
      cbn [Play.io_failure Play.set_file]. rewrite Hio.
      change (Rec.NULL_LENGTH mod 2 ^ (8 * Z.of_nat 8) =? Rec.NULL_LENGTH) with true.
      cbn iota.
      eexists _, _. split; [reflexivity|].
      cbn [Play.io_failure Play.set_file Play.file Play.fdoffset].
      subst bytes. simpl. repeat split; try done. lia.
Qed.

End CodecFacts.

(** ** The call-stack collector *)

Module CallstackFacts.

Import Callstack.

Section Collector.

Variable env : CallEnv.

Lemma get_callstack_sym_spec (frame : Z) (m : gmap Z (list Z)) :
  match m !! frame with
  | Some s => get_callstack_sym env frame m = (Some s, true, m)
  | None =>
      match env_symbols env frame with
      | Some sym =>
          get_callstack_sym env frame m =
            (Some (strdup (skip_frame_number sym)), false,
             <[frame := strdup (skip_frame_number sym)]> m)
      | None => get_callstack_sym env frame m = (None, false, m)
      end
  end.
Proof.
  unfold get_callstack_sym, get_mapped_stackframe, add_stackframe_to_map.
  destruct (m !! frame); [reflexivity|].
  destruct (env_symbols env frame); reflexivity.
Qed.

(** What the loop over the captured frames does: it keeps the longest
    prefix of frames that have a symbol (in the map already, or found
    now), interns those it had not seen, and stops at the first frame
    without one. *)
Lemma collect_frames_spec (frames : list Z) :
  forall (m : gmap Z (list Z)) new i out m',
    collect_frames env frames m new = (i, out, m') ->
    exists added,
      out = new ++ added /\
      (i <= length frames)%nat /\
      m ⊆ m' /\
      NoDup added.*1 /\
      (forall a, a ∈ added.*1 ->
         m !! a = None /\ a ∈ take i frames /\ is_Some (env_symbols env a)) /\
      (forall a, is_Some (m' !! a) <-> is_Some (m !! a) \/ a ∈ added.*1) /\
      (forall p, p ∈ added -> exists s, p.2 = Some s /\ m' !! p.1 = Some s) /\
      (forall a, a ∈ take i frames -> is_Some (m' !! a)) /\
      (forall a, frames !! i = Some a -> m' !! a = None /\ env_symbols env a = None).
Proof.
  induction frames as [|ptr frames IH]; intros m new i out m' Hc.
  - simpl in Hc. injection Hc as <- <- <-. exists []. rewrite app_nil_r.
    split_and!; try done.
    + constructor.
    + intros a Hin. by apply elem_of_nil in Hin.
    + intros a. split; [by left|]. intros [?|Hin]; [done|]. by apply elem_of_nil in Hin.
    + intros p Hin. by apply elem_of_nil in Hin.
    + intros a Hin. by apply elem_of_nil in Hin.
  - cbn [collect_frames] in Hc.
    assert (Hg := get_callstack_sym_spec ptr m).
    destruct (m !! ptr) as [s|] eqn:Hm.
    + rewrite Hg in Hc. cbn in Hc.
      destruct (collect_frames env frames m new) as [[i1 out1] m1] eqn:Hrec.
      injection Hc as <- <- <-.
      destruct (IH _ _ _ _ _ Hrec)
        as (added & -> & Hi & Hsub & Hnd & Hnew & Hdom & Hstr & Hpre & Hstop).
      exists added. cbn [take length lookup list_lookup].
      split_and!; try done.
      * lia.
      * intros a Hin. destruct (Hnew _ Hin) as (? & ? & ?). split_and!; [done| |done].
        apply elem_of_cons. by right.
      * intros a [->|Hin]%elem_of_cons; [|by apply Hpre].
        exists s. by eapply lookup_weaken.
    + destruct (env_symbols env ptr) as [sym|] eqn:Hsym.
      * rewrite Hg in Hc. cbn in Hc.
        set (s := strdup (skip_frame_number sym)) in *.
        destruct (collect_frames env frames (<[ptr:=s]> m) (new ++ [(ptr, Some s)]))
          as [[i1 out1] m1] eqn:Hrec.
        injection Hc as <- <- <-.
        destruct (IH _ _ _ _ _ Hrec)
          as (added & -> & Hi & Hsub & Hnd & Hnew & Hdom & Hstr & Hpre & Hstop).
        exists ((ptr, Some s) :: added). rewrite <- app_assoc.
        assert (Hptr : m1 !! ptr = Some s).
        { eapply lookup_weaken; [|exact Hsub]. apply lookup_insert_eq. }
        cbn [take length lookup list_lookup app fmap list_fmap fst].
        split_and!; try done.
        -- lia.
        -- etrans; [|exact Hsub]. by apply insert_subseteq.
        -- apply NoDup_cons. split; [|done].
           intros Hin. destruct (Hnew _ Hin) as [Hnone _].
           by rewrite lookup_insert_eq in Hnone.
        -- intros a [->|Hin]%elem_of_cons.
           ++ split_and!; [done| |by rewrite Hsym]. apply elem_of_cons. by left.
           ++ destruct (Hnew _ Hin) as (Hnone & Htk & Hok). split_and!; [| |done].
              ** destruct (decide (ptr = a)) as [->|Hne];
                   [by rewrite lookup_insert_eq in Hnone|].
                 by rewrite lookup_insert_ne in Hnone.
              ** apply elem_of_cons. by right.
        -- intros a. rewrite Hdom. split.
           ++ intros [Hs|Hin].
              ** destruct (decide (ptr = a)) as [->|Hne].
                 --- right. apply elem_of_cons. by left.
                 --- rewrite lookup_insert_ne in Hs by done. by left.
              ** right. apply elem_of_cons. by right.
           ++ intros [Hs|[->|Hin]%elem_of_cons].
              ** left. destruct (decide (ptr = a)) as [->|Hne].
                 --- rewrite lookup_insert_eq. by eexists.
                 --- by rewrite lookup_insert_ne.
              ** left. rewrite lookup_insert_eq. by eexists.
              ** by right.
        -- intros p [->|Hin]%elem_of_cons; [by exists s|by apply Hstr].
        -- intros a [->|Hin]%elem_of_cons; [by eexists|by apply Hpre].
      * rewrite Hg in Hc. cbn in Hc. injection Hc as <- <- <-.
        exists []. rewrite app_nil_r. cbn [take length lookup list_lookup].
        split_and!; try done.
        -- lia.
        -- constructor.
        -- intros a Hin. by apply elem_of_nil in Hin.
        -- intros a. split; [by left|]. intros [?|Hin]; [done|]. by apply elem_of_nil in Hin.
        -- intros p Hin. by apply elem_of_nil in Hin.
        -- intros a Hin. by apply elem_of_nil in Hin.
        -- intros a [= <-]. done.
Qed.

End Collector.

(** The events of one call. *)
Lemma entry_events_spec (entryid : Z) (env : CallEnv) (m : gmap Z (list Z)) :
  exists i added m',
    entry_events entryid env m =
      ((if 0 <? Z.of_nat (length added) then [NewCallstackSyms added] else [])
         ++ [CallEvent entryid (env_now env) (env_thread env) (take i (captured_frames env))],
       m') /\
    m ⊆ m' /\
    NoDup added.*1 /\
    (forall a, a ∈ added.*1 ->
       m !! a = None /\ a ∈ take i (captured_frames env) /\ is_Some (env_symbols env a)) /\
    (forall a, is_Some (m' !! a) <-> is_Some (m !! a) \/ a ∈ added.*1) /\
    (forall p, p ∈ added -> exists s, p.2 = Some s /\ m' !! p.1 = Some s) /\
    (forall a, a ∈ take i (captured_frames env) -> is_Some (m' !! a)) /\
    (forall a, captured_frames env !! i = Some a -> m' !! a = None /\ env_symbols env a = None).
Proof.
  unfold entry_events.
  destruct (collect_frames env (captured_frames env) m []) as [[i out] m'] eqn:Hc.
  destruct (collect_frames_spec env _ _ _ _ _ _ Hc)
    as (added & -> & Hi & Hsub & Hnd & Hnew & Hdom & Hstr & Hpre & Hstop).
  exists i, added, m'. cbn [app] in *. by split_and!.
Qed.

(** The bytes [IO_ENTRYINFO] appends are the encoding of those events. *)
Lemma IO_ENTRYINFO_events `{Constants} (entryid : Z) (env : CallEnv)
    (m : gmap Z (list Z)) (fd : list Z) :
  IO_ENTRYINFO entryid env (m, fd) =
    ((entry_events entryid env m).2,
     fold_left (fun fd e => write_event e fd) (entry_events entryid env m).1 fd).
Proof.
  unfold IO_ENTRYINFO, entry_events.
  destruct (collect_frames env (captured_frames env) m []) as [[i out] m'] eqn:Hc.
  destruct (collect_frames_spec env _ _ _ _ _ _ Hc) as (added & _ & Hi & _).
  cbn [fst snd]. f_equal.
  assert (Hlen : length (take i (captured_frames env)) = i) by (rewrite length_take; lia).
  destruct (0 <? Z.of_nat (length out)); cbn [app fold_left write_event]; by rewrite Hlen.
Qed.










(** C5 as the code has it: the caller info of a call holds the captured
    frames up to, and not including, the first frame that has no symbol
    (none in the frame map and none from [backtrace_symbols]); that
    frame and every frame below it are left out, and every pair of a
    new-callstack-symbols event carries a string, never [NULL]. *)
Theorem failed_symbolication_truncates (entryid : Z) (env : CallEnv) (m : gmap Z (list Z)) :
  exists i pairs,
    (entry_events entryid env m).1 =
      (if 0 <? Z.of_nat (length pairs) then [NewCallstackSyms pairs] else [])
        ++ [CallEvent entryid (env_now env) (env_thread env) (take i (captured_frames env))] /\
    (forall a, a ∈ take i (captured_frames env) ->
       is_Some (m !! a) \/ is_Some (env_symbols env a)) /\
    (forall a, captured_frames env !! i = Some a ->
       m !! a = None /\ env_symbols env a = None) /\
    (forall p, p ∈ pairs -> is_Some p.2 /\ is_Some (env_symbols env p.1)).
Proof.
  destruct (entry_events_spec entryid env m)
    as (i & added & m1 & He & Hsub & Hnd & Hnew & Hdom & Hstr & Hpre & Hstop).
  exists i, added. rewrite He. split_and!; [done| | |].
  - intros a Hin. apply Hpre, Hdom in Hin as [?|Hin]; [by left|]. right. by apply Hnew.
  - intros a Hi. destruct (Hstop _ Hi) as [Hnone ?]. split; [|done].
    destruct (m !! a) eqn:Hm; [|done].
    eapply lookup_weaken in Hm; [|exact Hsub]. congruence.
  - intros p Hin. split.
    + destruct (Hstr _ Hin) as (s & -> & _). by eexists.
    + apply Hnew. apply list_elem_of_fmap. by exists p.
Qed.

End CallstackFacts.

(** ** The player *)

Module PlayFacts.

Import Int Play.

Section Player.

Context `{Constants} `{FrontEnd}.

Lemma dispatch_unrecognized (tag : Z) (st : Player) :
  recognized tag = false ->
  dispatch_event tag st = (visit (visit_eos false 0) st, true, Some 0).
Proof.
  unfold recognized, dispatch_event. destruct (decode_entrypoint tag); [done|].
  cbn [existsb]. intros Hr.
  repeat (apply orb_false_elim in Hr as [-> Hr]). reflexivity.
Qed.

Lemma readle32_values (st : Player) :
  io_failure st = false ->
  (readle32 st).1 = le_value (take 4 (file st)) /\
  file (readle32 st).2 = drop 4 (file st) /\
  visits (readle32 st).2 = visits st /\
  io_failure (readle32 st).2 = negb (bool_decide (length (take 4 (file st)) = 4%nat)) /\
  stderr (readle32 st).2 =
    stderr st ++ (if bool_decide (length (take 4 (file st)) = 4%nat)
                  then [] else [FailedToRead true]) /\
  next_mapped_threadid (readle32 st).2 = next_mapped_threadid st.
Proof.
  intros Hio. unfold readle32, readle, read. rewrite Hio. cbn [fst snd].
  unfold IO_READ_FAIL.
  destruct (bool_decide (length (take 4 (file st)) = 4%nat)); cbn; rewrite ?Hio; cbn;
    by rewrite ?app_nil_r.
Qed.

Lemma readle32_failed (st : Player) : io_failure st = true -> readle32 st = (0, st).
Proof. intros Hio. unfold readle32, readle. by rewrite Hio. Qed.

(** C7 as the code has it: when the magic or the format version of the
    file does not match, [process_tracelog] prints a diagnostic and
    returns 0 without a single visitor callback, so without the eos
    callback; when an event tag is not recognized, it calls the eos
    callback with a false clean flag and returns 0, and prints nothing. *)
Theorem player_fatal (bytes : list Z) (st : Player) (fuel : nat) (fdsize retval : Z) :
  (header_magic bytes <> ALTRACE_LOG_FILE_MAGIC \/
   header_version bytes <> ALTRACE_LOG_FILE_FORMAT ->
   exists st' failed_read,
     process_tracelog fuel (Some bytes) st = Some (0, st') /\
     visits st' = visits st /\
     stderr st' =
       stderr st ++ failed_read
         ++ [if bool_decide (header_magic bytes = ALTRACE_LOG_FILE_MAGIC)
             then UnsupportedVersion else NotALogFile] /\
     (failed_read = [] \/ failed_read = [FailedToRead true])) /\
  (io_failure st = false ->
   progress_hook (visits st) (fdoffset st) fdsize = true ->
   length (take 4 (file st)) = 4%nat ->
   recognized (le_value (take 4 (file st))) = false ->
   exists st',
     tracelog_loop (S fuel) fdsize retval st = Some (0, st') /\
     visits st' = visits st ++ [visit_progress (fdoffset st) fdsize; visit_eos false 0] /\
     stderr st' = stderr st).
Proof.
  split.
  - intros Hbad. unfold process_tracelog, init_altrace_playback.
    set (st0 := set_file bytes 0 (set_io_failure false st)).
    assert (Hio0 : io_failure st0 = false) by reflexivity.
    destruct (readle32_values st0 Hio0) as (Hv & Hf & Hvis & Hio & Herr & _).
    unfold IO_UINT32. destruct (readle32 st0) as [magic st1] eqn:Hr1. cbn [fst snd] in *.
    change (file st0) with bytes in *. change (visits st0) with (visits st) in *.
    change (stderr st0) with (stderr st) in *.
    unfold header_magic, header_version in *. rewrite Hv.
    destruct (le_value (take 4 bytes) =? ALTRACE_LOG_FILE_MAGIC) eqn:Em; cbn [negb].
    + apply Z.eqb_eq in Em. rewrite bool_decide_eq_true_2 by done.
      destruct Hbad as [Hbad|Hbad]; [done|].
      destruct (bool_decide (length (take 4 bytes) = 4%nat)) eqn:El; cbn [negb] in Hio.
      * destruct (readle32_values st1 Hio) as (Hv2 & Hf2 & Hvis2 & Hio2 & Herr2 & _).
        destruct (readle32 st1) as [version st2] eqn:Hr2. cbn [fst snd] in *.
        rewrite Hv2, Hf. apply Z.eqb_neq in Hbad. rewrite Hbad. cbn [negb].
        eexists _, _. split; [reflexivity|]. cbn [visits stderr quit_altrace_playback fprintf].
        split_and!; [congruence| |].
        -- rewrite Herr2, Herr, app_nil_r, <- app_assoc. reflexivity.
        -- case_bool_decide; [by left|by right].
      * rewrite (readle32_failed st1 Hio).
        apply Z.eqb_neq in Hbad. rewrite Z.eqb_sym in Hbad. rewrite Z.eqb_sym, Hbad. cbn [negb].
        eexists _, _. split; [reflexivity|]. cbn [visits stderr quit_altrace_playback fprintf].
        split_and!; [congruence| |].
        -- rewrite Herr, <- app_assoc. reflexivity.
        -- by right.
    + apply Z.eqb_neq in Em. rewrite bool_decide_eq_false_2 by done.
      eexists _, _. split; [reflexivity|]. cbn [visits stderr quit_altrace_playback fprintf].
      split_and!; [congruence| |].
      * rewrite Herr, <- app_assoc. reflexivity.
      * case_bool_decide; [by left|by right].
  - intros Hio Hgo Hlen Hun. cbn [tracelog_loop]. rewrite Hio, Hgo. cbn [negb].
    set (st0 := visit (visit_progress (fdoffset st) fdsize) st).
    assert (Hio0 : io_failure st0 = false) by exact Hio.
    destruct (readle32_values st0 Hio0) as (Hv & Hf & Hvis & Hio1 & Herr & _).
    unfold IO_EVENTENUM, IO_UINT32. destruct (readle32 st0) as [tag st1] eqn:Hr1.
    cbn [fst snd] in *. change (file st0) with (file st) in *.
    rewrite Hv, (dispatch_unrecognized _ _ Hun). cbn [default].
    eexists. split; [reflexivity|]. cbn [visits stderr visit]. split.
    + rewrite Hvis. subst st0. cbn [visits visit]. by rewrite <- app_assoc.
    + rewrite Herr, bool_decide_eq_true_2 by done. rewrite app_nil_r. reflexivity.
Qed.

End Player.

(** *** Thread ids *)

Lemma get_mapped_numbered_absent (seen : list Z) (k raw : Z) :
  raw ∉ seen -> get_mapped_threadid (numbered k seen) raw = 0.
Proof.
  revert k. induction seen as [|r seen IH]; intros k Hn; simpl; [reflexivity|].
  apply not_elem_of_cons in Hn as [Hne Hn].
  destruct (r =? raw) eqn:E; [apply Z.eqb_eq in E; congruence|]. by apply IH.
Qed.

Lemma get_mapped_numbered_present (seen : list Z) (k raw : Z) (j : nat) :
  NoDup seen -> seen !! j = Some raw ->
  get_mapped_threadid (numbered k seen) raw = k + Z.of_nat j.
Proof.
  revert k j. induction seen as [|r seen IH]; intros k j Hnd Hj; [by rewrite lookup_nil in Hj|].
  apply NoDup_cons in Hnd as [Hr Hnd]. simpl. destruct j as [|j]; simpl in Hj.
  - injection Hj as ->. rewrite Z.eqb_refl. lia.
  - destruct (r =? raw) eqn:E.
    + apply Z.eqb_eq in E. subst r. exfalso. apply Hr. by eapply list_elem_of_lookup_2.
    + rewrite (IH (k + 1) j) by done. lia.
Qed.

Lemma add_threadid_numbered (seen : list Z) (k raw : Z) :
  raw ∉ seen ->
  add_threadid_to_map raw (k + Z.of_nat (length seen)) (numbered k seen) =
    numbered k (seen ++ [raw]).
Proof.
  revert k. induction seen as [|r seen IH]; intros k Hn; simpl.
  - f_equal. f_equal. lia.
  - apply not_elem_of_cons in Hn as [Hne Hn].
    destruct (r =? raw) eqn:E; [apply Z.eqb_eq in E; congruence|].
    f_equal. rewrite <- IH by done. f_equal. lia.
Qed.

Lemma first_seen_prefix (raws seen : list Z) : seen `prefix_of` first_seen seen raws.
Proof.
  revert seen. induction raws as [|raw raws IH]; intros seen; simpl; [done|].
  case_bool_decide; [apply IH|]. etrans; [|apply IH]. by apply prefix_app_r.
Qed.

Lemma first_seen_NoDup (raws seen : list Z) : NoDup seen -> NoDup (first_seen seen raws).
Proof.
  revert seen. induction raws as [|raw raws IH]; intros seen Hnd; simpl; [done|].
  case_bool_decide; apply IH; [done|].
  apply NoDup_app. split_and!; [done| |apply NoDup_singleton].
  intros x Hx ->%list_elem_of_singleton. done.
Qed.

Lemma first_seen_elem (raws seen : list Z) (x : Z) :
  x ∈ first_seen seen raws <-> x ∈ seen \/ x ∈ raws.
Proof.
  revert seen. induction raws as [|raw raws IH]; intros seen; simpl.
  - split; [by left|]. intros [?|Hin]; [done|]. by apply elem_of_nil in Hin.
  - rewrite IH. case_bool_decide as Hin.
    + rewrite elem_of_cons. split; [intros [?|?]; auto|intros [?|[->|?]]; auto].
    + rewrite elem_of_app, list_elem_of_singleton, elem_of_cons. tauto.
Qed.

Lemma map_threadids_spec (raws : list Z) :
  forall (seen : list Z) (st : Player),
    NoDup seen ->
    threadid_map st = numbered 1 seen ->
    next_mapped_threadid st = Z.of_nat (length seen) ->
    Z.of_nat (length (first_seen seen raws)) < 2 ^ 32 ->
    threadid_map (map_threadids raws st).2 = numbered 1 (first_seen seen raws) /\
    next_mapped_threadid (map_threadids raws st).2 = Z.of_nat (length (first_seen seen raws)) /\
    Forall2 (fun raw threadid =>
               exists j, first_seen seen raws !! j = Some raw /\ threadid = Z.of_nat (S j))
      raws (map_threadids raws st).1.
Proof.
  induction raws as [|raw raws IH]; intros seen st Hnd Hmap Hnext Hlen.
  - simpl. split_and!; [done|done|constructor].
  - cbn [map_threadids first_seen] in *. unfold map_threadid.
    assert (Hpre := first_seen_prefix raws
                      (if bool_decide (raw ∈ seen) then seen else seen ++ [raw])).
    case_bool_decide as Hin.
    + apply list_elem_of_lookup in Hin as [j Hj].
      rewrite Hmap, (get_mapped_numbered_present seen 1 raw j Hnd Hj).
      destruct (1 + Z.of_nat j =? 0) eqn:E; [apply Z.eqb_eq in E; lia|].
      destruct (map_threadids raws st) as [ids st'] eqn:Hr.
      destruct (IH seen st Hnd Hmap Hnext Hlen) as (Hm & Hn & Hall). rewrite Hr in *.
      cbn [fst snd] in *. split_and!; [done|done|]. constructor; [|done].
      exists j. split; [|lia]. by eapply prefix_lookup_Some.
    + rewrite Hmap, (get_mapped_numbered_absent seen 1 raw Hin). cbn [Z.eqb].
      rewrite Hnext.
      assert (Hbound : Z.of_nat (length seen) + 1 < 2 ^ 32).
      { apply prefix_length in Hpre. rewrite length_app in Hpre. simpl in Hpre. lia. }
      unfold to_uint32. rewrite Z.mod_small by lia.
      set (st1 := set_threadids _ _ st).
      assert (Hnd1 : NoDup (seen ++ [raw])).
      { apply NoDup_app. split_and!; [done| |apply NoDup_singleton].
        intros x Hx ->%list_elem_of_singleton. done. }
      assert (Hmap1 : threadid_map st1 = numbered 1 (seen ++ [raw])).
      { subst st1. cbn [threadid_map set_threadids].
        rewrite <- add_threadid_numbered by done. f_equal. lia. }
      assert (Hnext1 : next_mapped_threadid st1 = Z.of_nat (length (seen ++ [raw]))).
      { subst st1. cbn [next_mapped_threadid set_threadids]. rewrite length_app. simpl. lia. }
      destruct (map_threadids raws st1) as [ids st'] eqn:Hr.
      destruct (IH (seen ++ [raw]) st1 Hnd1 Hmap1 Hnext1 Hlen) as (Hm & Hn & Hall).
      rewrite Hr in *. cbn [fst snd] in *. split_and!; [done|done|]. constructor; [|done].
      exists (length seen). split; [|lia].
      eapply prefix_lookup_Some; [|exact Hpre].
      rewrite lookup_app_r by lia. by rewrite Nat.sub_diag.
Qed.

(** X2: for the first trace a process plays (the statics are still zero) and
    fewer than [2^32] distinct raw thread ids: the dense ids follow the
    order of first sight from 1 on, a raw id keeps its dense id, and the
    ids handed out are exactly 1 to the number of distinct raw ids. *)
Theorem thread_ids_dense_first_trace (raws : list Z) (st : Player) :
  threadid_map st = [] ->
  next_mapped_threadid st = 0 ->
  Z.of_nat (length (first_seen [] raws)) < 2 ^ 32 ->
  let threadids := (map_threadids raws st).1 in
  let T := Z.of_nat (length (first_seen [] raws)) in
  Forall2 (fun raw threadid =>
             exists j, first_seen [] raws !! j = Some raw /\ threadid = Z.of_nat j + 1)
    raws threadids /\
  (forall i i' raw, raws !! i = Some raw -> raws !! i' = Some raw ->
     threadids !! i = threadids !! i') /\
  (forall x, x ∈ threadids <-> 1 <= x <= T).
Proof.
  intros Hmap Hnext Hlen threadids T.
  destruct (map_threadids_spec raws [] st (NoDup_nil_2) Hmap Hnext Hlen) as (_ & _ & Hall).
  fold threadids in Hall.
  assert (Hnd := first_seen_NoDup raws [] (NoDup_nil_2)).
  split_and!.
  - eapply Forall2_impl; [exact Hall|]. intros raw id (j & ? & ->). exists j. split; [done|lia].
  - intros i i' raw Hi Hi'.
    destruct (Forall2_lookup_l _ _ _ _ _ Hall Hi) as (id & Hid & j & Hj & ->).
    destruct (Forall2_lookup_l _ _ _ _ _ Hall Hi') as (id' & Hid' & j' & Hj' & ->).
    rewrite Hid, Hid'. do 3 f_equal. by eapply NoDup_lookup.
  - intros x. split.
    + intros [i Hi]%list_elem_of_lookup.
      destruct (Forall2_lookup_r _ _ _ _ _ Hall Hi) as (raw & Hraw & j & Hj & ->).
      apply lookup_lt_Some in Hj. subst T. lia.
    + intros Hx. subst T.
      destruct (lookup_lt_is_Some_2 (first_seen [] raws) (Z.to_nat (x - 1))) as [raw Hraw]; [lia|].
      assert (Hin : raw ∈ raws).
      { apply list_elem_of_lookup_2 in Hraw as Hraw'.
        apply first_seen_elem in Hraw' as [Hnil|?]; [by apply elem_of_nil in Hnil|done]. }
      apply list_elem_of_lookup in Hin as [i Hi].
      destruct (Forall2_lookup_l _ _ _ _ _ Hall Hi) as (id & Hid & j & Hj & ->).
      assert (j = Z.to_nat (x - 1)) as -> by (by eapply NoDup_lookup).
      apply list_elem_of_lookup. exists i. rewrite Hid. f_equal. lia.
Qed.

(** [IO_ENTRYINFO] is where a call event gets its thread id: when the
    header is read whole, the id and the thread statics are those of
    [map_threadid] at the raw id read. *)
Lemma IO_ENTRYINFO_threadid (st : Player) (callerinfo : CallerInfo) (st' : Player) :
  IO_ENTRYINFO st = (Some callerinfo, st') ->
  exists raw st0,
    ci_threadid callerinfo = (map_threadid raw st0).1 /\
    threadid_map st0 = threadid_map st /\
    next_mapped_threadid st0 = next_mapped_threadid st /\
    threadid_map st' = threadid_map (map_threadid raw st0).2 /\
    next_mapped_threadid st' = next_mapped_threadid (map_threadid raw st0).2.
Proof.
  assert (Hrd : forall n s, threadid_map (readle n s).2 = threadid_map s /\
                            next_mapped_threadid (readle n s).2 = next_mapped_threadid s).
  { intros n s. unfold readle, read, IO_READ_FAIL. destruct (io_failure s) eqn:E; [done|].
    cbn. case_bool_decide; cbn; rewrite ?E; done. }
  assert (Hfr : forall n i s cs, threadid_map (read_frames n i s cs).2 = threadid_map s /\
                  next_mapped_threadid (read_frames n i s cs).2 = next_mapped_threadid s).
  { induction n as [|n IH]; intros i s cs; [done|]. cbn [read_frames].
    unfold IO_PTR, IO_UINT64, readle64. destruct (readle 8 s) as [ptr s1] eqn:E.
    destruct (Hrd 8%nat s) as [H1 H2]. rewrite E in H1, H2. cbn [snd] in *.
    destruct (IH (S i) s1 (if negb (io_failure s1) && bool_decide (i < MAX_CALLSTACKS)%nat
                           then cs ++ [(ptr, stackframe_map s1 !! ptr)] else cs)) as [H3 H4].
    split; congruence. }
  unfold IO_ENTRYINFO, IO_UINT32, IO_UINT64, readle32, readle64.
  destruct (readle 4 st) as [wait_until s1] eqn:E1.
  destruct (readle 8 s1) as [raw s2] eqn:E2.
  destruct (readle 4 s2) as [frames s3] eqn:E3.
  destruct (io_failure s3); [done|].
  destruct (map_threadid raw s3) as [threadid s4] eqn:E4.
  destruct (read_frames (Z.to_nat frames) 0 s4 []) as [cs s5] eqn:E5.
  intros [= <- <-]. exists raw, s3. rewrite E4. cbn [ci_threadid fst snd].
  destruct (Hrd 4%nat st) as [A1 A2]. rewrite E1 in A1, A2.
  destruct (Hrd 8%nat s1) as [B1 B2]. rewrite E2 in B1, B2.
  destruct (Hrd 4%nat s2) as [C1 C2]. rewrite E3 in C1, C2.
  destruct (Hfr (Z.to_nat frames) O s4 []) as [D1 D2]. rewrite E5 in D1, D2.
  cbn [snd] in *. split_and!; congruence.
Qed.

End PlayFacts.

(** ** The recorder's shadow state *)

Module RecorderFacts.

Import Int AL Recorder.

Section Facts.

Context {constants : Constants} {real : RealAL}.

(** *** Reading after a store *)

Lemma source_at_store (p a : Z) (f : SourceWrapper -> SourceWrapper) (st : Recorder) :
  source_at (store_source p f st) a =
    if decide (p = a)
    then match source_heap st !! p with Some s => f s | None => zero_source end
    else source_at st a.
Proof.
  unfold source_at, store_source. cbn [source_heap set_source_heap].
  rewrite lookup_alter. case_decide; [subst|done]. by destruct (source_heap st !! a).
Qed.

Lemma context_at_store (p a : Z) (f : ContextWrapper -> ContextWrapper) (st : Recorder) :
  context_at (store_context p f st) a =
    if decide (p = a)
    then match context_heap st !! p with Some c => f c | None => zero_context end
    else context_at st a.
Proof.
  unfold context_at, store_context. cbn [context_heap set_context_heap].
  rewrite lookup_alter. case_decide; [subst|done]. by destruct (context_heap st !! a).
Qed.

Lemma device_at_store (p a : Z) (f : DeviceWrapper -> DeviceWrapper) (st : Recorder) :
  device_at (store_device p f st) a =
    if decide (p = a)
    then match device_heap st !! p with Some d => f d | None => zero_device end
    else device_at st a.
Proof.
  unfold device_at, store_device. cbn [device_heap set_device_heap].
  rewrite lookup_alter. case_decide; [subst|done]. by destruct (device_heap st !! a).
Qed.

(** *** What a step leaves alone *)

(** [same_shape st st'] : the step from [st] to [st'] may have moved the
    world, the log, the ghost queries and the cached attributes of
    sources, and nothing else. *)
Record same_shape (st st' : Recorder) : Prop := {
  shape_sources : forall a,
    (is_Some (source_heap st' !! a) <-> is_Some (source_heap st !! a)) /\
    name (source_at st' a) = name (source_at st a) /\
    playlist_next (source_at st' a) = playlist_next (source_at st a) /\
    playlist_prev (source_at st' a) = playlist_prev (source_at st a) /\
    hash_next (source_at st' a) = hash_next (source_at st a) /\
    hash_prev (source_at st' a) = hash_prev (source_at st a);
  shape_contexts : context_heap st' = context_heap st;
  shape_devices : device_heap st' = device_heap st;
  shape_buffers : buffer_heap st' = buffer_heap st;
  shape_current : current_context st' = current_context st;
  shape_null : null_context_errorlatch st' = null_context_errorlatch st;
  shape_stackframes : stackframes st' = stackframes st;
}.

Lemma same_shape_refl (st : Recorder) : same_shape st st.
Proof. by split. Qed.

Lemma same_shape_trans (st1 st2 st3 : Recorder) :
  same_shape st1 st2 -> same_shape st2 st3 -> same_shape st1 st3.
Proof.
  intros [A1 A2 A3 A4 A5 A6 A7] [B1 B2 B3 B4 B5 B6 B7]. split; try congruence.
  intros a. destruct (A1 a) as (? & ? & ? & ? & ? & ?), (B1 a) as (? & ? & ? & ? & ? & ?).
  split_and!; [tauto|congruence..].
Qed.

Lemma same_shape_set_world (w : World) (st : Recorder) : same_shape st (set_world w st).
Proof. by split. Qed.

Lemma same_shape_query (q : Z * Z) (st : Recorder) : same_shape st (add_source_query q st).
Proof. by split. Qed.

Lemma same_shape_emit (io : list Z -> list Z) (st : Recorder) : same_shape st (emit io st).
Proof. by split. Qed.

Lemma same_shape_store (p : Z) (f : SourceWrapper -> SourceWrapper) (st : Recorder) :
  (forall s, name (f s) = name s /\ playlist_next (f s) = playlist_next s /\
             playlist_prev (f s) = playlist_prev s /\ hash_next (f s) = hash_next s /\
             hash_prev (f s) = hash_prev s) ->
  same_shape st (store_source p f st).
Proof.
  intros Hf. split; try done. intros a. rewrite source_at_store. split.
  - unfold store_source. cbn [source_heap set_source_heap]. rewrite lookup_alter.
    case_decide; [subst|done]. destruct (source_heap st !! a); [by split; eexists|].
    split; by intros [? ?].
  - case_decide; [subst|done]. unfold source_at.
    destruct (source_heap st !! a) as [s|]; [|done]. apply Hf.
Qed.

Lemma same_shape_changed (tag src param : Z) (io : list Z -> list Z)
    (f : SourceWrapper -> SourceWrapper) (st : Recorder) :
  (forall s, name (f s) = name s /\ playlist_next (f s) = playlist_next s /\
             playlist_prev (f s) = playlist_prev s /\ hash_next (f s) = hash_next s /\
             hash_prev (f s) = hash_prev s) ->
  same_shape st (source_state_changed tag src param io f st).
Proof.
  intros Hf. unfold source_state_changed.
  do 4 (eapply same_shape_trans; [apply same_shape_emit|]).
  by apply same_shape_store.
Qed.

Lemma same_shape_query_sourcei (src param : Z) (st : Recorder) :
  same_shape st (query_sourcei src param st).2.
Proof.
  unfold query_sourcei. destruct (REAL_alGetSourcei _ _ _ _) as [ival w]. cbn [snd].
  eapply same_shape_trans; [apply same_shape_set_world|apply same_shape_query].
Qed.

Ltac shape_of_check :=
  match goal with
  | |- same_shape ?st (let '(_, _) := query_sourcei ?src ?param ?st in _) =>
      let Hq := fresh in
      assert (Hq := same_shape_query_sourcei src param st);
      destruct (query_sourcei src param st) as [? ?]; cbn [snd] in Hq;
      eapply same_shape_trans; [exact Hq|]
  end;
  match goal with
  | |- same_shape _ (if ?b then _ else _) =>
      destruct b; [apply same_shape_changed; by intros []|apply same_shape_refl]
  end.

Lemma same_shape_check_state (src param : Z) (st : Recorder) :
  same_shape st (check_source_state_enum src param state set_state st).
Proof. unfold check_source_state_enum. shape_of_check. Qed.

Lemma same_shape_check_enum (src param : Z) (a : SourceAttr) (st : Recorder) :
  same_shape st (check_source_state_enum src param (fun s => attr s a) (set_attr_of a) st).
Proof. unfold check_source_state_enum. shape_of_check. Qed.

Lemma same_shape_check_bool (src param : Z) (a : SourceAttr) (st : Recorder) :
  same_shape st (check_source_state_bool src param (fun s => attr s a) (set_attr_of a) st).
Proof. unfold check_source_state_bool. shape_of_check. Qed.

Lemma same_shape_check_int (src param : Z) (a : SourceAttr) (st : Recorder) :
  same_shape st (check_source_state_int src param (fun s => attr s a) (set_attr_of a) st).
Proof. unfold check_source_state_int. shape_of_check. Qed.

Lemma same_shape_check_uint (src param : Z) (a : SourceAttr) (st : Recorder) :
  same_shape st (check_source_state_uint src param (fun s => attr s a) (set_attr_of a) st).
Proof. unfold check_source_state_uint. shape_of_check. Qed.

Lemma same_shape_check_float (src param : Z) (a : SourceAttr) (st : Recorder) :
  same_shape st (check_source_state_float src param (fun s => attr s a) (set_attr_of a) st).
Proof.
  unfold check_source_state_float. destruct (REAL_alGetSourcef _ _ _ _) as [fval w].
  eapply same_shape_trans; [apply same_shape_set_world|].
  eapply same_shape_trans; [apply same_shape_query|].
  match goal with |- same_shape _ (if ?b then _ else _) => destruct b end;
    [apply same_shape_changed; by intros []|apply same_shape_refl].
Qed.

Lemma same_shape_check_float3 (src param : Z) (a : SourceVec) (st : Recorder) :
  same_shape st (check_source_state_float3 src param (fun s => vec s a) (set_vec_of a) st).
Proof.
  unfold check_source_state_float3. destruct (REAL_alGetSourcefv _ _ _ _) as [fval w].
  eapply same_shape_trans; [apply same_shape_set_world|].
  eapply same_shape_trans; [apply same_shape_query|].
  match goal with |- same_shape _ (if ?b then _ else _) => destruct b end;
    [apply same_shape_changed; by intros []|apply same_shape_refl].
Qed.

Lemma same_shape_check_source_state (src : Z) (st : Recorder) :
  same_shape st (check_source_state src st).
Proof.
  unfold check_source_state.
  match goal with |- same_shape _ (if ?b then _ else _) => destruct b end;
    [|apply same_shape_refl].
  do 22 (eapply same_shape_trans;
         [|first [apply same_shape_check_float3 | apply same_shape_check_float
                 |apply same_shape_check_int | apply same_shape_check_uint
                 |apply same_shape_check_bool | apply same_shape_check_enum]]).
  apply same_shape_check_state.
Qed.

(** [same_lists st st'] : the step has kept every object alive, and has
    left the device list, the context lists, the error latches and the
    current context as they were. *)
Record same_lists (st st' : Recorder) : Prop := {
  lists_sources : forall a, is_Some (source_heap st' !! a) <-> is_Some (source_heap st !! a);
  lists_contexts : forall a,
    (is_Some (context_heap st' !! a) <-> is_Some (context_heap st !! a)) /\
    ctx_errorlatch (context_at st' a) = ctx_errorlatch (context_at st a) /\
    ctx_next (context_at st' a) = ctx_next (context_at st a);
  lists_devices : forall a,
    (is_Some (device_heap st' !! a) <-> is_Some (device_heap st !! a)) /\
    dev_errorlatch (device_at st' a) = dev_errorlatch (device_at st a) /\
    dev_next (device_at st' a) = dev_next (device_at st a) /\
    dev_prev (device_at st' a) = dev_prev (device_at st a) /\
    contexts (device_at st' a) = contexts (device_at st a);
  lists_current : current_context st' = current_context st;
  lists_null : null_context_errorlatch st' = null_context_errorlatch st;
}.

Lemma same_lists_refl (st : Recorder) : same_lists st st.
Proof. by split. Qed.

Lemma same_lists_trans (st1 st2 st3 : Recorder) :
  same_lists st1 st2 -> same_lists st2 st3 -> same_lists st1 st3.
Proof.
  intros [A1 A2 A3 A4 A5] [B1 B2 B3 B4 B5]. split; try congruence.
  - intros a. rewrite B1. apply A1.
  - intros a. destruct (A2 a) as (? & ? & ?), (B2 a) as (? & ? & ?).
    split_and!; [tauto|congruence..].
  - intros a. destruct (A3 a) as (? & ? & ? & ? & ?), (B3 a) as (? & ? & ? & ? & ?).
    split_and!; [tauto|congruence..].
Qed.

Lemma same_shape_lists (st st' : Recorder) : same_shape st st' -> same_lists st st'.
Proof.
  intros [A1 A2 A3 A4 A5 A6 A7]. split; try done.
  - intros a. apply A1.
  - intros a. unfold context_at. by rewrite A2.
  - intros a. unfold device_at. by rewrite A3.
Qed.

Lemma same_lists_store_source (p : Z) (f : SourceWrapper -> SourceWrapper) (st : Recorder) :
  same_lists st (store_source p f st).
Proof.
  split; try done. intros a. unfold store_source. cbn [source_heap set_source_heap].
  rewrite lookup_alter. case_decide; [subst|done].
  destruct (source_heap st !! a); [by split; eexists|]. split; by intros [? ?].
Qed.

Lemma same_lists_store_context (p : Z) (f : ContextWrapper -> ContextWrapper) (st : Recorder) :
  (forall c, ctx_errorlatch (f c) = ctx_errorlatch c /\ ctx_next (f c) = ctx_next c) ->
  same_lists st (store_context p f st).
Proof.
  intros Hf. split; try done. intros a. rewrite context_at_store. split.
  - unfold store_context. cbn [context_heap set_context_heap]. rewrite lookup_alter.
    case_decide; [subst|done].
    destruct (context_heap st !! a); [by split; eexists|]. split; by intros [? ?].
  - case_decide; [subst|done]. unfold context_at.
    destruct (context_heap st !! a) as [c|]; [|done]. apply Hf.
Qed.

Lemma same_lists_store_device (p : Z) (f : DeviceWrapper -> DeviceWrapper) (st : Recorder) :
  (forall d, dev_errorlatch (f d) = dev_errorlatch d /\ dev_next (f d) = dev_next d /\
             dev_prev (f d) = dev_prev d /\ contexts (f d) = contexts d) ->
  same_lists st (store_device p f st).
Proof.
  intros Hf. split; try done. intros a. rewrite device_at_store. split.
  - unfold store_device. cbn [device_heap set_device_heap]. rewrite lookup_alter.
    case_decide; [subst|done].
    destruct (device_heap st !! a); [by split; eexists|]. split; by intros [? ?].
  - case_decide; [subst|done]. unfold device_at.
    destruct (device_heap st !! a) as [d|]; [|done]. apply Hf.
Qed.

(** *** The playlist links *)

Definition links_ok (rank : Z -> nat) (st : Recorder) : Prop :=
  descending rank (fun a => playlist_next (source_at st a)) /\ prev_accurate st.

Lemma links_ok_shape (rank : Z -> nat) (st st' : Recorder) :
  same_shape st st' -> links_ok rank st -> links_ok rank st'.
Proof.
  intros [Hs _ _ _ _ _ _] [Hd Hp]. split.
  - intros a. destruct (Hs a) as (_ & _ & Hn & _). rewrite Hn. apply Hd.
  - intros a. destruct (Hs a) as (_ & _ & _ & Hq & _). rewrite Hq.
    destruct (Hs (playlist_prev (source_at st a))) as (_ & _ & Hn & _). rewrite Hn. apply Hp.
Qed.

Lemma store_context_sources (p : Z) (f : ContextWrapper -> ContextWrapper) (st : Recorder) (a : Z) :
  source_at (store_context p f st) a = source_at st a.
Proof. reflexivity. Qed.

Lemma links_store_prev (q v : Z) (st : Recorder) (a : Z) :
  playlist_next (source_at (store_source q (set_playlist_prev v) st) a) =
    playlist_next (source_at st a) /\
  playlist_prev (source_at (store_source q (set_playlist_prev v) st) a) =
    if decide (a = q /\ is_Some (source_heap st !! a)) then v
    else playlist_prev (source_at st a).
Proof.
  rewrite source_at_store. unfold source_at.
  destruct (decide (q = a)) as [->|Hne].
  - destruct (source_heap st !! a) as [s|] eqn:E; cbn.
    + split; [done|]. rewrite decide_True; [done|]. split; [done|by eexists].
    + split; [done|]. rewrite decide_False; [done|]. intros [_ [? ?]]. done.
  - split; [done|]. rewrite decide_False; [done|]. intros [-> _]. done.
Qed.

Lemma links_store_next (q v : Z) (st : Recorder) (a : Z) :
  playlist_prev (source_at (store_source q (set_playlist_next v) st) a) =
    playlist_prev (source_at st a) /\
  playlist_next (source_at (store_source q (set_playlist_next v) st) a) =
    if decide (a = q /\ is_Some (source_heap st !! a)) then v
    else playlist_next (source_at st a).
Proof.
  rewrite source_at_store. unfold source_at.
  destruct (decide (q = a)) as [->|Hne].
  - destruct (source_heap st !! a) as [s|] eqn:E; cbn.
    + split; [done|]. rewrite decide_True; [done|]. split; [done|by eexists].
    + split; [done|]. rewrite decide_False; [done|]. intros [_ [? ?]]. done.
  - split; [done|]. rewrite decide_False; [done|]. intros [-> _]. done.
Qed.

Lemma live_of_prev (st : Recorder) (a : Z) :
  playlist_prev (source_at st a) <> 0 -> is_Some (source_heap st !! a).
Proof. unfold source_at. destruct (source_heap st !! a); [by eexists|done]. Qed.

Lemma live_of_next (st : Recorder) (a : Z) :
  playlist_next (source_at st a) <> 0 -> is_Some (source_heap st !! a).
Proof. unfold source_at. destruct (source_heap st !! a); [by eexists|done]. Qed.

Lemma playlist_remove_links (rank : Z -> nat) (ctx src : Z) (st : Recorder) :
  src <> 0 ->
  links_ok rank st ->
  links_ok rank (playlist_remove ctx src (playlist_next (source_at st src)) st) /\
  same_lists st (playlist_remove ctx src (playlist_next (source_at st src)) st).
Proof.
  intros Hsrc [Hd Hp].
  set (next := playlist_next (source_at st src)).
  set (prev := playlist_prev (source_at st src)).
  assert (Hnext : next <> 0 -> (rank next < rank src)%nat) by apply Hd.
  assert (Hprev : prev <> 0 -> playlist_next (source_at st prev) = src) by apply Hp.
  assert (Hprank : prev <> 0 -> (rank src < rank prev)%nat).
  { intros Hne. pose proof (Hd prev) as Hd'. cbv beta in Hd'. rewrite (Hprev Hne) in Hd'.
    by apply Hd'. }
  unfold playlist_remove. fold next. fold prev.
  set (st1 := if negb (next =? 0) then _ else st).
  assert (H1 : forall a,
    playlist_next (source_at st1 a) = playlist_next (source_at st a) /\
    playlist_prev (source_at st1 a) =
      if decide (next <> 0 /\ a = next /\ is_Some (source_heap st !! a)) then prev
      else playlist_prev (source_at st a)).
  { intros a. subst st1. destruct (next =? 0) eqn:E; cbn [negb].
    - apply Z.eqb_eq in E. split; [done|]. rewrite decide_False; [done|]. tauto.
    - apply Z.eqb_neq in E. destruct (links_store_prev next prev st a) as [-> ->].
      split; [done|]. repeat case_decide; intuition congruence. }
  assert (L1 : same_lists st st1).
  { subst st1. destruct (negb (next =? 0)); [apply same_lists_store_source|apply same_lists_refl]. }
  assert (Hp1 : playlist_prev (source_at st1 src) = prev).
  { destruct (H1 src) as [_ ->]. destruct (decide _); reflexivity. }
  rewrite Hp1.
  set (st2 := if negb (prev =? 0) then _ else _).
  assert (H2 : forall a,
    playlist_next (source_at st2 a) =
      (if decide (prev <> 0 /\ a = prev) then next else playlist_next (source_at st a)) /\
    playlist_prev (source_at st2 a) = playlist_prev (source_at st1 a)).
  { intros a. subst st2. destruct (prev =? 0) eqn:E; cbn [negb].
    - apply Z.eqb_eq in E. rewrite store_context_sources.
      destruct (H1 a) as [-> _]. split; [|done]. rewrite decide_False; [done|]. tauto.
    - apply Z.eqb_neq in E. destruct (links_store_next prev next st1 a) as [-> ->].
      split; [|done]. destruct (H1 a) as [-> _].
      assert (Hl : is_Some (source_heap st1 !! prev)).
      { apply L1. apply live_of_next. rewrite (Hprev E). done. }
      repeat case_decide; intuition congruence. }
  assert (L2 : same_lists st1 st2).
  { subst st2. destruct (negb (prev =? 0)); [apply same_lists_store_source|].
    apply same_lists_store_context. by intros []. }
  set (st3 := store_source src (set_playlist_prev 0) st2).
  set (st4 := store_source src (set_playlist_next 0) st3).
  assert (H4 : forall a,
    playlist_next (source_at st4 a) =
      (if decide (a = src) then 0 else playlist_next (source_at st2 a)) /\
    playlist_prev (source_at st4 a) =
      (if decide (a = src) then 0 else playlist_prev (source_at st2 a))).
  { intros a. subst st4 st3.
    set (st3 := store_source src (set_playlist_prev 0) st2).
    destruct (links_store_next src 0 st3 a) as [-> ->]. subst st3.
    destruct (links_store_prev src 0 st2 a) as [-> ->].
    assert (Hl3 : is_Some (source_heap (store_source src (set_playlist_prev 0) st2) !! a) <->
                  is_Some (source_heap st2 !! a))
      by apply (same_lists_store_source src (set_playlist_prev 0) st2).
    destruct (decide (a = src)) as [->|Hne].
    - unfold source_at.
      destruct (source_heap st2 !! src) as [s|] eqn:E.
      + rewrite !decide_True;
          [by split|split; [done|by eexists]|split; [done|apply Hl3; by eexists]].
      + rewrite !decide_False;
          [by split|intros [_ [? ?]]; done|intros [_ Hl]; apply Hl3 in Hl; by destruct Hl].
    - rewrite !decide_False by tauto. done. }
  split.
  - split.
    + intros a. destruct (H4 a) as [-> _].
      destruct (decide (a = src)) as [Ha|Ha]; [congruence|].
      destruct (H2 a) as [-> _]. intros Hne.
      destruct (decide (prev <> 0 /\ a = prev)) as [[Hpne ->]|Hc].
      * specialize (Hnext Hne). specialize (Hprank Hpne). lia.
      * by apply Hd.
    + intros a. destruct (H4 a) as [_ Hpa]. rewrite Hpa.
      destruct (decide (a = src)) as [Ha|Ha]; [congruence|].
      destruct (H2 a) as [_ ->]. destruct (H1 a) as [_ ->]. intros Hne.
      destruct (decide (next <> 0 /\ a = next /\ is_Some (source_heap st !! a)))
        as [(Hn & -> & Hl)|Hc].
      * destruct (H4 prev) as [-> _]. rewrite decide_False.
        -- destruct (H2 prev) as [-> _]. by rewrite decide_True.
        -- intros Heq. specialize (Hprank Hne). rewrite Heq in Hprank. lia.
      * set (q := playlist_prev (source_at st a)) in *.
        assert (Hq : playlist_next (source_at st q) = a) by (by apply Hp).
        destruct (H4 q) as [-> _]. destruct (decide (q = src)) as [Hqs|Hqs].
        -- rewrite Hqs in Hq. fold next in Hq.
           destruct (decide (next = 0)) as [Hz|Hnz]; [congruence|].
           exfalso. apply Hc. split_and!; [done|done|]. by apply live_of_prev.
        -- destruct (H2 q) as [-> _]. rewrite decide_False; [done|].
           intros [Hpz Hqp]. rewrite Hqp, (Hprev Hpz) in Hq. congruence.
  - eapply same_lists_trans; [exact L1|]. eapply same_lists_trans; [exact L2|].
    eapply same_lists_trans; apply same_lists_store_source.
Qed.

Lemma poll_playlist_ok (rank : Z -> nat) (fuel : nat) :
  forall (ctx src : Z) (st : Recorder),
    links_ok rank st ->
    (rank src + 1 < fuel)%nat ->
    exists st',
      poll_playlist fuel ctx src st = Some st' /\ links_ok rank st' /\ same_lists st st'.
Proof.
  induction fuel as [|fuel IH]; intros ctx src st Hok Hfuel; [lia|].
  cbn [poll_playlist]. destruct (src =? 0) eqn:Esrc.
  { exists st. split_and!; [done|done|apply same_lists_refl]. }
  apply Z.eqb_neq in Esrc.
  set (next := playlist_next (source_at st src)).
  assert (Hshape := same_shape_check_source_state src st).
  set (st1 := check_source_state src st) in *.
  assert (Hok1 : links_ok rank st1) by (by eapply links_ok_shape).
  assert (Hnext : playlist_next (source_at st1 src) = next).
  { destruct Hshape as [Hs _ _ _ _ _ _]. by destruct (Hs src) as (_ & _ & -> & _). }
  assert (Hrank : next <> 0 -> (rank next < rank src)%nat).
  { destruct Hok as [Hd _]. apply Hd. }
  set (st2 := if negb (state (source_at st1 src) =? AL_PLAYING) then _ else st1).
  assert (H2 : links_ok rank st2 /\ same_lists st1 st2).
  { subst st2. destruct (negb (state (source_at st1 src) =? AL_PLAYING)).
    - rewrite <- Hnext. by apply playlist_remove_links.
    - split; [done|apply same_lists_refl]. }
  destruct H2 as [Hok2 Hl2].
  assert (Hl : same_lists st st2).
  { eapply same_lists_trans; [|exact Hl2]. by apply same_shape_lists. }
  destruct (decide (next = 0)) as [->|Hnz].
  - destruct fuel as [|fuel]; [lia|]. exists st2. by split_and!.
  - destruct (IH ctx next st2 Hok2) as (st' & Hrun & Hok' & Hl'); [specialize (Hrank Hnz); lia|].
    exists st'. split_and!; [done|done|]. by eapply same_lists_trans.
Qed.

Lemma links_ok_same_sources (rank : Z -> nat) (st st' : Recorder) :
  source_heap st' = source_heap st -> links_ok rank st -> links_ok rank st'.
Proof.
  intros Hs [Hd Hp]. unfold links_ok, descending, prev_accurate, source_at in *.
  rewrite Hs. by split.
Qed.

Lemma descending_contexts (rank : Z -> nat) (st st' : Recorder) :
  same_lists st st' ->
  descending rank (fun a => ctx_next (context_at st a)) ->
  descending rank (fun a => ctx_next (context_at st' a)).
Proof.
  intros [_ Hc _ _ _] Hd a. destruct (Hc a) as (_ & _ & Hn). rewrite Hn. apply Hd.
Qed.

Lemma descending_devices (rank : Z -> nat) (st st' : Recorder) :
  same_lists st st' ->
  descending rank (fun a => dev_next (device_at st a)) ->
  descending rank (fun a => dev_next (device_at st' a)).
Proof.
  intros [_ _ Hc _ _] Hd a. destruct (Hc a) as (_ & _ & Hn & _). rewrite Hn. apply Hd.
Qed.

Lemma poll_contexts_ok (rank_s rank_c : Z -> nat) (inner fuel : nat) :
  forall (ctx : Z) (st : Recorder),
    links_ok rank_s st ->
    (forall a, (rank_s a + 1 < inner)%nat) ->
    descending rank_c (fun a => ctx_next (context_at st a)) ->
    (rank_c ctx + 1 < fuel)%nat ->
    exists st',
      poll_contexts inner fuel ctx st = Some st' /\ links_ok rank_s st' /\ same_lists st st'.
Proof.
  induction fuel as [|fuel IH]; intros ctx st Hok Hinner Hdesc Hfuel; [lia|].
  cbn [poll_contexts]. destruct (ctx =? 0) eqn:Ectx.
  { exists st. split_and!; [done|done|apply same_lists_refl]. }
  destruct (poll_playlist_ok rank_s inner ctx (playlist (context_at st ctx)) st Hok (Hinner _))
    as (st1 & -> & Hok1 & Hl1).
  cbn [mbind option_bind].
  assert (Hn : ctx_next (context_at st1 ctx) = ctx_next (context_at st ctx)).
  { destruct Hl1 as [_ Hc _ _ _]. by destruct (Hc ctx) as (_ & _ & ->). }
  rewrite Hn. set (next := ctx_next (context_at st ctx)).
  destruct (decide (next = 0)) as [->|Hnz].
  - destruct fuel as [|fuel]; [lia|]. exists st1. by split_and!.
  - destruct (IH next st1 Hok1 Hinner) as (st' & Hrun & Hok' & Hl').
    + by eapply descending_contexts.
    + pose proof (Hdesc ctx Hnz) as Hr. cbv beta in Hr. fold next in Hr. lia.
    + exists st'. split_and!; [done|done|]. by eapply same_lists_trans.
Qed.

Lemma check_device_state_bool_frame (dev param : Z) (st : Recorder) :
  same_lists st (check_device_state_bool dev param connected set_connected st) /\
  source_heap (check_device_state_bool dev param connected set_connected st) = source_heap st.
Proof.
  unfold check_device_state_bool. destruct (REAL_alcGetIntegerv _ _ _ _) as [ival w].
  match goal with |- context [if ?b then _ else _] => destruct b end; [|by split].
  split; [|done].
  eapply same_lists_trans; [|apply same_lists_store_device; by intros []].
  by split.
Qed.

Lemma check_device_state_int_frame (dev param : Z) (st : Recorder) :
  same_lists st (check_device_state_int dev param capture_samples set_capture_samples st) /\
  source_heap (check_device_state_int dev param capture_samples set_capture_samples st)
    = source_heap st.
Proof.
  unfold check_device_state_int. destruct (REAL_alcGetIntegerv _ _ _ _) as [ival w].
  match goal with |- context [if ?b then _ else _] => destruct b end; [|by split].
  split; [|done].
  eapply same_lists_trans; [|apply same_lists_store_device; by intros []].
  by split.
Qed.

Lemma poll_devices_ok (rank_s rank_c rank_d : Z -> nat) (inner fuel : nat) :
  forall (dev : Z) (st : Recorder),
    links_ok rank_s st ->
    (forall a, (rank_s a + 1 < inner)%nat) ->
    (forall a, (rank_c a + 1 < inner)%nat) ->
    descending rank_c (fun a => ctx_next (context_at st a)) ->
    descending rank_d (fun a => dev_next (device_at st a)) ->
    (rank_d dev + 1 < fuel)%nat ->
    exists st',
      poll_devices inner fuel dev st = Some st' /\ links_ok rank_s st' /\ same_lists st st'.
Proof.
  induction fuel as [|fuel IH]; intros dev st Hok Hinner Hinnerc Hdc Hdd Hfuel; [lia|].
  cbn [poll_devices]. destruct (dev =? 0) eqn:Edev.
  { exists st. split_and!; [done|done|apply same_lists_refl]. }
  set (st1 := if negb (supports_disconnect_ext (device_at st dev) =? 0) then _ else st).
  assert (H1 : same_lists st st1 /\ source_heap st1 = source_heap st).
  { subst st1. destruct (negb (supports_disconnect_ext (device_at st dev) =? 0)).
    - apply check_device_state_bool_frame.
    - split; [apply same_lists_refl|done]. }
  destruct H1 as [Hl1 Hs1].
  assert (Hok1 : links_ok rank_s st1) by (by eapply links_ok_same_sources).
  assert (H2 : exists st2,
    (if negb (iscapture (device_at st1 dev) =? 0)
     then Some (check_device_state_int dev ALC_CAPTURE_SAMPLES capture_samples
                  set_capture_samples st1)
     else poll_contexts inner inner (contexts (device_at st1 dev)) st1) = Some st2 /\
    links_ok rank_s st2 /\ same_lists st1 st2).
  { destruct (negb (iscapture (device_at st1 dev) =? 0)).
    - eexists. split; [reflexivity|].
      destruct (check_device_state_int_frame dev ALC_CAPTURE_SAMPLES st1) as [? Hs].
      split; [|done]. by eapply links_ok_same_sources.
    - apply poll_contexts_ok with (rank_c := rank_c); try done.
      by eapply descending_contexts. }
  destruct H2 as (st2 & -> & Hok2 & Hl2). cbn [mbind option_bind].
  assert (Hl : same_lists st st2) by (by eapply same_lists_trans).
  assert (Hn : dev_next (device_at st2 dev) = dev_next (device_at st dev)).
  { destruct Hl as [_ _ Hc _ _]. by destruct (Hc dev) as (_ & _ & -> & _). }
  rewrite Hn. set (next := dev_next (device_at st dev)).
  destruct (decide (next = 0)) as [->|Hnz].
  - destruct fuel as [|fuel]; [lia|]. exists st2. by split_and!.
  - destruct (IH next st2 Hok2 Hinner Hinnerc) as (st' & Hrun & Hok' & Hl').
    + by eapply descending_contexts.
    + by eapply descending_devices.
    + pose proof (Hdd dev Hnz) as Hr. cbv beta in Hr. fold next in Hr. lia.
    + exists st'. split_and!; [done|done|]. by eapply same_lists_trans.
Qed.

(** The polling pass ends on a well-formed state, and leaves it so. *)
Lemma check_al_async_states_ok (bound fuel : nat) (st : Recorder) :
  well_formed bound st ->
  (bound < fuel)%nat ->
  exists st',
    check_al_async_states fuel st = Some st' /\ well_formed bound st' /\ same_lists st st'.
Proof.
  intros [(rank_d & Hbd & Hdd) (rank_c & Hbc & Hdc) (rank_s & Hbs & Hds) Hprev Hcur] Hfuel.
  unfold check_al_async_states.
  destruct (poll_devices_ok rank_s rank_c rank_d fuel fuel
              (dev_next (device_at st null_device)) st) as (st' & Hrun & [Hd' Hp'] & Hl);
    try done.
  - intros a. specialize (Hbs a). lia.
  - intros a. specialize (Hbc a). lia.
  - specialize (Hbd (dev_next (device_at st null_device))). lia.
  - exists st'. split_and!; [done| |done]. split.
    + exists rank_d. split; [done|]. by eapply descending_devices.
    + exists rank_c. split; [done|]. by eapply descending_contexts.
    + by exists rank_s.
    + done.
    + destruct Hl as [_ Hc _ Hcc _]. rewrite Hcc. intros Hne. apply Hc. by apply Hcur.
Qed.
(** *** The error latches *)

(** A step that keeps the sources, the list links and the live contexts
    keeps the state well formed. *)
Lemma well_formed_preserved (bound : nat) (st st' : Recorder) :
  source_heap st' = source_heap st ->
  (forall a, ctx_next (context_at st' a) = ctx_next (context_at st a)) ->
  (forall a, dev_next (device_at st' a) = dev_next (device_at st a)) ->
  current_context st' = current_context st ->
  (forall a, is_Some (context_heap st !! a) -> is_Some (context_heap st' !! a)) ->
  well_formed bound st -> well_formed bound st'.
Proof.
  intros Hs Hc Hd Hcur Hlive [(rank_d & Hbd & Hdd) (rank_c & Hbc & Hdc) Hpl Hprev Hcc].
  split.
  - exists rank_d. split; [done|]. intros a. rewrite Hd. apply Hdd.
  - exists rank_c. split; [done|]. intros a. rewrite Hc. apply Hdc.
  - unfold source_at. by rewrite Hs.
  - unfold prev_accurate, source_at in *. by rewrite Hs.
  - rewrite Hcur. intros Hne. by apply Hlive, Hcc.
Qed.

Lemma IO_START_frame (entryid : Z) (st : Recorder) :
  exists m fd, IO_START entryid st = set_stackframes m (set_logfd fd st).
Proof.
  unfold IO_START, IO_ENTRYINFO.
  destruct (Callstack.IO_ENTRYINFO _ _ _) as [m fd]. by exists m, fd.
Qed.

Lemma store_context_live (p : Z) (f : ContextWrapper -> ContextWrapper) (st : Recorder) (a : Z) :
  is_Some (context_heap st !! a) -> is_Some (context_heap (store_context p f st) !! a).
Proof.
  unfold store_context. cbn [context_heap set_context_heap]. rewrite lookup_alter.
  case_decide; [subst|done]. intros [c ->]. by eexists.
Qed.

(** What the post-call check of the AL error does.  With no current
    context it returns at once and the state is untouched.  Otherwise it
    takes the error off the real library; an error goes to the log and,
    only if the latch of the current context is clear, into that
    latch. *)
Lemma check_al_error_events_spec (st : Recorder) :
  (current_context st = 0 -> check_al_error_events st = (AL_NO_ERROR, st)) /\
  (current_context st <> 0 ->
   (check_al_error_events st).1 = (REAL_alGetError (world st)).1 /\
   world (check_al_error_events st).2 = (REAL_alGetError (world st)).2 /\
   al_errorlatch (check_al_error_events st).2 =
     if al_errorlatch st =? AL_NO_ERROR
     then match context_heap st !! current_context st with
          | Some _ => (REAL_alGetError (world st)).1
          | None => AL_NO_ERROR
          end
     else al_errorlatch st) /\
  source_heap (check_al_error_events st).2 = source_heap st /\
  device_heap (check_al_error_events st).2 = device_heap st /\
  current_context (check_al_error_events st).2 = current_context st /\
  null_context_errorlatch (check_al_error_events st).2 = null_context_errorlatch st /\
  (forall a, ctx_next (context_at (check_al_error_events st).2 a) = ctx_next (context_at st a)) /\
  (forall a, a <> current_context st ->
     ctx_errorlatch (context_at (check_al_error_events st).2 a) =
       ctx_errorlatch (context_at st a)) /\
  (forall a, is_Some (context_heap st !! a) ->
     is_Some (context_heap (check_al_error_events st).2 !! a)).
Proof.
  unfold check_al_error_events, al_errorlatch.
  destruct (current_context st =? 0) eqn:Ecur.
  { apply Z.eqb_eq in Ecur. by split_and!. }
  apply Z.eqb_neq in Ecur.
  destruct (REAL_alGetError (world st)) as [alerr w] eqn:Ereal. cbn [fst snd].
  destruct (alerr =? AL_NO_ERROR) eqn:Eerr; cbn [negb fst snd].
  { apply Z.eqb_eq in Eerr. subst alerr. split_and!; try done.
    intros _. cbn [current_context set_world world]. rewrite (proj2 (Z.eqb_neq _ _) Ecur).
    split_and!; [done|done|]. change (context_at (set_world w st)) with (context_at st).
    change (context_heap (set_world w st)) with (context_heap st).
    destruct (ctx_errorlatch (context_at st (current_context st)) =? AL_NO_ERROR) eqn:El;
      [|done].
    apply Z.eqb_eq in El. rewrite El. by destruct (context_heap st !! current_context st). }
  cbn [current_context set_world emit set_logfd]. rewrite (proj2 (Z.eqb_neq _ _) Ecur).
  cbn [negb].
  set (st1 := emit _ (emit _ (set_world w st))).
  change (context_at st1) with (context_at st).
  destruct (ctx_errorlatch (context_at st (current_context st)) =? AL_NO_ERROR) eqn:El.
  - split_and!; try done.
    + intros _. cbn [current_context store_context set_context_heap world].
      change (current_context st1) with (current_context st).
      rewrite (proj2 (Z.eqb_neq _ _) Ecur). split_and!; [done|done|].
      rewrite context_at_store, decide_True by done.
      change (context_heap st1) with (context_heap st).
      by destruct (context_heap st !! current_context st).
    + intros a. rewrite context_at_store. case_decide; [subst a|done].
      change (context_heap st1) with (context_heap st). unfold context_at.
      by destruct (context_heap st !! current_context st).
    + intros a Hne. rewrite context_at_store. by rewrite decide_False.
    + intros a Ha. apply (store_context_live _ _ st1). exact Ha.
  - split_and!; try done. intros _. change (current_context st1) with (current_context st).
    rewrite (proj2 (Z.eqb_neq _ _) Ecur). done.
Qed.

Lemma store_device_live (p : Z) (f : DeviceWrapper -> DeviceWrapper) (st : Recorder) (a : Z) :
  is_Some (device_heap st !! a) -> is_Some (device_heap (store_device p f st) !! a).
Proof.
  unfold store_device. cbn [device_heap set_device_heap]. rewrite lookup_alter.
  case_decide; [subst|done]. intros [c ->]. by eexists.
Qed.

(** The same for the ALC error of a device. *)
Lemma check_alc_error_events_spec (dev : Z) (st : Recorder) :
  (dev = 0 -> check_alc_error_events dev st = (ALC_NO_ERROR, st)) /\
  (dev <> 0 ->
   (check_alc_error_events dev st).1 =
     (REAL_alcGetError (device (device_at st dev)) (world st)).1 /\
   dev_errorlatch (device_at (check_alc_error_events dev st).2 dev) =
     if dev_errorlatch (device_at st dev) =? ALC_NO_ERROR
     then match device_heap st !! dev with
          | Some _ => (REAL_alcGetError (device (device_at st dev)) (world st)).1
          | None => ALC_NO_ERROR
          end
     else dev_errorlatch (device_at st dev)) /\
  source_heap (check_alc_error_events dev st).2 = source_heap st /\
  context_heap (check_alc_error_events dev st).2 = context_heap st /\
  current_context (check_alc_error_events dev st).2 = current_context st /\
  null_context_errorlatch (check_alc_error_events dev st).2 = null_context_errorlatch st /\
  (forall a, dev_next (device_at (check_alc_error_events dev st).2 a) =
             dev_next (device_at st a)) /\
  (forall a, a <> dev ->
     dev_errorlatch (device_at (check_alc_error_events dev st).2 a) =
       dev_errorlatch (device_at st a)).
Proof.
  unfold check_alc_error_events.
  destruct (dev =? 0) eqn:Edev.
  { apply Z.eqb_eq in Edev. by split_and!. }
  apply Z.eqb_neq in Edev.
  destruct (REAL_alcGetError (device (device_at st dev)) (world st)) as [alcerr w] eqn:Ereal.
  cbn [fst snd].
  destruct (alcerr =? ALC_NO_ERROR) eqn:Eerr; cbn [negb fst snd].
  { apply Z.eqb_eq in Eerr. subst alcerr. split_and!; try done.
    intros _. split; [done|]. change (device_at (set_world w st)) with (device_at st).
    destruct (dev_errorlatch (device_at st dev) =? ALC_NO_ERROR) eqn:El; [|done].
    apply Z.eqb_eq in El. rewrite El. by destruct (device_heap st !! dev). }
  set (st1 := emit _ (emit _ (emit _ (set_world w st)))).
  change (device_at st1) with (device_at st).
  destruct (dev_errorlatch (device_at st dev) =? ALC_NO_ERROR) eqn:El.
  - split_and!; try done.
    + intros _. split; [done|]. rewrite device_at_store, decide_True by done.
      change (device_heap st1) with (device_heap st).
      by destruct (device_heap st !! dev).
    + intros a. rewrite device_at_store. case_decide; [subst a|done].
      change (device_heap st1) with (device_heap st). unfold device_at.
      by destruct (device_heap st !! dev).
    + intros a Hne. rewrite device_at_store. by rewrite decide_False.
  - split_and!; try done.
Qed.

Lemma al_errorlatch_same_lists (st st' : Recorder) :
  same_lists st st' -> al_errorlatch st' = al_errorlatch st.
Proof.
  intros [_ Hc _ Hcur Hnull]. unfold al_errorlatch. rewrite Hcur, Hnull.
  by destruct (Hc (current_context st)) as (_ & -> & _).
Qed.

Lemma alc_errorlatch_same_lists (_device : Z) (st st' : Recorder) :
  same_lists st st' -> alc_errorlatch _device st' = alc_errorlatch _device st.
Proof.
  intros [_ _ Hd _ _]. unfold alc_errorlatch.
  by destruct (Hd (if negb (_device =? 0) then _device else null_device)) as (_ & -> & _).
Qed.

(** [alGetError] on a well-formed state returns, and returns the latch;
    what the latch holds afterwards is what the call's own post-call
    check took off the real library (nothing, without a context). *)
Lemma alGetError_spec (bound fuel : nat) (st : Recorder) :
  well_formed bound st ->
  (bound < fuel)%nat ->
  exists st',
    alGetError fuel st = Some (al_errorlatch st, st') /\
    well_formed bound st' /\
    current_context st' = current_context st /\
    null_context_errorlatch st' =
      (if current_context st =? 0 then AL_NO_ERROR else null_context_errorlatch st) /\
    al_errorlatch st' =
      if current_context st =? 0 then AL_NO_ERROR else (REAL_alGetError (world st)).1.
Proof.
  intros Hwf Hfuel. unfold alGetError.
  destruct (IO_START_frame ALEE_alGetError st) as (m & fd & ->).
  cbn [current_context set_stackframes set_logfd null_context_errorlatch].
  change (context_at (set_stackframes m (set_logfd fd st))) with (context_at st).
  set (st0 := set_stackframes m (set_logfd fd st)).
  unfold al_errorlatch at 1.
  destruct (current_context st =? 0) eqn:Ecur.
  - apply Z.eqb_eq in Ecur.
    set (st2 := emit _ (set_null_context_errorlatch AL_NO_ERROR st0)).
    unfold IO_END.
    destruct (check_al_error_events_spec st2) as (Hnone & _). rewrite (Hnone Ecur).
    assert (Hwf2 : well_formed bound st2).
    { apply (well_formed_preserved bound st st2);
        [reflexivity|by intros|by intros|reflexivity|by intros|exact Hwf]. }
    destruct (check_al_async_states_ok bound fuel st2 Hwf2 Hfuel) as (st' & -> & Hwf' & Hl).
    cbn [mbind option_bind]. exists st'. split_and!; [done|done| | |].
    + by destruct Hl as [_ _ _ -> _].
    + by destruct Hl as [_ _ _ _ ->].
    + rewrite (al_errorlatch_same_lists _ _ Hl). unfold al_errorlatch.
      change (current_context st2) with (current_context st). by rewrite Ecur.
  - apply Z.eqb_neq in Ecur.
    set (st2 := emit _ (store_context (current_context st)
                          (set_ctx_errorlatch AL_NO_ERROR) st0)).
    assert (Hlive : is_Some (context_heap st !! current_context st)) by (by apply Hwf).
    assert (Hlatch2 : al_errorlatch st2 = AL_NO_ERROR).
    { unfold al_errorlatch. change (current_context st2) with (current_context st).
      rewrite (proj2 (Z.eqb_neq _ _) Ecur).
      change (context_at st2) with
        (context_at (store_context (current_context st) (set_ctx_errorlatch AL_NO_ERROR) st0)).
      rewrite context_at_store, decide_True by done.
      change (context_heap st0) with (context_heap st). by destruct Hlive as [c ->]. }
    assert (Hlive2 : forall a, is_Some (context_heap st !! a) -> is_Some (context_heap st2 !! a)).
    { intros a Ha. by apply (store_context_live _ _ st0). }
    assert (Hnext2 : forall a, ctx_next (context_at st2 a) = ctx_next (context_at st a)).
    { intros a. change (context_at st2) with
        (context_at (store_context (current_context st) (set_ctx_errorlatch AL_NO_ERROR) st0)).
      rewrite context_at_store. case_decide; [subst a|done].
      change (context_heap st0) with (context_heap st). unfold context_at.
      by destruct (context_heap st !! current_context st). }
    unfold IO_END.
    destruct (check_al_error_events_spec st2)
      as (_ & Hsome & Hs & Hd & Hc & Hn & Hnx & _ & Hlv).
    destruct (Hsome Ecur) as (_ & _ & Hl3).
    destruct (check_al_error_events st2) as [alerr st3]. cbn [fst snd] in *.
    rewrite Hlatch2 in Hl3. cbn [Z.eqb AL_NO_ERROR] in Hl3.
    change (world st2) with (world st) in Hl3.
    change (current_context st2) with (current_context st) in Hl3.
    destruct (Hlive2 _ Hlive) as [c2 Hc2]. rewrite Hc2 in Hl3.
    assert (Hwf3 : well_formed bound st3).
    { apply (well_formed_preserved bound st st3); [| | | | |exact Hwf].
      - by rewrite Hs.
      - intros a. by rewrite Hnx.
      - intros a. unfold device_at. by rewrite Hd.
      - by rewrite Hc.
      - intros a Ha. by apply Hlv, Hlive2. }
    destruct (check_al_async_states_ok bound fuel st3 Hwf3 Hfuel) as (st' & -> & Hwf' & Hl).
    cbn [mbind option_bind]. exists st'. split_and!; [done|done| | |].
    + destruct Hl as [_ _ _ -> _]. by rewrite Hc.
    + destruct Hl as [_ _ _ _ ->]. by rewrite Hn.
    + by rewrite (al_errorlatch_same_lists _ _ Hl).
Qed.

(** [alcGetError] likewise, for the latch of its device. *)
Lemma alcGetError_spec (bound fuel : nat) (_device : Z) (st : Recorder) :
  well_formed bound st ->
  (bound < fuel)%nat ->
  let dev := if negb (_device =? 0) then _device else null_device in
  exists st',
    alcGetError fuel _device st = Some (alc_errorlatch _device st, st') /\
    well_formed bound st' /\
    alc_errorlatch _device st' =
      match device_heap st !! dev with
      | Some _ => (REAL_alcGetError (device (device_at st dev)) (world st)).1
      | None => ALC_NO_ERROR
      end.
Proof.
  intros Hwf Hfuel dev. unfold alcGetError, alc_errorlatch. fold dev.
  assert (Hdev : dev <> 0).
  { subst dev. destruct (_device =? 0) eqn:E; cbn [negb]; [done|]. by apply Z.eqb_neq. }
  destruct (IO_START_frame ALEE_alcGetError st) as (m & fd & ->).
  set (st1 := emit (Rec.IO_PTR _device) (set_stackframes m (set_logfd fd st))).
  change (device_at st1) with (device_at st).
  set (st3 := emit _ (store_device dev (set_dev_errorlatch ALC_NO_ERROR) st1)).
  assert (Hat3 : forall a, device_at st3 a =
            if decide (dev = a)
            then match device_heap st !! dev with
                 | Some d => set_dev_errorlatch ALC_NO_ERROR d
                 | None => zero_device
                 end
            else device_at st a).
  { intros a. change (device_at st3) with
      (device_at (store_device dev (set_dev_errorlatch ALC_NO_ERROR) st1)).
    by rewrite device_at_store. }
  assert (Hlive3 : forall a, is_Some (device_heap st !! a) -> is_Some (device_heap st3 !! a)).
  { intros a Ha. by apply (store_device_live _ _ st1). }
  unfold IO_END_ALC.
  destruct (check_alc_error_events_spec dev st3) as (_ & Hsome & Hs & Hc & Hcur & _ & Hnx & _).
  destruct (Hsome Hdev) as (_ & Hl4).
  destruct (check_alc_error_events dev st3) as [alcerr st4]. cbn [fst snd] in *.
  assert (Hwf4 : well_formed bound st4).
  { apply (well_formed_preserved bound st st4); [| | | | |exact Hwf].
    - by rewrite Hs.
    - intros a. unfold context_at. by rewrite Hc.
    - intros a. rewrite Hnx, Hat3. case_decide; [subst a|done].
      unfold device_at. by destruct (device_heap st !! dev).
    - by rewrite Hcur.
    - intros a. by rewrite Hc. }
  destruct (check_al_async_states_ok bound fuel st4 Hwf4 Hfuel) as (st' & -> & Hwf' & Hl).
  cbn [mbind option_bind]. exists st'. split_and!; [done|done|].
  destruct Hl as [_ _ Hd _ _]. destruct (Hd dev) as (_ & -> & _). rewrite Hl4.
  rewrite Hat3, decide_True by done. change (world st3) with (world st).
  destruct (device_heap st !! dev) as [d|] eqn:Ed.
  - cbn [dev_errorlatch set_dev_errorlatch ALC_NO_ERROR Z.eqb device].
    destruct (Hlive3 dev) as [d3 ->]; [by eexists|]. unfold device_at. by rewrite Ed.
  - assert (E3 : device_heap st3 !! dev = None).
    { change (device_heap st3) with
        (alter (set_dev_errorlatch ALC_NO_ERROR) dev (device_heap st)).
      by rewrite lookup_alter_eq, Ed. }
    rewrite E3. reflexivity.
Qed.

(** C2 as the code has it: the post-call checks put an error into a latch only while the
    latch is clear, so the latch keeps the first error seen;
    [alGetError] and [alcGetError] return the latch and clear it, and
    then run their own post-call check.  What that check takes off the
    real library is latched by the first call and returned by the same
    call made again: [NO_ERROR] when the real library had no error (no
    error event lies between the two calls), and the error it held
    otherwise.  Without a current context the check of [alGetError] asks
    nothing, and the second call returns [AL_NO_ERROR]. *)
Theorem error_latch (bound fuel1 fuel2 : nat) (_device : Z) (st : Recorder) :
  well_formed bound st ->
  (bound < fuel1)%nat ->
  (bound < fuel2)%nat ->
  let dev := if negb (_device =? 0) then _device else null_device in
  let alerr := (REAL_alGetError (world st)).1 in
  let alcerr := (REAL_alcGetError (device (device_at st dev)) (world st)).1 in
  (al_errorlatch st <> AL_NO_ERROR ->
   al_errorlatch (check_al_error_events st).2 = al_errorlatch st) /\
  (al_errorlatch st = AL_NO_ERROR -> current_context st <> 0 ->
   al_errorlatch (check_al_error_events st).2 = alerr) /\
  (alc_errorlatch _device st <> ALC_NO_ERROR ->
   alc_errorlatch _device (check_alc_error_events dev st).2 = alc_errorlatch _device st) /\
  (alc_errorlatch _device st = ALC_NO_ERROR -> is_Some (device_heap st !! dev) ->
   alc_errorlatch _device (check_alc_error_events dev st).2 = alcerr) /\
  (exists st1,
     alGetError fuel1 st = Some (al_errorlatch st, st1) /\
     al_errorlatch st1 = (if current_context st =? 0 then AL_NO_ERROR else alerr) /\
     (exists st2,
        alGetError fuel2 st1
          = Some (if current_context st =? 0 then AL_NO_ERROR else alerr, st2)) /\
     (current_context st = 0 \/ alerr = AL_NO_ERROR ->
      exists st2, alGetError fuel2 st1 = Some (AL_NO_ERROR, st2))) /\
  (exists st1,
     alcGetError fuel1 _device st = Some (alc_errorlatch _device st, st1) /\
     (is_Some (device_heap st !! dev) ->
      alc_errorlatch _device st1 = alcerr /\
      exists st2, alcGetError fuel2 _device st1 = Some (alcerr, st2)) /\
     (alcerr = ALC_NO_ERROR ->
      exists st2, alcGetError fuel2 _device st1 = Some (ALC_NO_ERROR, st2))).
Proof.
  intros Hwf Hf1 Hf2 dev alerr alcerr.
  assert (Hdev : dev <> 0).
  { subst dev. destruct (_device =? 0) eqn:E; cbn [negb]; [done|]. by apply Z.eqb_neq. }
  split_and!.
  - intros Hl. destruct (check_al_error_events_spec st) as (Hnone & Hsome & _).
    destruct (decide (current_context st = 0)) as [Hc|Hc]; [by rewrite (Hnone Hc)|].
    destruct (Hsome Hc) as (_ & _ & ->). by rewrite (proj2 (Z.eqb_neq _ _) Hl).
  - intros Hl Hc. destruct (check_al_error_events_spec st) as (_ & Hsome & _).
    destruct (Hsome Hc) as (_ & _ & ->). rewrite Hl. cbn [Z.eqb AL_NO_ERROR].
    by destruct (wf_current _ _ Hwf Hc) as [c ->].
  - intros Hl. destruct (check_alc_error_events_spec dev st) as (_ & Hsome & _).
    destruct (Hsome Hdev) as (_ & Hl'). unfold alc_errorlatch in *. fold dev in Hl |- *.
    rewrite Hl'. by rewrite (proj2 (Z.eqb_neq _ _) Hl).
  - intros Hl [d Hd]. destruct (check_alc_error_events_spec dev st) as (_ & Hsome & _).
    destruct (Hsome Hdev) as (_ & Hl'). unfold alc_errorlatch in *. fold dev in Hl |- *.
    rewrite Hl', Hl, Hd. done.
  - destruct (alGetError_spec bound fuel1 st Hwf Hf1) as (st1 & Hrun & Hwf1 & Hc1 & _ & Hl1).
    destruct (alGetError_spec bound fuel2 st1 Hwf1 Hf2) as (st2 & Hrun2 & _).
    rewrite Hl1 in Hrun2.
    exists st1. split_and!; [done|done|by exists st2|]. intros Hno.
    exists st2. rewrite Hrun2. do 2 f_equal.
    destruct (current_context st =? 0) eqn:E; [done|].
    apply Z.eqb_neq in E. by destruct Hno.
  - destruct (alcGetError_spec bound fuel1 _device st Hwf Hf1) as (st1 & Hrun & Hwf1 & Hl1).
    destruct (alcGetError_spec bound fuel2 _device st1 Hwf1 Hf2) as (st2 & Hrun2 & _).
    rewrite Hl1 in Hrun2. fold dev in Hl1, Hrun2. fold alcerr in Hl1, Hrun2.
    exists st1. split_and!; [done| |].
    + intros [d Hd]. rewrite Hd in Hl1, Hrun2. split; [done|by exists st2].
    + intros Hno. exists st2. rewrite Hrun2. do 2 f_equal.
      rewrite Hno. by destruct (device_heap st !! dev).
Qed.

(** C10, as the code has it: without a current context the post-call
    check of the AL error returns [AL_NO_ERROR] at once and leaves
    everything as it was, the real library included (no query, no event,
    no latch); whatever the state, that check never writes the global
    latch; and [alGetError] writes its entry and the global latch to the
    log, clears that latch and goes on to the poll of the asynchronous
    state without a question to the real library.  So an error the real
    library holds is not seen as long as no context is current.  It is
    not lost either: the first check made with a current context takes
    what the real library holds then, writes the error event and latches
    the error in that context. *)
Theorem no_context_errors (bound fuel : nat) (st : Recorder) :
  let latch := null_context_errorlatch st in
  let st1 :=
    emit (Rec.IO_ENUM latch)
      (set_null_context_errorlatch AL_NO_ERROR (IO_START ALEE_alGetError st)) in
  let alerr := (REAL_alGetError (world st)).1 in
  (current_context st = 0 -> check_al_error_events st = (AL_NO_ERROR, st)) /\
  null_context_errorlatch (check_al_error_events st).2 = null_context_errorlatch st /\
  (current_context st = 0 ->
   alGetError fuel st = (check_al_async_states fuel st1 ≫= fun st' => Some (latch, st')) /\
   world st1 = world st /\
   logfd st1 = logfd (IO_START ALEE_alGetError st) ++ le_bytes 4 (to_uint32 latch)) /\
  (current_context st = 0 -> well_formed bound st -> (bound < fuel)%nat ->
   exists st',
     alGetError fuel st = Some (latch, st') /\
     null_context_errorlatch st' = AL_NO_ERROR /\
     current_context st' = 0) /\
  (current_context st <> 0 -> alerr <> AL_NO_ERROR ->
   (check_al_error_events st).1 = alerr /\
   logfd (check_al_error_events st).2 =
     logfd st ++ le_bytes 4 (to_uint32 ALEE_ALERROR_TRIGGERED) ++ le_bytes 4 (to_uint32 alerr) /\
   (al_errorlatch st = AL_NO_ERROR ->
    is_Some (context_heap st !! current_context st) ->
    al_errorlatch (check_al_error_events st).2 = alerr)).
Proof.
  intros latch st1 alerr.
  destruct (check_al_error_events_spec st) as (Hnone & Hsome & _ & _ & _ & Hnull & _).
  split_and!; [done|done| | |].
  - intros Hc.
    assert (Hw : world st1 = world st /\
                 current_context st1 = 0 /\
                 logfd st1 = logfd (IO_START ALEE_alGetError st) ++ le_bytes 4 (to_uint32 latch)).
    { subst st1. destruct (IO_START_frame ALEE_alGetError st) as (m & fd & ->).
      split_and!; [reflexivity|exact Hc|reflexivity]. }
    destruct Hw as (Hw & Hc1 & Hlog). split_and!; [|exact Hw|exact Hlog].
    unfold alGetError, IO_END.
    assert (Hstart : current_context (IO_START ALEE_alGetError st) = 0 /\
                     null_context_errorlatch (IO_START ALEE_alGetError st) = latch).
    { destruct (IO_START_frame ALEE_alGetError st) as (m & fd & ->). by split. }
    destruct Hstart as (Hc0 & Hl0). rewrite Hc0, Hl0. cbn [Z.eqb]. fold st1.
    destruct (check_al_error_events_spec st1) as (Hnone1 & _). by rewrite (Hnone1 Hc1).
  - intros Hc Hwf Hfuel.
    destruct (alGetError_spec bound fuel st Hwf Hfuel) as (st' & Hrun & _ & Hc' & Hn' & _).
    exists st'. unfold al_errorlatch in Hrun. rewrite Hc in Hrun, Hn'. cbn [Z.eqb] in Hrun, Hn'.
    split_and!; [done|done|congruence].
  - intros Hc Herr. destruct (Hsome Hc) as (Hret & _ & Hlatch). split_and!; [exact Hret| |].
    + unfold check_al_error_events. rewrite (proj2 (Z.eqb_neq _ _) Hc).
      subst alerr. destruct (REAL_alGetError (world st)) as [e w]. cbn [fst] in Herr.
      rewrite (proj2 (Z.eqb_neq _ _) Herr). cbn [negb snd current_context emit set_logfd set_world].
      rewrite (proj2 (Z.eqb_neq _ _) Hc). cbn [negb].
      match goal with |- context [if ?b then _ else _] => destruct b end;
        cbn [logfd store_context set_context_heap emit set_logfd set_world];
        unfold Rec.IO_ENUM, Rec.IO_EVENTENUM, Rec.IO_UINT32, Rec.writele32, Rec.write;
        by rewrite <- app_assoc.
    + intros Hclear [c Hlive]. rewrite Hlatch, Hclear, Hlive. reflexivity.
Qed.

(** *** How often a source is polled *)

Lemma polls_of_asked (n : Z) (q : Z * Z) (st st' : Recorder) :
  source_queries st' = source_queries st ++ [q] ->
  polls_of n st' =
    (polls_of n st + (if decide (q = (n, AL_SOURCE_STATE)) then 1 else 0))%nat.
Proof.
  intros Hq. unfold polls_of. rewrite Hq, filter_app, length_app. f_equal.
  rewrite filter_cons, filter_nil. by destruct (decide (q = (n, AL_SOURCE_STATE))).
Qed.

Lemma queries_check_enum (src param : Z) (current : SourceWrapper -> Z)
    (set_current : Z -> SourceWrapper -> SourceWrapper) (st : Recorder) :
  source_queries (check_source_state_enum src param current set_current st) =
    source_queries st ++ [(name (source_at st src), param)].
Proof.
  unfold check_source_state_enum, query_sourcei.
  destruct (REAL_alGetSourcei _ _ _ _) as [ival w].
  match goal with |- context [if ?b then _ else _] => destruct b end; reflexivity.
Qed.

Lemma queries_check_bool (src param : Z) (current : SourceWrapper -> Z)
    (set_current : Z -> SourceWrapper -> SourceWrapper) (st : Recorder) :
  source_queries (check_source_state_bool src param current set_current st) =
    source_queries st ++ [(name (source_at st src), param)].
Proof.
  unfold check_source_state_bool, query_sourcei.
  destruct (REAL_alGetSourcei _ _ _ _) as [ival w].
  match goal with |- context [if negb ?b then _ else _] => destruct b end; reflexivity.
Qed.

Lemma queries_check_int (src param : Z) (current : SourceWrapper -> Z)
    (set_current : Z -> SourceWrapper -> SourceWrapper) (st : Recorder) :
  source_queries (check_source_state_int src param current set_current st) =
    source_queries st ++ [(name (source_at st src), param)].
Proof.
  unfold check_source_state_int, query_sourcei.
  destruct (REAL_alGetSourcei _ _ _ _) as [ival w].
  match goal with |- context [if ?b then _ else _] => destruct b end; reflexivity.
Qed.

Lemma queries_check_uint (src param : Z) (current : SourceWrapper -> Z)
    (set_current : Z -> SourceWrapper -> SourceWrapper) (st : Recorder) :
  source_queries (check_source_state_uint src param current set_current st) =
    source_queries st ++ [(name (source_at st src), param)].
Proof.
  unfold check_source_state_uint, query_sourcei.
  destruct (REAL_alGetSourcei _ _ _ _) as [ival w].
  match goal with |- context [if ?b then _ else _] => destruct b end; reflexivity.
Qed.

Lemma queries_check_float (src param : Z) (current : SourceWrapper -> Z)
    (set_current : Z -> SourceWrapper -> SourceWrapper) (st : Recorder) :
  source_queries (check_source_state_float src param current set_current st) =
    source_queries st ++ [(name (source_at st src), param)].
Proof.
  unfold check_source_state_float. destruct (REAL_alGetSourcef _ _ _ _) as [fval w].
  match goal with |- context [if ?b then _ else _] => destruct b end; reflexivity.
Qed.

Lemma queries_check_float3 (src param : Z) (current : SourceWrapper -> list Z)
    (set_current : list Z -> SourceWrapper -> SourceWrapper) (st : Recorder) :
  source_queries (check_source_state_float3 src param current set_current st) =
    source_queries st ++ [(name (source_at st src), param)].
Proof.
  unfold check_source_state_float3. destruct (REAL_alGetSourcefv _ _ _ _) as [fval w].
  match goal with |- context [if ?b then _ else _] => destruct b end; reflexivity.
Qed.

Ltac other_param :=
  let E := fresh in
  rewrite decide_False; [rewrite Nat.add_0_r|intros E; injection E as _ E; vm_compute in E; discriminate E].

(** One [check_source_state] asks the real library for the state of the
    source once (when the source has a name), among its other questions. *)
Lemma polls_check_source_state (n src : Z) (st : Recorder) :
  polls_of n (check_source_state src st) =
    (polls_of n st +
     (if decide (src <> 0 /\ name (source_at st src) <> 0 /\ name (source_at st src) = n)%Z
      then 1 else 0))%nat.
Proof.
  unfold check_source_state. destruct (src =? 0) eqn:Esrc; cbn [negb].
  { apply Z.eqb_eq in Esrc. rewrite decide_False by tauto. cbn. lia. }
  apply Z.eqb_neq in Esrc.
  destruct (name (source_at st src) =? 0) eqn:Ename; cbn [negb].
  { apply Z.eqb_eq in Ename. rewrite decide_False by tauto. lia. }
  apply Z.eqb_neq in Ename. cbv zeta.
  do 3 (erewrite polls_of_asked by apply queries_check_float3; other_param).
  do 10 (erewrite polls_of_asked by apply queries_check_float; other_param).
  do 3 (erewrite polls_of_asked by apply queries_check_int; other_param).
  do 2 (erewrite polls_of_asked by apply queries_check_bool; other_param).
  do 2 (erewrite polls_of_asked by apply queries_check_int; other_param).
  erewrite polls_of_asked by apply queries_check_uint; other_param.
  erewrite polls_of_asked by apply queries_check_enum; other_param.
  erewrite polls_of_asked by apply queries_check_enum. f_equal.
  destruct (decide (name (source_at st src) = n)) as [Hn|Hn].
  - rewrite !decide_True; [done|tauto|by rewrite Hn].
  - rewrite !decide_False; [done|tauto|congruence].
Qed.

Lemma name_store (p : Z) (f : SourceWrapper -> SourceWrapper) (st : Recorder) (a : Z) :
  (forall s, name (f s) = name s) ->
  name (source_at (store_source p f st) a) = name (source_at st a).
Proof.
  intros Hf. rewrite source_at_store. case_decide; [subst|done].
  unfold source_at. destruct (source_heap st !! a); [apply Hf|done].
Qed.

Lemma name_playlist_remove (ctx src next : Z) (st : Recorder) (a : Z) :
  name (source_at (playlist_remove ctx src next st) a) = name (source_at st a).
Proof.
  unfold playlist_remove. rewrite !name_store by (by intros []).
  repeat match goal with
         | |- context [if negb ?b then _ else _] => destruct b; cbn [negb]
         end;
    rewrite ?store_context_sources, ?name_store by (by intros []); reflexivity.
Qed.

Lemma queries_playlist_remove (ctx src next : Z) (st : Recorder) :
  source_queries (playlist_remove ctx src next st) = source_queries st.
Proof.
  unfold playlist_remove.
  repeat match goal with
         | |- context [if negb ?b then _ else _] => destruct b; cbn [negb]
         end; reflexivity.
Qed.

(** One step of the playlist loop: what is known of the state the loop
    goes on with. *)
Lemma poll_playlist_step (rank : Z -> nat) (n ctx src : Z) (st : Recorder) :
  src <> 0 ->
  links_ok rank st ->
  let next := playlist_next (source_at st src) in
  let st1 := check_source_state src st in
  let st2 := if negb (state (source_at st1 src) =? AL_PLAYING)
             then playlist_remove ctx src next st1 else st1 in
  links_ok rank st2 /\
  (forall a, name (source_at st2 a) = name (source_at st a)) /\
  polls_of n st2 =
    (polls_of n st +
     (if decide (name (source_at st src) <> 0 /\ name (source_at st src) = n)%Z
      then 1 else 0))%nat /\
  (next <> 0 -> (rank next < rank src)%nat).
Proof.
  intros Hsrc Hok next st1 st2.
  assert (Hshape := same_shape_check_source_state src st). fold st1 in Hshape.
  assert (Hok1 : links_ok rank st1) by (by eapply links_ok_shape).
  assert (Hnames : forall a, name (source_at st1 a) = name (source_at st a)).
  { intros a. destruct Hshape as [Hs _ _ _ _ _ _]. by destruct (Hs a) as (_ & -> & _). }
  assert (Hnext : playlist_next (source_at st1 src) = next).
  { destruct Hshape as [Hs _ _ _ _ _ _]. by destruct (Hs src) as (_ & _ & -> & _). }
  assert (Hpolls : polls_of n st1 =
    (polls_of n st +
     (if decide (name (source_at st src) <> 0 /\ name (source_at st src) = n)%Z
      then 1 else 0))%nat).
  { subst st1. rewrite polls_check_source_state. f_equal.
    destruct (decide (name (source_at st src) <> 0 /\ name (source_at st src) = n)).
    - rewrite decide_True; [done|tauto].
    - rewrite decide_False; [done|tauto]. }
  split_and!.
  - subst st2. destruct (negb (state (source_at st1 src) =? AL_PLAYING)); [|done].
    rewrite <- Hnext. by apply playlist_remove_links.
  - intros a. subst st2. destruct (negb (state (source_at st1 src) =? AL_PLAYING)); [|done].
    by rewrite name_playlist_remove.
  - subst st2. destruct (negb (state (source_at st1 src) =? AL_PLAYING)); [|done].
    unfold polls_of in *. by rewrite queries_playlist_remove.
  - destruct Hok as [Hd _]. apply Hd.
Qed.

(** The loop does not poll a source that lies above its starting point. *)
Lemma poll_playlist_below (rank : Z -> nat) (n : Z) (fuel : nat) :
  forall (ctx src : Z) (st st' : Recorder),
    links_ok rank st ->
    (forall b, b <> 0 -> name (source_at st b) = n -> (rank src < rank b)%nat) ->
    poll_playlist fuel ctx src st = Some st' ->
    polls_of n st' = polls_of n st.
Proof.
  induction fuel as [|fuel IH]; intros ctx src st st' Hok Habove Hrun; [done|].
  cbn [poll_playlist] in Hrun. destruct (src =? 0) eqn:Esrc; [congruence|].
  apply Z.eqb_neq in Esrc.
  destruct (poll_playlist_step rank n ctx src st Esrc Hok) as (Hok2 & Hnames & Hpolls & Hrank).
  cbv zeta in Hrun, Hok2, Hnames, Hpolls, Hrank.
  set (next := playlist_next (source_at st src)) in *.
  set (st2 := if negb _ then _ else _) in *.
  rewrite decide_False in Hpolls.
  2:{ intros [_ Hn]. specialize (Habove src Esrc Hn). lia. }
  rewrite Nat.add_0_r in Hpolls. rewrite <- Hpolls.
  destruct (decide (next = 0)) as [Hz|Hnz].
  - rewrite Hz in Hrun. destruct fuel as [|fuel]; [done|]. cbn in Hrun. congruence.
  - apply (IH ctx next st2 st' Hok2); [|done].
    intros b Hb Hn. rewrite Hnames in Hn. specialize (Habove b Hb Hn). specialize (Hrank Hnz). lia.
Qed.

Lemma poll_playlist_once (rank : Z -> nat) (n : Z) (fuel : nat) :
  forall (ctx src : Z) (st st' : Recorder),
    links_ok rank st ->
    (forall a b, a <> 0 -> b <> 0 ->
       name (source_at st a) = n -> name (source_at st b) = n -> a = b) ->
    poll_playlist fuel ctx src st = Some st' ->
    (polls_of n st' <= polls_of n st + 1)%nat.
Proof.
  induction fuel as [|fuel IH]; intros ctx src st st' Hok Huniq Hrun; [done|].
  cbn [poll_playlist] in Hrun. destruct (src =? 0) eqn:Esrc.
  { assert (st' = st) as -> by congruence. lia. }
  apply Z.eqb_neq in Esrc.
  destruct (poll_playlist_step rank n ctx src st Esrc Hok) as (Hok2 & Hnames & Hpolls & Hrank).
  cbv zeta in Hrun, Hok2, Hnames, Hpolls, Hrank.
  set (next := playlist_next (source_at st src)) in *.
  set (st2 := if negb _ then _ else _) in *.
  destruct (decide (next = 0)) as [Hz|Hnz].
  { rewrite Hz in Hrun. destruct fuel as [|fuel]; [done|]. cbn in Hrun.
    assert (st' = st2) as -> by congruence. rewrite Hpolls.
    destruct (decide _); lia. }
  specialize (Hrank Hnz).
  destruct (decide (name (source_at st src) <> 0 /\ name (source_at st src) = n)) as [[_ Hn]|Hn].
  - rewrite (poll_playlist_below rank n fuel ctx next st2 st' Hok2); [lia| |done].
    intros b Hb Hnb. rewrite Hnames in Hnb.
    by rewrite (Huniq b src Hb Esrc Hnb Hn).
  - rewrite Nat.add_0_r in Hpolls. rewrite <- Hpolls.
    apply (IH ctx next st2 st' Hok2); [|done].
    intros a b Ha Hb. rewrite !Hnames. by apply Huniq.
Qed.

(** X1: on a playlist whose links go down some ranking and whose back
    pointers are accurate, one run of the playlist loop of
    [check_al_async_states] asks for the state of a source at most once,
    and it ends: with more fuel than the ranking's bound it returns. *)
Theorem playlist_polls_once (rank : Z -> nat) (n : Z) (fuel : nat) (ctx : Z) (st : Recorder) :
  links_ok rank st ->
  (forall a b, a <> 0 -> b <> 0 ->
     name (source_at st a) = n -> name (source_at st b) = n -> a = b) ->
  (rank (playlist (context_at st ctx)) + 1 < fuel)%nat ->
  exists st',
    poll_playlist fuel ctx (playlist (context_at st ctx)) st = Some st' /\
    (polls_of n st' <= polls_of n st + 1)%nat /\
    links_ok rank st'.
Proof.
  intros Hok Huniq Hfuel.
  destruct (poll_playlist_ok rank fuel ctx (playlist (context_at st ctx)) st Hok Hfuel)
    as (st' & Hrun & Hok' & _).
  exists st'. split_and!; [done| |done].
  by eapply poll_playlist_once.
Qed.

End Facts.

End RecorderFacts.

(** ** Runs of 32-bit elements *)

Module ArrayFacts.

Import Int.

Lemma write_uint32s (names : list Z) (fd : list Z) :
  fold_left (fun fd name => Rec.IO_UINT32 name fd) names fd = fd ++ flat_map (le_bytes 4) names.
Proof.
  revert fd. induction names as [|name names IH]; intros fd; simpl.
  - by rewrite app_nil_r.
  - rewrite IH. unfold Rec.IO_UINT32, Rec.writele32, Rec.write. by rewrite <- app_assoc.
Qed.

End ArrayFacts.

(** ** The properties at sample values *)

Module Scenarios.

Import Int AL Sample.

(** *** The string codec *)

Lemma string_roundtrip_witness :
  exists decoded st',
    Play.IO_STRING hi_then_more = (decoded, st') /\
    Rec.c_string decoded = Some [104; 105] /\
    Play.file st' = [9; 9].
Proof.
  destruct (CodecFacts.string_roundtrip (Some [104; 105; 0; 77]) [] [9; 9] hi_then_more)
    as (_ & _ & _ & decoded & st' & Hrun & Hstr & _ & _ & Hfile & _).
  - reflexivity.
  - reflexivity.
  - intros buf [= <-]. vm_compute. reflexivity.
  - exists decoded, st'. split_and!; [exact Hrun|exact Hstr|exact Hfile].
Defined.

(** *** The call-stack collector *)

Lemma two_calls_events :
  (Callstack.session_events two_calls ∅).1 =
    [Callstack.NewCallstackSyms [(100, Some [109; 0]); (200, Some [102; 0])];
     Callstack.CallEvent 17 0 1 [100; 200];
     Callstack.NewCallstackSyms [(300, Some [103; 0])];
     Callstack.CallEvent 17 0 1 [100; 300]].
Proof. vm_compute. reflexivity. Qed.


Lemma failed_symbolication_counterexample :
  Callstack.captured_frames gap_call = [100; 200; 300] /\
  Callstack.env_symbols gap_call 200 = None /\
  (Callstack.entry_events 17 gap_call ∅).1 =
    [Callstack.NewCallstackSyms [(100, Some [109; 0])];
     Callstack.CallEvent 17 0 1 [100]] /\
  ~ (forall a, a ∈ Callstack.captured_frames gap_call ->
       Callstack.env_symbols gap_call a = None ->
       exists e, e ∈ (Callstack.entry_events 17 gap_call ∅).1 /\
                 a ∈ Callstack.event_frames e).
Proof.
  assert (Hev : (Callstack.entry_events 17 gap_call ∅).1 =
    [Callstack.NewCallstackSyms [(100, Some [109; 0])];
     Callstack.CallEvent 17 0 1 [100]]) by (vm_compute; reflexivity).
  split_and!; [reflexivity|reflexivity|exact Hev|].
  intros Hall. destruct (Hall 200) as (e & He & Ha).
  - apply elem_of_cons. right. apply elem_of_cons. left. reflexivity.
  - reflexivity.
  - rewrite Hev in He.
    apply elem_of_cons in He as [->|He]; [by apply elem_of_nil in Ha|].
    apply elem_of_cons in He as [->|He]; [|by apply elem_of_nil in He].
    simpl in Ha. apply elem_of_cons in Ha as [Ha|Ha]; [discriminate|].
    by apply elem_of_nil in Ha.
Qed.

(** *** The player *)

(** A file with a foreign magic: the player prints its diagnostic and
    returns 0, and the visitor hears nothing, not even eos. *)
Lemma player_fatal_counterexample :
  exists st',
    @Play.process_tracelog constants front_end 10 (Some not_a_trace) Play.initial
      = Some (0, st') /\
    Play.stderr st' = [Play.NotALogFile] /\
    Play.visits st' = [] /\
    ~ (exists ticks, Play.visit_eos false ticks ∈ Play.visits st').
Proof.
  eexists. split_and!; [vm_compute; reflexivity|reflexivity|reflexivity|].
  intros [ticks Hin]. by apply elem_of_nil in Hin.
Qed.

Lemma player_fatal_witness :
  (exists st',
     @Play.process_tracelog constants front_end 10 (Some not_a_trace) Play.initial
       = Some (0, st') /\
     Play.visits st' = []) /\
  (exists st',
     @Play.tracelog_loop constants front_end 10 12 1 after_header = Some (0, st') /\
     Play.visits st' = [Play.visit_progress 8 12; Play.visit_eos false 0] /\
     Play.stderr st' = []).
Proof.
  split.
  - destruct (@PlayFacts.player_fatal constants front_end not_a_trace Play.initial 10 0 0)
      as [Hheader _].
    destruct Hheader as (st' & failed & Hrun & Hvis & _).
    + left. vm_compute. discriminate.
    + exists st'. split; [exact Hrun|exact Hvis].
  - destruct (@PlayFacts.player_fatal constants front_end [] after_header 9 12 1)
      as [_ Htag].
    destruct Htag as (st' & Hrun & Hvis & Herr).
    + reflexivity.
    + reflexivity.
    + reflexivity.
    + vm_compute. reflexivity.
    + exists st'. split_and!; [exact Hrun|exact Hvis|exact Herr].
Defined.

(** C9 at a failing input: the same one-thread trace played twice in one
    process.  The first run shows the visitor thread id 1; the second
    run shows it thread id 2, because [next_mapped_threadid] is still 1
    when the second run starts. *)
Theorem second_trace_thread_ids :
  exists st1 st2,
    @Play.process_tracelog constants front_end 10 (Some one_call_trace) Play.initial
      = Some (1, st1) /\
    Play.visited_threadids (Play.visits st1) = [1] /\
    Play.threadid_map st1 = [] /\
    Play.next_mapped_threadid st1 = 1 /\
    @Play.process_tracelog constants front_end 10 (Some one_call_trace) st1
      = Some (1, st2) /\
    Play.visited_threadids (drop (length (Play.visits st1)) (Play.visits st2)) = [2].
Proof.
  eexists _, _. split_and!; [vm_compute; reflexivity|reflexivity..|vm_compute; reflexivity|].
  vm_compute. reflexivity.
Qed.

(** *** The recorder *)

Lemma one_context_lists (w : SampleWorld) (current : Z) :
  (current <> 0 -> current = 0x2000) ->
  @Recorder.well_formed real_al 2
    (@Recorder.set_current_context real_al current (one_context w)).
Proof.
  intros Hcur. split.
  - exists (fun a => if decide (a = Recorder.null_device) then 1%nat else 0%nat).
    split; [intros a; case_decide; lia|].
    intros a. unfold Recorder.device_at.
    cbn [Recorder.device_heap Recorder.set_current_context one_context].
    destruct (decide (a = Recorder.null_device)) as [->|Hn].
    + rewrite lookup_insert_eq. cbn. intros _. rewrite decide_False by done. lia.
    + rewrite lookup_insert_ne by done.
      destruct (decide (a = 0x1000)) as [->|Hd].
      * rewrite lookup_singleton_eq. cbn. done.
      * rewrite lookup_singleton_ne by done. cbn. done.
  - exists (fun _ => 0%nat). split; [intros a; lia|].
    intros a. unfold Recorder.context_at.
    cbn [Recorder.context_heap Recorder.set_current_context one_context].
    destruct (decide (a = 0x2000)) as [->|Hd].
    + rewrite lookup_singleton_eq. cbn. done.
    + rewrite lookup_singleton_ne by done. cbn. done.
  - exists (fun _ => 0%nat). split; [intros a; lia|]. intros a. cbn. done.
  - intros a. cbn. done.
  - cbn [Recorder.current_context Recorder.context_heap Recorder.set_current_context
           one_context].
    intros Hne. rewrite (Hcur Hne), lookup_singleton_eq. by eexists.
Qed.

Lemma one_context_well_formed (w : SampleWorld) :
  @Recorder.well_formed real_al 2 (one_context w).
Proof. apply (one_context_lists w 0x2000). done. Qed.

Lemma no_context_well_formed (w : SampleWorld) :
  @Recorder.well_formed real_al 2 (no_context w).
Proof. apply (one_context_lists w 0). done. Qed.

(** The real library holds [AL_INVALID_NAME] when the application calls
    [alGetError] twice in a row: the first call returns the clear latch
    and its post-call check latches the error, which the second call
    returns. *)
Lemma error_latch_counterexample :
  exists st1 st2,
    @Recorder.alGetError constants real_al 10 (one_context (holding AL_INVALID_NAME))
      = Some (AL_NO_ERROR, st1) /\
    @Recorder.alGetError constants real_al 10 st1 = Some (AL_INVALID_NAME, st2) /\
    AL_INVALID_NAME <> AL_NO_ERROR.
Proof.
  eexists _, _. split_and!; [vm_compute; reflexivity|vm_compute; reflexivity|discriminate].
Qed.

Lemma error_latch_witness :
  (exists st1 st2,
     @Recorder.alGetError constants real_al 10
       (one_context (holding_both AL_INVALID_NAME ALC_INVALID_CONTEXT))
       = Some (AL_NO_ERROR, st1) /\
     @Recorder.al_errorlatch real_al st1 = AL_INVALID_NAME /\
     @Recorder.alGetError constants real_al 10 st1 = Some (AL_INVALID_NAME, st2)) /\
  (exists st1 st2,
     @Recorder.alcGetError constants real_al 10 0x1000
       (one_context (holding_both AL_INVALID_NAME ALC_INVALID_CONTEXT))
       = Some (ALC_NO_ERROR, st1) /\
     @Recorder.alc_errorlatch real_al 0x1000 st1 = ALC_INVALID_CONTEXT /\
     @Recorder.alcGetError constants real_al 10 0x1000 st1
       = Some (ALC_INVALID_CONTEXT, st2)).
Proof.
  destruct (@RecorderFacts.error_latch constants real_al 2 10 10 0x1000
              (one_context (holding_both AL_INVALID_NAME ALC_INVALID_CONTEXT)))
    as (_ & _ & _ & _ & (st1 & Hrun1 & Hlatch1 & (st2 & Hrun2) & _)
        & (st1' & Hrun1' & Hlive & _)).
  - apply one_context_well_formed.
  - lia.
  - lia.
  - split.
    + exists st1, st2. split_and!; [exact Hrun1|exact Hlatch1|exact Hrun2].
    + destruct Hlive as (Hlatch1' & st2' & Hrun2'); [by eexists|].
      exists st1', st2'. split_and!; [exact Hrun1'|exact Hlatch1'|exact Hrun2'].
Defined.

(** C10 at a failing input: the real library holds [AL_INVALID_NAME],
    raised while no context is current.  [alGetError] returns
    [AL_NO_ERROR]; [alcMakeContextCurrent] makes the context at [0x2000]
    current; the post-call check of the next [alGetError] takes the
    error off the real library, writes the error event behind the call
    and latches the error in the context, and the [alGetError] after
    that returns it. *)
Lemma no_context_errors_counterexample :
  exists st1 st2 st3 st4,
    @Recorder.current_context real_al (no_context (holding AL_INVALID_NAME)) = 0 /\
    @Recorder.alGetError constants real_al 10 (no_context (holding AL_INVALID_NAME))
      = Some (AL_NO_ERROR, st1) /\
    @Calls.alcMakeContextCurrent constants SampleCalls.entry_points real_al SampleCalls.real_calls 10 0x2000 st1
      = Some (ALC_TRUE, st2) /\
    @Recorder.current_context real_al st2 = 0x2000 /\
    @Recorder.alGetError constants real_al 10 st2 = Some (AL_NO_ERROR, st3) /\
    @Recorder.logfd real_al st3
      = @Recorder.logfd real_al
          (Recorder.emit (Rec.IO_ENUM AL_NO_ERROR)
             (@Recorder.IO_START constants real_al (@ALEE_alGetError constants) st2))
        ++ [1; 0; 0; 0;  1; 0xA0; 0; 0] /\
    @Recorder.al_errorlatch real_al st3 = AL_INVALID_NAME /\
    @Recorder.alGetError constants real_al 10 st3 = Some (AL_INVALID_NAME, st4).
Proof.
  eexists _, _, _, _.
  split_and!; [reflexivity|vm_compute; reflexivity|vm_compute; reflexivity|reflexivity
              |vm_compute; reflexivity|vm_compute; reflexivity|reflexivity
              |vm_compute; reflexivity].
Qed.

Lemma no_context_errors_witness :
  (@Recorder.check_al_error_events constants real_al (no_context (holding AL_INVALID_NAME))
     = (AL_NO_ERROR, no_context (holding AL_INVALID_NAME)) /\
   exists st',
     @Recorder.alGetError constants real_al 10 (no_context (holding AL_INVALID_NAME))
       = Some (AL_NO_ERROR, st') /\
     @Recorder.null_context_errorlatch real_al st' = AL_NO_ERROR) /\
  (@Recorder.check_al_error_events constants real_al
     (one_context (holding AL_INVALID_NAME))).1 = AL_INVALID_NAME /\
  @Recorder.al_errorlatch real_al
    (@Recorder.check_al_error_events constants real_al
       (one_context (holding AL_INVALID_NAME))).2 = AL_INVALID_NAME.
Proof.
  destruct (@RecorderFacts.no_context_errors constants real_al 2 10
              (no_context (holding AL_INVALID_NAME)))
    as (Hcheck & _ & _ & Hget & _).
  destruct (@RecorderFacts.no_context_errors constants real_al 2 10
              (one_context (holding AL_INVALID_NAME)))
    as (_ & _ & _ & _ & Hseen).
  destruct Hseen as (Hret & _ & Hlatch).
  - discriminate.
  - discriminate.
  - split_and!.
    + apply Hcheck. reflexivity.
    + destruct Hget as (st' & Hrun & Hnull & _).
      * reflexivity.
      * apply no_context_well_formed.
      * lia.
      * exists st'. split; [exact Hrun|exact Hnull].
    + exact Hret.
    + apply Hlatch; [reflexivity|]. by eexists.
Defined.

(** C1 at a failing input: the real [alcDestroyContext] fails with
    [ALC_INVALID_CONTEXT].  The wrapper has freed the context's record and
    taken it off its device's list all the same, and the post-call check
    of the same call has latched the error on the device. *)
Theorem destroy_context_frees_on_failure :
  exists st',
    @Recorder.alcDestroyContext constants real_al 10 0x2000
      (one_context (failing ALC_INVALID_CONTEXT)) = Some st' /\
    is_Some (@Recorder.context_heap real_al (one_context (failing ALC_INVALID_CONTEXT))
               !! 0x2000) /\
    Recorder.contexts
      (@Recorder.device_at real_al (one_context (failing ALC_INVALID_CONTEXT)) 0x1000)
      = 0x2000 /\
    @Recorder.context_heap real_al st' !! 0x2000 = None /\
    Recorder.contexts (@Recorder.device_at real_al st' 0x1000) = 0 /\
    Recorder.dev_errorlatch (@Recorder.device_at real_al st' 0x1000) = ALC_INVALID_CONTEXT.
Proof.
  eexists. split_and!; [vm_compute; reflexivity|by eexists|reflexivity..].
Qed.

(** The sibling path: when the real [alcCloseDevice] fails, the device's
    record stays where it is. *)
Lemma close_device_keeps_on_failure :
  exists st',
    @Recorder.alcCloseDevice constants real_al 10 0x1000
      (one_context (failing ALC_INVALID_CONTEXT)) = Some (ALC_FALSE, st') /\
    is_Some (@Recorder.device_heap real_al st' !! 0x1000) /\
    Recorder.dev_next (@Recorder.device_at real_al st' Recorder.null_device) = 0x1000.
Proof.
  eexists. split_and!; [vm_compute; reflexivity|by eexists|reflexivity].
Qed.

(** C3 at a failing input: a source is generated and played, and is
    played again while it is the only source of the playlist and still
    playing.  The first [alSourcePlay] links it and its pass polls it
    once.  The second [alSourcePlay] links it again, in front of itself;
    the pass of that call polls it four times: twice while the real
    library says playing, once when it says stopped, which unlinks the
    source from itself, and once more because the loop had already
    picked the source as its own successor. *)
Theorem second_play_polls_again :
  exists st1 st2 linked st3,
    @Recorder.alGenSources constants real_al 10 1 0x7000
      (one_context (scripted [AL_INITIAL; AL_PLAYING; AL_PLAYING; AL_PLAYING;
                              AL_STOPPED; AL_STOPPED])) = Some ([1], st1) /\
    @Recorder.alSourcePlay constants real_al 10 1 st1 = Some st2 /\
    @Recorder.polls_of real_al 1 st2 = (@Recorder.polls_of real_al 1 st1 + 1)%nat /\
    Recorder.playlist (@Recorder.context_at real_al st2 0x2000) = 0x3000 /\
    Recorder.state (@Recorder.source_at real_al st2 0x3000) = AL_PLAYING /\
    Recorder.playlist_next (@Recorder.source_at real_al st2 0x3000) = 0 /\
    @Recorder.add_source_to_playlist real_al 10 1 st2 = Some linked /\
    Recorder.playlist_next (@Recorder.source_at real_al linked 0x3000) = 0x3000 /\
    @Recorder.alSourcePlay constants real_al 10 1 st2 = Some st3 /\
    @Recorder.polls_of real_al 1 st3 = (@Recorder.polls_of real_al 1 st2 + 4)%nat.
Proof.
  eexists _, _, _, _.
  split_and!; [vm_compute; reflexivity|vm_compute; reflexivity|reflexivity..
              |vm_compute; reflexivity|reflexivity|vm_compute; reflexivity|reflexivity].
Qed.

(** The playlist loop on a playlist of one playing source. *)
Lemma playing_source_heap :
  @Recorder.source_heap real_al playing_source =
    {[ 0x3000 := @Recorder.source_at real_al playing_source 0x3000 ]}.
Proof. vm_compute. reflexivity. Qed.

Lemma playing_source_at (a : Z) :
  Recorder.name (@Recorder.source_at real_al playing_source a)
    = (if decide (a = 0x3000) then 1 else 0) /\
  Recorder.playlist_next (@Recorder.source_at real_al playing_source a) = 0 /\
  Recorder.playlist_prev (@Recorder.source_at real_al playing_source a) = 0.
Proof.
  destruct (decide (a = 0x3000)) as [->|Ha].
  - split_and!; vm_compute; reflexivity.
  - unfold Recorder.source_at at 1 2 3. rewrite playing_source_heap.
    rewrite lookup_singleton_ne by done. split_and!; reflexivity.
Qed.

Lemma playlist_polls_once_witness :
  exists st',
    @Recorder.poll_playlist constants real_al 10 0x2000
      (Recorder.playlist (@Recorder.context_at real_al playing_source 0x2000)) playing_source
      = Some st' /\
    (@Recorder.polls_of real_al 1 st' <= @Recorder.polls_of real_al 1 playing_source + 1)%nat.
Proof.
  destruct (@RecorderFacts.playlist_polls_once constants real_al (fun _ => 0%nat) 1 10 0x2000
              playing_source) as (st' & Hrun & Hle & _).
  - split.
    + intros a Hne. cbv beta in Hne. destruct (playing_source_at a) as (_ & Hnext & _).
      exfalso. apply Hne. exact Hnext.
    + intros a Hne. destruct (playing_source_at a) as (_ & _ & Hprev).
      exfalso. apply Hne. exact Hprev.
  - intros a b _ _ Ha Hb.
    destruct (playing_source_at a) as (Hna & _), (playing_source_at b) as (Hnb & _).
    rewrite Ha in Hna. rewrite Hb in Hnb.
    destruct (decide (a = 0x3000)) as [->|?]; [|discriminate].
    destruct (decide (b = 0x3000)) as [->|?]; [reflexivity|discriminate].
  - lia.
  - exists st'. split; [exact Hrun|exact Hle].
Defined.

(** The thread ids of a first trace whose call events come from the raw
    threads 700, 900 and 700 again. *)
Lemma thread_ids_dense_first_trace_witness :
  (Play.map_threadids [700; 900; 700] Play.initial).1 = [1; 2; 1] /\
  (forall x, x ∈ (Play.map_threadids [700; 900; 700] Play.initial).1 <-> 1 <= x <= 2).
Proof.
  destruct (PlayFacts.thread_ids_dense_first_trace [700; 900; 700] Play.initial)
    as (_ & _ & Hids).
  - reflexivity.
  - reflexivity.
  - vm_compute. reflexivity.
  - split; [reflexivity|exact Hids].
Defined.

End Scenarios.

(** ** The fixed-width fields, from the recorder to the player *)

Module WireFacts.

Import Int IntFacts.

Lemma to_int32_uint32 (x : Z) : -2 ^ 31 <= x < 2 ^ 31 -> to_int32 (to_uint32 x mod 2 ^ 32) = x.
Proof.
  intros Hx. unfold to_int32, to_signed, to_uint32. rewrite !Z.mod_mod by lia.
  change (2 ^ (32 - 1)) with (2 ^ 31). change (2 ^ 32) with (2 * 2 ^ 31) in *.
  destruct (Z.lt_ge_cases x 0) as [Hneg|Hpos].
  - replace (x mod (2 * 2 ^ 31)) with (x + 2 * 2 ^ 31)
      by (apply Z.mod_unique with (-1); lia).
    destruct (x + 2 * 2 ^ 31 <? 2 ^ 31) eqn:E; [apply Z.ltb_lt in E; lia|lia].
  - rewrite Z.mod_small by lia.
    destruct (x <? 2 ^ 31) eqn:E; [done|apply Z.ltb_ge in E; lia].
Qed.

Lemma to_int32_uint64 (x : Z) : -2 ^ 31 <= x < 2 ^ 31 -> to_int32 (to_uint64 x mod 2 ^ 64) = x.
Proof.
  intros Hx. unfold to_int32, to_signed, to_uint64. rewrite !Z.mod_mod by lia.
  change (2 ^ 64) with (2 ^ 32 * 2 ^ 32). rewrite Z.rem_mul_r by lia.
  rewrite Z.mul_comm, Z.mod_add, Z.mod_mod by lia.
  change (2 ^ (32 - 1)) with (2 ^ 31). change (2 ^ 32) with (2 * 2 ^ 31) in *.
  destruct (Z.lt_ge_cases x 0) as [Hneg|Hpos].
  - replace (x mod (2 * 2 ^ 31)) with (x + 2 * 2 ^ 31)
      by (apply Z.mod_unique with (-1); lia).
    destruct (x + 2 * 2 ^ 31 <? 2 ^ 31) eqn:E; [apply Z.ltb_lt in E; lia|lia].
  - rewrite Z.mod_small by lia.
    destruct (x <? 2 ^ 31) eqn:E; [done|apply Z.ltb_ge in E; lia].
Qed.

Lemma readle32_ok (x : Z) (rest : list Z) (st : Play.Player) :
  Play.io_failure st = false ->
  Play.file st = le_bytes 4 x ++ rest ->
  Play.readle32 st = (x mod 2 ^ 32, Play.set_file rest (Play.fdoffset st + 4) st).
Proof. intros Hio Hfile. unfold Play.readle32. by rewrite (CodecFacts.readle_ok 4 x rest). Qed.

Lemma readle64_ok (x : Z) (rest : list Z) (st : Play.Player) :
  Play.io_failure st = false ->
  Play.file st = le_bytes 8 x ++ rest ->
  Play.readle64 st = (x mod 2 ^ 64, Play.set_file rest (Play.fdoffset st + 8) st).
Proof. intros Hio Hfile. unfold Play.readle64. by rewrite (CodecFacts.readle_ok 8 x rest). Qed.

(** X3: a 32-bit field the recorder writes is the value the player's
    matching reader returns, and the reader takes exactly its four bytes:
    unsigned fields, event tags and float bit patterns below [2^32],
    signed fields and enums in the range of [int32], booleans below
    [2^7]. *)
Theorem word32_roundtrip (x : Z) (rest : list Z) (st : Play.Player) :
  Play.io_failure st = false ->
  let after := Play.set_file rest (Play.fdoffset st + 4) st in
  (0 <= x < 2 ^ 32 ->
   (Play.file st = Rec.IO_UINT32 x [] ++ rest -> Play.IO_UINT32 st = (x, after)) /\
   (Play.file st = Rec.IO_EVENTENUM x [] ++ rest -> Play.IO_EVENTENUM st = (x, after)) /\
   (Play.file st = Rec.IO_FLOAT x [] ++ rest -> Play.IO_FLOAT st = (x, after))) /\
  (-2 ^ 31 <= x < 2 ^ 31 ->
   (Play.file st = Rec.IO_INT32 x [] ++ rest -> Play.IO_INT32 st = (x, after)) /\
   (Play.file st = Rec.IO_ENUM x [] ++ rest -> Play.IO_ENUM st = (x, after)) /\
   (Play.file st = Rec.IO_ALCENUM x [] ++ rest -> Play.IO_ALCENUM st = (x, after))) /\
  (0 <= x < 2 ^ 7 ->
   Play.file st = Rec.IO_BOOLEAN x [] ++ rest -> Play.IO_BOOLEAN st = (x, after)).
Proof.
  intros Hio after. split_and!.
  - intros Hx. split_and!; intros Hfile.
    + unfold Play.IO_UINT32. rewrite (readle32_ok x rest) by done. by rewrite Z.mod_small.
    + unfold Play.IO_EVENTENUM, Play.IO_UINT32.
      rewrite (readle32_ok (to_uint32 x) rest) by done.
      unfold to_uint32. by rewrite Z.mod_mod, Z.mod_small by lia.
    + unfold Play.IO_FLOAT. rewrite (readle32_ok x rest) by done. by rewrite Z.mod_small.
  - intros Hx. split_and!; intros Hfile.
    + unfold Play.IO_INT32. rewrite (readle32_ok (to_uint32 x) rest) by done.
      by rewrite to_int32_uint32.
    + unfold Play.IO_ENUM, Play.IO_UINT32. rewrite (readle32_ok (to_uint32 x) rest) by done.
      by rewrite to_int32_uint32.
    + unfold Play.IO_ALCENUM, Play.IO_UINT32. rewrite (readle32_ok (to_uint32 x) rest) by done.
      by rewrite to_int32_uint32.
  - intros Hx Hfile. unfold Play.IO_BOOLEAN, Play.IO_UINT32.
    rewrite (readle32_ok (to_uint32 x) rest) by done.
    unfold to_uint32, to_uint8. rewrite Z.mod_mod by lia.
    rewrite (Z.mod_small x (2 ^ 32)) by lia. by rewrite Z.mod_small by lia.
Qed.

Lemma word32_roundtrip_witness :
  Play.IO_INT32 (Play.set_file (Rec.IO_INT32 (-2) [] ++ [7]) 0 Play.initial)
    = (-2, Play.set_file [7] 4 Play.initial).
Proof.
  destruct (word32_roundtrip (-2) [7] (Play.set_file (Rec.IO_INT32 (-2) [] ++ [7]) 0 Play.initial))
    as (_ & Hsigned & _); [reflexivity|].
  destruct Hsigned as (Hint & _); [lia|].
  apply Hint. reflexivity.
Defined.

(** X4: a 64-bit field of the recorder is what the player reads back, in
    eight bytes: unsigned values and pointers below [2^64], and an
    [ALsizei] count, which travels sign-extended to 64 bits and comes
    back as the same [int], negative counts included. *)
Theorem word64_roundtrip (x : Z) (rest : list Z) (st : Play.Player) :
  Play.io_failure st = false ->
  let after := Play.set_file rest (Play.fdoffset st + 8) st in
  (0 <= x < 2 ^ 64 ->
   (Play.file st = Rec.IO_UINT64 x [] ++ rest -> Play.IO_UINT64 st = (x, after)) /\
   (Play.file st = Rec.IO_PTR x [] ++ rest -> Play.IO_PTR st = (x, after))) /\
  (-2 ^ 31 <= x < 2 ^ 31 ->
   (Play.file st = Rec.IO_ALSIZEI x [] ++ rest -> Play.IO_ALSIZEI st = (x, after)) /\
   (Play.file st = Rec.IO_ALCSIZEI x [] ++ rest -> Play.IO_ALSIZEI st = (x, after)) /\
   length (Rec.IO_ALSIZEI x []) = 8%nat).
Proof.
  intros Hio after. split.
  - intros Hx. split; intros Hfile.
    + unfold Play.IO_UINT64. rewrite (readle64_ok x rest) by done. by rewrite Z.mod_small.
    + unfold Play.IO_PTR, Play.IO_UINT64. rewrite (readle64_ok (to_uint64 x) rest) by done.
      unfold to_uint64. by rewrite Z.mod_mod, Z.mod_small by lia.
  - intros Hx. split_and!.
    + intros Hfile. unfold Play.IO_ALSIZEI, Play.IO_UINT64.
      rewrite (readle64_ok (to_uint64 x) rest) by done. by rewrite to_int32_uint64.
    + intros Hfile. unfold Play.IO_ALSIZEI, Play.IO_UINT64.
      rewrite (readle64_ok (to_uint64 x) rest) by done. by rewrite to_int32_uint64.
    + apply le_bytes_length.
Qed.

Lemma word64_roundtrip_witness :
  Play.IO_ALSIZEI (Play.set_file (Rec.IO_ALSIZEI (-1) [] ++ [7]) 0 Play.initial)
    = (-1, Play.set_file [7] 8 Play.initial).
Proof.
  destruct (word64_roundtrip (-1) [7] (Play.set_file (Rec.IO_ALSIZEI (-1) [] ++ [7]) 0 Play.initial))
    as (_ & Hsigned); [reflexivity|].
  destruct Hsigned as (Hsize & _); [lia|].
  apply Hsize. reflexivity.
Defined.

End WireFacts.

Module BlobFacts.

Import Int IntFacts.

(** X5: a blob goes to the log as its 64-bit length and then its bytes;
    the player's [IO_BLOB] returns the same length and the same bytes (in
    a buffer with a zero byte behind them) and stops right after them.
    [NULL] is written as the length [0xFFFFFFFFFFFFFFFF] alone and comes
    back as [NULL] with length 0, while a blob of length 0 comes back as
    a buffer, not as [NULL]. *)
Theorem blob_roundtrip (data : option (list Z)) (len : Z) (rest : list Z) (st : Play.Player) :
  Play.io_failure st = false ->
  0 <= len < 2 ^ 63 ->
  (forall buf, data = Some buf -> len <= Z.of_nat (length buf)) ->
  Play.file st = Rec.IO_BLOB data len [] ++ rest ->
  let bytes := match data with None => [] | Some buf => take (Z.to_nat len) buf end in
  Play.IO_BLOB st =
    (match data with None => None | Some _ => Some (bytes ++ [0]) end,
     match data with None => 0 | Some _ => len end,
     Play.set_file rest (Play.fdoffset st + 8 + Z.of_nat (length bytes)) st).
Proof.
  intros Hio Hlen Hbuf Hfile bytes. unfold Play.IO_BLOB, Play.IO_UINT64.
  destruct data as [buf|].
  - specialize (Hbuf buf eq_refl).
    assert (Hbytes : Rec.IO_BLOB (Some buf) len [] = le_bytes 8 len ++ bytes).
    { unfold Rec.IO_BLOB, Rec.IO_UINT64, Rec.writele64, Rec.write, to_uint64.
      rewrite Z.mod_small by (change (2 ^ 64) with (2 * 2 ^ 63); lia).
      destruct (0 <? len) eqn:E; [reflexivity|].
      apply Z.ltb_ge in E. assert (len = 0) as -> by lia. subst bytes.
      by rewrite take_0, app_nil_r. }
    rewrite Hbytes, <- app_assoc in Hfile.
    rewrite (WireFacts.readle64_ok len (bytes ++ rest)) by done.
    rewrite Z.mod_small by (change (2 ^ 64) with (2 * 2 ^ 63); lia).
    cbn [Play.io_failure Play.set_file]. rewrite Hio.
    assert (Hne : (len =? Rec.NULL_LENGTH) = false).
    { apply Z.eqb_neq. unfold Rec.NULL_LENGTH. change (2 ^ 63) with 9223372036854775808 in Hlen. lia. }
    rewrite Hne. unfold Play.read. cbn [Play.file Play.fdoffset Play.set_file].
    assert (Hl : length bytes = Z.to_nat len) by (subst bytes; rewrite length_take; lia).
    rewrite take_app_length', drop_app_length' by done.
    assert (Hs : to_ssize_t len = len).
    { unfold to_ssize_t, to_signed. change (2 ^ (64 - 1)) with (2 ^ 63).
      rewrite Z.mod_small by (change (2 ^ 64) with (2 * 2 ^ 63); lia).
      destruct (len <? 2 ^ 63) eqn:E; [done|apply Z.ltb_ge in E; lia]. }
    rewrite Hs, Hl, Z2Nat.id, Z.eqb_refl, Nat.sub_diag by lia. cbn [replicate app].
    reflexivity.
  - cbn in Hfile. unfold Rec.IO_UINT64, Rec.writele64, Rec.write in Hfile. cbn [app] in Hfile.
    rewrite (WireFacts.readle64_ok Rec.NULL_LENGTH rest) by done.
    cbn [Play.io_failure Play.set_file]. rewrite Hio.
    change (Rec.NULL_LENGTH mod 2 ^ 64 =? Rec.NULL_LENGTH) with true. cbn match.
    subst bytes. cbn [length]. rewrite Z.add_0_r. reflexivity.
Qed.

Lemma blob_roundtrip_witness :
  Play.IO_BLOB (Play.set_file (Rec.IO_BLOB (Some [1; 0; 2; 9]) 3 [] ++ [7]) 0 Play.initial)
    = (Some [1; 0; 2; 0], 3, Play.set_file [7] 11 Play.initial) /\
  Play.IO_BLOB (Play.set_file (Rec.IO_BLOB (Some []) 0 [] ++ [7]) 0 Play.initial)
    = (Some [0], 0, Play.set_file [7] 8 Play.initial).
Proof.
  split.
  - apply (blob_roundtrip (Some [1; 0; 2; 9]) 3 [7]
             (Play.set_file (Rec.IO_BLOB (Some [1; 0; 2; 9]) 3 [] ++ [7]) 0 Play.initial)).
    + reflexivity.
    + lia.
    + intros buf [= <-]. cbn. lia.
    + reflexivity.
  - apply (blob_roundtrip (Some []) 0 [7]
             (Play.set_file (Rec.IO_BLOB (Some []) 0 [] ++ [7]) 0 Play.initial)).
    + reflexivity.
    + lia.
    + intros buf [= <-]. cbn. lia.
    + reflexivity.
Defined.

End BlobFacts.

(** ** Read failures in the player *)

Module ReadFailure.

Import Int Play.

Section Player.

Context `{Constants} `{FrontEnd}.

Ltac failed_reads Hio :=
  unfold decode_callstack_syms_event, decode_al_error_event, decode_alc_error_event,
    decode_state_changed, decode_context_state_changed_string,
    decode_listener_state_changed_floatv, decode_eos, IO_STRING, IO_BLOB, IO_PTR, IO_ENUM,
    IO_ALCENUM, IO_INT32, IO_BOOLEAN, IO_FLOAT, IO_UINT64, IO_UINT32, readle64, readle32,
    readle;
  repeat (rewrite ?Hio; change (Z.to_nat 0) with O;
          cbn [decode_callstack_syms_loop read_values fst snd]);
  reflexivity.

Lemma dispatch_failed (tag : Z) (st : Player) :
  io_failure st = true ->
  decode_entrypoint tag = None ->
  recognized tag = true ->
  (dispatch_event tag st).1.1 = st.
Proof.
  intros Hio Hnone Hrec. unfold recognized in Hrec. unfold dispatch_event.
  rewrite Hnone in Hrec |- *. cbn [existsb] in Hrec.
  repeat match goal with
         | |- context [if tag =? ?c then _ else _] =>
             let E := fresh "E" in
             destruct (tag =? c) eqn:E; [cbn [fst]; failed_reads Hio|rewrite ?E in Hrec]
         end.
  cbn [orb] in Hrec. discriminate.
Qed.

(** X6: when fewer bytes are left in the log than a reader wants, the
    reader returns the bytes that are there (the missing ones as zero),
    prints the end-of-file diagnostic and sets [io_failure].  With
    [io_failure] set every reader returns 0 or [NULL] and every decoder
    of the event switch returns without reading, printing or calling the
    visitor, and the next turn of the loop of [process_tracelog] ends the
    trace: eos with a false clean flag, return value 0. *)
Theorem read_failure_is_final (size : nat) (fuel : nat) (fdsize retval : Z) (st : Player) :
  (io_failure st = false -> (length (file st) < size)%nat ->
   (readle size st).1 = le_value (file st) /\
   io_failure (readle size st).2 = true /\
   stderr (readle size st).2 = stderr st ++ [FailedToRead true] /\
   file (readle size st).2 = [] /\
   visits (readle size st).2 = visits st) /\
  (io_failure st = true ->
   readle size st = (0, st) /\
   IO_BLOB st = (None, 0, st) /\
   IO_ENTRYINFO st = (None, st) /\
   (forall tag, decode_entrypoint tag = None -> recognized tag = true ->
      (dispatch_event tag st).1.1 = st) /\
   tracelog_loop (S fuel) fdsize retval st = Some (0, visit (visit_eos false 0) st)).
Proof.
  split.
  - intros Hio Hshort. unfold readle, read. rewrite Hio. cbn [fst snd].
    rewrite take_ge, drop_ge by lia.
    rewrite bool_decide_eq_false_2 by lia.
    unfold IO_READ_FAIL. cbn [io_failure set_file]. rewrite Hio. split_and!; reflexivity.
  - intros Hio. split_and!.
    + unfold readle. by rewrite Hio.
    + unfold IO_BLOB, IO_UINT64, readle64, readle. rewrite Hio. cbn. by rewrite Hio.
    + unfold IO_ENTRYINFO, IO_UINT32, IO_UINT64, readle32, readle64, readle.
      repeat (rewrite ?Hio; cbn [fst snd]). reflexivity.
    + intros tag. by apply dispatch_failed.
    + cbn [tracelog_loop]. by rewrite Hio.
Qed.

End Player.

Lemma read_failure_is_final_witness :
  (@readle 4 (set_file [1; 2] 0 initial)).1 = 513 /\
  stderr (@readle 4 (set_file [1; 2] 0 initial)).2 = [FailedToRead true] /\
  @tracelog_loop Sample.constants Sample.front_end 1 2 1 (@readle 4 (set_file [1; 2] 0 initial)).2
    = Some (0, visit (visit_eos false 0) (@readle 4 (set_file [1; 2] 0 initial)).2).
Proof.
  destruct (@read_failure_is_final Sample.constants Sample.front_end 4 0 2 1
              (set_file [1; 2] 0 initial)) as [Hshort _].
  destruct Hshort as (Hval & Hio & Herr & _); [reflexivity|cbn; lia|].
  destruct (@read_failure_is_final Sample.constants Sample.front_end 4 0 2 1
              (@readle 4 (set_file [1; 2] 0 initial)).2) as [_ Hfailed].
  destruct (Hfailed Hio) as (_ & _ & _ & _ & Hloop).
  split_and!; [exact Hval|exact Herr|exact Hloop].
Defined.

End ReadFailure.

(** ** Call events, from the recorder to the player *)

Module ReplayFacts.

Import Int IntFacts Callstack.

Lemma mod_small_64 (x : Z) : 0 <= x < 2 ^ 64 -> to_uint64 x = x.
Proof. intros Hx. unfold to_uint64. by apply Z.mod_small. Qed.

Lemma write_frames_bytes (frames : list Z) (fd : list Z) :
  write_frames frames fd = fd ++ flat_map (fun a => le_bytes 8 (to_uint64 a)) frames.
Proof.
  unfold write_frames. revert fd. induction frames as [|a frames IH]; intros fd; simpl.
  - by rewrite app_nil_r.
  - rewrite IH. unfold Rec.IO_PTR, Rec.IO_UINT64, Rec.writele64, Rec.write.
    by rewrite <- app_assoc.
Qed.

Lemma write_new_strings_bytes (pairs : list (Z * option (list Z))) (fd : list Z) :
  write_new_strings pairs fd =
    fd ++ flat_map (fun p => le_bytes 8 (to_uint64 p.1) ++ Rec.IO_STRING p.2 []) pairs.
Proof.
  unfold write_new_strings. revert fd. induction pairs as [|p pairs IH]; intros fd; simpl.
  - by rewrite app_nil_r.
  - rewrite IH. rewrite (CodecFacts.IO_STRING_bytes p.2 (Rec.IO_PTR p.1 fd)).
    rewrite (CodecFacts.IO_STRING_bytes p.2 []).
    unfold Rec.IO_PTR, Rec.IO_UINT64, Rec.writele64, Rec.write. cbn [app].
    by rewrite <- !app_assoc.
Qed.

(** The frame loop of the player's [IO_ENTRYINFO] on the addresses of a
    call event. *)
Lemma read_frames_ok (rest : list Z) (ptrs : list Z) :
  forall (i : nat) (st : Play.Player) (callstack : list (Z * option (list Z))),
    Play.io_failure st = false ->
    Forall (fun p => 0 <= p < 2 ^ 64) ptrs ->
    Play.file st = flat_map (fun a => le_bytes 8 (to_uint64 a)) ptrs ++ rest ->
    Play.read_frames (length ptrs) i st callstack =
      (callstack ++
         map (fun p => (p, Play.stackframe_map st !! p)) (take (MAX_CALLSTACKS - i) ptrs),
       Play.set_file rest (Play.fdoffset st + 8 * Z.of_nat (length ptrs)) st).
Proof.
  induction ptrs as [|p ptrs IH]; intros i st callstack Hio Hrange Hfile.
  - cbn [length Play.read_frames]. rewrite take_nil, app_nil_r. cbn [flat_map app] in Hfile.
    f_equal. destruct st; cbn in *. subst. unfold Play.set_file. cbn. f_equal. lia.
  - apply Forall_cons in Hrange as [Hp Hrange].
    cbn [length Play.read_frames flat_map] in *. rewrite <- app_assoc in Hfile.
    unfold Play.IO_PTR, Play.IO_UINT64.
    rewrite (WireFacts.readle64_ok (to_uint64 p) (flat_map _ ptrs ++ rest)) by done.
    rewrite mod_small_64, Z.mod_small by done.
    cbn [Play.io_failure Play.set_file]. rewrite Hio. cbn [negb andb].
    rewrite IH by done. cbn [Play.stackframe_map Play.set_file Play.fdoffset].
    f_equal.
    + destruct (decide (i < MAX_CALLSTACKS)%nat) as [Hi|Hi].
      * rewrite bool_decide_eq_true_2 by done.
        replace (MAX_CALLSTACKS - i)%nat with (S (MAX_CALLSTACKS - S i)) by lia.
        cbn [take map]. by rewrite <- app_assoc.
      * rewrite bool_decide_eq_false_2 by done.
        replace (MAX_CALLSTACKS - i)%nat with O by lia.
        replace (MAX_CALLSTACKS - S i)%nat with O by lia. by rewrite !take_0.
    + unfold Play.set_file. cbn. f_equal. lia.
Qed.

(** The player's [IO_ENTRYINFO] on the header of a call event. *)
Lemma IO_ENTRYINFO_ok (wait_until logthreadid : Z) (ptrs rest : list Z) (st : Play.Player) :
  Play.io_failure st = false ->
  0 <= wait_until < 2 ^ 32 ->
  0 <= logthreadid < 2 ^ 64 ->
  Z.of_nat (length ptrs) < 2 ^ 32 ->
  Forall (fun p => 0 <= p < 2 ^ 64) ptrs ->
  Play.file st =
    le_bytes 4 wait_until ++ le_bytes 8 logthreadid
      ++ le_bytes 4 (Z.of_nat (length ptrs))
      ++ flat_map (fun a => le_bytes 8 (to_uint64 a)) ptrs ++ rest ->
  let mapped := Play.map_threadid logthreadid st in
  Play.IO_ENTRYINFO st =
    (Some {| Play.ci_threadid := mapped.1;
             Play.ci_trace_scope := Play.trace_scope st;
             Play.ci_wait_until := wait_until;
             Play.ci_num_callstack_frames :=
               Z.min (Z.of_nat (length ptrs)) (Z.of_nat MAX_CALLSTACKS);
             Play.ci_callstack :=
               map (fun p => (p, Play.stackframe_map st !! p)) (take MAX_CALLSTACKS ptrs);
             Play.ci_fdoffset := Play.fdoffset st + 16 + 8 * Z.of_nat (length ptrs) |},
     Play.set_file rest (Play.fdoffset st + 16 + 8 * Z.of_nat (length ptrs)) mapped.2).
Proof.
  intros Hio Hw Ht Hn Hrange Hfile mapped. unfold Play.IO_ENTRYINFO, Play.IO_UINT32, Play.IO_UINT64.
  rewrite (WireFacts.readle32_ok wait_until _ st Hio Hfile), Z.mod_small by done.
  rewrite (WireFacts.readle64_ok logthreadid
             (le_bytes 4 (Z.of_nat (length ptrs)) ++ flat_map _ ptrs ++ rest)) by done.
  rewrite Z.mod_small by done.
  rewrite (WireFacts.readle32_ok (Z.of_nat (length ptrs)) (flat_map _ ptrs ++ rest)) by done.
  rewrite Z.mod_small by lia.
  cbn [Play.io_failure Play.set_file]. rewrite Hio.
  set (st1 := Play.set_file (flat_map _ ptrs ++ rest) _ _).
  assert (Hmap : Play.map_threadid logthreadid st1 =
    (mapped.1, Play.set_file (flat_map (fun a => le_bytes 8 (to_uint64 a)) ptrs ++ rest)
                 (Play.fdoffset st + 4 + 8 + 4) mapped.2)).
  { subst mapped st1. unfold Play.map_threadid.
    cbn [Play.threadid_map Play.next_mapped_threadid Play.set_file].
    by destruct (Play.get_mapped_threadid (Play.threadid_map st) logthreadid =? 0). }
  rewrite Hmap. rewrite Nat2Z.id.
  assert (Hio2 : Play.io_failure mapped.2 = false).
  { subst mapped. unfold Play.map_threadid.
    by destruct (Play.get_mapped_threadid (Play.threadid_map st) logthreadid =? 0). }
  assert (Hsf : Play.stackframe_map mapped.2 = Play.stackframe_map st).
  { subst mapped. unfold Play.map_threadid.
    by destruct (Play.get_mapped_threadid (Play.threadid_map st) logthreadid =? 0). }
  assert (Hts : Play.trace_scope mapped.2 = Play.trace_scope st).
  { subst mapped. unfold Play.map_threadid.
    by destruct (Play.get_mapped_threadid (Play.threadid_map st) logthreadid =? 0). }
  rewrite (read_frames_ok rest ptrs) by done.
  cbn [Play.stackframe_map Play.set_file Play.fdoffset Play.trace_scope app].
  rewrite Nat.sub_0_r, Hsf, Hts. f_equal; [f_equal; f_equal|].
  - destruct (Z.of_nat (length ptrs) <? Z.of_nat MAX_CALLSTACKS) eqn:E.
    + apply Z.ltb_lt in E. lia.
    + apply Z.ltb_ge in E. lia.
  - lia.
  - unfold Play.set_file. cbn. f_equal. lia.
Qed.

Lemma strdup_strdup (x : list Z) : strdup (strdup x) = strdup x.
Proof.
  unfold strdup at 1. unfold strdup at 1 2.
  by rewrite CodecFacts.strlen_take, CodecFacts.take_strlen_take.
Qed.

Lemma strlen_strdup (x : list Z) : Rec.strlen (strdup x) = Rec.strlen x.
Proof. apply CodecFacts.strlen_take. Qed.

Lemma skip_blanks_length (sym : list Z) : (length (skip_blanks sym) <= length sym)%nat.
Proof.
  induction sym as [|b sym IH]; [done|]. cbn [skip_blanks].
  destruct b as [|b|b]; try (cbn; lia).
  repeat (destruct b as [b|b|]; try (cbn; lia)).
Qed.

Lemma skip_frame_number_length (sym : list Z) :
  (length (skip_frame_number sym) <= length sym)%nat.
Proof.
  destruct sym as [|b sym]; [done|]. cbn [skip_frame_number].
  assert (Hs := skip_blanks_length sym).
  destruct b as [|b|b]; try (cbn; lia).
  repeat (destruct b as [b|b|]; try (cbn; lia)).
Qed.

(** What the collector's loop adds: the pairs it queues are the frames
    new to the map, each with the duplicate of the platform's symbol, and
    the map it leaves is the old one with those pairs put in. *)
Lemma collect_frames_fold (env : CallEnv) (frames : list Z) :
  forall (m : gmap Z (list Z)) new i out m',
    collect_frames env frames m new = (i, out, m') ->
    exists added,
      out = new ++ added /\
      m' = foldl (fun m p => <[p.1 := default [] p.2]> m) m added /\
      (length added <= length frames)%nat /\
      Forall (fun p => p.1 ∈ frames /\
                exists sym, env_symbols env p.1 = Some sym /\
                            p.2 = Some (strdup (skip_frame_number sym))) added.
Proof.
  induction frames as [|ptr frames IH]; intros m new i out m' Hc.
  - simpl in Hc. injection Hc as <- <- <-. exists []. rewrite app_nil_r. by split_and!.
  - cbn [collect_frames] in Hc.
    assert (Hspec := CallstackFacts.get_callstack_sym_spec env ptr m).
    destruct (m !! ptr) as [s|] eqn:Hm.
    + rewrite Hspec in Hc. cbn in Hc.
      destruct (collect_frames env frames m new) as [[i' out'] m''] eqn:Hr.
      injection Hc as <- <- <-.
      destruct (IH _ _ _ _ _ Hr) as (added & -> & -> & Hlen & Hall).
      exists added. split_and!; [done|done|cbn; lia|].
      eapply Forall_impl; [exact Hall|]. intros p [Hin Hsym]. split; [|done].
      by apply elem_of_cons; right.
    + destruct (env_symbols env ptr) as [sym|] eqn:Hsym.
      * rewrite Hspec in Hc. cbn in Hc.
        destruct (collect_frames env frames _ _) as [[i' out'] m''] eqn:Hr.
        injection Hc as <- <- <-.
        destruct (IH _ _ _ _ _ Hr) as (added & -> & -> & Hlen & Hall).
        exists ((ptr, Some (strdup (skip_frame_number sym))) :: added).
        split_and!; [by rewrite <- app_assoc|done|cbn; lia|].
        constructor.
        -- split; [by apply elem_of_cons; left|]. by exists sym.
        -- eapply Forall_impl; [exact Hall|]. intros p [Hin Hs]. split; [|done].
           by apply elem_of_cons; right.
      * rewrite Hspec in Hc. cbn in Hc. injection Hc as <- <- <-.
        exists []. rewrite app_nil_r. split_and!; [done|done|cbn; lia|done].
Qed.

Lemma IO_BLOB_ok (bytes rest : list Z) (st : Play.Player) :
  Play.io_failure st = false ->
  Z.of_nat (length bytes) < 2 ^ 63 ->
  Play.file st = le_bytes 8 (Z.of_nat (length bytes)) ++ bytes ++ rest ->
  Play.IO_BLOB st =
    (Some (bytes ++ [0]), Z.of_nat (length bytes),
     Play.set_file rest (Play.fdoffset st + 8 + Z.of_nat (length bytes)) st).
Proof.
  intros Hio Hlen Hfile. unfold Play.IO_BLOB, Play.IO_UINT64.
  rewrite (WireFacts.readle64_ok _ (bytes ++ rest) st Hio Hfile).
  rewrite Z.mod_small by (change (2 ^ 64) with (2 * 2 ^ 63); lia).
  cbn [Play.io_failure Play.set_file]. rewrite Hio.
  assert (Hne : (Z.of_nat (length bytes) =? Rec.NULL_LENGTH) = false).
  { apply Z.eqb_neq. unfold Rec.NULL_LENGTH. change (2 ^ 63) with 9223372036854775808 in Hlen. lia. }
  rewrite Hne. unfold Play.read. cbn [Play.file Play.fdoffset Play.set_file].
  rewrite Nat2Z.id, take_app_length, drop_app_length.
  assert (Hs : to_ssize_t (Z.of_nat (length bytes)) = Z.of_nat (length bytes)).
  { unfold to_ssize_t, to_signed. change (2 ^ (64 - 1)) with (2 ^ 63).
    rewrite Z.mod_small by (change (2 ^ 64) with (2 * 2 ^ 63); lia).
    destruct (Z.of_nat (length bytes) <? 2 ^ 63) eqn:E; [done|apply Z.ltb_ge in E; lia]. }
  rewrite Hs, Z.eqb_refl, Nat.sub_diag. reflexivity.
Qed.

Lemma IO_STRING_ok (s rest : list Z) (st : Play.Player) :
  Play.io_failure st = false ->
  Z.of_nat (Rec.strlen s) < 2 ^ 63 ->
  Play.file st = Rec.IO_STRING (Some s) [] ++ rest ->
  Play.IO_STRING st =
    (Some (strdup s), Play.set_file rest (Play.fdoffset st + 8 + Z.of_nat (Rec.strlen s)) st).
Proof.
  intros Hio Hlen Hfile. rewrite CodecFacts.IO_STRING_bytes in Hfile. cbn [app] in Hfile.
  assert (Hl : length (take (Rec.strlen s) s) = Rec.strlen s).
  { rewrite length_take. assert (H := CodecFacts.strlen_le s). lia. }
  unfold to_uint64 in Hfile.
  rewrite Z.mod_small, <- app_assoc in Hfile by (change (2 ^ 64) with (2 * 2 ^ 63); lia).
  rewrite <- Hl in Hfile at 1. unfold Play.IO_STRING.
  rewrite (IO_BLOB_ok (take (Rec.strlen s) s) rest st Hio); [by rewrite Hl|by rewrite Hl|done].
Qed.

(** The player's loop over the pairs of a new-callstack-symbols event. *)
Lemma decode_callstack_syms_loop_ok (rest : list Z) (pairs : list (Z * option (list Z))) :
  forall (st : Play.Player),
    Play.io_failure st = false ->
    Forall (fun p => 0 < p.1 < 2 ^ 64 /\
              exists x, p.2 = Some (strdup x) /\ Z.of_nat (Rec.strlen x) < 2 ^ 63) pairs ->
    Play.file st =
      flat_map (fun p => le_bytes 8 (to_uint64 p.1) ++ Rec.IO_STRING p.2 []) pairs ++ rest ->
    exists off,
      Play.decode_callstack_syms_loop (length pairs) st =
        Play.set_stackframe_map
          (foldl (fun m p => <[p.1 := default [] p.2]> m) (Play.stackframe_map st) pairs)
          (Play.set_file rest off st).
Proof.
  induction pairs as [|[a str] pairs IH]; intros st Hio Hall Hfile.
  - exists (Play.fdoffset st). cbn in *. destruct st; cbn in *. by subst.
  - apply Forall_cons in Hall as [[Ha (x & Hstr & Hx)] Hall]. cbn [fst snd] in *. subst str.
    cbn [length Play.decode_callstack_syms_loop flat_map] in *.
    rewrite <- !app_assoc in Hfile.
    unfold Play.IO_PTR, Play.IO_UINT64.
    rewrite (WireFacts.readle64_ok (to_uint64 a) _ st Hio Hfile).
    rewrite mod_small_64, Z.mod_small by lia.
    set (st1 := Play.set_file _ _ st).
    rewrite (IO_STRING_ok (strdup x) (flat_map _ pairs ++ rest) st1)
      by (by rewrite ?strlen_strdup).
    cbn [Play.io_failure Play.set_file]. subst st1. cbn [Play.io_failure Play.set_file].
    rewrite Hio. rewrite (proj2 (Z.eqb_neq a 0)) by lia. cbn [negb].
    rewrite !strdup_strdup.
    set (st2 := Play.set_stackframe_map _ _).
    destruct (IH st2) as [off Hrun]; [done|done|done|].
    exists off. rewrite Hrun. reflexivity.
Qed.

(** X7: the player's [IO_ENTRYINFO] reads the header of a call event in
    full whatever the number of frames it announces: the visitor is
    shown the first [MAX_CALLSTACKS] frames at most, each with the symbol
    the frame map has for it, and the reader stands right behind the
    last frame address, so the events that follow are read in step. *)
Theorem entryinfo_keeps_in_step (wait_until logthreadid : Z) (ptrs rest : list Z)
    (st : Play.Player) :
  Play.io_failure st = false ->
  0 <= wait_until < 2 ^ 32 ->
  0 <= logthreadid < 2 ^ 64 ->
  Z.of_nat (length ptrs) < 2 ^ 32 ->
  Forall (fun p => 0 <= p < 2 ^ 64) ptrs ->
  Play.file st =
    le_bytes 4 wait_until ++ le_bytes 8 logthreadid
      ++ le_bytes 4 (Z.of_nat (length ptrs))
      ++ flat_map (fun a => le_bytes 8 (to_uint64 a)) ptrs ++ rest ->
  exists callerinfo st',
    Play.IO_ENTRYINFO st = (Some callerinfo, st') /\
    Play.ci_callstack callerinfo =
      map (fun p => (p, Play.stackframe_map st !! p)) (take MAX_CALLSTACKS ptrs) /\
    (length (Play.ci_callstack callerinfo) <= MAX_CALLSTACKS)%nat /\
    Play.ci_num_callstack_frames callerinfo =
      Z.min (Z.of_nat (length ptrs)) (Z.of_nat MAX_CALLSTACKS) /\
    Play.ci_wait_until callerinfo = wait_until /\
    Play.file st' = rest /\
    Play.fdoffset st' = Play.fdoffset st + 16 + 8 * Z.of_nat (length ptrs) /\
    Play.ci_fdoffset callerinfo = Play.fdoffset st' /\
    Play.io_failure st' = false.
Proof.
  intros Hio Hw Ht Hn Hrange Hfile.
  rewrite (IO_ENTRYINFO_ok wait_until logthreadid ptrs rest st) by done.
  eexists _, _. split; [reflexivity|]. cbn.
  split_and!; try reflexivity.
  - rewrite length_map, length_take. unfold MAX_CALLSTACKS. lia.
  - unfold Play.map_threadid.
    by destruct (Play.get_mapped_threadid (Play.threadid_map st) logthreadid =? 0).
Qed.

Lemma entryinfo_keeps_in_step_witness :
  exists callerinfo st',
    Play.IO_ENTRYINFO
      (Play.set_file (le_bytes 4 5 ++ le_bytes 8 77 ++ le_bytes 4 40
                        ++ flat_map (fun a => le_bytes 8 (to_uint64 a))
                             (map Z.of_nat (seq 1 40)) ++ [9]) 0 Play.initial)
      = (Some callerinfo, st') /\
    length (Play.ci_callstack callerinfo) = 32%nat /\
    Play.file st' = [9] /\
    Play.fdoffset st' = 336.
Proof.
  destruct (entryinfo_keeps_in_step 5 77 (map Z.of_nat (seq 1 40)) [9]
              (Play.set_file (le_bytes 4 5 ++ le_bytes 8 77 ++ le_bytes 4 40
                                ++ flat_map (fun a => le_bytes 8 (to_uint64 a))
                                     (map Z.of_nat (seq 1 40)) ++ [9]) 0 Play.initial))
    as (callerinfo & st' & Hrun & Hstack & _ & _ & _ & Hfile & Hoff & _).
  - reflexivity.
  - lia.
  - lia.
  - vm_compute. reflexivity.
  - apply Forall_forall. intros p Hp. apply list_elem_of_fmap in Hp as (k & -> & Hk).
    apply elem_of_seq in Hk. change (2 ^ 64) with 18446744073709551616. lia.
  - reflexivity.
  - exists callerinfo, st'. split_and!; [exact Hrun| |exact Hfile|exact Hoff].
    rewrite Hstack. reflexivity.
Defined.

(** X14: [backtrace] is asked for [MAX_CALLSTACKS] frames, of which the
    two innermost are the collector's own, so the event of a call
    carries a prefix of the caller's stack of at most
    [MAX_CALLSTACKS - 2] frames, and the new-callstack-symbols event in
    front of it, if there is one, at most as many pairs as the call has
    frames: the arrays [new_strings] and [new_strings_ptrs] are never
    written past their [MAX_CALLSTACKS] slots. *)
Theorem call_event_bounds (entryid : Z) (env : CallEnv) (m : gmap Z (list Z)) :
  exists pairs frames,
    (entry_events entryid env m).1 =
      (if 0 <? Z.of_nat (length pairs) then [NewCallstackSyms pairs] else [])
        ++ [CallEvent entryid (env_now env) (env_thread env) frames] /\
    frames `prefix_of` drop 2 (env_backtrace env) /\
    (length frames <= MAX_CALLSTACKS - 2)%nat /\
    (length pairs <= length frames)%nat.
Proof.
  destruct (CallstackFacts.entry_events_spec entryid env m)
    as (i & added & m' & He & _ & Hnd & Hnew & _).
  exists added, (take i (captured_frames env)). rewrite He. split_and!; [done| | |].
  - etrans; [apply prefix_take|]. unfold captured_frames.
    change MAX_CALLSTACKS with (2 + 30)%nat. rewrite <- take_drop_commute. apply prefix_take.
  - rewrite length_take. unfold captured_frames. rewrite length_drop, length_take. lia.
  - rewrite <- (length_fmap fst added). apply submseteq_length, NoDup_submseteq; [done|].
    intros a Ha. by destruct (Hnew a Ha) as (_ & ? & _).
Qed.

Section Replay.

Context `{Constants}.

Lemma event_tag_bytes (x : Z) (fd : list Z) :
  Rec.IO_EVENTENUM x fd = fd ++ le_bytes 4 (to_uint32 x).
Proof. reflexivity. Qed.

(** X8: what the recorder's [IO_ENTRYINFO] writes for a call, the player
    reads back.  When the call brought frames the recorder had not seen,
    the player first meets the new-callstack-symbols event, and decoding
    it leaves the player's frame map equal to the recorder's; then comes
    the event of the call, and the player's [IO_ENTRYINFO] returns the
    recorder's clock value and the frames the recorder kept, each with
    the symbol string the recorder found for it, and stops at the end of
    the event. *)
Theorem call_replay (entryid : Z) (env : CallEnv) (m : gmap Z (list Z)) (rest : list Z)
    (st : Play.Player) :
  Forall (fun a => 0 < a < 2 ^ 64) (captured_frames env) ->
  (forall a sym, env_symbols env a = Some sym -> Z.of_nat (length sym) < 2 ^ 63) ->
  0 <= env_now env < 2 ^ 32 ->
  0 <= env_thread env < 2 ^ 64 ->
  0 <= entryid < 2 ^ 32 ->
  0 <= ALEE_NEW_CALLSTACK_SYMS < 2 ^ 32 ->
  Play.io_failure st = false ->
  Play.stackframe_map st = m ->
  Play.file st = (IO_ENTRYINFO entryid env (m, [])).2 ++ rest ->
  let m' := (IO_ENTRYINFO entryid env (m, [])).1 in
  exists st1 st2 callerinfo st3 frames,
    match (entry_events entryid env m).1 with
    | [NewCallstackSyms _; _] =>
        exists st0, Play.IO_EVENTENUM st = (ALEE_NEW_CALLSTACK_SYMS, st0) /\
                    st1 = Play.decode_callstack_syms_event st0
    | _ => st1 = st
    end /\
    Play.stackframe_map st1 = m' /\
    Play.IO_EVENTENUM st1 = (entryid, st2) /\
    Play.IO_ENTRYINFO st2 = (Some callerinfo, st3) /\
    CallEvent entryid (env_now env) (env_thread env) frames ∈ (entry_events entryid env m).1 /\
    Play.ci_callstack callerinfo = map (fun a => (a, m' !! a)) frames /\
    Forall (fun p => is_Some p.2) (Play.ci_callstack callerinfo) /\
    Play.ci_wait_until callerinfo = env_now env /\
    Play.ci_num_callstack_frames callerinfo = Z.of_nat (length frames) /\
    Play.stackframe_map st3 = m' /\
    Play.file st3 = rest /\
    Play.io_failure st3 = false.
Proof.
  intros Hframes Hsyms Hnow Hthread Htag HtagS Hio Hmap Hfile m'.
  subst m'. unfold IO_ENTRYINFO, entry_events in *.
  assert (Hcap : (length (captured_frames env) <= MAX_CALLSTACKS)%nat).
  { unfold captured_frames. rewrite length_drop, length_take. lia. }
  destruct (collect_frames env (captured_frames env) m []) as [[i out] m'] eqn:Hc.
  destruct (collect_frames_fold env _ _ _ _ _ _ Hc) as (added & Hout & Hm' & Hlen & Hadded).
  destruct (CallstackFacts.collect_frames_spec env _ _ _ _ _ _ Hc)
    as (added' & Hout' & Hi & _ & _ & _ & _ & _ & Hhave & _).
  cbn [app] in Hout. subst out. cbn [fst snd] in *.
  set (frames := take i (captured_frames env)) in *.
  assert (Hfl : length frames = i) by (subst frames; rewrite length_take; lia).
  assert (Hfr : Forall (fun p => 0 <= p < 2 ^ 64) frames).
  { subst frames. apply Forall_take. eapply Forall_impl; [exact Hframes|]. cbn. lia. }
  assert (Hpairs : Forall (fun p => 0 < p.1 < 2 ^ 64 /\
             exists x, p.2 = Some (strdup x) /\ Z.of_nat (Rec.strlen x) < 2 ^ 63) added).
  { eapply Forall_impl; [exact Hadded|]. intros p [Hin (sym & Hsym & Hp)]. split.
    - by apply (proj1 (Forall_forall _ _) Hframes).
    - exists (skip_frame_number sym). split; [done|].
      assert (H1 := CodecFacts.strlen_le (skip_frame_number sym)).
      assert (H2 := skip_frame_number_length sym). specialize (Hsyms _ _ Hsym). lia. }
  rewrite write_frames_bytes in Hfile.
  unfold Rec.IO_UINT32, Rec.IO_UINT64, Rec.writele32, Rec.writele64, Rec.write in Hfile.
  rewrite !event_tag_bytes in Hfile.
  assert (Hcount : to_uint32 (Z.of_nat i) = Z.of_nat (length frames)).
  { unfold to_uint32. rewrite Hfl. apply Z.mod_small.
    change (2 ^ 32) with 4294967296. unfold MAX_CALLSTACKS in Hcap. lia. }
  rewrite Hcount, (mod_small_64 (env_thread env)) in Hfile by done.
  (* the player after the symbols event, if there is one *)
  assert (Hfirst : exists st1,
    match (if 0 <? Z.of_nat (length added) then [NewCallstackSyms added] else [])
            ++ [CallEvent entryid (env_now env) (env_thread env) frames] with
    | [NewCallstackSyms _; _] =>
        exists st0, Play.IO_EVENTENUM st = (ALEE_NEW_CALLSTACK_SYMS, st0) /\
                    st1 = Play.decode_callstack_syms_event st0
    | _ => st1 = st
    end /\
    Play.stackframe_map st1 = m' /\
    Play.io_failure st1 = false /\
    Play.file st1 =
      le_bytes 4 (to_uint32 entryid) ++ le_bytes 4 (env_now env)
        ++ le_bytes 8 (env_thread env) ++ le_bytes 4 (Z.of_nat (length frames))
        ++ flat_map (fun a => le_bytes 8 (to_uint64 a)) frames ++ rest).
  { destruct (0 <? Z.of_nat (length added)) eqn:Enew.
    - rewrite write_new_strings_bytes in Hfile. cbn [app] in Hfile |- *.
      rewrite <- !app_assoc in Hfile.
      assert (Hn : to_uint32 (Z.of_nat (length added)) = Z.of_nat (length added)).
      { unfold to_uint32. apply Z.mod_small.
        change (2 ^ 32) with 4294967296. unfold MAX_CALLSTACKS in Hcap. lia. }
      rewrite Hn in Hfile.
      assert (Hst0 : Play.IO_EVENTENUM st =
        (ALEE_NEW_CALLSTACK_SYMS,
         Play.set_file (le_bytes 4 (Z.of_nat (length added)) ++
                        flat_map (fun p => le_bytes 8 (to_uint64 p.1) ++ Rec.IO_STRING p.2 [])
                          added ++
                        le_bytes 4 (to_uint32 entryid) ++ le_bytes 4 (env_now env)
                          ++ le_bytes 8 (env_thread env)
                          ++ le_bytes 4 (Z.of_nat (length frames))
                          ++ flat_map (fun a => le_bytes 8 (to_uint64 a)) frames ++ rest)
           (Play.fdoffset st + 4) st)).
      { unfold Play.IO_EVENTENUM, Play.IO_UINT32.
        rewrite (WireFacts.readle32_ok (to_uint32 ALEE_NEW_CALLSTACK_SYMS) _ st Hio Hfile).
        unfold to_uint32. by rewrite Z.mod_mod, Z.mod_small by lia. }
      set (st0 := Play.set_file _ _ st) in Hst0.
      unfold Play.decode_callstack_syms_event, Play.IO_UINT32.
      pose proof (WireFacts.readle32_ok (Z.of_nat (length added))
                    (flat_map (fun p => le_bytes 8 (to_uint64 p.1) ++ Rec.IO_STRING p.2 [])
                       added ++
                     le_bytes 4 (to_uint32 entryid) ++ le_bytes 4 (env_now env)
                       ++ le_bytes 8 (env_thread env)
                       ++ le_bytes 4 (Z.of_nat (length frames))
                       ++ flat_map (fun a => le_bytes 8 (to_uint64 a)) frames ++ rest)
                    st0 Hio eq_refl) as Hcnt.
      rewrite Z.mod_small in Hcnt by (change (2 ^ 32) with 4294967296;
                                       unfold MAX_CALLSTACKS in Hcap; lia).
      set (st0' := Play.set_file _ _ st0) in Hcnt.
      destruct (decode_callstack_syms_loop_ok
                  (le_bytes 4 (to_uint32 entryid) ++ le_bytes 4 (env_now env)
                     ++ le_bytes 8 (env_thread env)
                     ++ le_bytes 4 (Z.of_nat (length frames))
                     ++ flat_map (fun a => le_bytes 8 (to_uint64 a)) frames ++ rest)
                  added st0' Hio Hpairs eq_refl) as [off Hloop].
      eexists. split; [|split_and!].
      + exists st0. split; [exact Hst0|]. reflexivity.
      + unfold Play.IO_UINT32. rewrite Hcnt, Nat2Z.id, Hloop.
        subst st0' st0.
        cbn [Play.stackframe_map Play.set_stackframe_map Play.set_file]. by rewrite Hmap, Hm'.
      + unfold Play.IO_UINT32. rewrite Hcnt, Nat2Z.id, Hloop. cbn. exact Hio.
      + unfold Play.IO_UINT32. rewrite Hcnt, Nat2Z.id, Hloop. reflexivity.
    - apply Z.ltb_ge in Enew. assert (added = []) as -> by (destruct added; [done|cbn in Enew; lia]).
      cbn [app] in Hfile |- *. exists st. cbn in Hm'. rewrite <- !app_assoc in Hfile.
      split_and!; [done|congruence|done|done]. }
  destruct Hfirst as (st1 & Hshape & Hmap1 & Hio1 & Hfile1).
  exists st1.
  assert (Hst2 : Play.IO_EVENTENUM st1 =
    (entryid,
     Play.set_file (le_bytes 4 (env_now env) ++ le_bytes 8 (env_thread env)
                      ++ le_bytes 4 (Z.of_nat (length frames))
                      ++ flat_map (fun a => le_bytes 8 (to_uint64 a)) frames ++ rest)
       (Play.fdoffset st1 + 4) st1)).
  { unfold Play.IO_EVENTENUM, Play.IO_UINT32.
    rewrite (WireFacts.readle32_ok (to_uint32 entryid) _ st1 Hio1 Hfile1).
    unfold to_uint32. by rewrite Z.mod_mod, Z.mod_small by lia. }
  set (st2 := Play.set_file _ _ st1) in Hst2.
  assert (Hlt : Z.of_nat (length frames) < 2 ^ 32).
  { change (2 ^ 32) with 4294967296. unfold MAX_CALLSTACKS in Hcap. lia. }
  pose proof (IO_ENTRYINFO_ok (env_now env) (env_thread env) frames rest st2
                Hio1 Hnow Hthread Hlt Hfr eq_refl) as Hinfo.
  cbv zeta in Hinfo.
  eexists st2, _, _, frames. split_and!.
  - exact Hshape.
  - exact Hmap1.
  - exact Hst2.
  - exact Hinfo.
  - apply elem_of_app. right. apply list_elem_of_singleton. reflexivity.
  - cbn [Play.ci_callstack]. subst st2. cbn [Play.stackframe_map Play.set_file].
    rewrite Hmap1, take_ge; [done|]. rewrite Hfl. lia.
  - cbn [Play.ci_callstack]. subst st2. cbn [Play.stackframe_map Play.set_file].
    rewrite Hmap1, take_ge by (rewrite Hfl; lia).
    apply Forall_forall. intros p Hp. apply list_elem_of_fmap in Hp as (a & -> & Ha).
    cbn. by apply Hhave.
  - reflexivity.
  - cbn [Play.ci_num_callstack_frames]. unfold MAX_CALLSTACKS in *. lia.
  - cbn [Play.stackframe_map Play.set_file]. subst st2. unfold Play.map_threadid.
    by destruct (Play.get_mapped_threadid _ _ =? 0).
  - reflexivity.
  - cbn [Play.io_failure Play.set_file]. subst st2. unfold Play.map_threadid.
    by destruct (Play.get_mapped_threadid _ _ =? 0).
Qed.

End Replay.

End ReplayFacts.

(** ** State-change events, from the recorder to the player *)

Module EventFacts.

Import Int IntFacts AL Recorder.

Section Events.

Context {constants : Constants} {real : RealAL} {front : Play.FrontEnd}.

(** What [enumerated] gives for two tags of the list. *)
Lemma enumerated_tags :
  Events.enumerated ->
  forall i j x y,
    Events.event_tags !! i = Some x -> Events.event_tags !! j = Some y ->
    0 <= x < 2 ^ 32 /\ Play.decode_entrypoint x = None /\ (i <> j -> (x =? y) = false).
Proof.
  intros [Hnd Hall] i j x y Hi Hj.
  destruct (proj1 (Forall_lookup _ _) Hall i x Hi) as [Hx Hnone].
  split; [done|split; [done|]]. intros Hij. apply Z.eqb_neq. intros ->.
  apply Hij. by eapply NoDup_lookup.
Qed.

Ltac other_tag Henum i j :=
  rewrite (proj2 (proj2 (enumerated_tags Henum i j _ _ eq_refl eq_refl)))
    by (intros ?; discriminate).

(** The bytes [source_state_changed] appends. *)
Lemma source_state_changed_bytes (tag src param : Z) (io : list Z -> list Z)
    (store : SourceWrapper -> SourceWrapper) (st : Recorder) (bytes : list Z) :
  (forall fd, io fd = fd ++ bytes) ->
  logfd (source_state_changed tag src param io store st) =
    logfd st ++ le_bytes 4 (to_uint32 tag) ++ le_bytes 4 (name (source_at st src))
      ++ le_bytes 4 (to_uint32 param) ++ bytes.
Proof.
  intros Hio. unfold source_state_changed. cbn. rewrite Hio.
  unfold Rec.IO_ENUM, Rec.IO_UINT32, Rec.IO_EVENTENUM, Rec.IO_UINT32, Rec.writele32, Rec.write.
  by rewrite <- !app_assoc.
Qed.

(** The player's decoder on such bytes, given what its value reader does
    on the value's bytes. *)
Lemma decode_state_changed_ok (tag object param : Z) (bytes rest : list Z)
    (io_value : Play.Player -> Z * Play.Player) (n : nat) (vals : list Z) (pst : Play.Player) :
  Play.io_failure pst = false ->
  0 <= object < 2 ^ 32 ->
  -2 ^ 31 <= param < 2 ^ 31 ->
  Play.file pst = le_bytes 4 object ++ le_bytes 4 (to_uint32 param) ++ bytes ++ rest ->
  (forall pst', Play.io_failure pst' = false -> Play.file pst' = bytes ++ rest ->
     Play.read_values io_value n pst' =
       (vals, Play.set_file rest (Play.fdoffset pst' + Z.of_nat (length bytes)) pst')) ->
  Play.decode_state_changed tag Play.IO_UINT32 io_value n pst =
    Play.visit (Play.visit_state_changed tag object param vals)
      (Play.set_file rest (Play.fdoffset pst + 8 + Z.of_nat (length bytes)) pst).
Proof.
  intros Hio Hobj Hparam Hfile Hvals. unfold Play.decode_state_changed, Play.IO_UINT32, Play.IO_ENUM.
  rewrite (WireFacts.readle32_ok object _ pst Hio Hfile), Z.mod_small by done.
  unfold Play.IO_UINT32.
  rewrite (WireFacts.readle32_ok (to_uint32 param) (bytes ++ rest)) by done.
  rewrite WireFacts.to_int32_uint32 by done.
  rewrite Hvals by done. cbn [Play.io_failure Play.set_file]. rewrite Hio.
  unfold Play.visit, Play.set_file. cbn. do 2 f_equal. lia.
Qed.

Lemma read_one (io_value : Play.Player -> Z * Play.Player) (v : Z) (bytes rest : list Z) :
  (forall pst', Play.io_failure pst' = false -> Play.file pst' = bytes ++ rest ->
     io_value pst' = (v, Play.set_file rest (Play.fdoffset pst' + Z.of_nat (length bytes)) pst')) ->
  forall pst', Play.io_failure pst' = false -> Play.file pst' = bytes ++ rest ->
    Play.read_values io_value 1 pst' =
      ([v], Play.set_file rest (Play.fdoffset pst' + Z.of_nat (length bytes)) pst').
Proof. intros Hone pst' Hio Hfile. cbn [Play.read_values]. by rewrite Hone. Qed.

Ltac find_other_tag Henum i :=
  first [other_tag Henum i 0%nat | other_tag Henum i 1%nat | other_tag Henum i 2%nat
        |other_tag Henum i 3%nat | other_tag Henum i 4%nat | other_tag Henum i 5%nat
        |other_tag Henum i 6%nat | other_tag Henum i 7%nat | other_tag Henum i 8%nat
        |other_tag Henum i 9%nat | other_tag Henum i 10%nat | other_tag Henum i 11%nat
        |other_tag Henum i 12%nat | other_tag Henum i 13%nat | other_tag Henum i 14%nat
        |other_tag Henum i 15%nat | other_tag Henum i 16%nat].

(** The [case] the [switch] of [process_tracelog] takes for the tag at
    place [i] of [event_tags]. *)
Ltac dispatch_tag Henum i :=
  unfold Play.dispatch_event;
  rewrite (proj1 (proj2 (enumerated_tags Henum i i _ _ eq_refl eq_refl)));
  repeat find_other_tag Henum i;
  rewrite Z.eqb_refl.

(** The player reads back an event that [source_state_changed] wrote
    with the tag [tag] and the value writer [io]: the tag, and then, in
    the [case] of that tag, one callback with the source's name, the
    parameter and the values [vals], the reader ending right behind the
    event. *)
Definition replayed (tag : Z) (io : list Z -> list Z) (vals : list Z) : Prop :=
  forall (src param : Z) (store : SourceWrapper -> SourceWrapper) (st : Recorder)
         (rest : list Z) (pst : Play.Player),
    0 <= name (source_at st src) < 2 ^ 32 ->
    -2 ^ 31 <= param < 2 ^ 31 ->
    Play.io_failure pst = false ->
    Play.file pst =
      drop (length (logfd st)) (logfd (source_state_changed tag src param io store st))
        ++ rest ->
    exists pst1 pst2,
      Play.IO_EVENTENUM pst = (tag, pst1) /\
      Play.dispatch_event tag pst1 = (pst2, false, None) /\
      Play.visits pst2 =
        Play.visits pst ++ [Play.visit_state_changed tag (name (source_at st src)) param vals] /\
      Play.file pst2 = rest /\
      Play.io_failure pst2 = false /\
      Play.stderr pst2 = Play.stderr pst.

Lemma replayed_intro (tag : Z) (io : list Z -> list Z) (vals bytes : list Z)
    (io_value : Play.Player -> Z * Play.Player) (n : nat) :
  0 <= tag < 2 ^ 32 ->
  (forall fd, io fd = fd ++ bytes) ->
  (forall pst, Play.dispatch_event tag pst =
     (Play.decode_state_changed tag Play.IO_UINT32 io_value n pst, false, None)) ->
  (forall rest pst', Play.io_failure pst' = false -> Play.file pst' = bytes ++ rest ->
     Play.read_values io_value n pst' =
       (vals, Play.set_file rest (Play.fdoffset pst' + Z.of_nat (length bytes)) pst')) ->
  replayed tag io vals.
Proof.
  intros Htag Hio Hdisp Hread src param store st rest pst Hname Hparam Hfail Hfile.
  rewrite (source_state_changed_bytes tag src param io store st bytes Hio) in Hfile.
  rewrite drop_app_length, <- !app_assoc in Hfile.
  eexists _, _. split_and!.
  - unfold Play.IO_EVENTENUM, Play.IO_UINT32.
    rewrite (WireFacts.readle32_ok (to_uint32 tag) _ pst Hfail Hfile).
    unfold to_uint32. rewrite Z.mod_mod, Z.mod_small by lia. reflexivity.
  - rewrite Hdisp.
    rewrite (decode_state_changed_ok tag (name (source_at st src)) param bytes rest
               io_value n vals); [reflexivity|done|done|done|reflexivity|].
    intros pst' Hf' Hfile'. by apply Hread.
  - reflexivity.
  - reflexivity.
  - exact Hfail.
  - reflexivity.
Qed.

(** X9: the events the recorder writes when a poll finds an attribute of
    a source changed are read back by the player, each in the [case] of
    its tag: the visitor gets the name of the source, the parameter and
    the new value (three floats for a vector) as they were recorded, and
    the reader stops at the end of the event. *)
Theorem source_event_replay :
  Events.enumerated ->
  (forall v, v = AL_TRUE \/ v = AL_FALSE ->
     replayed ALEE_SOURCE_STATE_CHANGED_BOOL (Rec.IO_BOOLEAN v) [v]) /\
  (forall v, -2 ^ 31 <= v < 2 ^ 31 ->
     replayed ALEE_SOURCE_STATE_CHANGED_ENUM (Rec.IO_ENUM v) [v]) /\
  (forall v, -2 ^ 31 <= v < 2 ^ 31 ->
     replayed ALEE_SOURCE_STATE_CHANGED_INT (Rec.IO_INT32 v) [v]) /\
  (forall v, 0 <= v < 2 ^ 32 ->
     replayed ALEE_SOURCE_STATE_CHANGED_UINT (Rec.IO_UINT32 v) [v]) /\
  (forall v, 0 <= v < 2 ^ 32 ->
     replayed ALEE_SOURCE_STATE_CHANGED_FLOAT (Rec.IO_FLOAT v) [v]) /\
  (forall f1 f2 f3 more, 0 <= f1 < 2 ^ 32 -> 0 <= f2 < 2 ^ 32 -> 0 <= f3 < 2 ^ 32 ->
     replayed ALEE_SOURCE_STATE_CHANGED_FLOAT3
       (fun fd => fold_left (fun fd x => Rec.IO_FLOAT x fd) (take 3 (f1 :: f2 :: f3 :: more)) fd)
       [f1; f2; f3]).
Proof.
  intros Henum. split_and!.
  - intros v Hv. apply (replayed_intro _ _ _ (le_bytes 4 (to_uint32 v)) Play.IO_BOOLEAN 1).
    + by destruct (enumerated_tags Henum 10 10 _ _ eq_refl eq_refl) as [? _].
    + reflexivity.
    + intros pst. by dispatch_tag Henum 10%nat.
    + intros rest. apply read_one. intros pst' Hio Hfile.
      unfold Play.IO_BOOLEAN, Play.IO_UINT32.
      rewrite (WireFacts.readle32_ok (to_uint32 v) rest pst' Hio Hfile).
      by destruct Hv as [-> | ->].
  - intros v Hv. apply (replayed_intro _ _ _ (le_bytes 4 (to_uint32 v)) Play.IO_ENUM 1).
    + by destruct (enumerated_tags Henum 11 11 _ _ eq_refl eq_refl) as [? _].
    + reflexivity.
    + intros pst. by dispatch_tag Henum 11%nat.
    + intros rest. apply read_one. intros pst' Hio Hfile.
      unfold Play.IO_ENUM, Play.IO_UINT32.
      rewrite (WireFacts.readle32_ok (to_uint32 v) rest pst' Hio Hfile).
      by rewrite WireFacts.to_int32_uint32.
  - intros v Hv. apply (replayed_intro _ _ _ (le_bytes 4 (to_uint32 v)) Play.IO_INT32 1).
    + by destruct (enumerated_tags Henum 12 12 _ _ eq_refl eq_refl) as [? _].
    + reflexivity.
    + intros pst. by dispatch_tag Henum 12%nat.
    + intros rest. apply read_one. intros pst' Hio Hfile.
      unfold Play.IO_INT32.
      rewrite (WireFacts.readle32_ok (to_uint32 v) rest pst' Hio Hfile).
      by rewrite WireFacts.to_int32_uint32.
  - intros v Hv. apply (replayed_intro _ _ _ (le_bytes 4 v) Play.IO_UINT32 1).
    + by destruct (enumerated_tags Henum 13 13 _ _ eq_refl eq_refl) as [? _].
    + reflexivity.
    + intros pst. by dispatch_tag Henum 13%nat.
    + intros rest. apply read_one. intros pst' Hio Hfile.
      unfold Play.IO_UINT32.
      rewrite (WireFacts.readle32_ok v rest pst' Hio Hfile). by rewrite Z.mod_small.
  - intros v Hv. apply (replayed_intro _ _ _ (le_bytes 4 v) Play.IO_FLOAT 1).
    + by destruct (enumerated_tags Henum 14 14 _ _ eq_refl eq_refl) as [? _].
    + reflexivity.
    + intros pst. by dispatch_tag Henum 14%nat.
    + intros rest. apply read_one. intros pst' Hio Hfile.
      unfold Play.IO_FLOAT.
      rewrite (WireFacts.readle32_ok v rest pst' Hio Hfile). by rewrite Z.mod_small.
  - intros f1 f2 f3 more H1 H2 H3.
    apply (replayed_intro _ _ _ (le_bytes 4 f1 ++ le_bytes 4 f2 ++ le_bytes 4 f3) Play.IO_FLOAT 3).
    + by destruct (enumerated_tags Henum 15 15 _ _ eq_refl eq_refl) as [? _].
    + intros fd. cbn [take fold_left].
      unfold Rec.IO_FLOAT, Rec.IO_UINT32, Rec.writele32, Rec.write. by rewrite <- !app_assoc.
    + intros pst. by dispatch_tag Henum 15%nat.
    + intros rest pst' Hio Hfile. cbn [Play.read_values]. unfold Play.IO_FLOAT.
      rewrite <- !app_assoc in Hfile.
      rewrite (WireFacts.readle32_ok f1 _ pst' Hio Hfile), Z.mod_small by done.
      rewrite (WireFacts.readle32_ok f2 (le_bytes 4 f3 ++ rest)), Z.mod_small by done.
      rewrite (WireFacts.readle32_ok f3 rest), Z.mod_small by done.
      cbn. unfold Play.set_file. cbn. do 2 f_equal. lia.
Qed.

(** X11: an AL or ALC error the real library reports to a post-call
    check goes to the log as an event that the player reads back: the
    visitor gets the error code, and for an ALC error the device the
    check was made for, and the reader stops at the end of the event. *)
Theorem error_event_replay (dev : Z) (st : Recorder) (rest : list Z) (pst : Play.Player) :
  Events.enumerated ->
  Play.io_failure pst = false ->
  let alerr := (REAL_alGetError (world st)).1 in
  let alcerr := (REAL_alcGetError (device (device_at st dev)) (world st)).1 in
  (current_context st <> 0 -> alerr <> AL_NO_ERROR -> -2 ^ 31 <= alerr < 2 ^ 31 ->
   Play.file pst =
     drop (length (logfd st)) (logfd (check_al_error_events st).2) ++ rest ->
   exists pst1,
     Play.IO_EVENTENUM pst = (ALEE_ALERROR_TRIGGERED, pst1) /\
     Play.dispatch_event ALEE_ALERROR_TRIGGERED pst1 =
       (Play.visit (Play.visit_al_error_event alerr)
          (Play.set_file rest (Play.fdoffset pst + 8) pst), false, None)) /\
  (0 < dev < 2 ^ 64 -> alcerr <> ALC_NO_ERROR -> -2 ^ 31 <= alcerr < 2 ^ 31 ->
   Play.file pst =
     drop (length (logfd st)) (logfd (check_alc_error_events dev st).2) ++ rest ->
   exists pst1,
     Play.IO_EVENTENUM pst = (ALEE_ALCERROR_TRIGGERED, pst1) /\
     Play.dispatch_event ALEE_ALCERROR_TRIGGERED pst1 =
       (Play.visit (Play.visit_alc_error_event dev alcerr)
          (Play.set_file rest (Play.fdoffset pst + 16) pst), false, None)).
Proof.
  intros Henum Hio alerr alcerr. split.
  - intros Hctx Herr Hrange Hfile.
    assert (Hlog : logfd (check_al_error_events st).2 =
      logfd st ++ le_bytes 4 (to_uint32 ALEE_ALERROR_TRIGGERED) ++ le_bytes 4 (to_uint32 alerr)).
    { unfold check_al_error_events. subst alerr.
      rewrite (proj2 (Z.eqb_neq _ _) Hctx).
      destruct (REAL_alGetError (world st)) as [e w]. cbn [fst] in *.
      rewrite (proj2 (Z.eqb_neq _ _) Herr). cbn [negb].
      change (current_context (emit _ (emit _ (set_world w st)))) with (current_context st).
      rewrite (proj2 (Z.eqb_neq _ _) Hctx). cbn [negb snd].
      match goal with |- context [if ?b then _ else _] => destruct b end;
        cbn; unfold Rec.IO_ENUM, Rec.IO_EVENTENUM, Rec.IO_UINT32, Rec.writele32, Rec.write;
        by rewrite <- !app_assoc. }
    rewrite Hlog, drop_app_length, <- app_assoc in Hfile.
    destruct (enumerated_tags Henum 2 2 _ _ eq_refl eq_refl) as (Htag & _).
    eexists. split.
    + unfold Play.IO_EVENTENUM, Play.IO_UINT32.
      rewrite (WireFacts.readle32_ok (to_uint32 ALEE_ALERROR_TRIGGERED) _ pst Hio Hfile).
      unfold to_uint32. rewrite Z.mod_mod, Z.mod_small by lia. reflexivity.
    + dispatch_tag Henum 2%nat. unfold Play.decode_al_error_event, Play.IO_ENUM, Play.IO_UINT32.
      rewrite (WireFacts.readle32_ok (to_uint32 alerr) rest) by done.
      rewrite WireFacts.to_int32_uint32 by done. cbn [Play.io_failure Play.set_file].
      rewrite Hio. unfold Play.visit, Play.set_file. cbn. do 3 f_equal. lia.
  - intros Hdev Herr Hrange Hfile.
    assert (Hlog : logfd (check_alc_error_events dev st).2 =
      logfd st ++ le_bytes 4 (to_uint32 ALEE_ALCERROR_TRIGGERED) ++ le_bytes 8 (to_uint64 dev)
        ++ le_bytes 4 (to_uint32 alcerr)).
    { unfold check_alc_error_events. subst alcerr.
      rewrite (proj2 (Z.eqb_neq dev 0)) by lia.
      destruct (REAL_alcGetError _ (world st)) as [e w]. cbn [fst] in *.
      rewrite (proj2 (Z.eqb_neq _ _) Herr). cbn [negb snd].
      match goal with |- context [if ?b then _ else _] => destruct b end;
        cbn; unfold Rec.IO_ALCENUM, Rec.IO_PTR, Rec.IO_EVENTENUM, Rec.IO_UINT32, Rec.IO_UINT64,
               Rec.writele32, Rec.writele64, Rec.write;
        by rewrite <- !app_assoc. }
    rewrite Hlog, drop_app_length, <- !app_assoc in Hfile.
    destruct (enumerated_tags Henum 3 3 _ _ eq_refl eq_refl) as (Htag & _).
    eexists. split.
    + unfold Play.IO_EVENTENUM, Play.IO_UINT32.
      rewrite (WireFacts.readle32_ok (to_uint32 ALEE_ALCERROR_TRIGGERED) _ pst Hio Hfile).
      unfold to_uint32. rewrite Z.mod_mod, Z.mod_small by lia. reflexivity.
    + dispatch_tag Henum 3%nat.
      unfold Play.decode_alc_error_event, Play.IO_PTR, Play.IO_UINT64, Play.IO_ALCENUM,
        Play.IO_UINT32.
      rewrite (WireFacts.readle64_ok (to_uint64 dev) (le_bytes 4 (to_uint32 alcerr) ++ rest))
        by done.
      unfold to_uint64. rewrite Z.mod_mod, Z.mod_small by lia.
      rewrite (WireFacts.readle32_ok (to_uint32 alcerr) rest) by done.
      rewrite WireFacts.to_int32_uint32 by done. cbn [Play.io_failure Play.set_file].
      rewrite Hio. unfold Play.visit, Play.set_file. cbn. do 3 f_equal. lia.
Qed.

(** X12: the event the recorder writes when a device's [ALC_CONNECTED]
    flag changes has no [case] in the player's [switch]: at its tag the
    player calls eos with a false clean flag and [process_tracelog]'s
    loop ends with the return value 0, whatever follows in the log. *)
Theorem disconnect_event_ends_playback (dev : Z) (st : Recorder) (rest : list Z)
    (pst : Play.Player) (fuel : nat) (fdsize retval : Z) :
  Events.enumerated ->
  Play.io_failure pst = false ->
  Play.progress_hook (Play.visits pst) (Play.fdoffset pst) fdsize = true ->
  let ival := (REAL_alcGetIntegerv (device (device_at st dev)) ALC_CONNECTED 0 (world st)).1 in
  (if ival =? 0 then ALC_FALSE else ALC_TRUE) <> connected (device_at st dev) ->
  Play.file pst =
    drop (length (logfd st))
      (logfd (check_device_state_bool dev ALC_CONNECTED connected set_connected st)) ++ rest ->
  Play.tracelog_loop (S fuel) fdsize retval pst =
    Some (0, Play.visit (Play.visit_eos false 0)
               (Play.set_file (drop 4 (Play.file pst)) (Play.fdoffset pst + 4)
                  (Play.visit (Play.visit_progress (Play.fdoffset pst) fdsize) pst))).
Proof.
  intros Henum Hio Hgo ival Hchanged Hfile.
  assert (Hlog : exists more,
    logfd (check_device_state_bool dev ALC_CONNECTED connected set_connected st) =
      logfd st ++ le_bytes 4 (to_uint32 ALEE_DEVICE_STATE_CHANGED_BOOL) ++ more).
  { unfold check_device_state_bool. subst ival.
    destruct (REAL_alcGetIntegerv _ _ _ _) as [i w]. cbn [fst] in *.
    change (device_at (set_world w st) dev) with (device_at st dev).
    replace (if negb (i =? 0) then ALC_TRUE else ALC_FALSE)
      with (if i =? 0 then ALC_FALSE else ALC_TRUE) by (by destruct (i =? 0)).
    rewrite (proj2 (Z.eqb_neq _ _) Hchanged). cbn [negb].
    eexists. cbn.
    unfold Rec.IO_ALCBOOLEAN, Rec.IO_ENUM, Rec.IO_PTR, Rec.IO_EVENTENUM, Rec.IO_UINT32,
      Rec.IO_UINT64, Rec.writele32, Rec.writele64, Rec.write.
    rewrite <- !app_assoc. reflexivity. }
  destruct Hlog as [more Hlog]. rewrite Hlog, drop_app_length, <- app_assoc in Hfile.
  destruct (enumerated_tags Henum 4 4 _ _ eq_refl eq_refl) as (Htag & Hnone & _).
  cbn [Play.tracelog_loop]. rewrite Hio, Hgo. cbn [negb].
  unfold Play.IO_EVENTENUM, Play.IO_UINT32.
  set (pst0 := Play.visit _ pst).
  rewrite (WireFacts.readle32_ok (to_uint32 ALEE_DEVICE_STATE_CHANGED_BOOL) (more ++ rest) pst0)
    by done.
  unfold to_uint32. rewrite Z.mod_mod, Z.mod_small by lia.
  rewrite PlayFacts.dispatch_unrecognized.
  - cbn [default]. do 3 f_equal. rewrite Hfile.
    by rewrite drop_app_length' by (by rewrite le_bytes_length).
  - unfold Play.recognized. rewrite Hnone. cbn [existsb].
    repeat find_other_tag Henum 4%nat. reflexivity.
Qed.

(** X13: the recorder ends its log with the end-of-stream tag and the
    clock; when the player's loop comes to them it calls eos with a true
    clean flag and those ticks and ends without touching the return
    value, so a log that is read up to its end plays back with the
    return value 1. *)
Theorem clean_end (st : Recorder) (rest : list Z) (pst : Play.Player) (fuel : nat)
    (fdsize retval : Z) :
  Events.enumerated ->
  Play.io_failure pst = false ->
  Play.progress_hook (Play.visits pst) (Play.fdoffset pst) fdsize = true ->
  0 <= Callstack.env_now (platform (world st)) < 2 ^ 32 ->
  Play.file pst =
    drop (length (logfd st)) (logfd (Session.quit_altrace_record st)) ++ rest ->
  Play.tracelog_loop (S fuel) fdsize retval pst =
    Some (retval,
          Play.visit (Play.visit_eos true (Callstack.env_now (platform (world st))))
            (Play.set_file rest (Play.fdoffset pst + 8)
               (Play.visit (Play.visit_progress (Play.fdoffset pst) fdsize) pst))).
Proof.
  intros Henum Hio Hgo Hnow Hfile.
  unfold Session.quit_altrace_record, Rec.write in Hfile. cbn [logfd set_logfd set_stackframes] in Hfile.
  rewrite <- !app_assoc, drop_app_length, <- app_assoc in Hfile.
  destruct (enumerated_tags Henum 0 0 _ _ eq_refl eq_refl) as (Htag & _).
  cbn [Play.tracelog_loop]. rewrite Hio, Hgo. cbn [negb].
  unfold Play.IO_EVENTENUM, Play.IO_UINT32.
  set (pst0 := Play.visit _ pst).
  rewrite (WireFacts.readle32_ok (to_uint32 ALEE_EOS) _ pst0 Hio Hfile).
  unfold to_uint32. rewrite Z.mod_mod, Z.mod_small by lia.
  dispatch_tag Henum 0%nat. unfold Play.decode_eos, Play.IO_UINT32.
  rewrite (WireFacts.readle32_ok (Callstack.env_now (platform (world st))) rest) by done.
  rewrite Z.mod_small by done. cbn [Play.io_failure Play.set_file Play.visit default].
  subst pst0. cbn [Play.io_failure Play.visit]. rewrite Hio.
  do 3 f_equal. unfold Play.visit, Play.set_file. cbn. f_equal. lia.
Qed.

End Events.

End EventFacts.

(** ** What a poll of a source writes and caches *)

Module PollFacts.

Import Int IntFacts AL Recorder.

Section Poll.

Context {constants : Constants} {real : RealAL}.

Lemma changed_log (tag src param : Z) (io : list Z -> list Z)
    (store : SourceWrapper -> SourceWrapper) (st : Recorder) :
  logfd (source_state_changed tag src param io store st) =
    io (logfd st ++ le_bytes 4 (to_uint32 tag) ++ le_bytes 4 (name (source_at st src))
          ++ le_bytes 4 (to_uint32 param)).
Proof.
  unfold source_state_changed. cbn. f_equal.
  unfold Rec.IO_ENUM, Rec.IO_UINT32, Rec.IO_EVENTENUM, Rec.IO_UINT32, Rec.writele32, Rec.write.
  by rewrite <- !app_assoc.
Qed.

Lemma changed_cache (tag src param : Z) (io : list Z -> list Z)
    (store : SourceWrapper -> SourceWrapper) (st : Recorder) :
  is_Some (source_heap st !! src) ->
  source_at (source_state_changed tag src param io store st) src = store (source_at st src).
Proof.
  intros [s Hs]. unfold source_state_changed. rewrite RecorderFacts.source_at_store.
  rewrite decide_True by done. unfold source_at. cbn. by rewrite Hs.
Qed.

(** X10: a poll of one attribute of a live source asks the real library
    and leaves the answer in the cache; it appends one event to the log
    when the answer differs from what was cached and nothing when it
    does not.  An integer or enum is compared as a number, a boolean
    after it was normalised to [AL_TRUE] / [AL_FALSE], a float as a C
    float (a NaN differs from everything, so it is logged at every poll,
    and the two zeros are equal, so a change of sign of zero is neither
    logged nor cached), a vector byte by byte. *)
Theorem poll_reports_changes (src param : Z) (st : Recorder) :
  is_Some (source_heap st !! src) ->
  let header tag :=
    le_bytes 4 (to_uint32 tag) ++ le_bytes 4 (name (source_at st src))
      ++ le_bytes 4 (to_uint32 param) in
  let ival := (REAL_alGetSourcei (name (source_at st src)) param 0 (world st)).1 in
  let fval := (REAL_alGetSourcef (name (source_at st src)) param float_0 (world st)).1 in
  let fvals :=
    (REAL_alGetSourcefv (name (source_at st src)) param [float_0; float_0; float_0]
       (world st)).1 in
  (let st' := check_source_state_enum src param state set_state st in
   state (source_at st' src) = ival /\
   logfd st' =
     logfd st ++ (if ival =? state (source_at st src) then []
                  else header ALEE_SOURCE_STATE_CHANGED_ENUM ++ le_bytes 4 (to_uint32 ival))) /\
  (forall a,
     let st' := check_source_state_int src param (fun s => attr s a) (set_attr_of a) st in
     attr (source_at st' src) a = ival /\
     logfd st' =
       logfd st ++ (if ival =? attr (source_at st src) a then []
                    else header ALEE_SOURCE_STATE_CHANGED_INT ++ le_bytes 4 (to_uint32 ival))) /\
  (forall a,
     let newval := if ival =? 0 then AL_FALSE else AL_TRUE in
     let st' := check_source_state_bool src param (fun s => attr s a) (set_attr_of a) st in
     attr (source_at st' src) a = newval /\
     logfd st' =
       logfd st ++ (if newval =? attr (source_at st src) a then []
                    else header ALEE_SOURCE_STATE_CHANGED_BOOL
                           ++ le_bytes 4 (to_uint32 newval))) /\
  (forall a,
     let st' := check_source_state_float src param (fun s => attr s a) (set_attr_of a) st in
     attr (source_at st' src) a =
       (if float_ne fval (attr (source_at st src) a) then fval else attr (source_at st src) a) /\
     logfd st' =
       logfd st ++ (if float_ne fval (attr (source_at st src) a)
                    then header ALEE_SOURCE_STATE_CHANGED_FLOAT ++ le_bytes 4 fval else []) /\
     (float_is_nan fval = true -> float_ne fval (attr (source_at st src) a) = true) /\
     (float_is_zero fval = true -> float_is_zero (attr (source_at st src) a) = true ->
      float_ne fval (attr (source_at st src) a) = false)) /\
  (forall a,
     let st' := check_source_state_float3 src param (fun s => vec s a) (set_vec_of a) st in
     take 3 (vec (source_at st' src) a) = take 3 fvals /\
     logfd st' =
       logfd st ++ (if bool_decide (take 3 fvals = take 3 (vec (source_at st src) a)) then []
                    else header ALEE_SOURCE_STATE_CHANGED_FLOAT3
                           ++ flat_map (le_bytes 4) (take 3 fvals))).
Proof.
  intros Hlive header ival fval fvals. split_and!.
  - cbv zeta. unfold check_source_state_enum, query_sourcei. subst ival.
    destruct (REAL_alGetSourcei _ _ _ _) as [ival w]. cbn [fst].
    change (source_at (add_source_query _ (set_world w st)) src) with (source_at st src).
    destruct (ival =? state (source_at st src)) eqn:E; cbn [negb].
    + apply Z.eqb_eq in E. split; [done|]. cbn. by rewrite app_nil_r.
    + split.
      * rewrite changed_cache by done. reflexivity.
      * rewrite changed_log. cbn. unfold Rec.IO_ENUM, Rec.IO_UINT32, Rec.writele32, Rec.write.
        subst header. cbn. by rewrite <- !app_assoc.
  - intros a. cbv zeta. unfold check_source_state_int, query_sourcei. subst ival.
    destruct (REAL_alGetSourcei _ _ _ _) as [ival w]. cbn [fst].
    change (source_at (add_source_query _ (set_world w st)) src) with (source_at st src).
    destruct (ival =? attr (source_at st src) a) eqn:E; cbn [negb].
    + apply Z.eqb_eq in E. split; [done|]. cbn. by rewrite app_nil_r.
    + split.
      * rewrite changed_cache by done. cbn. by rewrite decide_True.
      * rewrite changed_log. cbn. unfold Rec.IO_INT32, Rec.writele32, Rec.write.
        subst header. cbn. by rewrite <- !app_assoc.
  - intros a. cbv zeta. unfold check_source_state_bool, query_sourcei. subst ival.
    destruct (REAL_alGetSourcei _ _ _ _) as [ival w]. cbn [fst].
    change (source_at (add_source_query _ (set_world w st)) src) with (source_at st src).
    replace (if negb (ival =? 0) then AL_TRUE else AL_FALSE)
      with (if ival =? 0 then AL_FALSE else AL_TRUE) by (by destruct (ival =? 0)).
    set (newval := if ival =? 0 then AL_FALSE else AL_TRUE).
    destruct (newval =? attr (source_at st src) a) eqn:E; cbn [negb].
    + apply Z.eqb_eq in E. split; [done|]. cbn. by rewrite app_nil_r.
    + split.
      * rewrite changed_cache by done. cbn. by rewrite decide_True.
      * rewrite changed_log. cbn. unfold Rec.IO_BOOLEAN, Rec.IO_UINT32, Rec.writele32, Rec.write.
        subst header. cbn. by rewrite <- !app_assoc.
  - intros a. cbv zeta. unfold check_source_state_float. subst fval.
    destruct (REAL_alGetSourcef _ _ _ _) as [fval w]. cbn [fst].
    change (source_at (add_source_query _ (set_world w st)) src) with (source_at st src).
    split_and!.
    + destruct (float_ne fval (attr (source_at st src) a)); [|done].
      rewrite changed_cache by done. cbn. by rewrite decide_True.
    + destruct (float_ne fval (attr (source_at st src) a)).
      * rewrite changed_log. cbn. unfold Rec.IO_FLOAT, Rec.IO_UINT32, Rec.writele32, Rec.write.
        subst header. cbn. by rewrite <- !app_assoc.
      * cbn. by rewrite app_nil_r.
    + intros Hnan. unfold float_ne. by rewrite Hnan.
    + intros Hz Hz'. unfold float_ne. rewrite Hz, Hz'. cbn [andb].
      rewrite orb_true_r. cbn [negb]. rewrite orb_false_r.
      unfold float_is_nan. unfold float_is_zero in Hz, Hz'.
      apply Z.eqb_eq in Hz, Hz'.
      assert (Hbits : forall x, Z.land x 0x7FFFFFFF = 0 -> Z.land x 0x7F800000 = 0).
      { intros x Hx. change 0x7F800000 with (Z.land 0x7FFFFFFF 0x7F800000).
        rewrite Z.land_assoc, Hx. apply Z.land_0_l. }
      by rewrite (Hbits _ Hz), (Hbits _ Hz').
  - intros a. cbv zeta. unfold check_source_state_float3. subst fvals.
    destruct (REAL_alGetSourcefv _ _ _ _) as [fvals w]. cbn [fst].
    change (source_at (add_source_query _ (set_world w st)) src) with (source_at st src).
    destruct (bool_decide (take 3 fvals = take 3 (vec (source_at st src) a))) eqn:E; cbn [negb].
    + apply bool_decide_eq_true in E. split; [done|]. cbn. by rewrite app_nil_r.
    + split.
      * rewrite changed_cache by done. cbn. by rewrite decide_True.
      * rewrite changed_log. rewrite ArrayFacts.write_uint32s.
        subst header. cbn. by rewrite <- !app_assoc.
Qed.

End Poll.

End PollFacts.

(** ** The shadow state: names, hash chains and the device list *)

Module ShadowFacts.

Import Int AL Recorder RecorderFacts.

Section Shadow.

Context {constants : Constants} {real : RealAL}.

(** [same_hash st st'] : the step from [st] to [st'] has kept every
    source and buffer record alive with its name and its place in its
    hash chain, and has left the hash tables and the current context as
    they were. *)
Record same_hash (st st' : Recorder) : Prop := {
  hash_sources : forall a,
    (is_Some (source_heap st' !! a) <-> is_Some (source_heap st !! a)) /\
    name (source_at st' a) = name (source_at st a) /\
    hash_next (source_at st' a) = hash_next (source_at st a) /\
    hash_prev (source_at st' a) = hash_prev (source_at st a);
  hash_contexts : forall c,
    wrapped_source_hash (context_at st' c) = wrapped_source_hash (context_at st c) /\
    ctx_device (context_at st' c) = ctx_device (context_at st c);
  hash_devices : forall d,
    wrapped_buffer_hash (device_at st' d) = wrapped_buffer_hash (device_at st d);
  hash_buffers : buffer_heap st' = buffer_heap st;
  hash_current : current_context st' = current_context st;
}.

Local Ltac keeps := intros ?; split_and?; reflexivity.

Lemma same_hash_refl (st : Recorder) : same_hash st st.
Proof. by split. Qed.

Lemma same_hash_trans (st1 st2 st3 : Recorder) :
  same_hash st1 st2 -> same_hash st2 st3 -> same_hash st1 st3.
Proof.
  intros [A1 A2 A3 A4 A5] [B1 B2 B3 B4 B5]. split; try congruence.
  - intros a. destruct (A1 a) as (? & ? & ? & ?), (B1 a) as (? & ? & ? & ?).
    split; [tauto|]. split_and!; congruence.
  - intros c. destruct (A2 c) as [? ?], (B2 c) as [? ?]. split; congruence.
Qed.

Lemma same_hash_shape (st st' : Recorder) : same_shape st st' -> same_hash st st'.
Proof.
  intros [Hs Hc Hd Hb Hcur _ _]. split; try done.
  - intros a. destruct (Hs a) as (? & ? & ? & ? & ? & ?). by split_and!.
  - intros c. unfold context_at. by rewrite Hc.
  - intros d. unfold device_at. by rewrite Hd.
Qed.

Lemma same_hash_store_source (p : Z) (f : SourceWrapper -> SourceWrapper) (st : Recorder) :
  (forall s, name (f s) = name s /\ hash_next (f s) = hash_next s /\
             hash_prev (f s) = hash_prev s) ->
  same_hash st (store_source p f st).
Proof.
  intros Hf. split; try done. intros a. split.
  - unfold store_source. cbn [source_heap set_source_heap]. rewrite lookup_alter.
    case_decide; [subst|done]. destruct (source_heap st !! a); [by split; eexists|].
    split; by intros [? ?].
  - rewrite source_at_store. case_decide; [subst|done]. unfold source_at.
    destruct (source_heap st !! a) as [s|]; [|done]. apply Hf.
Qed.

Lemma same_hash_store_context (p : Z) (f : ContextWrapper -> ContextWrapper) (st : Recorder) :
  (forall c, wrapped_source_hash (f c) = wrapped_source_hash c /\
             ctx_device (f c) = ctx_device c) ->
  same_hash st (store_context p f st).
Proof.
  intros Hf. split; try done. intros c. rewrite context_at_store.
  case_decide; [subst|done]. unfold context_at.
  destruct (context_heap st !! c) as [x|]; [|done]. apply Hf.
Qed.

Lemma same_hash_store_device (p : Z) (f : DeviceWrapper -> DeviceWrapper) (st : Recorder) :
  (forall d, wrapped_buffer_hash (f d) = wrapped_buffer_hash d) ->
  same_hash st (store_device p f st).
Proof.
  intros Hf. split; try done. intros d. rewrite device_at_store.
  case_decide; [subst|done]. unfold device_at.
  destruct (device_heap st !! d) as [x|]; [|done]. apply Hf.
Qed.

Lemma same_hash_playlist_remove (ctx src next : Z) (st : Recorder) :
  same_hash st (playlist_remove ctx src next st).
Proof.
  unfold playlist_remove.
  eapply same_hash_trans; [|apply same_hash_store_source; keeps].
  eapply same_hash_trans; [|apply same_hash_store_source; keeps].
  eapply same_hash_trans;
    [|match goal with |- same_hash _ (if ?b then _ else _) => destruct b end;
      [apply same_hash_store_source; keeps|apply same_hash_store_context; keeps]].
  destruct (negb (next =? 0)); [apply same_hash_store_source; keeps|apply same_hash_refl].
Qed.

Lemma same_hash_poll_playlist (fuel : nat) :
  forall (ctx src : Z) (st st' : Recorder),
    poll_playlist fuel ctx src st = Some st' -> same_hash st st'.
Proof.
  induction fuel as [|fuel IH]; intros ctx src st st' Hrun; [done|].
  cbn [poll_playlist] in Hrun. destruct (src =? 0).
  { injection Hrun as <-. apply same_hash_refl. }
  eapply same_hash_trans; [|eapply IH; exact Hrun].
  eapply same_hash_trans; [apply same_hash_shape, same_shape_check_source_state|].
  match goal with |- same_hash _ (if ?b then _ else _) => destruct b end;
    [apply same_hash_playlist_remove|apply same_hash_refl].
Qed.

Lemma same_hash_poll_contexts (inner fuel : nat) :
  forall (ctx : Z) (st st' : Recorder),
    poll_contexts inner fuel ctx st = Some st' -> same_hash st st'.
Proof.
  induction fuel as [|fuel IH]; intros ctx st st' Hrun; [done|].
  cbn [poll_contexts] in Hrun. destruct (ctx =? 0).
  { injection Hrun as <-. apply same_hash_refl. }
  destruct (poll_playlist inner ctx _ st) as [st1|] eqn:H1; [|done]. cbn in Hrun.
  eapply same_hash_trans; [eapply same_hash_poll_playlist; exact H1|].
  eapply IH. exact Hrun.
Qed.

Lemma same_hash_emit (io : list Z -> list Z) (st : Recorder) : same_hash st (emit io st).
Proof. by split. Qed.

Lemma same_hash_set_world (w : World) (st : Recorder) : same_hash st (set_world w st).
Proof. by split. Qed.

Lemma same_hash_check_device_bool (dev param : Z) (st : Recorder) :
  same_hash st (check_device_state_bool dev param connected set_connected st).
Proof.
  unfold check_device_state_bool. destruct (REAL_alcGetIntegerv _ _ _ _) as [ival w].
  eapply same_hash_trans; [apply (same_hash_set_world w)|].
  match goal with |- same_hash _ (if ?b then _ else _) => destruct b end;
    [|apply same_hash_refl].
  do 4 (eapply same_hash_trans; [apply same_hash_emit|]).
  apply same_hash_store_device. keeps.
Qed.

Lemma same_hash_check_device_int (dev param : Z) (st : Recorder) :
  same_hash st (check_device_state_int dev param capture_samples set_capture_samples st).
Proof.
  unfold check_device_state_int. destruct (REAL_alcGetIntegerv _ _ _ _) as [ival w].
  eapply same_hash_trans; [apply (same_hash_set_world w)|].
  match goal with |- same_hash _ (if ?b then _ else _) => destruct b end;
    [|apply same_hash_refl].
  do 4 (eapply same_hash_trans; [apply same_hash_emit|]).
  apply same_hash_store_device. keeps.
Qed.

Lemma same_hash_poll_devices (inner fuel : nat) :
  forall (dev : Z) (st st' : Recorder),
    poll_devices inner fuel dev st = Some st' -> same_hash st st'.
Proof.
  induction fuel as [|fuel IH]; intros dev st st' Hrun; [done|].
  cbn [poll_devices] in Hrun. destruct (dev =? 0).
  { injection Hrun as <-. apply same_hash_refl. }
  set (st1 := if negb (supports_disconnect_ext (device_at st dev) =? 0) then _ else st) in *.
  assert (H1 : same_hash st st1).
  { subst st1. destruct (negb (supports_disconnect_ext (device_at st dev) =? 0));
      [apply same_hash_check_device_bool|apply same_hash_refl]. }
  destruct (negb (iscapture (device_at st1 dev) =? 0)).
  - cbn in Hrun. eapply same_hash_trans; [exact H1|].
    eapply same_hash_trans; [apply same_hash_check_device_int|]. eapply IH. exact Hrun.
  - destruct (poll_contexts inner inner _ st1) as [st2|] eqn:H2; [|done]. cbn in Hrun.
    eapply same_hash_trans; [exact H1|].
    eapply same_hash_trans; [eapply same_hash_poll_contexts; exact H2|]. eapply IH. exact Hrun.
Qed.

Lemma same_hash_check_al_error_events (st : Recorder) :
  same_hash st (check_al_error_events st).2.
Proof.
  unfold check_al_error_events. destruct (current_context st =? 0); [apply same_hash_refl|].
  destruct (REAL_alGetError (world st)) as [alerr w].
  destruct (negb (alerr =? AL_NO_ERROR)); cbn [snd]; [|apply same_hash_set_world].
  eapply same_hash_trans; [apply (same_hash_set_world w)|].
  do 2 (eapply same_hash_trans; [apply same_hash_emit|]).
  repeat match goal with |- same_hash _ (if ?b then _ else _) => destruct b end;
    try apply same_hash_refl; [apply same_hash_store_context; keeps|by split].
Qed.

Lemma same_hash_check_alc_error_events (dev : Z) (st : Recorder) :
  same_hash st (check_alc_error_events dev st).2.
Proof.
  unfold check_alc_error_events. destruct (dev =? 0); [apply same_hash_refl|].
  destruct (REAL_alcGetError _ (world st)) as [alcerr w].
  destruct (negb (alcerr =? ALC_NO_ERROR)); cbn [snd]; [|apply same_hash_set_world].
  eapply same_hash_trans; [apply (same_hash_set_world w)|].
  do 3 (eapply same_hash_trans; [apply same_hash_emit|]).
  match goal with |- same_hash _ (if ?b then _ else _) => destruct b end;
    [apply same_hash_store_device; keeps|apply same_hash_refl].
Qed.

Lemma same_hash_IO_END (fuel : nat) (st st' : Recorder) :
  IO_END fuel st = Some st' -> same_hash st st'.
Proof.
  unfold IO_END. assert (H1 := same_hash_check_al_error_events st).
  destruct (check_al_error_events st) as [alerr st1]. cbn [snd] in H1. intros Hrun.
  eapply same_hash_trans; [exact H1|]. eapply same_hash_poll_devices. exact Hrun.
Qed.

Lemma same_hash_IO_END_ALC (fuel : nat) (dev : Z) (st st' : Recorder) :
  IO_END_ALC fuel dev st = Some st' -> same_hash st st'.
Proof.
  unfold IO_END_ALC. assert (H1 := same_hash_check_alc_error_events dev st).
  destruct (check_alc_error_events dev st) as [alcerr st1]. cbn [snd] in H1. intros Hrun.
  eapply same_hash_trans; [exact H1|]. eapply same_hash_poll_devices. exact Hrun.
Qed.

Lemma same_hash_walk (st st' : Recorder) (name : Z) (fuel : nat) :
  same_hash st st' ->
  forall a, source_hash_walk fuel name a st' = source_hash_walk fuel name a st.
Proof.
  intros [Hs _ _ _ _]. induction fuel as [|fuel IH]; intros a; [done|].
  cbn [source_hash_walk]. destruct (Hs a) as (_ & -> & -> & _). by rewrite IH.
Qed.

Lemma same_hash_lookup (st st' : Recorder) (name : Z) (fuel : nat) :
  same_hash st st' ->
  source_wrapped_lookup fuel name st' = source_wrapped_lookup fuel name st /\
  buffer_wrapped_lookup fuel name st' = buffer_wrapped_lookup fuel name st.
Proof.
  intros Hh. split.
  - unfold source_wrapped_lookup. destruct Hh as [Hs Hc Hd Hb Hcur] eqn:E. rewrite Hcur.
    destruct (Hc (current_context st)) as [-> _].
    destruct (_ && _); [|done]. by apply same_hash_walk.
  - unfold buffer_wrapped_lookup. destruct Hh as [Hs Hc Hd Hb Hcur]. rewrite Hcur.
    destruct (Hc (current_context st)) as [_ ->]. rewrite Hd.
    destruct (_ && _); [|done].
    generalize (bucket (wrapped_buffer_hash (device_at st
      (if negb (current_context st =? 0)
       then ctx_device (context_at st (current_context st)) else 0))) (hash_alname name)).
    induction fuel as [|fuel IH]; intros a; [done|]. cbn [buffer_hash_walk].
    unfold buffer_at. rewrite Hb. by rewrite IH.
Qed.

Lemma well_formed_check_al_error_events (bound : nat) (st : Recorder) :
  well_formed bound st -> well_formed bound (check_al_error_events st).2.
Proof.
  intros Hwf. destruct (check_al_error_events_spec st) as (_ & _ & Hs & Hd & Hc & _ & Hnx & _ & Hlv).
  apply (well_formed_preserved bound st); [done|done| |done|done|done].
  intros a. unfold device_at. by rewrite Hd.
Qed.

Lemma IO_END_ok (bound fuel : nat) (st : Recorder) :
  well_formed bound st ->
  (bound < fuel)%nat ->
  exists st', IO_END fuel st = Some st' /\ well_formed bound st' /\ same_hash st st'.
Proof.
  intros Hwf Hfuel.
  assert (Hwf1 := well_formed_check_al_error_events bound st Hwf).
  destruct (check_al_async_states_ok bound fuel _ Hwf1 Hfuel) as (st' & Hrun & Hwf' & _).
  assert (Hend : IO_END fuel st = Some st').
  { unfold IO_END. by destruct (check_al_error_events st). }
  exists st'. split_and!; [done|done|]. by apply (same_hash_IO_END fuel).
Qed.

(** The state in which a delete call makes its own check of the real
    library's error: the entry is in the log and the real call has been
    made. *)
Lemma before_the_check (bound : nat) (entryid : Z) (io : list Z -> list Z)
    (real_call : World -> World) (st : Recorder) :
  well_formed bound st ->
  let st1 := set_world (real_call (world (emit io (IO_START entryid st))))
               (emit io (IO_START entryid st)) in
  well_formed bound st1 /\ same_hash st st1 /\
  current_context st1 = current_context st /\ world st1 = real_call (world st).
Proof.
  intros Hwf. destruct (IO_START_frame entryid st) as (m & fd & ->). cbn zeta.
  split_and!; [|by split|done|done].
  by apply (well_formed_preserved bound st).
Qed.

(** X15: the checks that end every wrapped AL call return on a
    well-formed state, and they neither drop nor rename a tracked source
    or buffer: every lookup by name gives what it gave before. *)
Theorem post_call_checks_keep_lookups (bound fuel : nat) (st : Recorder) :
  well_formed bound st ->
  (bound < fuel)%nat ->
  exists st',
    IO_END fuel st = Some st' /\
    (forall a, is_Some (source_heap st' !! a) <-> is_Some (source_heap st !! a)) /\
    buffer_heap st' = buffer_heap st /\
    forall f name,
      source_wrapped_lookup f name st' = source_wrapped_lookup f name st /\
      buffer_wrapped_lookup f name st' = buffer_wrapped_lookup f name st.
Proof.
  intros Hwf Hfuel. destruct (IO_END_ok bound fuel st Hwf Hfuel) as (st' & Hrun & _ & Hh).
  exists st'. split_and!; [done| | |].
  - intros a. by destruct (hash_sources _ _ Hh a).
  - apply (hash_buffers _ _ Hh).
  - intros f name. by apply same_hash_lookup.
Qed.

(** X16: [alDeleteSources] takes records out of the shadow state only
    when a context is current and the real call raised no error.
    Otherwise it still returns, and every source record is kept and
    every lookup by name gives what it gave before the call. *)
Theorem failed_delete_keeps_sources (bound fuel : nat) (n names_ptr : Z) (names : list Z)
    (st : Recorder) :
  well_formed bound st ->
  (bound < fuel)%nat ->
  current_context st = 0 \/
    (REAL_alGetError (REAL_alDeleteSources n names (world st))).1 <> AL_NO_ERROR ->
  exists st',
    alDeleteSources fuel n names_ptr names st = Some st' /\
    (forall a, is_Some (source_heap st' !! a) <-> is_Some (source_heap st !! a)) /\
    forall f name, source_wrapped_lookup f name st' = source_wrapped_lookup f name st.
Proof.
  intros Hwf Hfuel Hcase. unfold alDeleteSources.
  destruct (before_the_check bound ALEE_alDeleteSources (write_names n names_ptr names)
              (REAL_alDeleteSources n names) st Hwf) as (Hwf1 & Hh1 & Hcur1 & Hw1).
  set (st1 := set_world _ _) in *.
  assert (Hwf2 := well_formed_check_al_error_events bound st1 Hwf1).
  assert (Hh2 := same_hash_check_al_error_events st1).
  destruct (check_al_error_events_spec st1) as (Hnone & Hsome & _).
  destruct (check_al_error_events st1) as [alerr st2]. cbn [fst snd] in *.
  assert (Hskip : (if alerr =? AL_NO_ERROR
                   then if negb (current_context st =? 0)
                        then unwrap_sources fuel (current_context st)
                               (take (Z.to_nat n) names) st2
                        else Some st2
                   else Some st2) = Some st2).
  { destruct (decide (current_context st = 0)) as [Hz|Hnz].
    - rewrite Hz. cbn. by destruct (alerr =? AL_NO_ERROR).
    - destruct Hcase as [Hz|Herr]; [done|]. rewrite <- Hcur1 in Hnz.
      destruct (Hsome Hnz) as (Halerr & _). rewrite Hw1 in Halerr. rewrite <- Halerr in Herr.
      by rewrite (proj2 (Z.eqb_neq _ _) Herr). }
  rewrite Hskip. cbn [mbind option_bind].
  destruct (IO_END_ok bound fuel st2 Hwf2 Hfuel) as (st' & Hrun & _ & Hh3).
  exists st'. split; [done|].
  assert (Hh : same_hash st st').
  { eapply same_hash_trans; [exact Hh1|]. eapply same_hash_trans; [exact Hh2|exact Hh3]. }
  split.
  - intros a. by destruct (hash_sources _ _ Hh a).
  - intros f name. by apply same_hash_lookup.
Qed.

(** X17: [alDeleteBuffers] likewise: with no current context, or when
    the real call raised an error, it returns with every buffer record
    kept and every buffer lookup unchanged. *)
Theorem failed_delete_keeps_buffers (bound fuel : nat) (n names_ptr : Z) (names : list Z)
    (st : Recorder) :
  well_formed bound st ->
  (bound < fuel)%nat ->
  current_context st = 0 \/
    (REAL_alGetError (REAL_alDeleteBuffers n names (world st))).1 <> AL_NO_ERROR ->
  exists st',
    alDeleteBuffers fuel n names_ptr names st = Some st' /\
    buffer_heap st' = buffer_heap st /\
    forall f name, buffer_wrapped_lookup f name st' = buffer_wrapped_lookup f name st.
Proof.
  intros Hwf Hfuel Hcase. unfold alDeleteBuffers.
  destruct (before_the_check bound ALEE_alDeleteBuffers (write_names n names_ptr names)
              (REAL_alDeleteBuffers n names) st Hwf) as (Hwf1 & Hh1 & Hcur1 & Hw1).
  set (st1 := set_world _ _) in *.
  set (dev := if negb (current_context st =? 0) then _ else 0).
  assert (Hwf2 := well_formed_check_al_error_events bound st1 Hwf1).
  assert (Hh2 := same_hash_check_al_error_events st1).
  destruct (check_al_error_events_spec st1) as (Hnone & Hsome & _).
  destruct (check_al_error_events st1) as [alerr st2]. cbn [fst snd] in *.
  assert (Hskip : (if alerr =? AL_NO_ERROR
                   then if negb (dev =? 0)
                        then unwrap_buffers fuel dev (take (Z.to_nat n) names) st2
                        else Some st2
                   else Some st2) = Some st2).
  { destruct (decide (current_context st = 0)) as [Hz|Hnz].
    - subst dev. rewrite Hz. cbn. by destruct (alerr =? AL_NO_ERROR).
    - destruct Hcase as [Hz|Herr]; [done|]. rewrite <- Hcur1 in Hnz.
      destruct (Hsome Hnz) as (Halerr & _). rewrite Hw1 in Halerr. rewrite <- Halerr in Herr.
      by rewrite (proj2 (Z.eqb_neq _ _) Herr). }
  rewrite Hskip. cbn [mbind option_bind].
  destruct (IO_END_ok bound fuel st2 Hwf2 Hfuel) as (st' & Hrun & _ & Hh3).
  exists st'. split; [done|].
  assert (Hh : same_hash st st').
  { eapply same_hash_trans; [exact Hh1|]. eapply same_hash_trans; [exact Hh2|exact Hh3]. }
  split.
  - apply (hash_buffers _ _ Hh).
  - intros f name. by apply same_hash_lookup.
Qed.

(** Well-formedness asks only about the links of the lists, so it holds
    after any step that keeps them. *)
Lemma well_formed_links (bound : nat) (st st' : Recorder) :
  (forall a, playlist_next (source_at st' a) = playlist_next (source_at st a)) ->
  (forall a, playlist_prev (source_at st' a) = playlist_prev (source_at st a)) ->
  (forall a, ctx_next (context_at st' a) = ctx_next (context_at st a)) ->
  (forall a, dev_next (device_at st' a) = dev_next (device_at st a)) ->
  current_context st' = current_context st ->
  (forall a, is_Some (context_heap st !! a) -> is_Some (context_heap st' !! a)) ->
  well_formed bound st -> well_formed bound st'.
Proof.
  intros Hn Hp Hc Hd Hcur Hlive
    [(rank_d & Hbd & Hdd) (rank_c & Hbc & Hdc) (rank_s & Hbs & Hds) Hprev Hcc].
  split.
  - exists rank_d. split; [done|]. intros a. rewrite Hd. apply Hdd.
  - exists rank_c. split; [done|]. intros a. rewrite Hc. apply Hdc.
  - exists rank_s. split; [done|]. intros a. rewrite Hn. apply Hds.
  - intros a. rewrite Hp, Hn. apply Hprev.
  - rewrite Hcur. intros Hne. by apply Hlive, Hcc.
Qed.

Lemma hash_alname_range (name : Z) : (Z.to_nat (hash_alname name) < 256)%nat.
Proof.
  unfold hash_alname, to_uint8.
  assert (0 <= Z.land name 255 mod 2 ^ 8 < 2 ^ 8) by (apply Z.mod_pos_bound; lia). lia.
Qed.

(** One round of the loop of [alGenSources] on a name the real library
    gave, with the record at a fresh address: the record is the head of
    the name's bucket and carries the name; no list has changed. *)
Lemma wrap_source_spec (ctx name src : Z) (w' : World) (st : Recorder) :
  name <> 0 ->
  malloc (world st) = (src, w') ->
  source_heap st !! src = None ->
  is_Some (context_heap st !! ctx) ->
  length (wrapped_source_hash (context_at st ctx)) = 256%nat ->
  let st' := wrap_source ctx name st in
  bucket (wrapped_source_hash (context_at st' ctx)) (hash_alname name) = src /\
  Recorder.name (source_at st' src) = name /\
  (forall a, playlist_next (source_at st' a) = playlist_next (source_at st a)) /\
  (forall a, playlist_prev (source_at st' a) = playlist_prev (source_at st a)) /\
  (forall a, ctx_next (context_at st' a) = ctx_next (context_at st a)) /\
  (forall a, is_Some (context_heap st !! a) -> is_Some (context_heap st' !! a)) /\
  device_heap st' = device_heap st /\
  current_context st' = current_context st.
Proof.
  intros Hname Hmalloc Hfresh [c Hc] Hlen. unfold wrap_source, init_source_state.
  rewrite (proj2 (Z.eqb_neq _ _) Hname), Hmalloc. cbn [negb].
  set (sB := set_source_heap _ (set_world w' st)).
  set (s := store_source src _ sB).
  assert (Hsh := same_shape_check_source_state src s).
  set (sC := check_source_state src s) in *.
  destruct Hsh as [Hs Hctx Hdev _ Hcur _ _].
  change (context_heap s) with (context_heap st) in Hctx.
  change (device_heap s) with (device_heap st) in Hdev.
  change (current_context s) with (current_context st) in Hcur.
  assert (HctxC : context_at sC = context_at st).
  { unfold context_at. by rewrite Hctx. }
  rewrite HctxC.
  set (head := bucket (wrapped_source_hash (context_at st ctx)) (hash_alname name)).
  set (sD := store_source src (set_hash_next head) sC).
  set (sE := if negb (head =? 0) then store_source head (set_hash_prev src) sD else sD).
  assert (HliveB : source_heap sB !! src = Some zero_source).
  { subst sB. cbn [source_heap set_source_heap set_world]. apply lookup_insert_eq. }
  assert (Hzero : source_at st src = zero_source).
  { unfold source_at. by rewrite Hfresh. }
  assert (Hat_s : forall a,
            Recorder.name (source_at s a) =
              (if decide (src = a) then name else Recorder.name (source_at st a)) /\
            playlist_next (source_at s a) = playlist_next (source_at st a) /\
            playlist_prev (source_at s a) = playlist_prev (source_at st a)).
  { intros a. subst s. rewrite source_at_store, HliveB.
    case_decide; [subst a; by rewrite Hzero|]. unfold source_at. subst sB.
    cbn [source_heap set_source_heap set_world]. by rewrite lookup_insert_ne. }
  assert (HliveC : is_Some (source_heap sC !! src)).
  { destruct (Hs src) as (Hl & _). apply Hl. subst s. unfold store_source.
    cbn [source_heap set_source_heap]. rewrite lookup_alter, decide_True by done.
    by rewrite HliveB. }
  assert (Hfields : forall a,
            Recorder.name (source_at sE a) = Recorder.name (source_at sC a) /\
            playlist_next (source_at sE a) = playlist_next (source_at sC a) /\
            playlist_prev (source_at sE a) = playlist_prev (source_at sC a)).
  { intros a.
    assert (HD : Recorder.name (source_at sD a) = Recorder.name (source_at sC a) /\
                 playlist_next (source_at sD a) = playlist_next (source_at sC a) /\
                 playlist_prev (source_at sD a) = playlist_prev (source_at sC a)).
    { subst sD. rewrite source_at_store. case_decide; [subst a|done].
      unfold source_at. by destruct (source_heap sC !! src). }
    subst sE. destruct (negb (head =? 0)); [|done].
    rewrite source_at_store. case_decide; [subst a|done].
    destruct HD as (<- & <- & <-). unfold source_at.
    by destruct (source_heap sD !! head). }
  assert (Hctx_E : context_heap sE = context_heap st).
  { subst sE. destruct (negb (head =? 0)); exact Hctx. }
  cbn zeta. split_and!.
  - rewrite context_at_store, decide_True by done. rewrite Hctx_E, Hc.
    cbn [wrapped_source_hash set_wrapped_source_hash]. unfold bucket.
    rewrite list_lookup_insert_eq; [done|].
    assert (Hr := hash_alname_range name).
    assert (Hlen' : length (wrapped_source_hash c) = 256%nat).
    { unfold context_at in Hlen. by rewrite Hc in Hlen. }
    lia.
  - change (source_at (store_context _ _ sE)) with (source_at sE).
    destruct (Hfields src) as (-> & _). destruct (Hs src) as (_ & -> & _).
    destruct (Hat_s src) as (-> & _). by rewrite decide_True.
  - intros a. change (source_at (store_context _ _ sE)) with (source_at sE).
    destruct (Hfields a) as (_ & -> & _). destruct (Hs a) as (_ & _ & -> & _).
    by destruct (Hat_s a) as (_ & -> & _).
  - intros a. change (source_at (store_context _ _ sE)) with (source_at sE).
    destruct (Hfields a) as (_ & _ & ->). destruct (Hs a) as (_ & _ & _ & -> & _).
    by destruct (Hat_s a) as (_ & _ & ->).
  - intros a. rewrite context_at_store. case_decide; [subst a|].
    + rewrite Hctx_E, Hc. unfold context_at. by rewrite Hc.
    + unfold context_at. by rewrite Hctx_E.
  - intros a Ha. apply store_context_live. by rewrite Hctx_E.
  - change (device_heap (store_context _ _ sE)) with (device_heap sE).
    subst sE. destruct (negb (head =? 0)); exact Hdev.
  - change (current_context (store_context _ _ sE)) with (current_context sE).
    subst sE. destruct (negb (head =? 0)); exact Hcur.
Qed.

(** X18: a source the real library generates can be looked up by its
    name afterwards.  With a context current, [alGenSources(1, names)]
    returns; the record made for the name the real library gave is what
    [source_wrapped_lookup] finds for that name, and it carries the
    name. *)
Theorem gen_source_then_lookup (bound fuel : nat) (names_ptr name src : Z) (rest : list Z)
    (w w' : World) (st : Recorder) :
  well_formed bound st ->
  (bound < fuel)%nat ->
  current_context st <> 0 ->
  length (wrapped_source_hash (context_at st (current_context st))) = 256%nat ->
  REAL_alGenSources 1 (world st) = (name :: rest, w) ->
  name <> 0 ->
  malloc w = (src, w') ->
  src <> 0 ->
  source_heap st !! src = None ->
  exists st',
    alGenSources fuel 1 names_ptr st = Some (name :: rest, st') /\
    Recorder.name (source_at st' src) = name /\
    forall f, source_wrapped_lookup (S f) name st' = Some src.
Proof.
  intros Hwf Hfuel Hcur Hlen Hgen Hname Hmalloc Hsrc Hfresh. unfold alGenSources.
  rewrite Hgen, (proj2 (Z.eqb_neq _ _) Hcur). cbn [negb].
  change (take (Z.to_nat 1) (name :: rest)) with [name]. cbn [fold_left].
  destruct (IO_START_frame ALEE_alGenSources (set_world w st)) as (m & fd & ->).
  set (st1 := emit _ (set_stackframes m (set_logfd fd (set_world w st)))).
  destruct (wrap_source_spec (current_context st) name src w' st1)
    as (Hhead & Hrec & Hn & Hp & Hc & Hlive & Hdev & Hcur2); try done.
  { by apply Hwf. }
  set (st2 := wrap_source (current_context st) name st1) in *.
  assert (Hwf2 : well_formed bound st2).
  { apply (well_formed_links bound st); try done. intros a. unfold device_at. by rewrite Hdev. }
  destruct (IO_END_ok bound fuel st2 Hwf2 Hfuel) as (st' & -> & _ & Hh).
  cbn [mbind option_bind]. exists st'.
  assert (Hrec' : Recorder.name (source_at st' src) = name).
  { destruct (hash_sources _ _ Hh src) as (_ & -> & _). exact Hrec. }
  split_and!; [done|done|]. intros f.
  destruct (same_hash_lookup st2 st' name (S f) Hh) as [-> _].
  unfold source_wrapped_lookup. rewrite Hcur2. change (current_context st1) with (current_context st).
  rewrite (proj2 (Z.eqb_neq _ _) Hcur), (proj2 (Z.eqb_neq _ _) Hname). cbn [negb andb].
  rewrite Hhead. cbn [source_hash_walk].
  by rewrite (proj2 (Z.eqb_neq _ _) Hsrc), Hrec, Z.eqb_refl.
Qed.

(** X19: a successful [alcCloseDevice] takes the device off the device
    list and frees its record.  For a live device other than the null
    device whose back pointer is accurate, the call returns [ALC_TRUE],
    the record is gone, the device before it now points at the device
    after it, and the shadow state is well-formed again. *)
Theorem close_device_unlinks (bound fuel : nat) (_device : Z) (st : Recorder) :
  well_formed bound st ->
  (bound < fuel)%nat ->
  _device <> 0 ->
  _device <> null_device ->
  dev_prev (device_at st _device) <> 0 ->
  dev_next (device_at st (dev_prev (device_at st _device))) = _device ->
  (REAL_alcCloseDevice (device (device_at st _device)) (world st)).1 = ALC_TRUE ->
  exists st',
    alcCloseDevice fuel _device st = Some (ALC_TRUE, st') /\
    device_heap st' !! _device = None /\
    dev_next (device_at st' (dev_prev (device_at st _device))) =
      dev_next (device_at st _device) /\
    well_formed bound st'.
Proof.
  intros Hwf Hfuel Hdev Hnull Hprev Hacc Hreal. unfold alcCloseDevice.
  rewrite (proj2 (Z.eqb_neq _ _) Hdev). cbn [negb].
  destruct (IO_START_frame ALEE_alcCloseDevice st) as (m & fd & ->).
  set (st1 := emit (Rec.IO_PTR _device) (set_stackframes m (set_logfd fd st))).
  change (device_at st1) with (device_at st). change (world st1) with (world st).
  destruct (REAL_alcCloseDevice _ _) as [retval w]. cbn [fst] in Hreal. subst retval.
  rewrite Z.eqb_refl, (proj2 (Z.eqb_neq _ _) Hnull). cbn [negb].
  set (st2 := emit (Rec.IO_ALCBOOLEAN ALC_TRUE) (set_world w st1)).
  change (device_at st2) with (device_at st).
  set (prev := dev_prev (device_at st _device)) in *.
  set (next := dev_next (device_at st _device)) in *.
  destruct Hwf as [(rank_d & Hbd & Hdd) Hwc Hws Hwp Hcur].
  assert (Hrank_prev : (rank_d _device < rank_d prev)%nat).
  { specialize (Hdd prev). cbn beta in Hdd. rewrite Hacc in Hdd. by apply Hdd. }
  assert (Hrank_next : next <> 0 -> (rank_d next < rank_d _device)%nat).
  { intros Hn. by apply (Hdd _device). }
  assert (Hpd : prev <> _device) by (intros E; rewrite E in Hrank_prev; lia).
  assert (Hnd : next <> _device).
  { intros E. destruct (decide (next = 0)) as [Hz|Hnz]; [congruence|].
    specialize (Hrank_next Hnz). rewrite E in Hrank_next. lia. }
  assert (Hnp : next <> prev).
  { intros E. destruct (decide (next = 0)) as [Hz|Hnz]; [congruence|].
    specialize (Hrank_next Hnz). rewrite E in Hrank_next. lia. }
  assert (Hlive_prev : is_Some (device_heap st !! prev)).
  { destruct (device_heap st !! prev) as [d|] eqn:E; [by eexists|].
    unfold device_at in Hacc. rewrite E in Hacc. cbn in Hacc. congruence. }
  set (sA := if negb (next =? 0) then store_device next (set_dev_prev prev) st2 else st2).
  assert (HA : forall a, dev_next (device_at sA a) = dev_next (device_at st a) /\
                         (a <> next -> device_at sA a = device_at st a) /\
                         (is_Some (device_heap st !! a) -> is_Some (device_heap sA !! a))).
  { intros a. subst sA. destruct (negb (next =? 0)); [|done]. split_and!.
    - rewrite device_at_store. case_decide; [subst a|done].
      change (device_heap st2) with (device_heap st). unfold device_at.
      by destruct (device_heap st !! next).
    - intros Ha. by rewrite device_at_store, decide_False.
    - apply (store_device_live _ _ st2). }
  assert (HAd : device_at sA _device = device_at st _device).
  { by apply HA. }
  rewrite HAd. fold prev next. rewrite (proj2 (Z.eqb_neq _ _) Hprev). cbn [negb].
  set (sB := store_device prev (set_dev_next next) sA).
  set (sC := set_device_heap (delete _device (device_heap sB)) sB).
  assert (HC : forall a, dev_next (device_at sC a) =
                 if decide (a = _device) then 0
                 else if decide (a = prev) then next else dev_next (device_at st a)).
  { intros a. unfold device_at. subst sC. cbn [device_heap set_device_heap].
    case_decide; [subst a; by rewrite lookup_delete_eq|].
    rewrite lookup_delete_ne by done. fold (device_at sB a). subst sB.
    rewrite device_at_store. case_decide as Hp.
    - subst a. rewrite decide_True by done.
      destruct (proj2 (proj2 (HA prev)) Hlive_prev) as [d ->]. done.
    - rewrite decide_False by done. by destruct (HA a) as (-> & _). }
  assert (Hrest : context_heap sC = context_heap st /\ source_heap sC = source_heap st /\
                  current_context sC = current_context st).
  { subst sC sB sA. by destruct (negb (next =? 0)). }
  destruct Hrest as (Hctx & Hsrc & Hcc).
  assert (HwfC : well_formed bound sC).
  { split.
    - exists rank_d. split; [done|]. intros a. cbn beta. rewrite HC.
      case_decide; [done|]. case_decide; [subst a|apply Hdd]. intros Hn.
      specialize (Hrank_next Hn). lia.
    - destruct Hwc as (rank_c & Hbc & Hdc). exists rank_c. split; [done|].
      intros a. unfold context_at. rewrite Hctx. apply Hdc.
    - destruct Hws as (rank_s & Hbs & Hds). exists rank_s. split; [done|].
      intros a. unfold source_at. rewrite Hsrc. apply Hds.
    - unfold prev_accurate, source_at. rewrite Hsrc. exact Hwp.
    - by rewrite Hcc, Hctx. }
  unfold IO_END_ALC. change (check_alc_error_events 0 sC) with (ALC_NO_ERROR, sC).
  destruct (check_al_async_states_ok bound fuel sC HwfC Hfuel) as (st' & -> & Hwf' & Hl).
  cbn [mbind option_bind]. exists st'. split_and!; [done| | |done].
  - destruct (lists_devices _ _ Hl _device) as (Hlive & _).
    destruct (device_heap st' !! _device) as [d|] eqn:E; [|done].
    assert (Hsome : is_Some (device_heap sC !! _device)) by (apply Hlive; by eexists).
    subst sC. cbn [device_heap set_device_heap] in Hsome. rewrite lookup_delete_eq in Hsome.
    by destruct Hsome.
  - destruct (lists_devices _ _ Hl prev) as (_ & _ & -> & _). rewrite HC.
    by rewrite decide_False, decide_True.
Qed.

End Shadow.

End ShadowFacts.

(** ** The log only grows *)

Module LogFacts.

Import Int AL Recorder Calls.

Section Log.

Context {constants : Constants} {entries : EntryPoints} {real : RealAL} {calls : RealCalls}.

(** [grows st st'] : the log of [st'] is the log of [st] with more
    behind it. *)
Definition grows (st st' : Recorder) : Prop := logfd st `prefix_of` logfd st'.

(** A writer of the codec appends. *)
Definition appends (io : list Z -> list Z) : Prop := forall fd, fd `prefix_of` io fd.

Lemma grows_refl (st : Recorder) : grows st st.
Proof. by exists []; rewrite app_nil_r. Qed.

Lemma grows_trans (st1 st2 st3 : Recorder) : grows st1 st2 -> grows st2 st3 -> grows st1 st3.
Proof. unfold grows. by etrans. Qed.

Lemma grows_keep (st0 st st' : Recorder) : logfd st' = logfd st -> grows st0 st -> grows st0 st'.
Proof. unfold grows. by intros ->. Qed.

Lemma grows_emit (io : list Z -> list Z) (st0 st : Recorder) :
  appends io -> grows st0 st -> grows st0 (emit io st).
Proof. intros Hio Hg. unfold grows in *. etrans; [exact Hg|]. apply Hio. Qed.

Lemma appends_write (bytes : list Z) : appends (fun fd => Rec.write fd bytes).
Proof. intros fd. by exists bytes. Qed.

Lemma appends_id : appends (fun fd => fd).
Proof. intros fd. done. Qed.

Lemma appends_then (f g : list Z -> list Z) :
  appends f -> appends g -> appends (fun fd => g (f fd)).
Proof. intros Hf Hg fd. etrans; [apply Hf|apply Hg]. Qed.

Lemma appends_fold {A : Type} (io : A -> list Z -> list Z) (values : list A) :
  (forall v, appends (io v)) -> appends (fun fd => fold_left (fun fd v => io v fd) values fd).
Proof.
  intros Hio. induction values as [|v values IH]; intros fd; cbn [fold_left]; [done|].
  etrans; [apply (Hio v)|apply IH].
Qed.

Lemma appends_UINT32 (x : Z) : appends (Rec.IO_UINT32 x).
Proof. apply appends_write. Qed.
Lemma appends_INT32 (x : Z) : appends (Rec.IO_INT32 x).
Proof. apply appends_write. Qed.
Lemma appends_UINT64 (x : Z) : appends (Rec.IO_UINT64 x).
Proof. apply appends_write. Qed.
Lemma appends_ALSIZEI (x : Z) : appends (Rec.IO_ALSIZEI x).
Proof. apply appends_write. Qed.
Lemma appends_ALCSIZEI (x : Z) : appends (Rec.IO_ALCSIZEI x).
Proof. apply appends_write. Qed.
Lemma appends_FLOAT (x : Z) : appends (Rec.IO_FLOAT x).
Proof. apply appends_write. Qed.
Lemma appends_DOUBLE (x : Z) : appends (Rec.IO_DOUBLE x).
Proof. apply appends_write. Qed.
Lemma appends_EVENTENUM (x : Z) : appends (Rec.IO_EVENTENUM x).
Proof. apply appends_write. Qed.
Lemma appends_PTR (x : Z) : appends (Rec.IO_PTR x).
Proof. apply appends_write. Qed.
Lemma appends_ENUM (x : Z) : appends (Rec.IO_ENUM x).
Proof. apply appends_write. Qed.
Lemma appends_ALCENUM (x : Z) : appends (Rec.IO_ALCENUM x).
Proof. apply appends_write. Qed.
Lemma appends_BOOLEAN (x : Z) : appends (Rec.IO_BOOLEAN x).
Proof. apply appends_write. Qed.
Lemma appends_ALCBOOLEAN (x : Z) : appends (Rec.IO_ALCBOOLEAN x).
Proof. apply appends_write. Qed.

Lemma appends_STRING (str : option (list Z)) : appends (Rec.IO_STRING str).
Proof.
  intros fd. destruct str as [buf|]; cbn [Rec.IO_STRING]; [|apply appends_UINT64].
  destruct (0 <? _); [|apply appends_UINT64].
  etrans; [apply appends_UINT64|apply appends_write].
Qed.

Lemma appends_BLOB (data : option (list Z)) (len : Z) : appends (Rec.IO_BLOB data len).
Proof.
  intros fd. destruct data as [buf|]; cbn [Rec.IO_BLOB]; [|apply appends_UINT64].
  destruct (0 <? _); [|apply appends_UINT64].
  etrans; [apply appends_UINT64|apply appends_write].
Qed.

Lemma appends_write_names (n names_ptr : Z) (names : list Z) :
  appends (write_names n names_ptr names).
Proof.
  intros fd. unfold write_names.
  etrans; [apply appends_ALSIZEI|]. etrans; [apply appends_PTR|].
  apply (appends_fold (fun v => Rec.IO_UINT32 v)). apply appends_UINT32.
Qed.

Lemma appends_write_values (io : Z -> list Z -> list Z) (numvals : Z) (values : list Z) :
  (forall v, appends (io v)) -> appends (write_values io numvals values).
Proof.
  intros Hio fd. unfold write_values. etrans; [apply appends_UINT32|].
  by apply (appends_fold io).
Qed.

Lemma appends_write_attrs (attrlist_ptr : Z) (attrlist : list Z) :
  appends (write_attrs attrlist_ptr attrlist).
Proof.
  intros fd. unfold write_attrs. etrans; [apply appends_UINT32|].
  destruct (negb _); [|done].
  apply (appends_fold (fun i => Rec.IO_INT32 (element attrlist i))). intros v. apply appends_INT32.
Qed.

Lemma appends_source_scalars (name param : Z) : appends (source_scalars name param).
Proof. intros fd. unfold source_scalars. etrans; [apply appends_UINT32|apply appends_ENUM]. Qed.

Local Ltac writer :=
  first
    [ assumption
    | apply appends_UINT32 | apply appends_INT32 | apply appends_UINT64 | apply appends_ALSIZEI
    | apply appends_ALCSIZEI | apply appends_FLOAT | apply appends_DOUBLE
    | apply appends_EVENTENUM | apply appends_PTR | apply appends_ENUM | apply appends_ALCENUM
    | apply appends_BOOLEAN | apply appends_ALCBOOLEAN | apply appends_STRING
    | apply appends_BLOB | apply appends_write_names | apply appends_write_attrs
    | apply appends_source_scalars
    | apply appends_write_values; intros ?; writer
    | apply (appends_fold (fun v => Rec.IO_FLOAT v)); intros ?; apply appends_FLOAT
    | apply (appends_fold (fun v => Rec.IO_INT32 v)); intros ?; apply appends_INT32 ].

(** One step of a run: a store or a real call leaves the log alone, a
    writer appends, and a branch is taken either way. *)
Local Ltac grow_step :=
  lazymatch goal with
  | |- grows ?st0 ?st0 => apply grows_refl
  | H : grows ?st0 ?st |- grows ?st0 ?st => exact H
  | |- grows ?st0 (let x := ?e in @?body x) =>
      first
        [ let H := fresh "Hg" in
          let x' := fresh "st" in
          assert (H : grows st0 e);
          [|set (x' := e) in *; clearbody x'; change (grows st0 (body x')); cbv beta]
        | change (grows st0 (body e)); cbv beta ]
  | |- grows _ (emit _ ?st) => apply (grows_emit _ _ st); [writer|]
  | |- grows _ (set_world _ ?st) => apply (grows_keep _ st); [reflexivity|]
  | |- grows _ (add_source_query _ ?st) => apply (grows_keep _ st); [reflexivity|]
  | |- grows _ (store_source _ _ ?st) => apply (grows_keep _ st); [reflexivity|]
  | |- grows _ (store_buffer _ _ ?st) => apply (grows_keep _ st); [reflexivity|]
  | |- grows _ (store_device _ _ ?st) => apply (grows_keep _ st); [reflexivity|]
  | |- grows _ (store_context _ _ ?st) => apply (grows_keep _ st); [reflexivity|]
  | |- grows _ (set_source_heap _ ?st) => apply (grows_keep _ st); [reflexivity|]
  | |- grows _ (set_buffer_heap _ ?st) => apply (grows_keep _ st); [reflexivity|]
  | |- grows _ (set_context_heap _ ?st) => apply (grows_keep _ st); [reflexivity|]
  | |- grows _ (set_device_heap _ ?st) => apply (grows_keep _ st); [reflexivity|]
  | |- grows _ (set_current_context _ ?st) => apply (grows_keep _ st); [reflexivity|]
  | |- grows _ (set_null_context_errorlatch _ ?st) => apply (grows_keep _ st); [reflexivity|]
  | |- grows _ (if ?b then _ else _) => destruct b
  | |- grows _ (match ?e with _ => _ end) => destruct e
  end.

Local Ltac grow := repeat grow_step.


























Lemma grows_context_state_changed (tag param : Z) (io : list Z -> list Z)
    (store : ContextState -> ContextState) (st0 st : Recorder) :
  appends io -> grows st0 st -> grows st0 (context_state_changed tag param io store st).
Proof. intros Hio Hg. unfold context_state_changed. grow. Qed.

Lemma grows_check_listener_state_floatv (param : Z) (numfloats : nat)
    (current : ContextState -> list Z)
    (set_current : list Z -> ContextState -> ContextState) (st0 st : Recorder) :
  grows st0 st ->
  grows st0 (check_listener_state_floatv param numfloats current set_current st).
Proof.
  intros Hg. unfold check_listener_state_floatv. destruct (negb _); [|done].
  destruct (REAL_alGetListenerfv _ _ _) as [fval w]. cbv zeta.
  destruct (negb _); [|grow]. apply grows_context_state_changed; [writer|grow].
Qed.

Lemma grows_check_listener_state (st0 st : Recorder) :
  grows st0 st -> grows st0 (check_listener_state st).
Proof.
  intros Hg. unfold check_listener_state. destruct (negb _); [|done].
  by do 4 apply grows_check_listener_state_floatv.
Qed.

Lemma grows_check_context_state (st0 st : Recorder) :
  grows st0 st -> grows st0 (check_context_state st).
Proof.
  intros Hg.
  assert (Henum : forall param current set_current st,
            grows st0 st -> grows st0 (check_context_state_enum param current set_current st)).
  { clear st Hg. intros param current set_current st Hg. unfold check_context_state_enum.
    destruct (negb _); [|done]. destruct (REAL_alGetIntegerv _ _ _) as [ival w]. cbv zeta.
    destruct (negb _); [|grow]. apply grows_context_state_changed; [writer|grow]. }
  assert (Hfloat : forall param current set_current st,
            grows st0 st -> grows st0 (check_context_state_float param current set_current st)).
  { clear st Hg Henum. intros param current set_current st Hg.
    unfold check_context_state_float.
    destruct (negb _); [|done]. destruct (REAL_alGetFloatv _ _ _) as [fval w]. cbv zeta.
    destruct (float_ne _ _); [|grow]. apply grows_context_state_changed; [writer|grow]. }
  unfold check_context_state. destruct (negb _); [|done].
  apply grows_check_listener_state. do 3 apply Hfloat. by apply Henum.
Qed.

Lemma grows_check_context_static_state (ctx : Z) (st0 st : Recorder) :
  grows st0 st -> grows st0 (check_context_static_state ctx st).
Proof.
  intros Hg.
  assert (Hq : forall param st, grows st0 st -> grows st0 (query_context_string ctx param st)).
  { clear st Hg. intros param st Hg. unfold query_context_string.
    destruct (REAL_alGetString _ _) as [str w]. grow. }
  unfold check_context_static_state. destruct (_ && _); [|done].
  do 4 apply Hq. grow.
Qed.




(** *** The bytes of the writers *)

(** [writes io bytes] : the writer [io] appends exactly [bytes]. *)
Definition writes (io : list Z -> list Z) (bytes : list Z) : Prop :=
  forall fd, io fd = fd ++ bytes.

Lemma writes_appends (io : list Z -> list Z) (bytes : list Z) : writes io bytes -> appends io.
Proof. intros Hio fd. rewrite Hio. by exists bytes. Qed.



Lemma writes_INT32 (x : Z) : writes (Rec.IO_INT32 x) (int32_bytes x).
Proof. by intros fd. Qed.
Lemma writes_BOOLEAN (x : Z) : writes (Rec.IO_BOOLEAN x) (int32_bytes x).
Proof. by intros fd. Qed.
Lemma writes_FLOAT (x : Z) : writes (Rec.IO_FLOAT x) (float_bytes x).
Proof. by intros fd. Qed.
Lemma writes_DOUBLE (x : Z) : writes (Rec.IO_DOUBLE x) (double_bytes x).
Proof. by intros fd. Qed.









(** *** The entry points, family by family *)

















End Log.

End LogFacts.

(** ** More properties at sample values *)

Module MoreScenarios.

Import Int AL Sample SampleCalls.

Lemma sample_enumerated : @Events.enumerated constants front_end.
Proof.
  split.
  - apply (bool_decide_unpack _). vm_compute. exact I.
  - unfold Events.event_tags. cbn. repeat (constructor; [split; [lia|reflexivity]|]). constructor.
Qed.

Lemma call_replay_witness :
  exists st1 st2 callerinfo st3,
    Play.stackframe_map st1
      = (@Callstack.IO_ENTRYINFO constants 17
           (call_from [100; 200] [(100, [109; 0]); (200, [102; 0])]) (∅, [])).1 /\
    Play.IO_EVENTENUM st1 = (17, st2) /\
    Play.IO_ENTRYINFO st2 = (Some callerinfo, st3) /\
    Forall (fun p => is_Some p.2) (Play.ci_callstack callerinfo) /\
    Play.ci_num_callstack_frames callerinfo = 2 /\
    Play.file st3 = [].
Proof.
  destruct (@ReplayFacts.call_replay constants 17
              (call_from [100; 200] [(100, [109; 0]); (200, [102; 0])]) ∅ []
              (Play.set_file
                 (@Callstack.IO_ENTRYINFO constants 17
                    (call_from [100; 200] [(100, [109; 0]); (200, [102; 0])]) (∅, [])).2
                 0 Play.initial))
    as (st1 & st2 & callerinfo & st3 & frames & _ & Hmap & Htag & Hinfo & Hin & _ & Hsyms
        & _ & Hnum & _ & Hfile & _).
  - repeat constructor.
  - intros a sym Hsym. cbn [Callstack.env_symbols call_from symbols_of] in Hsym.
    destruct (100 =? a); [injection Hsym as <-; cbn; lia|].
    destruct (200 =? a); [injection Hsym as <-; cbn; lia|discriminate].
  - cbn. lia.
  - cbn. lia.
  - lia.
  - cbn. lia.
  - reflexivity.
  - reflexivity.
  - cbn [Play.file Play.set_file]. by rewrite app_nil_r.
  - exists st1, st2, callerinfo, st3. split_and!; try done.
    rewrite Hnum. vm_compute in Hin.
    apply elem_of_cons in Hin as [Hin|Hin]; [discriminate|].
    apply elem_of_cons in Hin as [Hin|Hin]; [by injection Hin as ->|].
    by apply elem_of_nil in Hin.
Defined.

Lemma source_event_replay_witness :
  exists pst1 pst2,
    Play.IO_EVENTENUM
      (Play.set_file
         (drop (length (@Recorder.logfd real_al playing_source))
            (@Recorder.logfd real_al
               (@Recorder.source_state_changed real_al 11 0x3000 AL_SOURCE_STATE
                  (Rec.IO_ENUM AL_STOPPED) (Recorder.set_state AL_STOPPED) playing_source))
          ++ []) 0 Play.initial) = (11, pst1) /\
    @Play.dispatch_event constants front_end 11 pst1 = (pst2, false, None) /\
    Play.visits pst2 = [Play.visit_state_changed 11 1 AL_SOURCE_STATE [AL_STOPPED]].
Proof.
  destruct (@EventFacts.source_event_replay constants real_al front_end sample_enumerated)
    as (_ & Henum & _).
  destruct (Henum AL_STOPPED ltac:(unfold AL_STOPPED; lia) 0x3000 AL_SOURCE_STATE
              (Recorder.set_state AL_STOPPED) playing_source []
              (Play.set_file
                 (drop (length (@Recorder.logfd real_al playing_source))
                    (@Recorder.logfd real_al
                       (@Recorder.source_state_changed real_al 11 0x3000 AL_SOURCE_STATE
                          (Rec.IO_ENUM AL_STOPPED) (Recorder.set_state AL_STOPPED)
                          playing_source)) ++ []) 0 Play.initial))
    as (pst1 & pst2 & Htag & Hdisp & Hvis & _).
  - vm_compute. split; [discriminate|reflexivity].
  - unfold AL_SOURCE_STATE. lia.
  - reflexivity.
  - reflexivity.
  - exists pst1, pst2. split_and!; [exact Htag|exact Hdisp|].
    rewrite Hvis. vm_compute. reflexivity.
Defined.

Lemma poll_reports_changes_witness :
  Recorder.state
    (@Recorder.source_at real_al
       (@Recorder.check_source_state_enum constants real_al 0x3000 AL_SOURCE_STATE
          Recorder.state Recorder.set_state playing_source) 0x3000)
    = (REAL_alGetSourcei 1 AL_SOURCE_STATE 0 (@Recorder.world real_al playing_source)).1.
Proof.
  destruct (@PollFacts.poll_reports_changes constants real_al 0x3000 AL_SOURCE_STATE
              playing_source) as ((Hstate & _) & _).
  - vm_compute. by eexists.
  - exact Hstate.
Defined.

Lemma error_event_replay_witness :
  exists pst1,
    Play.IO_EVENTENUM
      (Play.set_file
         (drop (length (@Recorder.logfd real_al (one_context (holding AL_INVALID_NAME))))
            (@Recorder.logfd real_al
               (@Recorder.check_al_error_events constants real_al
                  (one_context (holding AL_INVALID_NAME))).2) ++ [7]) 0 Play.initial)
      = (1, pst1) /\
    @Play.dispatch_event constants front_end 1 pst1 =
      (Play.visit (Play.visit_al_error_event AL_INVALID_NAME)
         (Play.set_file [7] 8 Play.initial), false, None).
Proof.
  destruct (@EventFacts.error_event_replay constants real_al front_end 0x1000
              (one_context (holding AL_INVALID_NAME)) [7]
              (Play.set_file
                 (drop (length (@Recorder.logfd real_al (one_context (holding AL_INVALID_NAME))))
                    (@Recorder.logfd real_al
                       (@Recorder.check_al_error_events constants real_al
                          (one_context (holding AL_INVALID_NAME))).2) ++ [7]) 0 Play.initial)
              sample_enumerated eq_refl) as [Hal _].
  destruct Hal as (pst1 & Htag & Hdisp).
  - discriminate.
  - discriminate.
  - vm_compute. split; [discriminate|reflexivity].
  - reflexivity.
  - exists pst1. split; [exact Htag|exact Hdisp].
Defined.

Lemma disconnect_event_ends_playback_witness :
  exists pst',
    @Play.tracelog_loop constants front_end 1 20 1
      (Play.set_file
         (drop (length (@Recorder.logfd real_al (one_context quiet_world)))
            (@Recorder.logfd real_al
               (@Recorder.check_device_state_bool constants real_al 0x1000 ALC_CONNECTED
                  Recorder.connected Recorder.set_connected (one_context quiet_world)))
          ++ [7]) 0 Play.initial) = Some (0, pst') /\
    Play.visits pst' = [Play.visit_progress 0 20; Play.visit_eos false 0].
Proof.
  eexists. split.
  - apply (@EventFacts.disconnect_event_ends_playback constants real_al front_end 0x1000
             (one_context quiet_world) [7]).
    + exact sample_enumerated.
    + reflexivity.
    + reflexivity.
    + vm_compute. discriminate.
    + reflexivity.
  - reflexivity.
Defined.

Lemma clean_end_witness :
  exists pst',
    @Play.tracelog_loop constants front_end 1 8 1
      (Play.set_file
         (drop (length (@Recorder.logfd real_al (one_context quiet_world)))
            (@Recorder.logfd real_al
               (@Session.quit_altrace_record constants real_al (one_context quiet_world)))
          ++ []) 0 Play.initial) = Some (1, pst') /\
    Play.visits pst' = [Play.visit_progress 0 8; Play.visit_eos true 0].
Proof.
  eexists. split.
  - apply (@EventFacts.clean_end constants real_al front_end (one_context quiet_world) []).
    + exact sample_enumerated.
    + reflexivity.
    + reflexivity.
    + vm_compute. split; [discriminate|reflexivity].
    + reflexivity.
  - reflexivity.
Defined.

(** A shadow state whose lists are those of [one_context] is
    well-formed, whatever its hash tables hold. *)
Lemma sample_lists_well_formed (st : @Recorder.Recorder real_al) :
  (forall a, Recorder.dev_next (@Recorder.device_at real_al st a)
             = if decide (a = Recorder.null_device) then 0x1000 else 0) ->
  (forall a, Recorder.ctx_next (@Recorder.context_at real_al st a) = 0) ->
  (forall a, Recorder.playlist_next (@Recorder.source_at real_al st a) = 0) ->
  (forall a, Recorder.playlist_prev (@Recorder.source_at real_al st a) = 0) ->
  is_Some (@Recorder.context_heap real_al st !! @Recorder.current_context real_al st) ->
  @Recorder.well_formed real_al 2 st.
Proof.
  intros Hdev Hctx Hnext Hprev Hcur. split.
  - exists (fun a => if decide (a = Recorder.null_device) then 1%nat else 0%nat).
    split; [intros a; case_decide; lia|].
    intros a. cbv beta. rewrite Hdev. case_decide as Ha; [|done].
    intros _. rewrite decide_False by done. lia.
  - exists (fun _ => 0%nat). split; [intros a; lia|]. intros a. cbv beta. by rewrite Hctx.
  - exists (fun _ => 0%nat). split; [intros a; lia|]. intros a. cbv beta. by rewrite Hnext.
  - intros a. by rewrite Hprev.
  - intros _. exact Hcur.
Qed.

(** The heaps of [one_source] and of [one_buffer]. *)
Lemma one_source_heaps :
  @Recorder.device_heap real_al one_source =
    {[ Recorder.null_device := @Recorder.device_at real_al one_source Recorder.null_device;
       0x1000 := @Recorder.device_at real_al one_source 0x1000 ]} /\
  @Recorder.context_heap real_al one_source =
    {[ 0x2000 := @Recorder.context_at real_al one_source 0x2000 ]} /\
  @Recorder.source_heap real_al one_source =
    {[ 0x3000 := @Recorder.source_at real_al one_source 0x3000 ]}.
Proof. split_and!; vm_compute; reflexivity. Qed.

Lemma one_source_well_formed : @Recorder.well_formed real_al 2 one_source.
Proof.
  destruct one_source_heaps as (Hdev & Hctx & Hsrc).
  apply sample_lists_well_formed.
  - intros a. destruct (decide (a = Recorder.null_device)) as [->|Hn]; [reflexivity|].
    destruct (decide (a = 0x1000)) as [->|Hd]; [reflexivity|].
    unfold Recorder.device_at at 1. rewrite Hdev.
    rewrite lookup_insert_ne, lookup_singleton_ne by done. reflexivity.
  - intros a. destruct (decide (a = 0x2000)) as [->|Hd]; [reflexivity|].
    unfold Recorder.context_at at 1. rewrite Hctx, lookup_singleton_ne by done. reflexivity.
  - intros a. destruct (decide (a = 0x3000)) as [->|Hd]; [reflexivity|].
    unfold Recorder.source_at at 1. rewrite Hsrc, lookup_singleton_ne by done. reflexivity.
  - intros a. destruct (decide (a = 0x3000)) as [->|Hd]; [reflexivity|].
    unfold Recorder.source_at at 1. rewrite Hsrc, lookup_singleton_ne by done. reflexivity.
  - vm_compute. by eexists.
Qed.

Lemma one_buffer_heaps :
  @Recorder.device_heap real_al one_buffer =
    {[ Recorder.null_device := @Recorder.device_at real_al one_buffer Recorder.null_device;
       0x1000 := @Recorder.device_at real_al one_buffer 0x1000 ]} /\
  @Recorder.context_heap real_al one_buffer =
    {[ 0x2000 := @Recorder.context_at real_al one_buffer 0x2000 ]} /\
  @Recorder.source_heap real_al one_buffer = ∅.
Proof. split_and!; vm_compute; reflexivity. Qed.

Lemma one_buffer_well_formed : @Recorder.well_formed real_al 2 one_buffer.
Proof.
  destruct one_buffer_heaps as (Hdev & Hctx & Hsrc).
  apply sample_lists_well_formed.
  - intros a. destruct (decide (a = Recorder.null_device)) as [->|Hn]; [reflexivity|].
    destruct (decide (a = 0x1000)) as [->|Hd]; [reflexivity|].
    unfold Recorder.device_at at 1. rewrite Hdev.
    rewrite lookup_insert_ne, lookup_singleton_ne by done. reflexivity.
  - intros a. destruct (decide (a = 0x2000)) as [->|Hd]; [reflexivity|].
    unfold Recorder.context_at at 1. rewrite Hctx, lookup_singleton_ne by done. reflexivity.
  - intros a. unfold Recorder.source_at. rewrite Hsrc, lookup_empty. reflexivity.
  - intros a. unfold Recorder.source_at. rewrite Hsrc, lookup_empty. reflexivity.
  - vm_compute. by eexists.
Qed.

Lemma post_call_checks_keep_lookups_witness :
  Recorder.name (@Recorder.source_at real_al one_source 0x3000) = 1 /\
  exists st',
    @Recorder.IO_END constants real_al 10 one_source = Some st' /\
    is_Some (@Recorder.source_heap real_al st' !! 0x3000) /\
    @Recorder.source_wrapped_lookup real_al 10 1 st' = Some 0x3000.
Proof.
  split; [reflexivity|].
  destruct (@ShadowFacts.post_call_checks_keep_lookups constants real_al 2 10 one_source)
    as (st' & Hrun & Hheap & _ & Hlook).
  - apply one_source_well_formed.
  - lia.
  - exists st'. split_and!; [exact Hrun| |].
    + apply Hheap. vm_compute. by eexists.
    + destruct (Hlook 10%nat 1) as [-> _]. vm_compute. reflexivity.
Defined.

Lemma failed_delete_keeps_sources_witness :
  Recorder.name (@Recorder.source_at real_al one_source 0x3000) = 1 /\
  exists st',
    @Recorder.alDeleteSources constants real_al 10 1 0x7000 [1] one_source = Some st' /\
    is_Some (@Recorder.source_heap real_al st' !! 0x3000) /\
    @Recorder.source_wrapped_lookup real_al 10 1 st' = Some 0x3000.
Proof.
  split; [reflexivity|].
  destruct (@ShadowFacts.failed_delete_keeps_sources constants real_al 2 10 1 0x7000 [1]
              one_source) as (st' & Hrun & Hheap & Hlook).
  - apply one_source_well_formed.
  - lia.
  - right. vm_compute. discriminate.
  - exists st'. split_and!; [exact Hrun| |].
    + apply Hheap. vm_compute. by eexists.
    + rewrite Hlook. vm_compute. reflexivity.
Defined.

Lemma failed_delete_keeps_buffers_witness :
  Recorder.buf_name (@Recorder.buffer_at real_al one_buffer 0x3000) = 1 /\
  exists st',
    @Recorder.alDeleteBuffers constants real_al 10 1 0x7000 [1] one_buffer = Some st' /\
    is_Some (@Recorder.buffer_heap real_al st' !! 0x3000) /\
    @Recorder.buffer_wrapped_lookup real_al 10 1 st' = Some 0x3000.
Proof.
  split; [reflexivity|].
  destruct (@ShadowFacts.failed_delete_keeps_buffers constants real_al 2 10 1 0x7000 [1]
              one_buffer) as (st' & Hrun & Hheap & Hlook).
  - apply one_buffer_well_formed.
  - lia.
  - right. vm_compute. discriminate.
  - exists st'. split_and!; [exact Hrun| |].
    + rewrite Hheap. vm_compute. by eexists.
    + rewrite Hlook. vm_compute. reflexivity.
Defined.

Lemma gen_source_then_lookup_witness :
  exists st',
    @Recorder.alGenSources constants real_al 10 1 0x7000 (one_context quiet_world)
      = Some ([1], st') /\
    @Recorder.source_wrapped_lookup real_al 1 1 st' = Some 0x3000.
Proof.
  destruct (@ShadowFacts.gen_source_then_lookup constants real_al 2 10 0x7000 1 0x3000 []
              (@REAL_alGenSources real_al 1 quiet_world).2
              (@malloc real_al (@REAL_alGenSources real_al 1 quiet_world).2).2
              (one_context quiet_world)) as (st' & Hrun & _ & Hlook).
  - apply Scenarios.one_context_well_formed.
  - lia.
  - vm_compute. discriminate.
  - reflexivity.
  - reflexivity.
  - lia.
  - reflexivity.
  - lia.
  - reflexivity.
  - exists st'. split; [exact Hrun|apply (Hlook 0%nat)].
Defined.

Lemma close_device_unlinks_witness :
  exists st',
    @Recorder.alcCloseDevice constants real_al 10 0x1000 (one_context quiet_world)
      = Some (ALC_TRUE, st') /\
    @Recorder.device_heap real_al st' !! 0x1000 = None /\
    Recorder.dev_next (@Recorder.device_at real_al st' Recorder.null_device) = 0.
Proof.
  destruct (@ShadowFacts.close_device_unlinks constants real_al 2 10 0x1000
              (one_context quiet_world)) as (st' & Hrun & Hgone & Hnext & _).
  - apply Scenarios.one_context_well_formed.
  - lia.
  - lia.
  - unfold Recorder.null_device. lia.
  - vm_compute. discriminate.
  - reflexivity.
  - reflexivity.
  - exists st'. split_and!; [exact Hrun|exact Hgone|exact Hnext].
Defined.



End MoreScenarios.
